(** * Barrier tracking structures of dxvk (src/dxvk/dxvk_barrier.h)

    A shallow embedding of the address ranges, the packed red-black tree
    node header, the bucket routing of [DxvkBarrierTracker], the buffer and
    image slices and the versioned hash set [DxvkBarrierSubresourceSet],
    followed by the properties established about them.

    Conventions.  Unsigned machine integers are values of [Z] with the
    wrap-around written out ([u32], [u64]).  A C++ pointer into a vector is
    the index of the element.  Code that may read outside a vector or loop
    for ever is a function into [option]: [None] stands for a run without
    result. *)

From Stdlib Require Import ZArith Lia Bool List Btauto.
From coqutil Require Import Z.bitblast.
From stdpp Require Import base option list.

Local Open Scope Z_scope.

(** ** Machine integers *)

Definition u32 (x : Z) : Z := x mod 2 ^ 32.
Definition u64 (x : Z) : Z := x mod 2 ^ 64.

(** [~x] on a [uint64_t]. *)
Definition not64 (x : Z) : Z := Z.lxor x (Z.ones 64).

(** ** Access classes *)

(** Modelled from the spec: the enumeration [DxvkAccess] is declared in a
    header that is not part of the sources; the spec gives it as the
    access classes Read and Write. *)
Inductive DxvkAccess : Type := Read | Write.

Definition DxvkAccess_eqb (a b : DxvkAccess) : bool :=
  match a, b with
  | Read, Read | Write, Write => true
  | _, _ => false
  end.

(** Modelled from the spec: [DxvkAccessFlags] is the bit set over
    [DxvkAccess] (its class template lives in another header) with
    union ([set], [|]), [test] and equality.  A flag set is the word of
    its raw bits, one bit per access class. *)
Module Flags.
Definition bit (f : DxvkAccess) : Z :=
  match f with Read => 0 | Write => 1 end.
Definition empty : Z := 0.
Definition of_access (f : DxvkAccess) : Z := Z.shiftl 1 (bit f).
Definition set (a b : Z) : Z := Z.lor a b.
Definition test (a : Z) (f : DxvkAccess) : bool := Z.testbit a (bit f).
Definition eqb (a b : Z) : bool := a =? b.
End Flags.

(** ** Address ranges *)

Record DxvkAddressRange : Type := mkRange {
  resource : Z;      (* uint64_t *)
  rangeStart : Z;    (* uint32_t *)
  rangeEnd : Z       (* uint32_t *)
}.

Module Range.
Definition contains (r other : DxvkAddressRange) : bool :=
  (resource r =? resource other)
  && (rangeStart r <=? rangeStart other)
  && (rangeEnd r >=? rangeEnd other).

Definition overlaps (r other : DxvkAddressRange) : bool :=
  (resource r =? resource other)
  && (rangeEnd r >=? rangeStart other)
  && (rangeStart r <=? rangeEnd other).

Definition lt (r other : DxvkAddressRange) : bool :=
  (resource r <? resource other)
  || ((resource r =? resource other) && (rangeStart r <? rangeStart other)).
End Range.

(** ** Packed tree node header *)

Module TreeNode.
(** [(1u << 21) - 1u], computed on 32 bits and widened to [uint64_t]. *)
Definition NodeIndexMask : Z := u64 (u32 (u32 (Z.shiftl 1 21) - 1)).

(** The methods act on the [header] word of the node. *)
Definition setRed (red : bool) (header : Z) : Z :=
  let header := Z.land header (not64 (u64 1)) in
  Z.lor header (u64 (Z.b2z red)).

Definition isRed (header : Z) : bool :=
  negb (Z.land header 1 =? 0).

Definition setParent (node : Z) (header : Z) : Z :=
  let header := Z.land header (not64 (u64 (Z.shiftl NodeIndexMask 43))) in
  Z.lor header (u64 (Z.shiftl (u64 node) 43)).

Definition childShift (index : Z) : Z :=
  if index =? 0 then 1 else 22.

Definition setChild (index node : Z) (header : Z) : Z :=
  let shift := childShift index in
  let header := Z.land header (not64 (u64 (Z.shiftl NodeIndexMask shift))) in
  Z.lor header (u64 (Z.shiftl (u64 node) shift)).

Definition parent (header : Z) : Z :=
  u32 (Z.land (Z.shiftr header 43) NodeIndexMask).

Definition child (index : Z) (header : Z) : Z :=
  let shift := childShift index in
  u32 (Z.land (Z.shiftr header shift) NodeIndexMask).

Definition isRoot (header : Z) : bool :=
  parent header =? 0.
End TreeNode.

(** ** Bucket routing of the range tracker *)

Module Tracker.
Definition HashTableSize : Z := 32.

Definition computeRootIndex (range : DxvkAddressRange) (access : DxvkAccess) : Z :=
  let hash := u64 (u64 (resource range) * 93887) in
  let hash := Z.lxor hash (Z.shiftr hash 16) in
  u32 (u64 (u64 (1 + hash mod HashTableSize)
            + (if DxvkAccess_eqb access Write then HashTableSize else 0))).
End Tracker.

(** The bucket formula in the words of the specification (section 3.4):
    [h = resource * 93887; h ^= h >> 16;
     bucket = 1 + (h mod 32) + (access == Write ? 32 : 0)],
    the product taken on 64 bits. *)
Definition spec_bucket (resource : Z) (access : DxvkAccess) : Z :=
  let h := (resource * 93887) mod 2 ^ 64 in
  let h := Z.lxor h (Z.shiftr h 16) in
  1 + h mod 32 + match access with Write => 32 | Read => 0 end.

(** ** Slices *)

(** Buffer slice: a half-open byte interval and its access flags.
    [VkDeviceSize] is a 64-bit unsigned integer. *)
Module BufferSlice.
Record t : Type := mk {
  m_loAddr : Z;
  m_hiAddr : Z;
  m_access : Z
}.

(** [DxvkBarrierBufferSlice()] *)
Definition default : t := mk 0 0 0.

(** [DxvkBarrierBufferSlice(offset, length, access)] *)
Definition make (offset length access : Z) : t :=
  mk offset (u64 (offset + length)) access.

Definition overlaps (a slice : t) : bool :=
  (m_hiAddr a >? m_loAddr slice) && (m_loAddr a <? m_hiAddr slice).

Definition isDirty (a slice : t) : bool :=
  Flags.test (Z.lor (m_access slice) (m_access a)) Write && overlaps a slice.

Definition canMerge (a slice : t) : bool :=
  if Flags.eqb (m_access a) (m_access slice) then
    (m_hiAddr a >=? m_loAddr slice) && (m_loAddr a <=? m_hiAddr slice)
  else
    (m_loAddr a =? m_loAddr slice) && (m_hiAddr a =? m_hiAddr slice).

Definition merge (a slice : t) : t :=
  mk (Z.min (m_loAddr a) (m_loAddr slice))
     (Z.max (m_hiAddr a) (m_hiAddr slice))
     (Flags.set (m_access a) (m_access slice)).

Definition getAccess (a : t) : Z := m_access a.
End BufferSlice.

(** Modelled from the spec: [VkImageSubresourceRange] comes from the
    Vulkan headers; the spec lists its fields as (aspectMask,
    baseArrayLayer, layerCount, baseMipLevel, levelCount), all 32-bit. *)
Record VkImageSubresourceRange : Type := mkSubresourceRange {
  aspectMask : Z;
  baseMipLevel : Z;
  levelCount : Z;
  baseArrayLayer : Z;
  layerCount : Z
}.

(** Image slice: aspects, half-open layer and mip level ranges, and the
    access flags. *)
Module ImageSlice.
Record t : Type := mk {
  m_aspects : Z;
  m_minLayer : Z;
  m_maxLayer : Z;
  m_minLevel : Z;
  m_maxLevel : Z;
  m_access : Z
}.

(** [DxvkBarrierImageSlice()] *)
Definition default : t := mk 0 0 0 0 0 0.

(** [DxvkBarrierImageSlice(range, access)] *)
Definition make (range : VkImageSubresourceRange) (access : Z) : t :=
  mk (aspectMask range)
     (baseArrayLayer range)
     (u32 (baseArrayLayer range + layerCount range))
     (baseMipLevel range)
     (u32 (baseMipLevel range + levelCount range))
     access.

Definition overlaps (a slice : t) : bool :=
  negb (Z.land (m_aspects a) (m_aspects slice) =? 0)
  && (m_minLayer a <? m_maxLayer slice)
  && (m_maxLayer a >? m_minLayer slice)
  && (m_minLevel a <? m_maxLevel slice)
  && (m_maxLevel a >? m_minLevel slice).

Definition isDirty (a slice : t) : bool :=
  Flags.test (Z.lor (m_access slice) (m_access a)) Write && overlaps a slice.

Definition canMerge (a slice : t) : bool :=
  let sameLayers := (m_minLayer a =? m_minLayer slice)
                    && (m_maxLayer a =? m_maxLayer slice) in
  let sameLevels := (m_minLevel a =? m_minLevel slice)
                    && (m_maxLevel a =? m_maxLevel slice) in
  if Bool.eqb sameLayers sameLevels then sameLayers
  else if negb (Flags.eqb (m_access a) (m_access slice)) then false
  else if sameLayers then
    (m_maxLevel a >=? m_minLevel slice) && (m_minLevel a <=? m_maxLevel slice)
  else
    (m_maxLayer a >=? m_minLayer slice) && (m_minLayer a <=? m_maxLayer slice).

Definition merge (a slice : t) : t :=
  mk (Z.lor (m_aspects a) (m_aspects slice))
     (Z.min (m_minLayer a) (m_minLayer slice))
     (Z.max (m_maxLayer a) (m_maxLayer slice))
     (Z.min (m_minLevel a) (m_minLevel slice))
     (Z.max (m_maxLevel a) (m_maxLevel slice))
     (Flags.set (m_access a) (m_access slice)).

Definition getAccess (a : t) : Z := m_access a.
End ImageSlice.

(** The interface the subresource set uses of its slice type [T]. *)
Class BarrierSlice (T : Type) : Type := {
  slice_default : T;
  slice_overlaps : T -> T -> bool;
  slice_isDirty : T -> T -> bool;
  slice_canMerge : T -> T -> bool;
  slice_merge : T -> T -> T;
  slice_getAccess : T -> Z;
  (** [std::is_same_v<T, DxvkBarrierImageSlice>] *)
  is_image_slice : bool
}.

#[export] Instance BufferSlice_BarrierSlice : BarrierSlice BufferSlice.t := {|
  slice_default := BufferSlice.default;
  slice_overlaps := BufferSlice.overlaps;
  slice_isDirty := BufferSlice.isDirty;
  slice_canMerge := BufferSlice.canMerge;
  slice_merge := BufferSlice.merge;
  slice_getAccess := BufferSlice.getAccess;
  is_image_slice := false
|}.

#[export] Instance ImageSlice_BarrierSlice : BarrierSlice ImageSlice.t := {|
  slice_default := ImageSlice.default;
  slice_overlaps := ImageSlice.overlaps;
  slice_isDirty := ImageSlice.isDirty;
  slice_canMerge := ImageSlice.canMerge;
  slice_merge := ImageSlice.merge;
  slice_getAccess := ImageSlice.getAccess;
  is_image_slice := true
|}.

(** ** Vocabulary for the merge rule of image slices *)

Definition sameLayers (a b : ImageSlice.t) : bool :=
  (ImageSlice.m_minLayer a =? ImageSlice.m_minLayer b)
  && (ImageSlice.m_maxLayer a =? ImageSlice.m_maxLayer b).

Definition sameLevels (a b : ImageSlice.t) : bool :=
  (ImageSlice.m_minLevel a =? ImageSlice.m_minLevel b)
  && (ImageSlice.m_maxLevel a =? ImageSlice.m_maxLevel b).

(** The two ranges touch or overlap. *)
Definition touching (lo1 hi1 lo2 hi2 : Z) : bool :=
  (hi1 >=? lo2) && (lo1 <=? hi2).

(** ** Sample workloads *)

(** Buffers [1 .. n], each accessed in its first 16 bytes. *)
Definition sample_buffers (n : nat) (access : Z) : list (Z * BufferSlice.t) :=
  map (fun k => (Z.of_nat k, BufferSlice.make 0 16 access)) (seq 1 n).

(** The first 16 bytes of a buffer, written. *)
Definition write_16 : BufferSlice.t :=
  BufferSlice.make 0 16 (Flags.of_access Write).

(** ** The subresource set *)

Module SubresourceSet.
Section Defs.
Context {T : Type} `{BarrierSlice T}.

(** [~0u] *)
Definition NoEntry : Z := 4294967295.

Record ListEntry : Type := mkListEntry {
le_data : T;
le_next : Z        (* uint32_t *)
}.

Record HashEntry : Type := mkHashEntry {
he_version : Z;    (* uint64_t *)
he_key : Z;        (* K, a 64-bit handle *)
he_data : T;
he_next : Z        (* uint32_t *)
}.

Record t : Type := mk {
m_version : Z;     (* uint64_t *)
m_used : Z;        (* uint64_t *)
m_indexMask : Z;   (* size_t *)
m_list : list ListEntry;
m_hashMap : list HashEntry
}.

(** A freshly constructed set. *)
Definition init : t := mk 1 0 0 [] [].

(** The element [std::vector::resize] creates. *)
Definition HashEntry_default : HashEntry := mkHashEntry 0 0 slice_default 0.

Definition set_version (e : HashEntry) (v : Z) : HashEntry :=
mkHashEntry v (he_key e) (he_data e) (he_next e).
Definition set_data (e : HashEntry) (d : T) : HashEntry :=
mkHashEntry (he_version e) (he_key e) d (he_next e).
Definition set_next (e : HashEntry) (n : Z) : HashEntry :=
mkHashEntry (he_version e) (he_key e) (he_data e) n.

Definition with_list (s : t) (l : list ListEntry) : t :=
mk (m_version s) (m_used s) (m_indexMask s) l (m_hashMap s).
Definition with_hashMap (s : t) (hm : list HashEntry) : t :=
mk (m_version s) (m_used s) (m_indexMask s) (m_list s) hm.

(** [v[i]] for a vector [v]; no result outside the vector. *)
Definition at_ {A : Type} (v : list A) (i : Z) : option A := v !! Z.to_nat i.

Definition computeHash (key : Z) : Z :=
let hash := u64 (u64 key * 93887) in
Z.lxor hash (Z.shiftr hash 16).

Definition computeSize (s : t) : Z :=
if m_indexMask s =? 0 then 0 else u64 (m_indexMask s + 1).

Definition computeIndex (s : t) (key : Z) : Z :=
Z.land (computeHash key) (m_indexMask s).

Definition advanceIndex (s : t) (index : Z) : Z :=
Z.land (u64 (index + 1)) (m_indexMask s).

(** The probing loop shared by [findHashEntry] and [insertHashEntry]:
  [while (m_hashMap[index].version == m_version)
     { if (m_hashMap[index].key == key) return ...; index = advanceIndex(index); }].
  The result is the index where the loop stopped and whether the key
  was found there.  Once as many slots as the table has were visited
  the loop has come round without leaving, and runs for ever. *)
Fixpoint probe (fuel : nat) (s : t) (key : Z) (index : Z) : option (bool * Z) :=
match fuel with
| O => None
| S fuel =>
    e ← at_ (m_hashMap s) index;
    if he_version e =? m_version s then
      if he_key e =? key then Some (true, index)
      else probe fuel s key (advanceIndex s index)
    else Some (false, index)
end.

(** The result is the index of the entry, or [None] for [nullptr]. *)
Definition findHashEntry (s : t) (key : Z) : option (option Z) :=
if m_used s =? 0 then Some None
else
  '(found, index) ← probe (length (m_hashMap s)) s key (computeIndex s key);
  Some (if found : bool then Some index else None).

(** [while (m_hashMap[index].version > m_version) index = advanceIndex(index);] *)
Fixpoint skipRelocated (fuel : nat) (s : t) (hm : list HashEntry) (index : Z)
: option Z :=
match fuel with
| O => None
| S fuel =>
    e ← at_ hm index;
    if he_version e >? m_version s
    then skipRelocated fuel s hm (advanceIndex s index)
    else Some index
end.

(** [while (entry.version == m_version) { ...; std::swap(entry, m_hashMap[index]); }]
  Every round but the last stores a relocated entry in a slot that held
  none, so there are at most as many rounds as slots, and one more. *)
Fixpoint relocate (fuel : nat) (s : t) (entry : HashEntry) (hm : list HashEntry)
: option (list HashEntry) :=
match fuel with
| O => None
| S fuel =>
    if he_version entry =? m_version s then
      let index := computeIndex s (he_key entry) in
      let entry := set_version entry (u64 (m_version s + 1)) in
      index ← skipRelocated (length hm) s hm index;
      other ← at_ hm index;
      relocate fuel s other (<[Z.to_nat index := entry]> hm)
    else Some hm
end.

(** [for (size_t i = 0; i < oldSize; i++)], with [n] rounds to go. *)
Fixpoint relocateAll (n : nat) (i : Z) (s : t) (hm : list HashEntry)
: option (list HashEntry) :=
match n with
| O => Some hm
| S n =>
    entry ← at_ hm i;
    let hm := <[Z.to_nat i := set_version entry 0]> hm in
    hm ← relocate (S (length hm)) s entry hm;
    relocateAll n (i + 1) s hm
end.

Definition growHashMap (s : t) (newSize : Z) : option t :=
let oldSize := computeSize s in
let hm := resize (Z.to_nat newSize) HashEntry_default (m_hashMap s) in
hm ← relocateAll (Z.to_nat oldSize) 0 s hm;
Some (mk (u64 (m_version s + 1)) (m_used s) (u64 (newSize - 1)) (m_list s) hm).

Definition growHashMapBeforeInsert (s : t) : option t :=
let oldSize := computeSize s in
if u64 (10 * m_used s) >=? u64 (7 * oldSize) then
  let newSize := if oldSize =? 0 then 64 else u64 (oldSize * 2) in
  growHashMap s newSize
else Some s.

(** The result is the new state and the index of the entry already
  present, or [None] for [nullptr] when a new entry was made. *)
Definition insertHashEntry (s : t) (key : Z) (data : T) : option (t * option Z) :=
s ← growHashMapBeforeInsert s;
'(found, index) ← probe (length (m_hashMap s)) s key (computeIndex s key);
if found : bool then Some (s, Some index)
else
  _ ← at_ (m_hashMap s) index;
  let entry := mkHashEntry (m_version s) key data NoEntry in
  Some (mk (m_version s) (u64 (m_used s + 1)) (m_indexMask s) (m_list s)
           (<[Z.to_nat index := entry]> (m_hashMap s)),
        None).

(** A pointer to [m_list[index]], or [None] for [nullptr]. *)
Definition getListEntry (index : Z) : option Z :=
if index <? NoEntry then Some index else None.

(** [head] is the index of the hash entry. *)
Definition insertListEntry (s : t) (subresource : T) (head : Z) : option t :=
h ← at_ (m_hashMap s) head;
let newIndex := u32 (Z.of_nat (length (m_list s))) in
Some (mk (m_version s) (m_used s) (m_indexMask s)
         (m_list s ++ [mkListEntry subresource (he_next h)])
         (<[Z.to_nat head := set_next h newIndex]> (m_hashMap s))).

(** The [do ... while] of [insert] over the overflow list: the list
  with the slice merged into the first entry that can merge with it,
  or [None] when the end of the chain was reached.  A chain that has
  visited as many entries as the list has repeats itself. *)
Fixpoint mergeScan (fuel : nat) (l : list ListEntry) (listEntry : Z) (slice : T)
: option (option (list ListEntry)) :=
match fuel with
| O => None
| S fuel =>
    e ← at_ l listEntry;
    if slice_canMerge (le_data e) slice then
      Some (Some (<[Z.to_nat listEntry :=
                      mkListEntry (slice_merge (le_data e) slice) (le_next e)]> l))
    else
      match getListEntry (le_next e) with
      | Some next => mergeScan fuel l next slice
      | None => Some None
      end
end.

(** The body of [if (hashEntry) { ... }] in [insert], for the entry at
  index [h] of the table. *)
Definition insertPresent (s : t) (h : Z) (slice : T) : option t :=
e ← at_ (m_hashMap s) h;
s ← match getListEntry (he_next e) with
    | Some listEntry =>
        if is_image_slice then
          r ← mergeScan (length (m_list s)) (m_list s) listEntry slice;
          match r with
          | Some l => Some (with_list s l)
          | None => insertListEntry s slice h
          end
        else insertListEntry s slice h
    | None =>
        if negb (slice_canMerge (he_data e) slice) then
          s ← insertListEntry s (he_data e) h;
          insertListEntry s slice h
        else Some s
    end;
e ← at_ (m_hashMap s) h;
Some (with_hashMap s
        (<[Z.to_nat h := set_data e (slice_merge (he_data e) slice)]>
           (m_hashMap s))).

Definition insert (s : t) (resource : Z) (slice : T) : option t :=
'(s, hashEntry) ← insertHashEntry s resource slice;
match hashEntry with
| None => Some s
| Some h => insertPresent s h slice
end.

(** [while (list && access != entry->data.getAccess()) { ... }] *)
Fixpoint accessLoop (fuel : nat) (l : list ListEntry) (list : option Z)
  (access entryAccess : Z) (slice : T) : option Z :=
match list with
| None => Some access
| Some index =>
    if Flags.eqb access entryAccess then Some access
    else
      match fuel with
      | O => None
      | S fuel =>
          e ← at_ l index;
          let access :=
            if slice_overlaps (le_data e) slice
            then Flags.set access (slice_getAccess (le_data e))
            else access in
          accessLoop fuel l (getListEntry (le_next e)) access entryAccess slice
      end
end.

Definition getAccess (s : t) (resource : Z) (slice : T) : option Z :=
entry ← findHashEntry s resource;
match entry with
| None => Some Flags.empty
| Some h =>
    e ← at_ (m_hashMap s) h;
    if negb (slice_overlaps (he_data e) slice) then Some Flags.empty
    else
      match getListEntry (he_next e) with
      | None => Some (slice_getAccess (he_data e))
      | Some index =>
          accessLoop (length (m_list s)) (m_list s) (Some index)
            Flags.empty (slice_getAccess (he_data e)) slice
      end
end.

(** [while (list && !dirty) { ... }] *)
Fixpoint dirtyLoop (fuel : nat) (l : list ListEntry) (list : option Z)
  (dirty : bool) (slice : T) : option bool :=
match list with
| None => Some dirty
| Some index =>
    if dirty then Some dirty
    else
      match fuel with
      | O => None
      | S fuel =>
          e ← at_ l index;
          dirtyLoop fuel l (getListEntry (le_next e))
            (slice_isDirty (le_data e) slice) slice
      end
end.

Definition isDirty (s : t) (resource : Z) (slice : T) : option bool :=
entry ← findHashEntry s resource;
match entry with
| None => Some false
| Some h =>
    e ← at_ (m_hashMap s) h;
    if negb (slice_isDirty (he_data e) slice) then Some false
    else
      match getListEntry (he_next e) with
      | None => Some true
      | Some index =>
          dirtyLoop (length (m_list s)) (m_list s) (Some index) false slice
      end
end.

Definition clear (s : t) : t :=
mk (u64 (m_version s + 1)) 0 (m_indexMask s) [] (m_hashMap s).

Definition empty (s : t) : bool := m_used s =? 0.

(** The calls of the interface, and the state a sequence of calls made
  on a state leads to ([getAccess] and [isDirty] leave it as it is). *)
Inductive call : Type :=
| Insert (resource : Z) (slice : T)
| GetAccess (resource : Z) (slice : T)
| IsDirty (resource : Z) (slice : T)
| Clear.

Definition step (s : t) (c : call) : option t :=
match c with
| Insert resource slice => insert s resource slice
| GetAccess resource slice => _ ← getAccess s resource slice; Some s
| IsDirty resource slice => _ ← isDirty s resource slice; Some s
| Clear => Some (clear s)
end.

Fixpoint run (s : t) (calls : list call) : option t :=
match calls with
| [] => Some s
| c :: calls => s ← step s c; run s calls
end.

(** The state after inserting the given slices in order. *)
Definition inserts (l : list (Z * T)) : option t :=
run init (map (fun p => Insert (fst p) (snd p)) l).
End Defs.
Arguments ListEntry T : clear implicits.
Arguments HashEntry T : clear implicits.
Arguments t T : clear implicits.
Arguments call T : clear implicits.
End SubresourceSet.

(** ** Vocabulary for the properties of the subresource set *)

Section SetSpec.
Context {T : Type} `{BarrierSlice T}.
Import SubresourceSet.

(** [chain l n c]: following the [next] links of the overflow list [l]
    from index [n] reaches [NoEntry], and [c] lists the indices and the
    slices met on the way. *)
Inductive chain (l : list (ListEntry T)) : Z -> list (Z * T) -> Prop :=
| chain_end n :
    NoEntry <= n -> chain l n []
| chain_step n e c :
    0 <= n < NoEntry -> at_ l n = Some e ->
    chain l (le_next e) c ->
    chain l n ((n, le_data e) :: c).

(** The flags of [x] are among the flags of [a]. *)
Definition flags_subseteq (x a : Z) : Prop := Z.lor a x = a.

(** The superset invariant: the slice of every live hash entry
    overlaps each slice of its overflow chain and has all of its
    access flags. *)
Definition superset_invariant (s : SubresourceSet.t T) : Prop :=
  forall i e,
    m_hashMap s !! i = Some e -> he_version e = m_version s ->
    exists c,
      chain (m_list s) (he_next e) c
      /\ Forall (fun jx : Z * T =>
                   slice_overlaps (he_data e) jx.2 = true
                   /\ flags_subseteq (slice_getAccess jx.2)
                                     (slice_getAccess (he_data e))) c.

(** The slices a sequence of calls inserts. *)
Definition inserted (calls : list (call T)) : list (Z * T) :=
  omap (fun c => match c with
                 | Insert resource slice => Some (resource, slice)
                 | _ => None
                 end) calls.

(** The union of the access flags of the slices inserted for
    [resource] that overlap [query]. *)
Definition overlapping_access (ops : list (Z * T)) (resource : Z) (query : T) : Z :=
  fold_right (fun (p : Z * T) acc =>
                if (p.1 =? resource) && slice_overlaps p.2 query
                then Z.lor acc (slice_getAccess p.2) else acc)
             0 ops.

(** The union of the access flags of all slices inserted for
    [resource]. *)
Definition inserted_access (ops : list (Z * T)) (resource : Z) : Z :=
  fold_right (fun (p : Z * T) acc =>
                if p.1 =? resource then Z.lor acc (slice_getAccess p.2) else acc)
             0 ops.

(** Some slice inserted for [resource] overlaps [query], and the flags
    of the two together contain Write. *)
Definition overlapping_write (ops : list (Z * T)) (resource : Z) (query : T) : bool :=
  existsb (fun p : Z * T =>
             (p.1 =? resource) && slice_overlaps p.2 query
             && Flags.test (Z.lor (slice_getAccess p.2) (slice_getAccess query)) Write)
          ops.

(** The number of distinct resources among the insertions. *)
Definition distinct_resources (ops : list (Z * T)) : nat :=
  length (remove_dups (map fst ops)).

(** No insertion of [ops] finds the 64 slots of the first table loaded
    to the threshold ([10 * 45 >= 7 * 64]): before each of them fewer
    than 45 distinct resources were inserted. *)
Definition fits_first_table (ops : list (Z * T)) : Prop :=
  (distinct_resources (removelast ops) < 45)%nat.
End SetSpec.

Definition BufferSlice_nonempty (a : BufferSlice.t) : Prop :=
  BufferSlice.m_loAddr a < BufferSlice.m_hiAddr a.

Definition ImageSlice_nonempty (a : ImageSlice.t) : Prop :=
  ImageSlice.m_aspects a <> 0
  /\ ImageSlice.m_minLayer a < ImageSlice.m_maxLayer a
  /\ ImageSlice.m_minLevel a < ImageSlice.m_maxLevel a.

(** A short run of a buffer set: two slices of one buffer, a query, a
    clear, and a slice of another buffer. *)
Definition sample_calls : list (SubresourceSet.call BufferSlice.t) :=
  [SubresourceSet.Insert 1 (BufferSlice.make 0 64 1);
   SubresourceSet.Insert 1 (BufferSlice.make 128 64 2);
   SubresourceSet.IsDirty 1 (BufferSlice.make 140 10 1);
   SubresourceSet.Clear;
   SubresourceSet.Insert 2 (BufferSlice.make 0 16 2)].

(** The layer range and the level range of an image slice are not
    empty. *)
Definition ImageSlice_box_nonempty (q : ImageSlice.t) : Prop :=
  ImageSlice.m_minLayer q < ImageSlice.m_maxLayer q
  /\ ImageSlice.m_minLevel q < ImageSlice.m_maxLevel q.

(** Two slices of one buffer, read in [[0,64)] and written in
    [[128,192)]. *)
Definition sample_buffer_ops : list (Z * BufferSlice.t) :=
  [(100, BufferSlice.make 0 64 (Flags.of_access Read));
   (100, BufferSlice.make 128 64 (Flags.of_access Write))].

(** Two slices of one image, the same layer and level, one read in the
    colour aspect (bit 0), one written in the depth aspect (bit 1). *)
Definition sample_image_ops : list (Z * ImageSlice.t) :=
  [(1, ImageSlice.make (mkSubresourceRange 1 0 1 0 1) (Flags.of_access Read));
   (1, ImageSlice.make (mkSubresourceRange 2 0 1 0 1) (Flags.of_access Write))].

(** The colour aspect of that layer and level, for a read. *)
Definition sample_image_query : ImageSlice.t :=
  ImageSlice.make (mkSubresourceRange 1 0 1 0 1) (Flags.of_access Read).

(** ** Laws of the slice types, and the invariants of the set *)

(** What the properties of the set need of a slice type. *)
Class BarrierSliceLaws (T : Type) `{BarrierSlice T} : Type := {
  (** The slices that cover something. *)
  slice_nonempty : T -> Prop;
  slice_getAccess_merge a b :
    slice_getAccess (slice_merge a b)
    = Z.lor (slice_getAccess a) (slice_getAccess b);
  slice_overlaps_merge_l a b x :
    slice_overlaps a x = true -> slice_overlaps (slice_merge a b) x = true;
  slice_overlaps_merge_r a b x :
    slice_overlaps b x = true -> slice_overlaps (slice_merge a b) x = true;
  slice_overlaps_sym a b : slice_overlaps a b = slice_overlaps b a;
  slice_overlaps_self a : slice_nonempty a -> slice_overlaps a a = true;
  slice_nonempty_merge a b :
    slice_nonempty a -> slice_nonempty b -> slice_nonempty (slice_merge a b);
  slice_isDirty_eq a q :
    slice_isDirty a q
    = Flags.test (Z.lor (slice_getAccess q) (slice_getAccess a)) Write
      && slice_overlaps a q
}.

Section SetInv.
Context {T : Type} `{BarrierSlice T}.
Import SubresourceSet.

(** *** One hash entry and its chain, as a slice and a list of slices *)

(** The slice merged into the first entry of the chain that can merge
    with it; [None] when there is none. *)
Fixpoint merge_first (c : list T) (slice : T) : option (list T) :=
  match c with
  | [] => None
  | d :: c =>
      if slice_canMerge d slice then Some (slice_merge d slice :: c)
      else (fun c' => d :: c') <$> merge_first c slice
  end.

(** What [insert] does to the slice [d] of a hash entry that is present
    and to the slices [c] of its chain. *)
Definition entry_chain (d : T) (c : list T) (slice : T) : list T :=
  match c with
  | _ :: _ =>
      if is_image_slice then
        match merge_first c slice with
        | Some c' => c'
        | None => slice :: c
        end
      else slice :: c
  | [] => if slice_canMerge d slice then [] else [slice; d]
  end.

(** The state of an entry after the slices [rest] were inserted into an
    entry made for [first]. *)
Fixpoint entry_after (d : T) (c : list T) (rest : list T) : T * list T :=
  match rest with
  | [] => (d, c)
  | slice :: rest =>
      entry_after (slice_merge d slice) (entry_chain d c slice) rest
  end.

(** The slices inserted for [resource], oldest first. *)
Definition history (ops : list (Z * T)) (resource : Z) : list T :=
  map snd (filter (fun p : Z * T => p.1 = resource) ops).

(** *** The shape of the overflow list and of the table *)

(** The head of the chain of a live entry. *)
Definition head_of (v : Z) (e : HashEntry T) : option Z :=
  if (he_version e =? v) && (he_next e <? NoEntry) then Some (he_next e) else None.

(** [root] names, for each entry of the overflow list, the chain it
    belongs to: an entry and its successor have the same name. *)
Record list_wf (root : Z -> Z) (l : list (ListEntry T)) : Prop := {
  lw_length : Z.of_nat (length l) < NoEntry;
  lw_next j e :
    0 <= j -> at_ l j = Some e ->
    NoEntry = le_next e \/ (0 <= le_next e < j /\ root (le_next e) = root j);
  lw_root j :
    0 <= j < Z.of_nat (length l) -> 0 <= root j < Z.of_nat (length l)
}.

(** The chains of the live entries are well formed and pairwise
    disjoint, and no version stamp is ahead of the version of the set. *)
Record struct_inv (root : Z -> Z) (s : SubresourceSet.t T) : Prop := {
  si_list : list_wf root (m_list s);
  si_heads :
    NoDup (omap (fun e => root <$> head_of (m_version s) e) (m_hashMap s));
  si_next i e :
    m_hashMap s !! i = Some e -> he_version e = m_version s ->
    NoEntry = he_next e \/ 0 <= he_next e < Z.of_nat (length (m_list s));
  si_version : 1 <= m_version s < 2 ^ 64 - 1;
  si_versions i e :
    m_hashMap s !! i = Some e -> 0 <= he_version e <= m_version s
}.

(** [entry_post k s s' h e d cd]: from [s] to [s'] the live entry [e]
    at index [h] got the slice [d] and a chain of the slices [cd], the
    overflow list grew by at most [k] entries, and the other entries
    and their chains stayed as they were. *)
Record entry_post (k : nat) (s s' : SubresourceSet.t T) (h : Z)
    (e : HashEntry T) (d : T) (cd : list T) : Prop := {
  ep_version : m_version s' = m_version s;
  ep_used : m_used s' = m_used s;
  ep_mask : m_indexMask s' = m_indexMask s;
  ep_size : length (m_hashMap s') = length (m_hashMap s);
  ep_list :
    (length (m_list s) <= length (m_list s') <= length (m_list s) + k)%nat;
  ep_entry :
    exists e' c',
      at_ (m_hashMap s') h = Some e'
      /\ he_version e' = he_version e /\ he_key e' = he_key e
      /\ he_data e' = d
      /\ chain (m_list s') (he_next e') c'
      /\ c'.*2 = cd;
  ep_others i : 0 <= i -> i <> h -> at_ (m_hashMap s') i = at_ (m_hashMap s) i;
  ep_chains i ei ci :
    0 <= i -> i <> h -> at_ (m_hashMap s) i = Some ei ->
    he_version ei = m_version s ->
    chain (m_list s) (he_next ei) ci -> chain (m_list s') (he_next ei) ci
}.

(** What [insertPresent s h slice = Some s'] changes, for the live
    entry [e] at index [h] whose chain is [c]. *)
Definition present_post (s s' : SubresourceSet.t T) (h : Z) (e : HashEntry T)
    (c : list (Z * T)) (slice : T) : Prop :=
  entry_post 2 s s' h e (slice_merge (he_data e) slice)
    (entry_chain (he_data e) c.*2 slice).

(** The entries that take part in a relocation: those of the current
    version and those already stamped with the next one. *)
Definition strip (e : HashEntry T) : Z * T * Z :=
  (he_key e, he_data e, he_next e).

Definition marked (v : Z) (e : HashEntry T) : option (Z * T * Z) :=
  if (he_version e =? v) || (he_version e =? v + 1) then Some (strip e) else None.

(** The live entries, without their version stamps. *)
Definition live_strip (v : Z) (e : HashEntry T) : option (Z * T * Z) :=
  if he_version e =? v then Some (strip e) else None.

Definition strip_root (root : Z -> Z) (x : Z * T * Z) : option Z :=
  if x.2 <? NoEntry then Some (root x.2) else None.
End SetInv.

(** ** The queries on one entry, and the table of the first 64 slots *)

Section QueryModel.
Context {T : Type} `{BarrierSlice T}.
Import SubresourceSet.

(** The loop of [getAccess] over the slices of a chain. *)
Fixpoint access_loop (c : list T) (access entryAccess : Z) (q : T) : Z :=
  match c with
  | [] => access
  | y :: c =>
      if Flags.eqb access entryAccess then access
      else access_loop c
             (if slice_overlaps y q then Flags.set access (slice_getAccess y)
              else access)
             entryAccess q
  end.

(** [getAccess] on an entry with the slice [d] and the chain [c]. *)
Definition entry_getAccess (d : T) (c : list T) (q : T) : Z :=
  if negb (slice_overlaps d q) then Flags.empty
  else match c with
       | [] => slice_getAccess d
       | _ :: _ => access_loop c Flags.empty (slice_getAccess d) q
       end.

(** The loop of [isDirty] over the slices of a chain. *)
Fixpoint dirty_loop (c : list T) (dirty : bool) (q : T) : bool :=
  match c with
  | [] => dirty
  | y :: c => if dirty then dirty else dirty_loop c (slice_isDirty y q) q
  end.

(** [isDirty] on an entry with the slice [d] and the chain [c]. *)
Definition entry_isDirty (d : T) (c : list T) (q : T) : bool :=
  if negb (slice_isDirty d q) then false
  else match c with
       | [] => true
       | _ :: _ => dirty_loop c false q
       end.

(** The union of the flags of the slices of [c] that overlap [q]. *)
Definition chain_access (c : list T) (q : T) : Z :=
  fold_right (fun y acc => if slice_overlaps y q
                           then Z.lor acc (slice_getAccess y) else acc) 0 c.

(** The slices that answer for an entry: its chain, or its own slice
    when it has no chain. *)
Definition nodes (d : T) (c : list T) : list T :=
  match c with [] => [d] | _ :: _ => c end.

(** A property of flag sets that a union has iff one of its parts has
    it: containing a given flag, or leaving a query dirty. *)
Definition join_prime (P : Z -> Prop) : Prop :=
  forall a b, P (Z.lor a b) <-> P a \/ P b.

(** [y] overlaps whatever [x] overlaps and has the flags of [x]. *)
Definition slice_le (x y : T) : Prop :=
  (forall q, slice_overlaps x q = true -> slice_overlaps y q = true)
  /\ flags_subseteq (slice_getAccess x) (slice_getAccess y).

(** Every slice of the history is covered by one of the nodes. *)
Definition covered (history c : list T) : Prop :=
  forall x, x ∈ history -> exists y, y ∈ c /\ slice_le x y.

(** What a node has, for a query within [ok], some slice of the
    history that overlaps the query has too. *)
Definition exact (ok : T -> Prop) (history c : list T) : Prop :=
  forall y, y ∈ c ->
  forall q, ok q -> slice_overlaps y q = true ->
  forall P, join_prime P -> P (slice_getAccess y) ->
    exists x, x ∈ history /\ slice_overlaps x q = true /\ P (slice_getAccess x).

(** The union of the flags of the slices of a history. *)
Definition hist_access (history : list T) : Z :=
  fold_right (fun x acc => Z.lor acc (slice_getAccess x)) 0 history.

(** Some slice of the history overlaps [q], and the flags of the two
    together contain Write. *)
Definition hist_write (history : list T) (q : T) : bool :=
  existsb (fun x => slice_overlaps x q
                    && Flags.test (Z.lor (slice_getAccess x) (slice_getAccess q)) Write)
          history.

(** The entry answers for the history, on the safe side. *)
Record entry_sound (history : list T) (d : T) (c : list T) : Prop := {
  es_cover x : x ∈ history -> slice_le x d;
  es_flags : flags_subseteq (slice_getAccess d) (hist_access history);
  es_nodes : covered history (nodes d c);
  es_chain y : y ∈ c -> flags_subseteq (slice_getAccess y) (slice_getAccess d)
}.

(** The entry answers for the history exactly, for the slices within
    [dom] and the queries within [ok]. *)
Record entry_exact (dom ok : T -> Prop) (history : list T) (d : T) (c : list T)
  : Prop := {
  ee_entry : dom d;
  ee_chain y : y ∈ c -> dom y;
  ee_exact : exact ok history (nodes d c)
}.

(** Merging two slices that can merge adds nothing: what overlaps the
    merged slice overlaps one of the two, and both when their flags
    differ. *)
Definition merge_exact (dom ok : T -> Prop) : Prop :=
  forall a b q,
    dom a -> dom b -> ok q ->
    slice_canMerge a b = true ->
    slice_overlaps (slice_merge a b) q = true ->
    (slice_overlaps a q = true \/ slice_overlaps b q = true)
    /\ (slice_getAccess a <> slice_getAccess b ->
        slice_overlaps a q = true /\ slice_overlaps b q = true).

(** The entry and its chain after the slices of a history. *)
Definition entry_model (history : list T) : option (T * list T) :=
  match history with
  | [] => None
  | first :: rest => Some (entry_after first [] rest)
  end.

(** The version stamps and keys of the table. *)
Definition skeleton (hm : list (HashEntry T)) : list (Z * Z) :=
  (fun e => (he_version e, he_key e)) <$> hm.
End QueryModel.

(** The [n]-th slot probed for [key] in a table with index mask 63. *)
Definition nth_probe (key : Z) (n : nat) : Z :=
  Nat.iter n (fun index => Z.land (u64 (index + 1)) 63)
           (Z.land (SubresourceSet.computeHash key) 63).

(** The first [n] slots probed for [key] are live and hold other keys. *)
Definition probe_path (v : Z) (sk : list (Z * Z)) (key : Z) (n : nat) : Prop :=
  forall m, (m < n)%nat ->
    exists k', sk !! Z.to_nat (nth_probe key m) = Some (v, k') /\ k' <> key.

(** The table of 64 slots below its load threshold: every live entry is
    reached by probing for its key. *)
Record table_inv (v used : Z) (sk : list (Z * Z)) : Prop := {
  ti_size : length sk = 64%nat;
  ti_used : used = Z.of_nat (length (filter (fun p : Z * Z => p.1 = v) sk));
  ti_load : used <= 45;
  ti_path i k :
    sk !! i = Some (v, k) ->
    exists n, (n < 64)%nat /\ nth_probe k n = Z.of_nat i /\ probe_path v sk k n
}.

Section FirstTable.
Context {T : Type} `{BarrierSlice T}.
Import SubresourceSet.

(** The entries of the table are the entries the insertions lead to. *)
Definition model_inv (s : SubresourceSet.t T) (ops : list (Z * T)) : Prop :=
  forall k,
    match entry_model (history ops k) with
    | None =>
        forall i e, m_hashMap s !! i = Some e ->
                    he_version e = m_version s -> he_key e <> k
    | Some dc =>
        exists i e c,
          m_hashMap s !! i = Some e /\ he_version e = m_version s
          /\ he_key e = k /\ chain (m_list s) (he_next e) c
          /\ (he_data e, c.*2) = dc
    end.

(** The invariant of the states reached by insertions that fit the
    first table. *)
Record first_inv (s : SubresourceSet.t T) (ops : list (Z * T)) : Prop := {
  fi_struct : exists root, struct_inv root s;
  fi_mask : m_indexMask s = 63;
  fi_version : m_version s = 2;
  fi_table : table_inv (m_version s) (m_used s) (skeleton (m_hashMap s));
  fi_used : m_used s = Z.of_nat (distinct_resources ops);
  fi_list : (length (m_list s) <= 2 * length ops)%nat;
  fi_model : model_inv s ops
}.

(** The table after the growth that the first insertion starts with. *)
Definition first_table : SubresourceSet.t T :=
  mk 2 0 63 [] (replicate 64 HashEntry_default).
End FirstTable.

(** ** The range tracker *)

(** [findRange], [insertRange] and [clear] of [DxvkBarrierTracker] and
    its private functions are only declared in the header; their bodies
    are not part of the sources.  The model follows sections 3.3, 3.4,
    4.1, 4.2 and 4.8 of the specification: the bucket trees are
    red-black trees with the standard repair after an insertion and the
    textbook removal, and their nodes come from a pool with a free list
    and at most [2^21 - 1] node indices.  A bucket tree is written as a
    tree of nodes that carry their index in the pool, in place of the
    child and parent indices packed into the headers. *)
Module RangeTracker.
(** Modelled from the spec: a bucket tree (section 3.3).  [index] is the
    index of the node in the pool, [red] the colour bit of its header;
    [Leaf] is the null node, index 0. *)
Inductive tree : Type :=
| Leaf
| Node (index : Z) (red : bool) (left : tree) (range : DxvkAddressRange)
       (right : tree).

Fixpoint inorder (t : tree) : list DxvkAddressRange :=
  match t with
  | Leaf => []
  | Node _ _ l x r => inorder l ++ x :: inorder r
  end.

(** What a call that may need a node returns: [Exhausted] is the
    signal of sections 4.8 and 7 that no node index is left,
    [Unfinished] a descent that was stopped before its end. *)
Inductive result (A : Type) : Type :=
| Done (a : A)
| Exhausted
| Unfinished.
Arguments Done {A} a.
Arguments Exhausted {A}.
Arguments Unfinished {A}.

(** Modelled from the spec: section 4.1, step 2.  Walk from the root;
    a node that contains the query ends the walk, otherwise [lt]
    chooses the side. *)
Fixpoint findNode (range : DxvkAddressRange) (t : tree) : bool :=
  match t with
  | Leaf => false
  | Node _ _ l x r =>
      if Range.contains x range then true
      else if Range.lt range x then findNode range l
      else findNode range r
  end.

(** Modelled from the spec: the union [(min(start), max(end))] of
    section 4.2. *)
Definition widen (range other : DxvkAddressRange) : DxvkAddressRange :=
  mkRange (resource range)
          (Z.min (rangeStart range) (rangeStart other))
          (Z.max (rangeEnd range) (rangeEnd other)).

(** *** Colours and rotations *)

(** Modelled from the spec: the null node is treated as black. *)
Definition isRed (t : tree) : bool :=
  match t with
  | Leaf => false
  | Node _ red _ _ _ => red
  end.

Definition setBlack (t : tree) : tree :=
  match t with
  | Leaf => Leaf
  | Node i _ l x r => Node i false l x r
  end.

(** Modelled from the spec: the rotations; the nodes keep their
    colours and their indices. *)
Definition rotateLeft (t : tree) : tree :=
  match t with
  | Node i red l x (Node i' red' rl y rr) => Node i' red' (Node i red l x rl) y rr
  | _ => t
  end.

Definition rotateRight (t : tree) : tree :=
  match t with
  | Node i red (Node i' red' ll y lr) x r => Node i' red' ll y (Node i red lr x r)
  | _ => t
  end.

(** *** The repair after an insertion *)

(** Modelled from the spec: the standard fixup of section 4.2, step 4,
    seen from the grandparent [index] of a red node whose parent, the
    left child [l], is red.  A red uncle: parent and uncle become
    black, the grandparent red, and the repair goes on above.  A black
    uncle: an inner red node is rotated outwards, the parent becomes
    black and the grandparent red, and the grandparent is rotated to
    the right. *)
Definition rebalanceLeft (index : Z) (red : bool) (l : tree)
    (range : DxvkAddressRange) (r : tree) : tree :=
  match l with
  | Node pi true pl px pr =>
      if isRed pl || isRed pr then
        if isRed r then Node index true (Node pi false pl px pr) range (setBlack r)
        else
          match (if isRed pr then rotateLeft l else l) with
          | Node qi _ ql qx qr => Node qi false ql qx (Node index true qr range r)
          | Leaf => Node index red l range r
          end
      else Node index red l range r
  | _ => Node index red l range r
  end.

(** Modelled from the spec: the mirror image, for a red parent that is
    the right child [r]. *)
Definition rebalanceRight (index : Z) (red : bool) (l : tree)
    (range : DxvkAddressRange) (r : tree) : tree :=
  match r with
  | Node pi true pl px pr =>
      if isRed pl || isRed pr then
        if isRed l then Node index true (setBlack l) range (Node pi false pl px pr)
        else
          match (if isRed pl then rotateRight r else r) with
          | Node qi _ ql qx qr => Node qi false (Node index true l range ql) qx qr
          | Leaf => Node index red l range r
          end
      else Node index red l range r
  | _ => Node index red l range r
  end.

(** Modelled from the spec: the repair of the red-black invariants
    after the node of [range] was attached: from the new node up to the
    root, along the path of the descent. *)
Fixpoint rebalancePostInsert (range : DxvkAddressRange) (t : tree) : tree :=
  match t with
  | Leaf => Leaf
  | Node i red l x r =>
      if Range.lt range x
      then rebalanceLeft i red (rebalancePostInsert range l) x r
      else rebalanceRight i red l x (rebalancePostInsert range r)
  end.

(** *** The removal *)

(** Modelled from the spec: textbook removal of a node of colour [red]
    with at most one child, which takes its place.  The flag tells
    whether the paths through the place have lost a black node: a
    black node that leaves a red child gives it its colour. *)
Definition replaceBy (red : bool) (child : tree) : tree * bool :=
  if red then (child, false)
  else if isRed child then (setBlack child, false)
  else (child, true).

(** Modelled from the spec: the double-black fixup for a left subtree
    [l] that has lost a black node and has a black sibling [r].  A red
    far nephew: the sibling takes the colour of the parent, parent and
    nephew become black, and the parent is rotated to the left.  A red
    near nephew only: the sibling is rotated to the right first.  Two
    black nephews: the sibling becomes red, and a black parent passes
    the loss on upwards. *)
Definition removedLeftBlack (index : Z) (red : bool) (l : tree)
    (range : DxvkAddressRange) (r : tree) : tree * bool :=
  match r with
  | Node wi _ wl wx wr =>
      if isRed wr
      then (Node wi red (Node index false l range wl) wx (setBlack wr), false)
      else
        match wl with
        | Node ni true nl nx nr =>
            (Node ni red (Node index false l range nl) nx (Node wi false nr wx wr),
             false)
        | _ => (Node index false l range (Node wi true wl wx wr), negb red)
        end
  | Leaf => (Node index red l range r, true)
  end.

(** Modelled from the spec: the fixup for a left subtree that has lost
    a black node.  A red sibling becomes black and the parent red, the
    parent is rotated to the left, and the fixup goes on below with
    the new, black sibling. *)
Definition removedLeft (index : Z) (red : bool) (l : tree)
    (range : DxvkAddressRange) (r : tree) : tree * bool :=
  match r with
  | Node wi true wl wx wr =>
      let (p, lost) := removedLeftBlack index true l range wl in
      (Node wi false p wx wr, lost)
  | _ => removedLeftBlack index red l range r
  end.

(** Modelled from the spec: the mirror images, for a right subtree
    that has lost a black node. *)
Definition removedRightBlack (index : Z) (red : bool) (l : tree)
    (range : DxvkAddressRange) (r : tree) : tree * bool :=
  match l with
  | Node wi _ wl wx wr =>
      if isRed wl
      then (Node wi red (setBlack wl) wx (Node index false wr range r), false)
      else
        match wr with
        | Node ni true nl nx nr =>
            (Node ni red (Node wi false wl wx nl) nx (Node index false nr range r),
             false)
        | _ => (Node index false (Node wi true wl wx wr) range r, negb red)
        end
  | Leaf => (Node index red l range r, true)
  end.

Definition removedRight (index : Z) (red : bool) (l : tree)
    (range : DxvkAddressRange) (r : tree) : tree * bool :=
  match l with
  | Node wi true wl wx wr =>
      let (p, lost) := removedRightBlack index true wr range r in
      (Node wi false wl wx p, lost)
  | _ => removedRightBlack index red l range r
  end.

(** Modelled from the spec: the leftmost node of a tree is taken out:
    its index and range, the tree without it, and whether the tree has
    lost a black node. *)
Fixpoint removeMin (t : tree) : option (Z * DxvkAddressRange * tree * bool) :=
  match t with
  | Leaf => None
  | Node i red l x r =>
      match removeMin l with
      | None => let (t', lost) := replaceBy red r in Some (i, x, t', lost)
      | Some (j, m, l', lost) =>
          let (t', lost') :=
            if lost then removedLeft i red l' x r else (Node i red l' x r, false) in
          Some (j, m, t', lost')
      end
  end.

(** Modelled from the spec: textbook removal of a node of colour [red]
    with the children [l] and [r].  A node with two children is
    replaced by its successor, the leftmost node of [r], which takes
    its colour. *)
Definition removeNode (red : bool) (l r : tree) : tree * bool :=
  match l with
  | Leaf => replaceBy red r
  | Node _ _ _ _ _ =>
      match removeMin r with
      | None => replaceBy red l
      | Some (j, m, r', lost) =>
          if lost then removedRight j red l m r' else (Node j red l m r', false)
      end
  end.

(** *** The descent of an insertion *)

(** How the descent of [insertRange] ends: at a node that contains the
    new range; at a node the new range contains or overlaps, which is
    removed ([rest] is the tree without it, [lost] whether it has lost
    a black node); or at the place of a new leaf. *)
Inductive outcome : Type :=
| Covered
| Dominated (index : Z) (node : DxvkAddressRange) (rest : tree) (lost : bool)
| Attach.

(** Modelled from the spec: the descent of section 4.2, step 3, with
    the removal of the dominated node and the fixup above it. *)
Fixpoint descend (range : DxvkAddressRange) (t : tree) : outcome :=
  match t with
  | Leaf => Attach
  | Node i red l x r =>
      if Range.contains x range then Covered
      else if Range.contains range x || Range.overlaps range x
      then let (t', lost) := removeNode red l r in Dominated i x t' lost
      else if Range.lt range x then
        match descend range l with
        | Dominated j y l' lost =>
            let (t', lost') :=
              if lost then removedLeft i red l' x r else (Node i red l' x r, false) in
            Dominated j y t' lost'
        | o => o
        end
      else
        match descend range r with
        | Dominated j y r' lost =>
            let (t', lost') :=
              if lost then removedRight i red l x r' else (Node i red l x r', false) in
            Dominated j y t' lost'
        | o => o
        end
  end.

(** Modelled from the spec: the new red leaf at the end of the descent
    (section 4.2, step 4). *)
Fixpoint attach (range : DxvkAddressRange) (index : Z) (t : tree) : tree :=
  match t with
  | Leaf => Node index true Leaf range Leaf
  | Node i red l x r =>
      if Range.lt range x then Node i red (attach range index l) x r
      else Node i red l x (attach range index r)
  end.

(** *** The tracker *)

(** Modelled from the spec: the two masks of section 3.4, the node
    pool and the tree of each bucket.  Of the node array the model
    keeps the size: the nodes themselves are in the trees. *)
Record t : Type := mk {
  m_rootMaskValid : Z;      (* uint64_t *)
  m_rootMaskSubtree : Z;    (* uint64_t *)
  m_nodes : Z;              (* the size of the node array, the null node included *)
  m_free : list Z;          (* the released indices, the last one first *)
  roots : Z -> tree         (* the tree of each bucket, 1 .. 64 *)
}.

(** The fresh tracker: both masks are initialised to [0u], and the
    pool holds the null node. *)
Definition init : t := mk 0 0 1 [] (fun _ => Leaf).

(** Modelled from the spec: [allocateNode] pops an index from the free
    list, or else extends the node array.  [None] is the exhaustion of
    the [2^21 - 1] node indices. *)
Definition allocateNode (s : t) : option (Z * t) :=
  match m_free s with
  | node :: free =>
      Some (node, mk (m_rootMaskValid s) (m_rootMaskSubtree s) (m_nodes s) free
                     (roots s))
  | [] =>
      if m_nodes s <=? TreeNode.NodeIndexMask
      then Some (m_nodes s,
                 mk (m_rootMaskValid s) (m_rootMaskSubtree s) (m_nodes s + 1) []
                    (roots s))
      else None
  end.

(** Modelled from the spec: [freeNode] pushes the index. *)
Definition freeNode (node : Z) (s : t) : t :=
  mk (m_rootMaskValid s) (m_rootMaskSubtree s) (m_nodes s) (node :: m_free s)
     (roots s).

Definition setRoot (rootIndex : Z) (tree : tree) (s : t) : t :=
  mk (m_rootMaskValid s) (m_rootMaskSubtree s) (m_nodes s) (m_free s)
     (fun i => if i =? rootIndex then tree else roots s i).

(** Modelled from the spec: the bit of bucket [index] in the masks,
    bit 0 for bucket 1. *)
Definition rootBit (index : Z) : Z := u64 (Z.shiftl 1 (index - 1)).

(** Modelled from the spec: the test of the bit of a bucket in
    [rootMaskValid]. *)
Definition rootValid (s : t) (index : Z) : bool :=
  negb (Z.land (m_rootMaskValid s) (rootBit index) =? 0).

(** Modelled from the spec: section 4.1.  The write bucket is searched
    always, the read bucket when the access is a write; a bucket whose
    bit of [rootMaskValid] is clear is not searched. *)
Definition findRange (s : t) (range : DxvkAddressRange) (accessType : DxvkAccess)
  : bool :=
  let w := Tracker.computeRootIndex range Write in
  let r := Tracker.computeRootIndex range Read in
  (rootValid s w && findNode range (roots s w))
  || (DxvkAccess_eqb accessType Write
      && rootValid s r && findNode range (roots s r)).

(** Modelled from the spec: [clear] invalidates all buckets and trees
    and clears the pool. *)
Definition clear (s : t) : t := mk 0 0 1 [] (fun _ => Leaf).

(** [empty()] is [!m_rootMaskValid]. *)
Definition empty (s : t) : bool := m_rootMaskValid s =? 0.

(** Modelled from the spec: section 4.2, steps 3 and 4.  A dominated
    node is removed and freed and the descent starts again with the
    widened range; at the end of the descent a node is allocated,
    attached as a red leaf, the tree is repaired and its root forced
    black.  Every restart follows the removal of a node, so there are
    at most as many restarts as the tree has nodes: [fuel]. *)
Fixpoint insertNode (fuel : nat) (range : DxvkAddressRange) (rootIndex : Z)
    (s : t) : result t :=
  match descend range (roots s rootIndex) with
  | Covered => Done s
  | Dominated node y rest _ =>
      match fuel with
      | O => Unfinished
      | S fuel =>
          insertNode fuel (widen range y) rootIndex
            (setRoot rootIndex rest (freeNode node s))
      end
  | Attach =>
      match allocateNode s with
      | None => Exhausted
      | Some (node, s') =>
          Done (setRoot rootIndex
                  (setBlack (rebalancePostInsert range
                               (attach range node (roots s rootIndex))))
                  s')
      end
  end.

(** Modelled from the spec: section 4.2.  A bucket whose bit is clear
    gets a black root from the pool and its bits are marked. *)
Definition insertRange (s : t) (range : DxvkAddressRange) (accessType : DxvkAccess)
  : result t :=
  let index := Tracker.computeRootIndex range accessType in
  if rootValid s index then
    insertNode (length (inorder (roots s index))) range index s
  else
    match allocateNode s with
    | None => Exhausted
    | Some (node, s') =>
        Done (mk (Z.lor (m_rootMaskValid s') (rootBit index))
                 (Z.lor (m_rootMaskSubtree s') (rootBit index))
                 (m_nodes s') (m_free s')
                 (fun i => if i =? index then Node node false Leaf range Leaf
                           else roots s' i))
    end.

(** The tracker after the calls of [insertRange] for [ops], in
    order. *)
Fixpoint insertRanges (s : t) (ops : list (DxvkAddressRange * DxvkAccess))
  : result t :=
  match ops with
  | [] => Done s
  | (range, accessType) :: ops =>
      match insertRange s range accessType with
      | Done s => insertRanges s ops
      | Exhausted => Exhausted
      | Unfinished => Unfinished
      end
  end.

(** *** Red-black trees *)

(** The number of black nodes on the leftmost path of a tree. *)
Fixpoint blackHeight (t : tree) : nat :=
  match t with
  | Leaf => O
  | Node _ red l _ _ => (if red then 0 else 1) + blackHeight l
  end.

(** Modelled from the spec: the invariants of section 3.3 below the
    root: no red node has a red child, and every path from a node to a
    null descendant has the same number of black nodes. *)
Fixpoint redBlack (t : tree) : bool :=
  match t with
  | Leaf => true
  | Node _ red l _ r =>
      negb (red && (isRed l || isRed r))
      && (blackHeight l =? blackHeight r)%nat
      && redBlack l && redBlack r
  end.

(** What a node of a colour adds to the black height, and what a
    removal has taken from it. *)
Definition ownHeight (red : bool) : nat := if red then 0 else 1.
Definition lostHeight (lost : bool) : nat := if lost then 1 else 0.

(** A tree that is red-black but for its root, which may be red and
    have one red child: a tree on the way of the repair after an
    insertion. *)
Definition nearlyRedBlack (t : tree) : bool :=
  match t with
  | Leaf => true
  | Node _ red l _ r =>
      negb (red && isRed l && isRed r)
      && (blackHeight l =? blackHeight r)%nat
      && redBlack l && redBlack r
  end.

(** The indices of the nodes of a tree. *)
Fixpoint indices (t : tree) : list Z :=
  match t with
  | Leaf => []
  | Node i _ l _ r => indices l ++ i :: indices r
  end.
End RangeTracker.

(** *** Vocabulary for the conflict rule *)

(** The ranges inserted with a given access. *)
Definition pending (ops : list (DxvkAddressRange * DxvkAccess)) (a : DxvkAccess)
  : list DxvkAddressRange :=
  omap (fun p : DxvkAddressRange * DxvkAccess =>
          if DxvkAccess_eqb p.2 a then Some p.1 else None) ops.

(** The ranges of a list and the unions of two overlapping ones, and so
    on: what the pending ranges cover once overlapping ranges are
    joined. *)
Inductive hull (S : list DxvkAddressRange) : DxvkAddressRange -> Prop :=
| hull_one r : r ∈ S -> hull S r
| hull_join x y :
    hull S x -> hull S y -> Range.overlaps x y = true ->
    hull S (RangeTracker.widen x y).

(** The invariant [rangeStart <= rangeEnd] of section 3.1. *)
Definition range_wf (r : DxvkAddressRange) : Prop := rangeStart r <= rangeEnd r.

(** [x] lies before [y] in the order of the trees and does not touch it. *)
Definition before (x y : DxvkAddressRange) : Prop :=
  resource x < resource y
  \/ (resource x = resource y /\ rangeEnd x < rangeStart y).

(** Every range of a list lies before the ranges that follow it. *)
Fixpoint ascending (l : list DxvkAddressRange) : Prop :=
  match l with
  | [] => True
  | x :: l => Forall (before x) l /\ ascending l
  end.

(** The ranges of a bucket tree, in order: well formed, sorted and
    pairwise apart. *)
Definition tree_ok (l : list DxvkAddressRange) : Prop :=
  Forall range_wf l /\ ascending l.

(** What the three ends of the descent mean for the ranges of a tree. *)
Definition descend_post (q : DxvkAddressRange) (t : RangeTracker.tree)
  (o : RangeTracker.outcome) : Prop :=
  match o with
  | RangeTracker.Covered =>
      exists x, x ∈ RangeTracker.inorder t /\ Range.contains x q = true
  | RangeTracker.Dominated _ y t' _ =>
      exists l1 l2,
        RangeTracker.inorder t = l1 ++ y :: l2
        /\ RangeTracker.inorder t' = l1 ++ l2
        /\ Range.overlaps q y = true
  | RangeTracker.Attach =>
      exists l1 l2,
        RangeTracker.inorder t = l1 ++ l2
        /\ (forall index,
              RangeTracker.inorder (RangeTracker.attach q index t) = l1 ++ q :: l2)
        /\ Forall (fun y => before y q) l1 /\ Forall (before q) l2
  end.

(** The tracker after the insertions [ops]: every bucket tree is in
    order, has a node that contains each range inserted into the bucket,
    holds only joins of the ranges inserted with the access of the
    bucket, and is empty when its bit of the mask is clear. *)
Definition tracker_inv (ops : list (DxvkAddressRange * DxvkAccess))
  (s : RangeTracker.t) : Prop :=
  forall b,
    tree_ok (RangeTracker.inorder (RangeTracker.roots s b))
    /\ (forall r a, (r, a) ∈ ops -> Tracker.computeRootIndex r a = b ->
          exists n, n ∈ RangeTracker.inorder (RangeTracker.roots s b)
                    /\ Range.contains n r = true)
    /\ (forall n, n ∈ RangeTracker.inorder (RangeTracker.roots s b) ->
          exists a, Tracker.computeRootIndex n a = b /\ hull (pending ops a) n)
    /\ (RangeTracker.rootValid s b = false ->
        RangeTracker.roots s b = RangeTracker.Leaf).

(** The number of nodes of the bucket trees. *)
Definition live_nodes (s : RangeTracker.t) : nat :=
  sum_list_with
    (fun b => length (RangeTracker.inorder (RangeTracker.roots s (Z.of_nat b))))
    (seq 1 64).

(** The pool after [n] insertions: an index of the node array belongs
    to the null node, to a node of a tree or to the free list, and there
    are at most [n] nodes. *)
Definition pool_inv (n : nat) (s : RangeTracker.t) : Prop :=
  Z.of_nat (live_nodes s) + Z.of_nat (length (RangeTracker.m_free s))
  = RangeTracker.m_nodes s - 1
  /\ (live_nodes s <= n)%nat.

(** Modelled from the spec: every bucket tree is a red-black tree with
    a black root (section 3.3). *)
Definition redBlack_inv (s : RangeTracker.t) : Prop :=
  forall b,
    RangeTracker.redBlack (RangeTracker.roots s b) = true
    /\ RangeTracker.isRed (RangeTracker.roots s b) = false.

(** The indices of the nodes of the bucket trees. *)
Definition tree_indices (s : RangeTracker.t) : list Z :=
  concat (map (fun b => RangeTracker.indices (RangeTracker.roots s (Z.of_nat b)))
              (seq 1 64)).

(** Modelled from the spec: the indices of the nodes of the trees and
    the free indices are pairwise distinct indices of the node array,
    none of them the index 0 of the null node, and the node array has at
    most [2^21] entries. *)
Definition index_inv (s : RangeTracker.t) : Prop :=
  NoDup (tree_indices s ++ RangeTracker.m_free s)
  /\ Forall (fun i => 1 <= i < RangeTracker.m_nodes s)
            (tree_indices s ++ RangeTracker.m_free s)
  /\ 1 <= RangeTracker.m_nodes s <= TreeNode.NodeIndexMask + 1.

(** [n] ranges of one resource that lie apart: [[0,0]], [[2,2]], ... *)
Definition apart_ranges (n : nat) : list (DxvkAddressRange * DxvkAccess) :=
  map (fun i => (mkRange 7 (2 * Z.of_nat i) (2 * Z.of_nat i), Read)) (seq 0 n).

(** Two overlapping writes, and a query that neither contains. *)
Definition sample_ranges : list (DxvkAddressRange * DxvkAccess) :=
  [(mkRange 7 0 10, Write); (mkRange 7 5 20, Write)].

(** Reads and writes of two resources, some of them overlapping. *)
Definition sample_inserts : list (DxvkAddressRange * DxvkAccess) :=
  [(mkRange 7 100 199, Read); (mkRange 7 150 175, Read);
   (mkRange 7 300 400, Write); (mkRange 8 0 50, Write);
   (mkRange 7 180 250, Read); (mkRange 7 0 999, Read)].

(** ** Vocabulary for the further properties *)

(** The address [p] lies between the bounds of the range [r]. *)
Definition in_range (r : DxvkAddressRange) (p : Z) : Prop :=
  rangeStart r <= p <= rangeEnd r.

(** The byte at the address [p] lies in the buffer slice [a]. *)
Definition BufferSlice_covers (a : BufferSlice.t) (p : Z) : Prop :=
  BufferSlice.m_loAddr a <= p < BufferSlice.m_hiAddr a.

(** The subresource of the aspect bit [aspect], the array layer [layer]
    and the mip level [level] lies in the image slice [a]. *)
Definition ImageSlice_covers (a : ImageSlice.t) (aspect layer level : Z) : Prop :=
  Z.testbit (ImageSlice.m_aspects a) aspect = true
  /\ ImageSlice.m_minLayer a <= layer < ImageSlice.m_maxLayer a
  /\ ImageSlice.m_minLevel a <= level < ImageSlice.m_maxLevel a.

(** The bounds of a buffer slice are in order. *)
Definition BufferSlice_ordered (a : BufferSlice.t) : Prop :=
  BufferSlice.m_loAddr a <= BufferSlice.m_hiAddr a.

(** The layer bounds and the level bounds of an image slice are in
    order. *)
Definition ImageSlice_ordered (a : ImageSlice.t) : Prop :=
  ImageSlice.m_minLayer a <= ImageSlice.m_maxLayer a
  /\ ImageSlice.m_minLevel a <= ImageSlice.m_maxLevel a.

(** The header a fresh node ([header = 0u]) gets from the four setters. *)
Definition header_of_fields (red : bool) (left right parent : Z) : Z :=
  TreeNode.setParent parent
    (TreeNode.setChild 1 right
       (TreeNode.setChild 0 left (TreeNode.setRed red 0))).

(** ** The table of the subresource set in the states that are reached *)

Section SafeInv.
Context {T : Type} `{BarrierSlice T}.
Import SubresourceSet.

(** The number of live entries of a table. *)
Definition live_count (v : Z) (hm : list (HashEntry T)) : nat :=
  length (omap (live_strip v) hm).

(** Whether an entry is live, as a number. *)
Definition live_bit (v : Z) (e : HashEntry T) : nat :=
  length (option_list (live_strip v e)).

(** The table has [size] slots and the index mask is that of [size]:
    there is no table yet, or its size is a power of two from 64 on. *)
Definition table_shape (s : SubresourceSet.t T) (size : Z) : Prop :=
  Z.of_nat (length (m_hashMap s)) = size
  /\ ((size = 0 /\ m_indexMask s = 0)
      \/ exists k, 6 <= k /\ size = 2 ^ k /\ m_indexMask s = 2 ^ k - 1).

(** The load of the table after [n] calls: [m_used] bounds the number
    of live entries and stays below the threshold of the growth. *)
Definition load_inv (n : nat) (s : SubresourceSet.t T) : Prop :=
  exists size,
    table_shape s size
    /\ 0 <= m_used s <= Z.of_nat n
    /\ Z.of_nat (live_count (m_version s) (m_hashMap s)) <= m_used s
    /\ 10 * m_used s < 7 * size + 10
    /\ 7 * size <= 448 + 20 * Z.of_nat n.

(** The invariant of the states reached by [n] calls, whatever the
    slices. *)
Definition safe_inv (n : nat) (s : SubresourceSet.t T) : Prop :=
  (exists root, struct_inv root s)
  /\ m_version s <= Z.of_nat n + 1
  /\ (length (m_list s) <= 2 * n)%nat
  /\ load_inv n s.

(** The slices inserted since the last [clear], oldest first. *)
Definition since_step (acc : list (Z * T)) (c : call T) : list (Z * T) :=
  match c with
  | Insert resource slice => acc ++ [(resource, slice)]
  | Clear => []
  | _ => acc
  end.

Definition since_clear (calls : list (call T)) : list (Z * T) :=
  fold_left since_step calls [].
End SafeInv.

Section EntryInv.
Context {T : Type} `{BarrierSlice T}.
Import SubresourceSet.

(** Every live entry answers for slices that were inserted for its key
    since the last [clear], in the order of their insertion. *)
Definition entry_inv (dom ok : T -> Prop) (ops : list (Z * T))
    (s : SubresourceSet.t T) : Prop :=
  forall i e,
    m_hashMap s !! i = Some e -> he_version e = m_version s ->
    exists hist c,
      chain (m_list s) (he_next e) c
      /\ hist <> []
      /\ sublist hist (history ops (he_key e))
      /\ entry_sound hist (he_data e) c.*2
      /\ entry_exact dom ok hist (he_data e) c.*2.

(** The slices a call inserts are within [dom]. *)
Definition call_within (dom : T -> Prop) (c : call T) : Prop :=
  match c with
  | Insert _ slice => dom slice
  | _ => True
  end.
End EntryInv.

(** A short run of an image set, all in the colour aspect: two slices
    of one image that merge, a query, a clear, and a slice of another
    image. *)
Definition sample_image_calls : list (SubresourceSet.call ImageSlice.t) :=
  [SubresourceSet.Insert 1 (ImageSlice.make (mkSubresourceRange 1 0 2 0 1) 1);
   SubresourceSet.Insert 1 (ImageSlice.make (mkSubresourceRange 1 2 2 0 1) 1);
   SubresourceSet.GetAccess 1 (ImageSlice.make (mkSubresourceRange 1 3 1 0 1) 2);
   SubresourceSet.Clear;
   SubresourceSet.Insert 2 (ImageSlice.make (mkSubresourceRange 1 0 1 0 6) 2)].

(** ** The superset invariant in the states that are reached *)

(** A buffer slice lies within another one: its bounds and its flags. *)
Definition BufferSlice_within (x d : BufferSlice.t) : Prop :=
  BufferSlice.m_loAddr d <= BufferSlice.m_loAddr x
  /\ BufferSlice.m_hiAddr x <= BufferSlice.m_hiAddr d
  /\ flags_subseteq (BufferSlice.m_access x) (BufferSlice.m_access d).

(** An image slice lies within another one: its aspects, its bounds and
    its flags. *)
Definition ImageSlice_within (x d : ImageSlice.t) : Prop :=
  flags_subseteq (ImageSlice.m_aspects x) (ImageSlice.m_aspects d)
  /\ ImageSlice.m_minLayer d <= ImageSlice.m_minLayer x
  /\ ImageSlice.m_maxLayer x <= ImageSlice.m_maxLayer d
  /\ ImageSlice.m_minLevel d <= ImageSlice.m_minLevel x
  /\ ImageSlice.m_maxLevel x <= ImageSlice.m_maxLevel d
  /\ flags_subseteq (ImageSlice.m_access x) (ImageSlice.m_access d).

(** What the superset invariant needs of a slice type: a slice lies
    within the slices it is merged into, and a slice that is not empty
    is overlapped by the slices it lies within. *)
Class BarrierSliceWithin (T : Type) `{BarrierSliceLaws T} : Type := {
  slice_within : T -> T -> Prop;
  slice_within_merge_l a b : slice_within a (slice_merge a b);
  slice_within_merge_r a b : slice_within b (slice_merge a b);
  slice_within_merge x d s :
    slice_within x d -> slice_within (slice_merge x s) (slice_merge d s);
  slice_within_keep x d s :
    slice_within x d -> slice_within x (slice_merge d s);
  slice_within_overlaps x d :
    slice_within x d -> slice_nonempty x -> slice_overlaps d x = true;
  slice_within_flags x d :
    slice_within x d ->
    flags_subseteq (slice_getAccess x) (slice_getAccess d)
}.

Section Cover.
Context {T : Type} `{BarrierSliceLaws T}.
Import SubresourceSet.

(** The part of the superset invariant that holds whatever the
    slices: the chain of every live hash entry is well formed, the
    entry has the access flags of every slice of the chain, and its
    slice overlaps every slice of the chain that is not empty. *)
Definition chain_invariant (s : SubresourceSet.t T) : Prop :=
  forall i e,
    m_hashMap s !! i = Some e -> he_version e = m_version s ->
    exists c,
      chain (m_list s) (he_next e) c
      /\ Forall (fun jx : Z * T =>
                   flags_subseteq (slice_getAccess jx.2)
                                  (slice_getAccess (he_data e))
                   /\ (slice_nonempty jx.2 ->
                       slice_overlaps (he_data e) jx.2 = true)) c.

(** The number of [clear] calls. *)
Fixpoint clears (calls : list (call T)) : nat :=
  match calls with
  | [] => 0
  | Clear :: calls => S (clears calls)
  | _ :: calls => clears calls
  end.

(** The largest number of [insert] calls with no [clear] between
    them, after [i] such calls. *)
Fixpoint most_inserts_from (i : nat) (calls : list (call T)) : nat :=
  match calls with
  | [] => i
  | Insert _ _ :: calls => most_inserts_from (S i) calls
  | Clear :: calls => Nat.max i (most_inserts_from 0 calls)
  | _ :: calls => most_inserts_from i calls
  end.

Definition most_inserts (calls : list (call T)) : nat :=
  most_inserts_from 0 calls.

(** The invariant of the states that are reached by [c] calls of
    [clear] and then [i] calls of [insert], with at most [n] calls of
    [insert] between two calls of [clear]: the version stamp grows
    with the calls of [clear] and with the size of the table, the
    overflow list with the calls of [insert] since the last [clear]. *)
Definition count_inv (n c i : nat) (s : SubresourceSet.t T) : Prop :=
  (exists root, struct_inv root s)
  /\ m_version s
     <= Z.of_nat c + 1 + Z.log2 (Z.of_nat (length (m_hashMap s)))
  /\ (length (m_list s) <= 2 * i)%nat
  /\ load_inv n s
  /\ m_used s <= Z.of_nat i
  /\ (i <= n)%nat.
End Cover.

Section Within.
Context {T : Type} `{BarrierSliceWithin T}.
Import SubresourceSet.

(** Every slice of the chain of a live entry lies within the slice of
    the entry; when the slices [ops] inserted since the last [clear]
    are not empty, neither the slices of the entries nor those of
    their chains are. *)
Definition entries_within (ops : list (Z * T)) (s : SubresourceSet.t T) : Prop :=
  forall i e,
    m_hashMap s !! i = Some e -> he_version e = m_version s ->
    exists c,
      chain (m_list s) (he_next e) c
      /\ Forall (fun x => slice_within x (he_data e)) c.*2
      /\ (Forall (fun p : Z * T => slice_nonempty p.2) ops ->
          slice_nonempty (he_data e) /\ Forall slice_nonempty c.*2).
End Within.

(** A run of a buffer set that ends with an entry and a chain of two
    slices: a slice and a query, a clear, two slices of one buffer that
    cannot merge, a slice of another buffer, and a query. *)
Definition sample_chain_calls : list (SubresourceSet.call BufferSlice.t) :=
  [SubresourceSet.Insert 1 (BufferSlice.make 0 16 1);
   SubresourceSet.GetAccess 1 (BufferSlice.make 0 4 1);
   SubresourceSet.Clear;
   SubresourceSet.Insert 1 (BufferSlice.make 0 16 1);
   SubresourceSet.Insert 1 (BufferSlice.make 32 16 2);
   SubresourceSet.Insert 2 (BufferSlice.make 0 8 1);
   SubresourceSet.IsDirty 1 (BufferSlice.make 40 4 1)].

(** Two slices of one buffer that cannot merge, and then [2^64] calls
    of [clear]: the version stamp comes round. *)
Definition version_wrap_calls : list (SubresourceSet.call BufferSlice.t) :=
  [SubresourceSet.Insert 1 (BufferSlice.make 0 16 1);
   SubresourceSet.Insert 1 (BufferSlice.make 32 16 2)]
  ++ replicate (Z.to_nat (2 ^ 64)) SubresourceSet.Clear.

(** Slices of two buffers, without a call of [clear]: two slices of
    buffer 2, then [2^32 - 1] slices of buffer 1, which fill the
    overflow list up to the index [NoEntry]. *)
Definition index_wrap_prefix : list (SubresourceSet.call BufferSlice.t) :=
  [SubresourceSet.Insert 2 (BufferSlice.make 0 1 2);
   SubresourceSet.Insert 2 (BufferSlice.make 8 1 2);
   SubresourceSet.Insert 1 (BufferSlice.make 0 1 1);
   SubresourceSet.Insert 1 (BufferSlice.make 100 1 1)].

Definition index_wrap_calls : list (SubresourceSet.call BufferSlice.t) :=
  index_wrap_prefix
  ++ replicate (Z.to_nat (2 ^ 32 - 4))
               (SubresourceSet.Insert 1 (BufferSlice.make 0 1 1))
  ++ [SubresourceSet.Insert 1 (BufferSlice.make 200 1 1)].

(** The hash table and the overflow list after the first four calls. *)
Definition index_wrap_table : list (SubresourceSet.HashEntry BufferSlice.t) :=
  Eval vm_compute in
    match SubresourceSet.run SubresourceSet.init index_wrap_prefix with
    | Some s => SubresourceSet.m_hashMap s
    | None => []
    end.

Definition index_wrap_list : list (SubresourceSet.ListEntry BufferSlice.t) :=
  Eval vm_compute in
    match SubresourceSet.run SubresourceSet.init index_wrap_prefix with
    | Some s => SubresourceSet.m_list s
    | None => []
    end.

(** The states of the run: the table after the first four calls, the
    head [next] of the chain of buffer 1, and the list [l]. *)
Definition index_wrap_state (l : list (SubresourceSet.ListEntry BufferSlice.t))
    (next : Z) : SubresourceSet.t BufferSlice.t :=
  SubresourceSet.mk 2 2 63 l
    (<[62%nat := SubresourceSet.mkHashEntry 2 1 (BufferSlice.mk 0 101 1) next]>
       index_wrap_table).

(** * Properties *)

(** ** Node header *)

Lemma NodeIndexMask_ones : TreeNode.NodeIndexMask = Z.ones 21.
Proof. reflexivity. Qed.

Lemma u64_testbit x i : Z.testbit (u64 x) i = (i <? 64) && Z.testbit x i.
Proof. unfold u64. apply Z.testbit_mod_pow2. lia. Qed.

Lemma u32_small x : 0 <= x < 2 ^ 32 -> u32 x = x.
Proof. intros. unfold u32. apply Z.mod_small. lia. Qed.

Lemma u64_small x : 0 <= x < 2 ^ 64 -> u64 x = x.
Proof. intros. unfold u64. apply Z.mod_small. lia. Qed.

Lemma land_ones21_bound x : 0 <= Z.land x (Z.ones 21) < 2 ^ 32.
Proof.
  rewrite Z.land_ones by lia.
  pose proof (Z.mod_pos_bound x (2 ^ 21) ltac:(lia)). lia.
Qed.

Lemma not64_testbit x i :
  0 <= i -> Z.testbit (not64 x) i = xorb (Z.testbit x i) (i <? 64).
Proof.
  intros Hi. unfold not64. rewrite Z.lxor_spec.
  rewrite Z.testbit_ones_nonneg by lia. reflexivity.
Qed.

Lemma small_testbit v n i : 0 <= v < 2 ^ n -> n <= i -> Z.testbit v i = false.
Proof.
  intros Hv Hi. destruct (Z.le_gt_cases 0 n) as [Hn|Hn].
  - rewrite <- (Z.mod_small v (2 ^ n)) by lia.
    apply Z.mod_pow2_bits_high. lia.
  - rewrite Z.pow_neg_r in Hv by lia. lia.
Qed.

Ltac header_unfold :=
  unfold TreeNode.parent, TreeNode.child, TreeNode.setParent, TreeNode.setChild,
    TreeNode.setRed, TreeNode.childShift;
  rewrite ?NodeIndexMask_ones; cbn [Z.eqb];
  rewrite ?(u32_small _ (land_ones21_bound _));
  unfold u64, not64.

Ltac header_finish :=
  repeat match goal with
    | Hv : 0 <= ?v < 2 ^ 21 |- context [Z.testbit ?v ?i] =>
        rewrite (small_testbit v 21 i Hv) by lia
    end;
  repeat match goal with
    | |- context [Z.testbit ?v ?i] => rewrite (Z.testbit_neg_r v i) by lia
    end;
  try reflexivity; try btauto.

Ltac header_blast := Z.bitblast; header_finish.

Lemma isRed_bit0 h : TreeNode.isRed h = Z.testbit h 0.
Proof.
  unfold TreeNode.isRed. change 1 with (Z.ones 1).
  rewrite Z.land_ones by lia. change (2 ^ 1) with 2.
  rewrite <- Z.bit0_mod. destruct (Z.testbit h 0); reflexivity.
Qed.

Lemma b2z_bit0 (b : bool) i : 0 <= i -> Z.testbit (Z.b2z b) i = (i =? 0) && b.
Proof.
  intros Hi. destruct b; cbn [Z.b2z].
  - destruct (Z.eqb_spec i 0) as [->|Hne]; [reflexivity|].
    change 1 with (2 ^ 0). rewrite Z.pow2_bits_false by lia. reflexivity.
  - rewrite Z.testbit_0_l, andb_false_r. reflexivity.
Qed.

Lemma parent_setParent v h :
  0 <= v < 2 ^ 21 -> TreeNode.parent (TreeNode.setParent v h) = v.
Proof. intros Hv. header_unfold. header_blast. Qed.

Lemma child_setParent i v h :
  TreeNode.child i (TreeNode.setParent v h) = TreeNode.child i h.
Proof. header_unfold. destruct (i =? 0); header_blast. Qed.

Lemma isRed_setParent v h :
  TreeNode.isRed (TreeNode.setParent v h) = TreeNode.isRed h.
Proof.
  rewrite !isRed_bit0. header_unfold. Z.bitblast_core; header_finish.
Qed.

Lemma child_setChild_same i v h :
  0 <= v < 2 ^ 21 -> TreeNode.child i (TreeNode.setChild i v h) = v.
Proof. intros Hv. header_unfold. destruct (i =? 0); header_blast. Qed.

Lemma child_setChild_other i j v h :
  (i =? 0) <> (j =? 0) -> 0 <= v < 2 ^ 21 ->
  TreeNode.child j (TreeNode.setChild i v h) = TreeNode.child j h.
Proof.
  intros Hij Hv. header_unfold.
  destruct (i =? 0), (j =? 0); try congruence; header_blast.
Qed.

Lemma parent_setChild i v h :
  0 <= v < 2 ^ 21 ->
  TreeNode.parent (TreeNode.setChild i v h) = TreeNode.parent h.
Proof. intros Hv. header_unfold. destruct (i =? 0); header_blast. Qed.

Lemma isRed_setChild i v h :
  TreeNode.isRed (TreeNode.setChild i v h) = TreeNode.isRed h.
Proof.
  rewrite !isRed_bit0. header_unfold.
  destruct (i =? 0); Z.bitblast_core; header_finish.
Qed.

Lemma setRed_testbit b h i :
  0 <= i < 64 ->
  Z.testbit (TreeNode.setRed b h) i
  = if i =? 0 then b else Z.testbit h i.
Proof.
  intros Hi. unfold TreeNode.setRed.
  rewrite Z.lor_spec, Z.land_spec, u64_testbit, not64_testbit, u64_testbit by lia.
  change (Z.testbit 1 i) with (Z.testbit (Z.b2z true) i).
  rewrite !b2z_bit0 by lia.
  replace (i <? 64) with true by (symmetry; apply Z.ltb_lt; lia).
  destruct (Z.eqb_spec i 0) as [->|Hne]; cbn [andb xorb].
  - destruct (Z.testbit h 0), b; reflexivity.
  - rewrite andb_true_r, orb_false_r. reflexivity.
Qed.

Lemma isRed_setRed b h : TreeNode.isRed (TreeNode.setRed b h) = b.
Proof. rewrite isRed_bit0, setRed_testbit by lia. reflexivity. Qed.

Lemma field_setRed b h shift :
  1 <= shift <= 43 ->
  Z.land (Z.shiftr (TreeNode.setRed b h) shift) (Z.ones 21)
  = Z.land (Z.shiftr h shift) (Z.ones 21).
Proof.
  intros Hs. apply Z.bits_inj'; intros n Hn.
  rewrite !Z.land_spec, !Z.shiftr_spec, Z.testbit_ones_nonneg by lia.
  destruct (Z.ltb_spec n 21); [|rewrite !andb_false_r; reflexivity].
  rewrite setRed_testbit by lia.
  destruct (Z.eqb_spec (n + shift) 0); [lia | reflexivity].
Qed.

Lemma child_setRed i b h :
  TreeNode.child i (TreeNode.setRed b h) = TreeNode.child i h.
Proof.
  unfold TreeNode.child, TreeNode.childShift. rewrite NodeIndexMask_ones.
  f_equal. apply field_setRed. destruct (i =? 0); lia.
Qed.

Lemma parent_setRed b h :
  TreeNode.parent (TreeNode.setRed b h) = TreeNode.parent h.
Proof.
  unfold TreeNode.parent. rewrite NodeIndexMask_ones.
  f_equal. apply field_setRed. lia.
Qed.

(** C10: the packed header behaves as four independent fields.  For a
    node index [v < 2^21]: [setParent v] makes [parent] return [v] and
    leaves the colour and both children alone; [setChild i v] (for the
    left child, [i = 0], and the right child, [i = 1]) makes [child i]
    return [v] and leaves the colour, the other child and the parent
    alone; [setRed b] makes [isRed] return [b] and leaves both children
    and the parent alone. *)
Theorem header_fields_independent (h v : Z) (b : bool) :
  0 <= v < 2 ^ 21 ->
  (TreeNode.parent (TreeNode.setParent v h) = v
   /\ TreeNode.isRed (TreeNode.setParent v h) = TreeNode.isRed h
   /\ TreeNode.child 0 (TreeNode.setParent v h) = TreeNode.child 0 h
   /\ TreeNode.child 1 (TreeNode.setParent v h) = TreeNode.child 1 h)
  /\ (forall i, i = 0 \/ i = 1 ->
        TreeNode.child i (TreeNode.setChild i v h) = v
        /\ TreeNode.isRed (TreeNode.setChild i v h) = TreeNode.isRed h
        /\ TreeNode.child (1 - i) (TreeNode.setChild i v h) = TreeNode.child (1 - i) h
        /\ TreeNode.parent (TreeNode.setChild i v h) = TreeNode.parent h)
  /\ (TreeNode.isRed (TreeNode.setRed b h) = b
      /\ TreeNode.child 0 (TreeNode.setRed b h) = TreeNode.child 0 h
      /\ TreeNode.child 1 (TreeNode.setRed b h) = TreeNode.child 1 h
      /\ TreeNode.parent (TreeNode.setRed b h) = TreeNode.parent h).
Proof.
  intros Hv. split; [|split].
  - auto using parent_setParent, isRed_setParent, child_setParent.
  - intros i Hi. repeat split.
    + now apply child_setChild_same.
    + apply isRed_setChild.
    + apply child_setChild_other; [|assumption].
      destruct Hi as [-> | ->]; vm_compute; discriminate.
    + now apply parent_setChild.
  - auto using isRed_setRed, child_setRed, parent_setRed.
Qed.

(** A node whose header has every bit set, given parent index 5. *)
Lemma header_fields_independent_witness :
  TreeNode.parent (TreeNode.setParent 5 (2 ^ 64 - 1)) = 5
  /\ TreeNode.child 1 (TreeNode.setParent 5 (2 ^ 64 - 1)) = 2 ^ 21 - 1.
Proof.
  destruct (header_fields_independent (2 ^ 64 - 1) 5 true ltac:(lia))
    as [(Hp & _ & _ & Hc) _].
  split; [exact Hp | rewrite Hc; reflexivity].
Defined.

(** ** Bucket routing *)

Lemma lxor_shiftr_nonneg h n : 0 <= h -> 0 <= Z.lxor h (Z.shiftr h n).
Proof.
  intros Hh. apply Z.lxor_nonneg. split; intros _; [|assumption].
  apply Z.shiftr_nonneg. assumption.
Qed.

(** C9: for a 64-bit resource value the bucket index computed by
    [computeRootIndex] is the formula of the specification evaluated with
    wrap-around arithmetic; it lies in [1..32] for Read and in [33..64]
    for Write, and is never 0. *)
Theorem computeRootIndex_spec (range : DxvkAddressRange) (access : DxvkAccess) :
  0 <= resource range < 2 ^ 64 ->
  Tracker.computeRootIndex range access = spec_bucket (resource range) access
  /\ match access with
     | Read => 1 <= Tracker.computeRootIndex range access <= 32
     | Write => 33 <= Tracker.computeRootIndex range access <= 64
     end
  /\ Tracker.computeRootIndex range access <> 0.
Proof.
  intros Hr.
  assert (E : Tracker.computeRootIndex range access
              = spec_bucket (resource range) access).
  { unfold Tracker.computeRootIndex, spec_bucket, Tracker.HashTableSize.
    rewrite (u64_small (resource range)) by assumption.
    fold (u64 (resource range * 93887)).
    set (h := Z.lxor _ _).
    assert (Hh : 0 <= h).
    { apply lxor_shiftr_nonneg. unfold u64. apply Z.mod_pos_bound. lia. }
    pose proof (Z.mod_pos_bound h 32 ltac:(lia)) as Hm.
    rewrite (u64_small (1 + h mod 32)) by lia.
    destruct access; cbn [DxvkAccess_eqb];
      rewrite u64_small by lia; rewrite u32_small by lia; lia. }
  rewrite E. unfold spec_bucket.
  set (h := Z.lxor _ _).
  pose proof (Z.mod_pos_bound h 32 ltac:(lia)) as Hm.
  destruct access; lia.
Qed.

Lemma computeRootIndex_spec_witness :
  Tracker.computeRootIndex (mkRange 7 0 99) Write = 52.
Proof.
  destruct (computeRootIndex_spec (mkRange 7 0 99) Write) as (E & _ & _).
  - cbn [resource]. lia.
  - rewrite E. reflexivity.
Defined.

(** ** Slice algebra *)

Lemma land_lor_nonzero_l a b x : Z.land a x <> 0 -> Z.land (Z.lor a b) x <> 0.
Proof.
  intros Ha Hab. rewrite Z.land_lor_distr_l in Hab.
  apply Z.lor_eq_0_iff in Hab. tauto.
Qed.

Lemma land_lor_nonzero_r a b x : Z.land b x <> 0 -> Z.land (Z.lor a b) x <> 0.
Proof. rewrite Z.lor_comm. apply land_lor_nonzero_l. Qed.

Lemma BufferSlice_overlaps_spec a x :
  BufferSlice.overlaps a x = true
  <-> BufferSlice.m_loAddr x < BufferSlice.m_hiAddr a
      /\ BufferSlice.m_loAddr a < BufferSlice.m_hiAddr x.
Proof.
  unfold BufferSlice.overlaps.
  rewrite andb_true_iff, Z.gtb_ltb, !Z.ltb_lt. tauto.
Qed.

Lemma ImageSlice_overlaps_spec a x :
  ImageSlice.overlaps a x = true
  <-> Z.land (ImageSlice.m_aspects a) (ImageSlice.m_aspects x) <> 0
      /\ ImageSlice.m_minLayer a < ImageSlice.m_maxLayer x
      /\ ImageSlice.m_minLayer x < ImageSlice.m_maxLayer a
      /\ ImageSlice.m_minLevel a < ImageSlice.m_maxLevel x
      /\ ImageSlice.m_minLevel x < ImageSlice.m_maxLevel a.
Proof.
  unfold ImageSlice.overlaps.
  rewrite !andb_true_iff, !Z.gtb_ltb, !Z.ltb_lt, negb_true_iff, Z.eqb_neq.
  tauto.
Qed.

Lemma BufferSlice_merge_overlaps_l a b x :
  BufferSlice.overlaps a x = true ->
  BufferSlice.overlaps (BufferSlice.merge a b) x = true.
Proof. rewrite !BufferSlice_overlaps_spec. cbn. lia. Qed.

Lemma BufferSlice_merge_overlaps_r a b x :
  BufferSlice.overlaps b x = true ->
  BufferSlice.overlaps (BufferSlice.merge a b) x = true.
Proof. rewrite !BufferSlice_overlaps_spec. cbn. lia. Qed.

Lemma ImageSlice_merge_overlaps_l a b x :
  ImageSlice.overlaps a x = true ->
  ImageSlice.overlaps (ImageSlice.merge a b) x = true.
Proof.
  rewrite !ImageSlice_overlaps_spec. cbn. intros (Ha & ?).
  split; [now apply land_lor_nonzero_l | lia].
Qed.

Lemma ImageSlice_merge_overlaps_r a b x :
  ImageSlice.overlaps b x = true ->
  ImageSlice.overlaps (ImageSlice.merge a b) x = true.
Proof.
  rewrite !ImageSlice_overlaps_spec. cbn. intros (Ha & ?).
  split; [now apply land_lor_nonzero_r | lia].
Qed.

(** C8: merging is monotone with respect to overlap, for buffer slices
    and for image slices: whatever [a] or [b] overlapped before
    [a.merge(b)], the merged [a] overlaps. *)
Theorem merge_overlaps_monotone :
  (forall a b x : BufferSlice.t,
      BufferSlice.overlaps a x = true \/ BufferSlice.overlaps b x = true ->
      BufferSlice.overlaps (BufferSlice.merge a b) x = true)
  /\ (forall a b x : ImageSlice.t,
      ImageSlice.overlaps a x = true \/ ImageSlice.overlaps b x = true ->
      ImageSlice.overlaps (ImageSlice.merge a b) x = true).
Proof.
  split; intros a b x [Ha | Hb];
    auto using BufferSlice_merge_overlaps_l, BufferSlice_merge_overlaps_r,
      ImageSlice_merge_overlaps_l, ImageSlice_merge_overlaps_r.
Qed.

(** Two slices that do not touch, and a query that only the second one
    overlaps. *)
Lemma merge_overlaps_monotone_witness :
  BufferSlice.overlaps
    (BufferSlice.merge (BufferSlice.make 0 64 1) (BufferSlice.make 128 64 2))
    (BufferSlice.make 140 10 1) = true
  /\ ImageSlice.overlaps
       (ImageSlice.merge
          (ImageSlice.make (mkSubresourceRange 1 0 4 0 2) 1)
          (ImageSlice.make (mkSubresourceRange 2 0 4 2 2) 1))
       (ImageSlice.make (mkSubresourceRange 2 1 1 3 1) 2) = true.
Proof.
  split.
  - apply (proj1 merge_overlaps_monotone). right. reflexivity.
  - apply (proj2 merge_overlaps_monotone). right. reflexivity.
Defined.

(** *** Merging image slices *)

(** C5, as the code has it: along exactly one matching axis the slices
    merge iff the access flags are equal and the ranges of the other axis
    touch; with neither axis matching they do not merge; with both axes
    matching they merge, whatever the access flags. *)
Theorem canMerge_cases (a b : ImageSlice.t) :
  ImageSlice.canMerge a b =
  match sameLayers a b, sameLevels a b with
  | true, true => true
  | false, false => false
  | true, false =>
      (ImageSlice.m_access a =? ImageSlice.m_access b)
      && touching (ImageSlice.m_minLevel a) (ImageSlice.m_maxLevel a)
                  (ImageSlice.m_minLevel b) (ImageSlice.m_maxLevel b)
  | false, true =>
      (ImageSlice.m_access a =? ImageSlice.m_access b)
      && touching (ImageSlice.m_minLayer a) (ImageSlice.m_maxLayer a)
                  (ImageSlice.m_minLayer b) (ImageSlice.m_maxLayer b)
  end.
Proof.
  unfold ImageSlice.canMerge, sameLayers, sameLevels, touching, Flags.eqb.
  destruct (_ && _), (_ && _); cbn [Bool.eqb];
    try reflexivity;
    destruct (ImageSlice.m_access a =? ImageSlice.m_access b); reflexivity.
Qed.

(** C5 as stated fails: with both ranges equal the code merges a Read
    slice with a Write slice. *)
Lemma canMerge_same_ranges_counterexample :
  ~ (forall a b : ImageSlice.t,
        sameLayers a b = true -> sameLevels a b = true ->
        (ImageSlice.canMerge a b = true
         <-> ImageSlice.m_access a = ImageSlice.m_access b)).
Proof.
  intros Hclaim.
  specialize (Hclaim (ImageSlice.mk 1 0 1 0 1 1) (ImageSlice.mk 1 0 1 0 1 2)
                eq_refl eq_refl).
  destruct Hclaim as [Hc _]. specialize (Hc eq_refl). discriminate Hc.
Qed.

(** ** The subresource set: clearing *)

Section SetClear.
Context {T : Type} `{BarrierSlice T}.
Import SubresourceSet.

Lemma findHashEntry_clear (s : SubresourceSet.t T) key :
  findHashEntry (clear s) key = Some None.
Proof. reflexivity. Qed.

(** C6: after [clear()], whatever the set held, [getAccess] returns the
    empty flag set and [isDirty] returns false for every key and
    slice, the count of live entries is 0 and [empty()] is true; the
    queries leave the set as it is, so this stays so until the next
    insertion. *)
Theorem clear_forgets_everything (s : SubresourceSet.t T) :
  m_used (clear s) = 0
  /\ empty (clear s) = true
  /\ (forall resource slice,
        getAccess (clear s) resource slice = Some Flags.empty
        /\ isDirty (clear s) resource slice = Some false
        /\ step (clear s) (GetAccess resource slice) = Some (clear s)
        /\ step (clear s) (IsDirty resource slice) = Some (clear s)).
Proof.
  split; [reflexivity|]. split; [reflexivity|].
  intros resource slice.
  unfold step, getAccess, isDirty. rewrite findHashEntry_clear.
  repeat split.
Qed.
End SetClear.

(** ** The subresource set: growing the table *)

(** C7 fails on the code.  Before the table grows (45 buffers) buffer 1
    reports its Write access and is dirty; once the 46th insertion has
    grown the table from 64 to 128 slots, the same queries on buffer 1
    return the empty flag set and false. *)
Theorem growth_loses_entries :
  (exists s,
      SubresourceSet.inserts (sample_buffers 45 (Flags.of_access Write)) = Some s
      /\ SubresourceSet.computeSize s = 64
      /\ SubresourceSet.getAccess s 1 write_16 = Some (Flags.of_access Write)
      /\ SubresourceSet.isDirty s 1 write_16 = Some true)
  /\ (exists s,
      SubresourceSet.inserts (sample_buffers 46 (Flags.of_access Write)) = Some s
      /\ SubresourceSet.computeSize s = 128
      /\ SubresourceSet.getAccess s 1 write_16 = Some Flags.empty
      /\ SubresourceSet.isDirty s 1 write_16 = Some false).
Proof.
  split.
  - destruct (SubresourceSet.inserts (sample_buffers 45 (Flags.of_access Write)))
      as [s|] eqn:E; [|vm_compute in E; discriminate E].
    exists s. split; [reflexivity|].
    vm_compute in E. injection E as <-. vm_compute. auto.
  - destruct (SubresourceSet.inserts (sample_buffers 46 (Flags.of_access Write)))
      as [s|] eqn:E; [|vm_compute in E; discriminate E].
    exists s. split; [reflexivity|].
    vm_compute in E. injection E as <-. vm_compute. auto.
Qed.

(** ** The subresource set: vectors and chains *)

Section VecLemmas.
Context {A : Type}.
Implicit Types (l : list A) (i j : Z).
Import SubresourceSet.

Lemma at_lookup l i : at_ l i = l !! Z.to_nat i.
Proof. reflexivity. Qed.

Lemma at_Some_lt l i x : 0 <= i -> at_ l i = Some x -> i < Z.of_nat (length l).
Proof. intros Hi Hx. apply lookup_lt_Some in Hx. lia. Qed.

Lemma at_insert_eq l i x y :
  at_ l i = Some y -> at_ (<[Z.to_nat i := x]> l) i = Some x.
Proof. intros Hy. apply list_lookup_insert_eq. eapply lookup_lt_Some, Hy. Qed.

Lemma at_insert_ne l i j x :
  0 <= i -> 0 <= j -> i <> j -> at_ (<[Z.to_nat i := x]> l) j = at_ l j.
Proof. intros Hi Hj Hne. apply list_lookup_insert_ne. lia. Qed.

Lemma at_app_l l l' i x : at_ l i = Some x -> at_ (l ++ l') i = Some x.
Proof. intros Hx. unfold at_. rewrite lookup_app_l; [assumption|]. eapply lookup_lt_Some, Hx. Qed.

Lemma at_app_new l x : at_ (l ++ [x]) (Z.of_nat (length l)) = Some x.
Proof.
  unfold at_. rewrite Nat2Z.id, lookup_app_r by lia.
  rewrite Nat.sub_diag. reflexivity.
Qed.

Lemma at_is_Some l i : 0 <= i < Z.of_nat (length l) -> is_Some (at_ l i).
Proof. intros Hi. apply lookup_lt_is_Some. lia. Qed.
End VecLemmas.

Section ListLemmas.
Context {A B : Type}.

Lemma omap_insert (f : A -> option B) (l : list A) (i : nat) (x y : A) :
  l !! i = Some y ->
  omap f l = omap f (take i l) ++ option_list (f y) ++ omap f (drop (S i) l)
  /\ omap f (<[i := x]> l)
     = omap f (take i l) ++ option_list (f x) ++ omap f (drop (S i) l).
Proof.
  intros Hy. split.
  - rewrite <- (take_drop_middle l i y Hy) at 1.
    rewrite omap_app. cbn. destruct (f y); reflexivity.
  - rewrite insert_take_drop by (eapply lookup_lt_Some, Hy).
    rewrite omap_app. cbn. destruct (f x); reflexivity.
Qed.

Lemma omap_insert_same (f : A -> option B) (l : list A) (i : nat) (x y : A) :
  l !! i = Some y -> f x = f y -> omap f (<[i := x]> l) = omap f l.
Proof.
  intros Hy Hf. destruct (omap_insert f l i x y Hy) as [-> ->].
  rewrite Hf. reflexivity.
Qed.

Lemma omap_replicate_None (f : A -> option B) (n : nat) (x : A) :
  f x = None -> omap f (replicate n x) = [].
Proof.
  intros Hf. induction n as [|n IH]; [reflexivity|].
  change (replicate (S n) x) with (x :: replicate n x).
  change (omap f (x :: replicate n x))
    with (match f x with Some y => y :: omap f (replicate n x)
                    | None => omap f (replicate n x) end).
  rewrite Hf. exact IH.
Qed.

Lemma omap_submseteq_impl (f g : A -> option B) (l : list A) :
  (forall x y, f x = Some y -> g x = Some y) -> omap f l ⊆+ omap g l.
Proof.
  intros Hfg. induction l as [|a l IH]; [constructor|].
  cbn [omap list_omap]. destruct (f a) as [y|] eqn:E.
  - rewrite (Hfg a y E). constructor. exact IH.
  - destruct (g a); [apply submseteq_cons|]; exact IH.
Qed.

Lemma omap_submseteq (f : A -> option B) (l k : list A) :
  l ⊆+ k -> omap f l ⊆+ omap f k.
Proof.
  induction 1 as [|x l k _ IH|x y l|x l k _ IH|l k m _ IH1 _ IH2]; cbn.
  - constructor.
  - destruct (f x); [constructor|]; assumption.
  - destruct (f x), (f y); try reflexivity. apply submseteq_swap.
  - destruct (f x); [apply submseteq_cons|]; assumption.
  - etransitivity; eassumption.
Qed.

Lemma fmap_submseteq (f : A -> B) (l k : list A) :
  l ⊆+ k -> f <$> l ⊆+ f <$> k.
Proof.
  induction 1 as [|x l k _ IH|x y l|x l k _ IH|l k m _ IH1 _ IH2]; cbn.
  - constructor.
  - constructor; assumption.
  - apply submseteq_swap.
  - apply submseteq_cons; assumption.
  - etransitivity; eassumption.
Qed.

Lemma NoDup_submseteq_inv (l k : list A) : NoDup k -> l ⊆+ k -> NoDup l.
Proof.
  intros Hk Hl. apply submseteq_Permutation in Hl as [k' Hk'].
  rewrite Hk' in Hk. apply NoDup_app in Hk. tauto.
Qed.

Lemma NoDup_omap_lookup (f : A -> option B) (l : list A) (i j : nat) a b x y :
  NoDup (omap f l) -> l !! i = Some a -> l !! j = Some b -> i <> j ->
  f a = Some x -> f b = Some y -> x <> y.
Proof.
  revert i j. induction l as [|c l IH]; intros i j Hnd Hi Hj Hne Ha Hb; [done|].
  cbn in Hnd. destruct i as [|i], j as [|j]; cbn in Hi, Hj; try done.
  - injection Hi as ->. rewrite Ha in Hnd. apply NoDup_cons in Hnd as [Hx _].
    intros ->. apply Hx. apply list_elem_of_omap. exists b.
    split; [eapply list_elem_of_lookup_2, Hj | assumption].
  - injection Hj as ->. rewrite Hb in Hnd. apply NoDup_cons in Hnd as [Hy _].
    intros <-. apply Hy. apply list_elem_of_omap. exists a.
    split; [eapply list_elem_of_lookup_2, Hi | assumption].
  - destruct (f c); [apply NoDup_cons in Hnd as [_ Hnd]|];
      eapply (IH i j); eauto.
Qed.
End ListLemmas.

(** ** The subresource set: what growing the table keeps *)

Section Growth.
Context {T : Type} `{BarrierSlice T}.
Import SubresourceSet.
Implicit Types (s : SubresourceSet.t T) (hm : list (HashEntry T)).

Lemma skipRelocated_spec fuel s hm index j :
  skipRelocated fuel s hm index = Some j ->
  exists e, at_ hm j = Some e /\ he_version e <= m_version s.
Proof.
  revert index. induction fuel as [|fuel IH]; intros index; cbn; [done|].
  destruct (at_ hm index) as [e|] eqn:E; cbn; [|done].
  destruct (Z.gtb_spec (he_version e) (m_version s)).
  - apply IH.
  - intros [= <-]. eauto.
Qed.

Lemma marked_relocated v (e : HashEntry T) :
  0 <= v < 2 ^ 64 - 1 ->
  marked v (set_version e (u64 (v + 1))) = Some (strip e).
Proof.
  intros Hv. unfold marked. cbn. rewrite u64_small by lia.
  rewrite Z.eqb_refl, orb_true_r. reflexivity.
Qed.

Lemma marked_not_ahead v (e : HashEntry T) :
  he_version e <= v ->
  marked v e = if he_version e =? v then Some (strip e) else None.
Proof.
  intros Hle. unfold marked.
  destruct (Z.eqb_spec (he_version e) (v + 1)); [lia|].
  rewrite orb_false_r. reflexivity.
Qed.

Lemma marked_zero v (e : HashEntry T) :
  1 <= v -> he_version e = 0 -> marked v e = None.
Proof.
  intros Hv He. unfold marked. rewrite He.
  rewrite (proj2 (Z.eqb_neq 0 v)), (proj2 (Z.eqb_neq 0 (v + 1))) by lia.
  reflexivity.
Qed.

Lemma live_submseteq_marked v hm :
  omap (fun e => if he_version e =? v + 1 then Some (strip e) else None) hm
  ⊆+ omap (marked v) hm.
Proof.
  apply omap_submseteq_impl. intros e y. unfold marked.
  destruct (he_version e =? v + 1); [|done].
  rewrite orb_true_r. done.
Qed.

Lemma relocate_marked fuel s entry hm hm' :
  1 <= m_version s < 2 ^ 64 - 1 ->
  relocate fuel s entry hm = Some hm' ->
  omap (marked (m_version s)) hm'
  ⊆+ option_list (if he_version entry =? m_version s
                  then Some (strip entry) else None)
     ++ omap (marked (m_version s)) hm.
Proof.
  intros Hv. revert entry hm.
  induction fuel as [|fuel IH]; intros entry hm; cbn; [done|].
  destruct (he_version entry =? m_version s); [|intros [= <-]; reflexivity].
  destruct (skipRelocated _ s hm _) as [index|] eqn:Eskip; cbn; [|done].
  apply skipRelocated_spec in Eskip as (other & Hother & Hle).
  rewrite Hother. cbn. intros Hrel. apply IH in Hrel.
  etransitivity; [exact Hrel|].
  destruct (omap_insert (marked (m_version s)) hm (Z.to_nat index)
              (set_version entry (u64 (m_version s + 1))) other Hother)
    as [-> ->].
  rewrite marked_relocated by lia. rewrite (marked_not_ahead _ other Hle).
  apply Permutation_submseteq.
  destruct (he_version other =? m_version s); cbn.
  - rewrite <- !Permutation_middle. apply perm_swap.
  - rewrite <- Permutation_middle. reflexivity.
Qed.

Lemma relocate_length fuel s entry hm hm' :
  relocate fuel s entry hm = Some hm' -> length hm' = length hm.
Proof.
  revert entry hm. induction fuel as [|fuel IH]; intros entry hm; cbn; [done|].
  destruct (he_version entry =? m_version s); [|intros [= <-]; reflexivity].
  destruct (skipRelocated _ s hm _) as [index|]; cbn; [|done].
  destruct (at_ hm index) as [other|]; cbn; [|done].
  intros Hrel. apply IH in Hrel. rewrite Hrel. apply length_insert.
Qed.

Lemma relocate_Forall (P : HashEntry T -> Prop) fuel s entry hm hm' :
  (forall e, P e -> P (set_version e (u64 (m_version s + 1)))) ->
  P entry -> Forall P hm ->
  relocate fuel s entry hm = Some hm' -> Forall P hm'.
Proof.
  intros HP. revert entry hm.
  induction fuel as [|fuel IH]; intros entry hm He Hhm; cbn; [done|].
  destruct (he_version entry =? m_version s); [|intros [= <-]; assumption].
  destruct (skipRelocated _ s hm _) as [index|]; cbn; [|done].
  destruct (at_ hm index) as [other|] eqn:Hother; cbn; [|done].
  apply IH.
  - eapply Forall_lookup_1; eassumption.
  - apply Forall_insert; auto.
Qed.

Lemma relocateAll_marked n i s hm hm' :
  1 <= m_version s < 2 ^ 64 - 1 ->
  relocateAll n i s hm = Some hm' ->
  omap (marked (m_version s)) hm' ⊆+ omap (marked (m_version s)) hm.
Proof.
  intros Hv. revert i hm.
  induction n as [|n IH]; intros i hm; cbn -[relocate]; [intros [= <-]; reflexivity|].
  destruct (at_ hm i) as [entry|] eqn:Hentry; cbn -[relocate]; [|done].
  match goal with
  | |- context [relocate ?f s entry ?h] =>
      destruct (relocate f s entry h) as [hm1|] eqn:Hrel; cbn; [|done]
  end.
  intros Hall. apply IH in Hall. etransitivity; [exact Hall|].
  apply relocate_marked in Hrel; [|assumption].
  etransitivity; [exact Hrel|].
  destruct (omap_insert (marked (m_version s)) hm (Z.to_nat i)
              (set_version entry 0) entry Hentry) as [-> ->].
  rewrite (marked_zero _ (set_version entry 0)) by (lia || reflexivity).
  unfold marked.
  destruct (he_version entry =? m_version s); cbn.
  - apply Permutation_submseteq, Permutation_middle.
  - apply submseteq_skips_l, submseteq_inserts_l. reflexivity.
Qed.

Lemma relocateAll_length n i s hm hm' :
  relocateAll n i s hm = Some hm' -> length hm' = length hm.
Proof.
  revert i hm. induction n as [|n IH]; intros i hm; cbn -[relocate]; [intros [= <-]; reflexivity|].
  destruct (at_ hm i) as [entry|]; cbn -[relocate]; [|done].
  match goal with
  | |- context [relocate ?f s entry ?h] =>
      destruct (relocate f s entry h) as [hm1|] eqn:Hrel; cbn; [|done]
  end.
  intros Hall. apply IH in Hall. apply relocate_length in Hrel.
  rewrite Hall, Hrel. apply length_insert.
Qed.

Lemma relocateAll_Forall (P : HashEntry T -> Prop) n i s hm hm' :
  (forall e, P e -> P (set_version e (u64 (m_version s + 1)))) ->
  (forall e, P e -> P (set_version e 0)) ->
  Forall P hm ->
  relocateAll n i s hm = Some hm' -> Forall P hm'.
Proof.
  intros HP1 HP0. revert i hm.
  induction n as [|n IH]; intros i hm Hhm; cbn -[relocate]; [intros [= <-]; assumption|].
  destruct (at_ hm i) as [entry|] eqn:Hentry; cbn -[relocate]; [|done].
  match goal with
  | |- context [relocate ?f s entry ?h] =>
      destruct (relocate f s entry h) as [hm1|] eqn:Hrel; cbn; [|done]
  end.
  apply IH. eapply relocate_Forall; [exact HP1| | |exact Hrel].
  - eapply Forall_lookup_1; eassumption.
  - apply Forall_insert; [assumption|]. apply HP0.
    eapply Forall_lookup_1; eassumption.
Qed.

(** The entries of the grown table that are live are entries that were
    live before, each at most once. *)
Lemma growHashMap_live s newSize s' :
  1 <= m_version s < 2 ^ 64 - 1 ->
  (forall i e, m_hashMap s !! i = Some e -> 0 <= he_version e <= m_version s) ->
  growHashMap s newSize = Some s' ->
  m_version s' = m_version s + 1
  /\ m_list s' = m_list s
  /\ m_used s' = m_used s
  /\ (forall i e, m_hashMap s' !! i = Some e -> 0 <= he_version e <= m_version s')
  /\ omap (fun e => if he_version e =? m_version s' then Some (strip e) else None)
          (m_hashMap s')
     ⊆+ omap (fun e => if he_version e =? m_version s then Some (strip e) else None)
             (m_hashMap s).
Proof.
  intros Hv Hvers. unfold growHashMap.
  destruct (relocateAll _ 0 s _) as [hm'|] eqn:Hall; cbn; [|done].
  intros [= <-]. cbn. rewrite u64_small by lia.
  assert (Hres : Forall (fun e => 0 <= he_version e <= m_version s)
                   (resize (Z.to_nat newSize) HashEntry_default (m_hashMap s))).
  { rewrite resize_spec. apply Forall_app. split.
    - apply Forall_take. apply Forall_lookup_2. exact Hvers.
    - apply Forall_replicate. cbn. lia. }
  repeat split; try reflexivity.
  - eapply (Forall_lookup_1 (fun e => 0 <= he_version e <= m_version s + 1));
      [|eassumption].
    eapply relocateAll_Forall; [| | |exact Hall].
    + intros e0 _. cbn. rewrite u64_small by lia. lia.
    + intros e0 _. cbn. lia.
    + eapply Forall_impl; [exact Hres|]. cbn. intros; lia.
  - eapply (Forall_lookup_1 (fun e => 0 <= he_version e <= m_version s + 1));
      [|eassumption].
    eapply relocateAll_Forall; [| | |exact Hall].
    + intros e0 _. cbn. rewrite u64_small by lia. lia.
    + intros e0 _. cbn. lia.
    + eapply Forall_impl; [exact Hres|]. cbn. intros; lia.
  - apply relocateAll_marked in Hall; [|assumption].
    transitivity (omap (marked (m_version s)) hm').
    { apply live_submseteq_marked. }
    etransitivity; [exact Hall|].
    rewrite resize_spec, omap_app.
    rewrite (omap_replicate_None (marked (m_version s)))
      by (apply marked_zero; [lia | reflexivity]).
    rewrite app_nil_r.
    transitivity (omap (marked (m_version s)) (m_hashMap s)).
    { apply omap_submseteq, submseteq_take. }
    apply Permutation_submseteq.
    erewrite (list_omap_ext (marked (m_version s))); [reflexivity| ].
    apply Forall_Forall2_diag, Forall_lookup_2. intros i e He.
    apply marked_not_ahead. apply (Hvers i e He).
Qed.
End Growth.

(** ** The subresource set: chains *)

Section Chains.
Context {T : Type} `{BarrierSlice T}.
Import SubresourceSet.
Implicit Types (l : list (ListEntry T)) (c : list (Z * T)).

Lemma chain_app l l' n c : chain l n c -> chain (l ++ l') n c.
Proof.
  induction 1 as [n Hn|n e c Hn He _ IH].
  - now constructor.
  - econstructor; eauto using at_app_l.
Qed.

Lemma chain_det l n c c' : chain l n c -> chain l n c' -> c = c'.
Proof.
  intros Hc. revert c'. induction Hc as [n Hn|n e c Hn He _ IH]; intros c' Hc'.
  - inversion Hc'; subst; [reflexivity | lia].
  - inversion Hc' as [|n' e' c'' Hn' He' Hc'']; subst; [lia|].
    rewrite He in He'. injection He' as <-. f_equal. now apply IH.
Qed.

Lemma chain_nil_inv l n c : chain l n c -> NoEntry <= n -> c = [].
Proof. intros Hc Hn. inversion Hc; subst; [reflexivity | lia]. Qed.

Lemma chain_root root l n c :
  list_wf root l -> chain l n c ->
  forall j, j ∈ c.*1 -> 0 <= j <= n /\ root j = root n.
Proof.
  intros Hwf. induction 1 as [n Hn|n e c Hn He Hc IH]; intros j Hj.
  - inversion Hj.
  - cbn in Hj. apply elem_of_cons in Hj as [->|Hj]; [split; [lia | reflexivity]|].
    destruct (lw_next _ _ Hwf n e ltac:(lia) He) as [Hend|[Hlt Hroot]].
    + rewrite (chain_nil_inv _ _ _ Hc) in Hj by lia. inversion Hj.
    + destruct (IH j Hj) as [Hle Hr]. split; [lia | congruence].
Qed.

Lemma chain_length root l n c :
  list_wf root l -> chain l n c -> (length c <= length l)%nat.
Proof.
  intros Hwf Hc.
  enough (Hb : n < NoEntry -> Z.of_nat (length c) <= n + 1
               /\ n < Z.of_nat (length l)).
  { destruct (Z.lt_ge_cases n NoEntry) as [Hlt|Hge].
    - specialize (Hb Hlt). lia.
    - rewrite (chain_nil_inv _ _ _ Hc Hge). cbn. lia. }
  induction Hc as [n Hn|n e c Hn He Hc IH]; intros Hlt; [lia|].
  pose proof (at_Some_lt l n e ltac:(lia) He) as Hlen.
  split; [|assumption]. cbn [length].
  destruct (lw_next _ _ Hwf n e ltac:(lia) He) as [Hend|[Hlt' _]].
  - rewrite (chain_nil_inv _ _ _ Hc) by lia. cbn. lia.
  - specialize (IH ltac:(unfold NoEntry in *; lia)). lia.
Qed.

Lemma chain_exists root l n :
  list_wf root l ->
  NoEntry = n \/ 0 <= n < Z.of_nat (length l) ->
  exists c, chain l n c.
Proof.
  intros Hwf [<-|Hn]; [exists []; constructor; lia|].
  assert (Hlen := lw_length _ _ Hwf).
  revert Hn. induction (Z.lt_wf 0 n) as [n _ IH]. intros Hn.
  destruct (at_is_Some l n Hn) as [e He].
  destruct (lw_next _ _ Hwf n e ltac:(lia) He) as [Hend|[Hlt _]].
  - exists [(n, le_data e)]. econstructor; [lia | exact He |].
    constructor. lia.
  - destruct (IH (le_next e) ltac:(lia) ltac:(lia)) as [c Hc].
    exists ((n, le_data e) :: c). econstructor; [lia | exact He | exact Hc].
Qed.

Lemma chain_insert_other l n c j x :
  0 <= j -> chain l n c -> j ∉ c.*1 -> chain (<[Z.to_nat j := x]> l) n c.
Proof.
  intros Hj. induction 1 as [n Hn|n e c Hn He _ IH]; intros Hnin.
  - now constructor.
  - cbn in Hnin. apply not_elem_of_cons in Hnin as [Hne Hnin].
    econstructor; [assumption | | now apply IH].
    rewrite at_insert_ne by lia. exact He.
Qed.

Lemma list_wf_insert root l j e x :
  list_wf root l -> at_ l j = Some e -> le_next x = le_next e ->
  list_wf root (<[Z.to_nat j := x]> l).
Proof.
  intros [Hlen Hnext Hroot] He Hx. split.
  - now rewrite length_insert.
  - intros i ei Hi Hei. unfold at_ in *.
    destruct (decide (Z.to_nat j = Z.to_nat i)) as [Heq|Hne].
    + rewrite Heq in *. rewrite list_lookup_insert_eq in Hei
        by (eapply lookup_lt_Some, He).
      injection Hei as <-. rewrite Hx. now apply Hnext.
    + rewrite list_lookup_insert_ne in Hei by assumption. now apply Hnext.
  - intros i. rewrite length_insert. apply Hroot.
Qed.

(** The scan of [insert] over a chain does what [merge_first] does to
    the slices of the chain. *)
Lemma mergeScan_spec root l n c slice fuel :
  list_wf root l -> chain l n c -> n < NoEntry ->
  (length c <= fuel)%nat ->
  match merge_first c.*2 slice with
  | Some c2 =>
      exists j e c',
        j ∈ c.*1 /\ at_ l j = Some e
        /\ mergeScan fuel l n slice
           = Some (Some (<[Z.to_nat j :=
                            mkListEntry (slice_merge (le_data e) slice)
                                        (le_next e)]> l))
        /\ chain (<[Z.to_nat j :=
                     mkListEntry (slice_merge (le_data e) slice) (le_next e)]> l)
                 n c'
        /\ c'.*2 = c2
  | None => mergeScan fuel l n slice = Some None
  end.
Proof.
  intros Hwf Hc. revert fuel.
  induction Hc as [n Hn|n e c Hn He Hc IH]; intros fuel Hlt Hfuel; [lia|].
  destruct fuel as [|fuel]; [cbn in Hfuel; lia|].
  cbn [fmap list_fmap snd merge_first mergeScan]. rewrite He. cbn [mbind option_bind].
  destruct (slice_canMerge (le_data e) slice) eqn:Hcan.
  - exists n, e, ((n, slice_merge (le_data e) slice) :: c).
    split; [cbn; left|]. split; [exact He|]. split; [reflexivity|].
    split; [|reflexivity].
    change (slice_merge (le_data e) slice)
      with (le_data (mkListEntry (slice_merge (le_data e) slice) (le_next e))) at 2.
    econstructor; [lia | eapply at_insert_eq, He |].
    cbn [le_next]. apply chain_insert_other; [lia | exact Hc |].
    intros Hin. destruct (chain_root _ _ _ _ Hwf Hc n Hin) as [Hle _].
    destruct (lw_next _ _ Hwf n e ltac:(lia) He) as [Hend|[Hlt' _]]; [|lia].
    rewrite (chain_nil_inv _ _ _ Hc) in Hin by lia. inversion Hin.
  - unfold getListEntry.
    destruct (Z.ltb_spec (le_next e) NoEntry) as [Hnext|Hnext].
    + specialize (IH fuel Hnext ltac:(cbn in Hfuel; lia)).
      destruct (merge_first c.*2 slice) as [c2|]; cbn [fmap option_fmap option_map].
      * destruct IH as (j & ej & c' & Hj & Hej & Hscan & Hchain & Hc2).
        exists j, ej, ((n, le_data e) :: c').
        split; [cbn; now right|]. split; [exact Hej|]. split; [exact Hscan|].
        split; [|cbn; now rewrite Hc2].
        destruct (chain_root _ _ _ _ Hwf Hc j Hj) as [Hle _].
        destruct (lw_next _ _ Hwf n e ltac:(lia) He) as [Hend|[Hlt' _]];
          [unfold NoEntry in *; lia|].
        econstructor; [lia | | exact Hchain].
        rewrite at_insert_ne by lia. exact He.
      * exact IH.
    + rewrite (chain_nil_inv _ _ _ Hc Hnext). reflexivity.
Qed.
End Chains.

(** ** The subresource set: inserting into an entry that is present *)

Section Present.
Context {T : Type} `{BarrierSlice T}.
Import SubresourceSet.
Implicit Types (s : SubresourceSet.t T) (e : HashEntry T).

Lemma NoEntry_eq : NoEntry = 2 ^ 32 - 1.
Proof. reflexivity. Qed.

Lemma head_of_live v e :
  he_version e = v ->
  head_of v e = if he_next e <? NoEntry then Some (he_next e) else None.
Proof. intros Hv. unfold head_of. rewrite Hv, Z.eqb_refl. reflexivity. Qed.

Lemma head_of_Some v e n :
  head_of v e = Some n -> he_version e = v /\ he_next e = n /\ n < NoEntry.
Proof.
  unfold head_of.
  destruct (Z.eqb_spec (he_version e) v); [|done].
  destruct (Z.ltb_spec (he_next e) NoEntry); [|done].
  intros [= <-]. auto.
Qed.

Lemma omap_ext_elem {A B : Type} (f g : A -> option B) (l : list A) :
  (forall x, x ∈ l -> f x = g x) -> omap f l = omap g l.
Proof.
  intros Hfg. apply list_omap_ext, Forall_Forall2_diag, Forall_forall.
  exact Hfg.
Qed.

(** The names of the chains of the live entries, when one entry is
    replaced. *)
Lemma heads_insert (F F' : HashEntry T -> option Z) hm k e e' :
  hm !! k = Some e ->
  (forall x, x ∈ hm -> F' x = F x) ->
  NoDup (omap F hm) ->
  F' e' = F e
  \/ (F e = None /\ forall r, F' e' = Some r -> r ∉ omap F hm) ->
  NoDup (omap F' (<[k := e']> hm)).
Proof.
  intros He Hext Hnd Hcase.
  destruct (omap_insert F' hm k e' e He) as [_ ->].
  destruct (omap_insert F hm k e' e He) as [Eq _].
  rewrite (omap_ext_elem F' F (take k hm))
    by (intros x Hx; apply Hext; eapply elem_of_submseteq, submseteq_take; exact Hx).
  rewrite (omap_ext_elem F' F (drop (S k) hm))
    by (intros x Hx; apply Hext; eapply elem_of_submseteq, submseteq_drop; exact Hx).
  destruct Hcase as [->|[HN Hfresh]].
  - rewrite <- Eq. exact Hnd.
  - rewrite Eq, HN in Hnd, Hfresh. unfold option_list in *.
    cbn [app option_rect] in Hnd, Hfresh.
    destruct (F' e') as [r|]; cbn [app option_rect]; [|exact Hnd].
    specialize (Hfresh r eq_refl).
    rewrite <- Permutation_middle. apply NoDup_cons. split; assumption.
Qed.

Lemma insertListEntry_spec root s sub h e c :
  struct_inv root s ->
  Z.of_nat (length (m_list s)) + 1 < NoEntry ->
  0 <= h -> at_ (m_hashMap s) h = Some e -> he_version e = m_version s ->
  chain (m_list s) (he_next e) c ->
  let n := Z.of_nat (length (m_list s)) in
  let s' := mk (m_version s) (m_used s) (m_indexMask s)
               (m_list s ++ [mkListEntry sub (he_next e)])
               (<[Z.to_nat h := set_next e n]> (m_hashMap s)) in
  insertListEntry s sub h = Some s'
  /\ (exists root', struct_inv root' s')
  /\ chain (m_list s') n ((n, sub) :: c).
Proof.
  intros Hinv Hlen Hh He Hlive Hc n s'.
  destruct Hinv as [Hwf Hheads Hnext Hver Hvers].
  assert (Hne : NoEntry = he_next e \/ 0 <= he_next e < n)
    by (eapply Hnext; eassumption).
  split; [|split].
  - unfold insertListEntry. rewrite He. cbn [mbind option_bind].
    rewrite u32_small by (rewrite NoEntry_eq in Hlen; lia). reflexivity.
  - set (root' := fun j => if j =? n
                           then (if he_next e <? NoEntry then root (he_next e) else n)
                           else root j).
    assert (Hroot' : forall j, j <> n -> root' j = root j).
    { intros j Hj. unfold root'. now rewrite (proj2 (Z.eqb_neq j n)). }
    exists root'. split; cbn [m_list m_hashMap m_version s'].
    + destruct Hwf as [Hl Hn Hr]. split.
      * rewrite length_app. cbn. lia.
      * intros j ej Hj Hej.
        destruct (Z.lt_ge_cases j n) as [Hlt|Hge].
        -- unfold at_ in Hej. rewrite lookup_app_l in Hej by lia.
           destruct (Hn j ej Hj Hej) as [Hend|[Hlt' Hroot]]; [now left|right].
           split; [assumption|]. rewrite !Hroot' by lia. exact Hroot.
        -- assert (j = n) as ->.
           { apply at_Some_lt in Hej; [|assumption].
             rewrite length_app in Hej. cbn in Hej. lia. }
           unfold n in Hej. rewrite at_app_new in Hej. injection Hej as <-.
           cbn [le_next]. destruct Hne as [Hend|Hin]; [now left|right].
           split; [assumption|]. rewrite Hroot' by lia.
           unfold root'. rewrite Z.eqb_refl.
           now rewrite (proj2 (Z.ltb_lt (he_next e) NoEntry)) by lia.
      * intros j. rewrite length_app. cbn [length]. intros Hj.
        destruct (Z.eq_dec j n) as [->|Hjn].
        -- unfold root'. rewrite Z.eqb_refl.
           destruct (Z.ltb_spec (he_next e) NoEntry); [|lia].
           destruct Hne as [Hend|Hin]; [lia|].
           specialize (Hr (he_next e) Hin). lia.
        -- rewrite Hroot' by assumption. specialize (Hr j ltac:(lia)). lia.
    + eapply (heads_insert (fun e => root <$> head_of (m_version s) e));
        [exact He | | exact Hheads |].
      * intros x Hx. apply list_elem_of_lookup_1 in Hx as [i Hi].
        destruct (head_of (m_version s) x) as [m|] eqn:Hm; [|reflexivity].
        cbn. f_equal. apply Hroot'.
        apply head_of_Some in Hm as (Hxv & <- & Hlt).
        destruct (Hnext i x Hi Hxv); lia.
      * rewrite (head_of_live _ (set_next e n)) by exact Hlive.
        rewrite (head_of_live _ e) by exact Hlive. cbn [he_next set_next].
        rewrite (proj2 (Z.ltb_lt n NoEntry)) by lia. cbn [fmap option_fmap option_map].
        destruct (Z.ltb_spec (he_next e) NoEntry) as [Hlt|Hge].
        -- left. cbn. f_equal. unfold root'. rewrite Z.eqb_refl. reflexivity.
        -- right. split; [reflexivity|]. intros r [= <-].
           unfold root'. rewrite Z.eqb_refl.
           intros Hin. apply list_elem_of_omap in Hin as (x & Hx & Hfx).
           apply list_elem_of_lookup_1 in Hx as [i Hi].
           destruct (head_of (m_version s) x) as [m|] eqn:Hm; [|done].
           cbn in Hfx. injection Hfx as Hfx.
           apply head_of_Some in Hm as (Hxv & <- & Hlt).
           destruct (Hnext i x Hi Hxv) as [|Hin]; [lia|].
           destruct (lw_root _ _ Hwf (he_next x) Hin). lia.
    + intros i ei Hi Hv. rewrite length_app. cbn [length].
      destruct (decide (i = Z.to_nat h)) as [->|Hih].
      * rewrite list_lookup_insert_eq in Hi by (eapply lookup_lt_Some, He).
        injection Hi as <-. cbn. right. lia.
      * rewrite list_lookup_insert_ne in Hi by congruence.
        destruct (Hnext i ei Hi Hv); [now left | right; lia].
    + exact Hver.
    + intros i ei Hi.
      destruct (decide (i = Z.to_nat h)) as [->|Hih].
      * rewrite list_lookup_insert_eq in Hi by (eapply lookup_lt_Some, He).
        injection Hi as <-. cbn. eapply Hvers, He.
      * rewrite list_lookup_insert_ne in Hi by congruence. eapply Hvers, Hi.
  - cbn [m_list s'].
    change sub with (le_data (mkListEntry sub (he_next e))) at 2.
    econstructor; [lia | apply at_app_new |].
    cbn [le_next]. apply chain_app. exact Hc.
Qed.

Lemma entry_post_trans k1 k2 s s1 s2 h e e1 d1 cd1 d2 cd2 :
  0 <= h ->
  entry_post k1 s s1 h e d1 cd1 ->
  at_ (m_hashMap s1) h = Some e1 ->
  entry_post k2 s1 s2 h e1 d2 cd2 ->
  entry_post (k1 + k2) s s2 h e d2 cd2.
Proof.
  intros Hh [Hv1 Hu1 Hm1 Hs1 Hl1 (e1' & c1 & He1 & Hev & Hek & _) Ho1 Hc1]
    He1' [Hv2 Hu2 Hm2 Hs2 Hl2 (e2 & c2 & He2 & Hev2 & Hek2 & Hd2 & Hch2 & Hcd2) Ho2 Hc2].
  rewrite He1 in He1'. injection He1' as ->.
  split; try congruence.
  - lia.
  - exists e2, c2. repeat split; try assumption; congruence.
  - intros i Hi Hne. rewrite Ho2, Ho1 by assumption. reflexivity.
  - intros i ei ci Hi Hne Hei Hlive Hci.
    eapply Hc2; eauto.
    + rewrite Ho1 by assumption. exact Hei.
    + congruence.
Qed.

Lemma entry_post_listEntry root s sub h e c :
  struct_inv root s ->
  Z.of_nat (length (m_list s)) + 1 < NoEntry ->
  0 <= h -> at_ (m_hashMap s) h = Some e -> he_version e = m_version s ->
  chain (m_list s) (he_next e) c ->
  exists s' root',
    insertListEntry s sub h = Some s'
    /\ struct_inv root' s'
    /\ entry_post 1 s s' h e (he_data e) (sub :: c.*2).
Proof.
  intros Hinv Hlen Hh He Hlive Hc.
  destruct (insertListEntry_spec root s sub h e c Hinv Hlen Hh He Hlive Hc)
    as (Hins & [root' Hinv'] & Hchain).
  eexists _, root'. split; [exact Hins|]. split; [exact Hinv'|].
  split; cbn [m_version m_used m_indexMask m_hashMap m_list]; try reflexivity.
  - apply length_insert.
  - rewrite length_app. cbn. lia.
  - eexists _, _. split; [eapply at_insert_eq, He|].
    cbn [he_version he_key he_data he_next set_next].
    repeat split; [exact Hchain|reflexivity].
  - intros i Hi Hne. apply at_insert_ne; lia.
  - intros i ei ci _ _ _ _ Hci. apply chain_app. exact Hci.
Qed.

Lemma struct_inv_set_data root s h e d :
  struct_inv root s -> at_ (m_hashMap s) h = Some e ->
  struct_inv root (with_hashMap s (<[Z.to_nat h := set_data e d]> (m_hashMap s))).
Proof.
  intros [Hwf Hheads Hnext Hver Hvers] He.
  split; cbn [with_hashMap m_list m_hashMap m_version]; try assumption.
  - rewrite (omap_insert_same _ _ _ _ e He); [exact Hheads | reflexivity].
  - intros i ei Hi Hv.
    destruct (decide (i = Z.to_nat h)) as [->|Hih].
    + rewrite list_lookup_insert_eq in Hi by (eapply lookup_lt_Some, He).
      injection Hi as <-. cbn in *. eapply Hnext; eassumption.
    + rewrite list_lookup_insert_ne in Hi by congruence. eapply Hnext; eassumption.
  - intros i ei Hi.
    destruct (decide (i = Z.to_nat h)) as [->|Hih].
    + rewrite list_lookup_insert_eq in Hi by (eapply lookup_lt_Some, He).
      injection Hi as <-. cbn. eapply Hvers, He.
    + rewrite list_lookup_insert_ne in Hi by congruence. eapply Hvers, Hi.
Qed.

Lemma entry_post_set_data s h e c d :
  0 <= h -> at_ (m_hashMap s) h = Some e ->
  chain (m_list s) (he_next e) c ->
  entry_post 0 s (with_hashMap s (<[Z.to_nat h := set_data e d]> (m_hashMap s)))
    h e d c.*2.
Proof.
  intros Hh He Hc.
  split; cbn [with_hashMap m_version m_used m_indexMask m_hashMap m_list];
    try reflexivity.
  - apply length_insert.
  - lia.
  - eexists _, c. split; [eapply at_insert_eq, He|].
    cbn. repeat split. exact Hc.
  - intros i Hi Hne. apply at_insert_ne; lia.
  - intros; assumption.
Qed.

Lemma struct_inv_merge root s j x d :
  struct_inv root s -> at_ (m_list s) j = Some x ->
  struct_inv root
    (with_list s (<[Z.to_nat j := mkListEntry d (le_next x)]> (m_list s))).
Proof.
  intros [Hwf Hheads Hnext Hver Hvers] Hx.
  split; cbn [with_list m_list m_hashMap m_version]; try assumption.
  - eapply list_wf_insert; [exact Hwf | exact Hx | reflexivity].
  - intros i e Hi Hv. rewrite length_insert. eapply Hnext; eassumption.
Qed.

(** Distinct live entries have disjoint chains. *)
Lemma chains_disjoint root s h i e ei c ci j :
  struct_inv root s -> 0 <= h -> 0 <= i -> i <> h ->
  at_ (m_hashMap s) h = Some e -> he_version e = m_version s ->
  at_ (m_hashMap s) i = Some ei -> he_version ei = m_version s ->
  chain (m_list s) (he_next e) c -> chain (m_list s) (he_next ei) ci ->
  j ∈ c.*1 -> j ∉ ci.*1.
Proof.
  intros Hinv Hh Hi Hne He Hlive Hei Hlivei Hc Hci Hj Hji.
  destruct (chain_root _ _ _ _ (si_list _ _ Hinv) Hc j Hj) as [_ Hr].
  destruct (chain_root _ _ _ _ (si_list _ _ Hinv) Hci j Hji) as [_ Hri].
  assert (Hlt : he_next e < NoEntry).
  { destruct (Z.lt_ge_cases (he_next e) NoEntry) as [|Hge]; [assumption|].
    rewrite (chain_nil_inv _ _ _ Hc Hge) in Hj. inversion Hj. }
  assert (Hlti : he_next ei < NoEntry).
  { destruct (Z.lt_ge_cases (he_next ei) NoEntry) as [|Hge]; [assumption|].
    rewrite (chain_nil_inv _ _ _ Hci Hge) in Hji. inversion Hji. }
  eapply (NoDup_omap_lookup _ _ (Z.to_nat h) (Z.to_nat i) e ei
            (root (he_next e)) (root (he_next ei)) (si_heads _ _ Hinv));
    try eassumption.
  - lia.
  - rewrite head_of_live by assumption.
    now rewrite (proj2 (Z.ltb_lt _ _) Hlt).
  - rewrite head_of_live by assumption.
    now rewrite (proj2 (Z.ltb_lt _ _) Hlti).
  - congruence.
Qed.

Lemma entry_post_merge root s h e c j x d c' :
  struct_inv root s -> 0 <= h ->
  at_ (m_hashMap s) h = Some e -> he_version e = m_version s ->
  chain (m_list s) (he_next e) c ->
  j ∈ c.*1 -> at_ (m_list s) j = Some x ->
  chain (<[Z.to_nat j := mkListEntry d (le_next x)]> (m_list s)) (he_next e) c' ->
  entry_post 0 s
    (with_list s (<[Z.to_nat j := mkListEntry d (le_next x)]> (m_list s)))
    h e (he_data e) c'.*2.
Proof.
  intros Hinv Hh He Hlive Hc Hj Hx Hc'.
  split; cbn [with_list m_version m_used m_indexMask m_hashMap m_list];
    try reflexivity.
  - rewrite length_insert. lia.
  - exists e, c'. repeat split; assumption.
  - intros i ei ci Hi Hne Hei Hlivei Hci.
    apply chain_insert_other; [|exact Hci|].
    + destruct (chain_root _ _ _ _ (si_list _ _ Hinv) Hc j Hj). lia.
    + eapply (chains_disjoint root s h i); eassumption.
Qed.

Lemma entry_post_refl s h e c :
  at_ (m_hashMap s) h = Some e -> chain (m_list s) (he_next e) c ->
  entry_post 0 s s h e (he_data e) c.*2.
Proof.
  intros He Hc. split; try reflexivity; try lia; try (intros; assumption).
  exists e, c. repeat split; assumption.
Qed.
End Present.

Section PresentSpec.
Context {T : Type} `{BarrierSlice T}.
Import SubresourceSet.
Implicit Types (s : SubresourceSet.t T) (e : HashEntry T).

Lemma entry_post_weaken k k' s s' h e d cd :
  (k <= k')%nat -> entry_post k s s' h e d cd -> entry_post k' s s' h e d cd.
Proof. intros Hk [? ? ? ? ? ? ? ?]. split; try assumption. lia. Qed.

(** The part of [insertPresent] that works on the overflow list. *)
Lemma insertPresent_list root s h e c slice :
  struct_inv root s ->
  Z.of_nat (length (m_list s)) + 2 < NoEntry ->
  0 <= h -> at_ (m_hashMap s) h = Some e -> he_version e = m_version s ->
  chain (m_list s) (he_next e) c ->
  exists s1 root1,
    match getListEntry (he_next e) with
    | Some listEntry =>
        if is_image_slice then
          r ← mergeScan (length (m_list s)) (m_list s) listEntry slice;
          match r with
          | Some l => Some (with_list s l)
          | None => insertListEntry s slice h
          end
        else insertListEntry s slice h
    | None =>
        if negb (slice_canMerge (he_data e) slice) then
          s ← insertListEntry s (he_data e) h;
          insertListEntry s slice h
        else Some s
    end = Some s1
    /\ struct_inv root1 s1
    /\ entry_post 2 s s1 h e (he_data e) (entry_chain (he_data e) c.*2 slice).
Proof.
  intros Hinv Hlen Hh He Hlive Hc.
  assert (Hpush : forall c0,
             c.*2 = c0 -> 
             exists s1 root1,
               insertListEntry s slice h = Some s1 /\ struct_inv root1 s1
               /\ entry_post 2 s s1 h e (he_data e) (slice :: c0)).
  { intros c0 <-.
    destruct (entry_post_listEntry root s slice h e c Hinv ltac:(lia) Hh He Hlive Hc)
      as (s1 & root1 & Hins & Hinv1 & Hpost).
    exists s1, root1. split; [exact Hins|]. split; [exact Hinv1|].
    eapply entry_post_weaken; [|exact Hpost]. lia. }
  unfold getListEntry.
  destruct (Z.ltb_spec (he_next e) NoEntry) as [Hlt|Hge].
  - (* a chain exists *)
    assert (Hne : exists d0 c0, c.*2 = d0 :: c0).
    { inversion Hc; subst; [lia|]. cbn. eauto. }
    destruct Hne as (d0 & c0 & Hc2).
    unfold entry_chain. rewrite Hc2.
    destruct is_image_slice.
    + pose proof (mergeScan_spec root (m_list s) (he_next e) c slice
                    (length (m_list s)) (si_list _ _ Hinv) Hc Hlt
                    (chain_length _ _ _ _ (si_list _ _ Hinv) Hc)) as Hscan.
      rewrite Hc2 in Hscan.
      destruct (merge_first (d0 :: c0) slice) as [c2|].
      * destruct Hscan as (j & x & c' & Hj & Hx & -> & Hc' & <-).
        cbn [mbind option_bind].
        eexists _, root. split; [reflexivity|].
        split; [eapply struct_inv_merge; eassumption|].
        eapply entry_post_weaken; [|eapply entry_post_merge]; try eassumption. lia.
      * rewrite Hscan. cbn [mbind option_bind]. apply Hpush. exact Hc2.
    + apply Hpush. exact Hc2.
  - (* no chain yet *)
    assert (c = []) as -> by (eapply chain_nil_inv; eassumption).
    cbn [fmap list_fmap entry_chain].
    destruct (slice_canMerge (he_data e) slice); cbn [negb].
    + exists s, root. split; [reflexivity|]. split; [exact Hinv|].
      eapply entry_post_weaken; [|apply (entry_post_refl s h e [])]; [lia|assumption..].
    + destruct (entry_post_listEntry root s (he_data e) h e [] Hinv
                  ltac:(lia) Hh He Hlive Hc)
        as (s1 & root1 & Hins1 & Hinv1 & Hpost1).
      rewrite Hins1. cbn [mbind option_bind].
      destruct (ep_entry _ _ _ _ _ _ _ Hpost1)
        as (e1 & c1 & He1 & Hev1 & Hek1 & Hed1 & Hc1 & Hcd1).
      destruct (entry_post_listEntry root1 s1 slice h e1 c1 Hinv1)
        as (s2 & root2 & Hins2 & Hinv2 & Hpost2); try assumption.
      { pose proof (ep_list _ _ _ _ _ _ _ Hpost1). lia. }
      { rewrite (ep_version _ _ _ _ _ _ _ Hpost1). congruence. }
      exists s2, root2. split; [exact Hins2|]. split; [exact Hinv2|].
      rewrite Hcd1, Hed1 in Hpost2.
      exact (entry_post_trans 1 1 s s1 s2 h e e1 _ _ _ _ Hh Hpost1 He1 Hpost2).
Qed.

Lemma insertPresent_spec root s h e c slice :
  struct_inv root s ->
  Z.of_nat (length (m_list s)) + 2 < NoEntry ->
  0 <= h -> at_ (m_hashMap s) h = Some e -> he_version e = m_version s ->
  chain (m_list s) (he_next e) c ->
  exists s' root',
    insertPresent s h slice = Some s'
    /\ struct_inv root' s'
    /\ present_post s s' h e c slice.
Proof.
  intros Hinv Hlen Hh He Hlive Hc.
  destruct (insertPresent_list root s h e c slice Hinv Hlen Hh He Hlive Hc)
    as (s1 & root1 & Hmid & Hinv1 & Hpost1).
  unfold insertPresent. rewrite He. cbn [mbind option_bind].
  rewrite Hmid. cbn [mbind option_bind].
  destruct (ep_entry _ _ _ _ _ _ _ Hpost1)
    as (e1 & c1 & He1 & Hev1 & Hek1 & Hed1 & Hc1 & Hcd1).
  rewrite He1. cbn [mbind option_bind].
  eexists _, root1. split; [reflexivity|].
  split; [apply struct_inv_set_data; assumption|].
  unfold present_post. rewrite Hed1, <- Hcd1.
  exact (entry_post_trans 2 0 s s1 _ h e e1 _ _ _ _ Hh Hpost1 He1
           (entry_post_set_data s1 h e1 c1 _ Hh He1 Hc1)).
Qed.
End PresentSpec.

(** ** The subresource set: the table *)

Section Table.
Context {T : Type} `{BarrierSlice T}.
Import SubresourceSet.
Implicit Types (s : SubresourceSet.t T) (e : HashEntry T).

Lemma computeHash_nonneg key : 0 <= computeHash key.
Proof.
  unfold computeHash. apply lxor_shiftr_nonneg.
  unfold u64. apply Z.mod_pos_bound. lia.
Qed.

Lemma computeIndex_nonneg s key : 0 <= computeIndex s key.
Proof.
  unfold computeIndex. apply Z.land_nonneg. left. apply computeHash_nonneg.
Qed.

Lemma advanceIndex_nonneg s index : 0 <= advanceIndex s index.
Proof.
  unfold advanceIndex. apply Z.land_nonneg. left.
  unfold u64. apply Z.mod_pos_bound. lia.
Qed.

Lemma probe_spec fuel s key index found j :
  0 <= index ->
  probe fuel s key index = Some (found, j) ->
  0 <= j
  /\ exists e, at_ (m_hashMap s) j = Some e
       /\ if found then he_version e = m_version s /\ he_key e = key
          else he_version e <> m_version s.
Proof.
  revert index. induction fuel as [|fuel IH]; intros index Hi; cbn; [done|].
  destruct (at_ (m_hashMap s) index) as [e|] eqn:He; cbn; [|done].
  destruct (Z.eqb_spec (he_version e) (m_version s)) as [Hv|Hv].
  - destruct (Z.eqb_spec (he_key e) key) as [Hk|Hk].
    + intros [= <- <-]. eauto.
    + apply IH, advanceIndex_nonneg.
  - intros [= <- <-]. eauto.
Qed.

Lemma omap_omap {A B C : Type} (f : A -> option B) (g : B -> option C) (l : list A) :
  omap g (omap f l) = omap (fun x => f x ≫= g) l.
Proof.
  induction l as [|a l IH]; [reflexivity|].
  cbn [omap list_omap]. destruct (f a) as [b|]; cbn [mbind option_bind omap list_omap].
  - destruct (g b); now rewrite IH.
  - exact IH.
Qed.

Lemma omap_nil_all {A B : Type} (f : A -> option B) (l : list A) :
  (forall x, x ∈ l -> f x = None) -> omap f l = [].
Proof.
  intros Hf. induction l as [|a l IH]; [reflexivity|].
  cbn [omap list_omap]. rewrite (Hf a) by left.
  apply IH. intros x Hx. apply Hf. now right.
Qed.

Lemma heads_live_strip root v (hm : list (HashEntry T)) :
  omap (fun e => root <$> head_of v e) hm
  = omap (strip_root root) (omap (live_strip v) hm).
Proof.
  rewrite omap_omap. apply omap_ext_elem. intros e _.
  unfold head_of, live_strip, strip_root.
  destruct (he_version e =? v); cbn; [|reflexivity].
  destruct (he_next e <? NoEntry); reflexivity.
Qed.

Lemma live_strip_elem v (hm : list (HashEntry T)) x :
  x ∈ omap (live_strip v) hm <->
  exists i e, hm !! i = Some e /\ he_version e = v /\ strip e = x.
Proof.
  rewrite list_elem_of_omap. split.
  - intros (e & He & Hx). unfold live_strip in Hx.
    destruct (Z.eqb_spec (he_version e) v); [|done]. injection Hx as <-.
    apply list_elem_of_lookup_1 in He as [i Hi]. eauto.
  - intros (i & e & Hi & Hv & <-). exists e.
    split; [eapply list_elem_of_lookup_2, Hi|].
    unfold live_strip. now rewrite Hv, Z.eqb_refl.
Qed.

(** Growing the table keeps the shape: the live entries afterwards were
    live before, with the same key, slice and chain. *)
Lemma growHashMapBeforeInsert_inv root s s' :
  struct_inv root s -> m_version s + 1 < 2 ^ 64 - 1 ->
  growHashMapBeforeInsert s = Some s' ->
  struct_inv root s'
  /\ m_list s' = m_list s
  /\ m_used s' = m_used s
  /\ m_version s <= m_version s' <= m_version s + 1
  /\ (forall i e', m_hashMap s' !! i = Some e' -> he_version e' = m_version s' ->
        exists i0 e0, m_hashMap s !! i0 = Some e0
                      /\ he_version e0 = m_version s /\ strip e0 = strip e').
Proof.
  intros Hinv Hv. unfold growHashMapBeforeInsert.
  destruct (_ >=? _).
  2:{ intros [= <-]. split; [assumption|]. split; [reflexivity|].
      split; [reflexivity|]. split; [lia|]. eauto. }
  intros Hgrow.
  destruct Hinv as [Hwf Hheads Hnext Hver Hvers].
  destruct (growHashMap_live s _ s' Hver Hvers Hgrow)
    as (Ev & El & Eu & Hvers' & Hsub).
  change (omap (live_strip (m_version s')) (m_hashMap s')
          ⊆+ omap (live_strip (m_version s)) (m_hashMap s)) in Hsub.
  assert (Hfrom : forall i e', m_hashMap s' !! i = Some e' ->
                    he_version e' = m_version s' ->
                    exists i0 e0, m_hashMap s !! i0 = Some e0
                      /\ he_version e0 = m_version s /\ strip e0 = strip e').
  { intros i e' Hi Hlive.
    apply (live_strip_elem (m_version s) (m_hashMap s) (strip e')).
    eapply elem_of_submseteq; [|exact Hsub].
    apply live_strip_elem. eauto. }
  split; [|split; [assumption|]; split; [assumption|]; split; [lia|assumption]].
  split.
  - rewrite El. exact Hwf.
  - rewrite heads_live_strip. rewrite heads_live_strip in Hheads.
    eapply NoDup_submseteq_inv; [exact Hheads|].
    apply omap_submseteq. exact Hsub.
  - intros i e' Hi Hlive. rewrite El.
    destruct (Hfrom i e' Hi Hlive) as (i0 & e0 & Hi0 & Hv0 & Hs).
    injection Hs as _ _ <-. eapply Hnext; eassumption.
  - lia.
  - exact Hvers'.
Qed.

Lemma insertHashEntry_inv root s key d s1 r :
  struct_inv root s -> m_version s + 1 < 2 ^ 64 - 1 ->
  insertHashEntry s key d = Some (s1, r) ->
  struct_inv root s1
  /\ m_list s1 = m_list s
  /\ m_version s <= m_version s1 <= m_version s + 1
  /\ match r with
     | Some h =>
         0 <= h
         /\ (exists e, at_ (m_hashMap s1) h = Some e
             /\ he_version e = m_version s1 /\ he_key e = key)
         /\ forall i e', m_hashMap s1 !! i = Some e' ->
              he_version e' = m_version s1 ->
              exists i0 e0, m_hashMap s !! i0 = Some e0
                /\ he_version e0 = m_version s /\ strip e0 = strip e'
     | None =>
         forall i e', m_hashMap s1 !! i = Some e' ->
           he_version e' = m_version s1 ->
           strip e' = (key, d, NoEntry)
           \/ exists i0 e0, m_hashMap s !! i0 = Some e0
                /\ he_version e0 = m_version s /\ strip e0 = strip e'
     end.
Proof.
  intros Hinv Hv. unfold insertHashEntry.
  destruct (growHashMapBeforeInsert s) as [s0|] eqn:Hgrow; cbn [mbind option_bind]; [|done].
  destruct (growHashMapBeforeInsert_inv root s s0 Hinv Hv Hgrow)
    as (Hinv0 & El & Eu & Ev & Hfrom).
  destruct (probe _ s0 key _) as [[found index]|] eqn:Hprobe;
    cbn [mbind option_bind]; [|done].
  apply probe_spec in Hprobe as (Hidx & e & He & Hfound);
    [|apply computeIndex_nonneg].
  destruct found.
  - intros [= <- <-]. split; [assumption|]. split; [assumption|].
    split; [lia|]. split; [assumption|]. split; [eauto|assumption].
  - rewrite He. cbn [mbind option_bind]. intros [= <- <-].
    cbn [m_list m_version m_hashMap].
    destruct Hinv0 as [Hwf Hheads Hnext Hver Hvers].
    split; [split; cbn [m_list m_version m_hashMap]; try assumption|
            split; [assumption|]; split; [lia|]].
    + rewrite (omap_insert_same _ _ _ _ e He); [exact Hheads|].
      unfold head_of. cbn [he_version he_next].
      rewrite Z.ltb_irrefl, andb_false_r.
      rewrite (proj2 (Z.eqb_neq _ _) Hfound). reflexivity.
    + intros i ei Hi Hlive.
      destruct (decide (i = Z.to_nat index)) as [->|Hne].
      * rewrite list_lookup_insert_eq in Hi by (eapply lookup_lt_Some, He).
        injection Hi as <-. now left.
      * rewrite list_lookup_insert_ne in Hi by congruence. eapply Hnext; eassumption.
    + intros i ei Hi.
      destruct (decide (i = Z.to_nat index)) as [->|Hne].
      * rewrite list_lookup_insert_eq in Hi by (eapply lookup_lt_Some, He).
        injection Hi as <-. cbn. lia.
      * rewrite list_lookup_insert_ne in Hi by congruence. eapply Hvers, Hi.
    + intros i ei Hi Hlive.
      destruct (decide (i = Z.to_nat index)) as [->|Hne].
      * rewrite list_lookup_insert_eq in Hi by (eapply lookup_lt_Some, He).
        injection Hi as <-. now left.
      * rewrite list_lookup_insert_ne in Hi by congruence. right. eauto.
Qed.

Lemma struct_inv_clear root s :
  struct_inv root s -> m_version s + 1 < 2 ^ 64 - 1 ->
  struct_inv root (clear s).
Proof.
  intros [Hwf Hheads Hnext Hver Hvers] Hv.
  unfold clear. split; cbn [m_list m_version m_hashMap].
  - split; cbn.
    + rewrite NoEntry_eq. lia.
    + intros j e _ He. unfold at_ in He. now rewrite lookup_nil in He.
    + intros j. lia.
  - rewrite omap_nil_all; [constructor|].
    intros e He. apply list_elem_of_lookup_1 in He as [i Hi].
    unfold head_of. rewrite u64_small by lia.
    destruct (Z.eqb_spec (he_version e) (m_version s + 1)); [|reflexivity].
    specialize (Hvers i e Hi). lia.
  - intros i e Hi Hlive. rewrite u64_small in Hlive by lia.
    specialize (Hvers i e Hi). lia.
  - rewrite u64_small by lia. lia.
  - intros i e Hi. rewrite u64_small by lia. specialize (Hvers i e Hi). lia.
Qed.

Lemma struct_inv_init : struct_inv (fun j => j) (init (T := T)).
Proof.
  split; cbn.
  - split; cbn.
    + rewrite NoEntry_eq. lia.
    + intros j e _ He. unfold at_ in He. now rewrite lookup_nil in He.
    + intros j. lia.
  - constructor.
  - intros i e Hi. now rewrite lookup_nil in Hi.
  - lia.
  - intros i e Hi. now rewrite lookup_nil in Hi.
Qed.
End Table.

(** ** The laws hold for buffer slices and for image slices *)

Lemma BufferSlice_overlaps_sym a b :
  BufferSlice.overlaps a b = BufferSlice.overlaps b a.
Proof.
  apply eq_true_iff_eq. rewrite !BufferSlice_overlaps_spec. tauto.
Qed.

Lemma ImageSlice_overlaps_sym a b :
  ImageSlice.overlaps a b = ImageSlice.overlaps b a.
Proof.
  apply eq_true_iff_eq. rewrite !ImageSlice_overlaps_spec.
  rewrite (Z.land_comm (ImageSlice.m_aspects b)). tauto.
Qed.

Lemma BufferSlice_overlaps_self a :
  BufferSlice_nonempty a -> BufferSlice.overlaps a a = true.
Proof.
  intros Ha. apply BufferSlice_overlaps_spec. unfold BufferSlice_nonempty in Ha. lia.
Qed.

Lemma BufferSlice_nonempty_merge a b :
  BufferSlice_nonempty a -> BufferSlice_nonempty b ->
  BufferSlice_nonempty (BufferSlice.merge a b).
Proof. unfold BufferSlice_nonempty. cbn. lia. Qed.

Lemma ImageSlice_overlaps_self a :
  ImageSlice_nonempty a -> ImageSlice.overlaps a a = true.
Proof.
  intros (Ha & ? & ?). apply ImageSlice_overlaps_spec.
  rewrite Z.land_diag. tauto.
Qed.

Lemma ImageSlice_nonempty_merge a b :
  ImageSlice_nonempty a -> ImageSlice_nonempty b ->
  ImageSlice_nonempty (ImageSlice.merge a b).
Proof.
  intros (Ha & ? & ?) (Hb & ? & ?). unfold ImageSlice_nonempty. cbn.
  split; [|lia]. intros E. apply Z.lor_eq_0_iff in E. tauto.
Qed.

#[export] Instance BufferSlice_laws : BarrierSliceLaws BufferSlice.t := {|
  slice_nonempty := BufferSlice_nonempty;
  slice_getAccess_merge := fun a b => eq_refl;
  slice_overlaps_merge_l := BufferSlice_merge_overlaps_l;
  slice_overlaps_merge_r := BufferSlice_merge_overlaps_r;
  slice_overlaps_sym := BufferSlice_overlaps_sym;
  slice_overlaps_self := BufferSlice_overlaps_self;
  slice_nonempty_merge := BufferSlice_nonempty_merge;
  slice_isDirty_eq := fun a q => eq_refl
|}.

#[export] Instance ImageSlice_laws : BarrierSliceLaws ImageSlice.t := {|
  slice_nonempty := ImageSlice_nonempty;
  slice_getAccess_merge := fun a b => eq_refl;
  slice_overlaps_merge_l := ImageSlice_merge_overlaps_l;
  slice_overlaps_merge_r := ImageSlice_merge_overlaps_r;
  slice_overlaps_sym := ImageSlice_overlaps_sym;
  slice_overlaps_self := ImageSlice_overlaps_self;
  slice_nonempty_merge := ImageSlice_nonempty_merge;
  slice_isDirty_eq := fun a q => eq_refl
|}.

(** ** Access flags *)

Lemma flags_subseteq_refl a : flags_subseteq a a.
Proof. apply Z.lor_diag. Qed.

Lemma flags_subseteq_lor_l x a b : flags_subseteq x a -> flags_subseteq x (Z.lor a b).
Proof.
  unfold flags_subseteq. intros Hx.
  rewrite <- Z.lor_assoc, (Z.lor_comm b x), Z.lor_assoc, Hx. reflexivity.
Qed.

Lemma flags_subseteq_lor_r x a b : flags_subseteq x b -> flags_subseteq x (Z.lor a b).
Proof. rewrite Z.lor_comm. apply flags_subseteq_lor_l. Qed.

Lemma flags_subseteq_lor_mono x a b :
  flags_subseteq x a -> flags_subseteq (Z.lor x b) (Z.lor a b).
Proof.
  unfold flags_subseteq. intros Hx.
  rewrite (Z.lor_comm x b), Z.lor_assoc, <- (Z.lor_assoc a b b), Z.lor_diag.
  rewrite <- Z.lor_assoc, (Z.lor_comm b x), Z.lor_assoc, Hx. reflexivity.
Qed.

(** ** The subresource set: probing the first table *)

Lemma land_63 x : Z.land x 63 = x mod 64.
Proof. change 63 with (Z.ones 6). rewrite Z.land_ones by lia. reflexivity. Qed.

Lemma nth_probe_S key n :
  nth_probe key (S n) = Z.land (u64 (nth_probe key n + 1)) 63.
Proof. reflexivity. Qed.

Lemma nth_probe_range key n : 0 <= nth_probe key n < 64.
Proof.
  destruct n as [|n]; [unfold nth_probe; cbn | rewrite nth_probe_S];
    rewrite land_63; apply Z.mod_pos_bound; lia.
Qed.

Lemma nth_probe_succ key n :
  nth_probe key (S n) = (nth_probe key n + 1) mod 64.
Proof.
  pose proof (nth_probe_range key n) as Hr.
  rewrite nth_probe_S, land_63, u64_small by lia. reflexivity.
Qed.

Lemma nth_probe_add key m n :
  nth_probe key (m + n) = (nth_probe key m + Z.of_nat n) mod 64.
Proof.
  induction n as [|n IH].
  - rewrite Nat.add_0_r, Z.add_0_r, Z.mod_small by apply nth_probe_range.
    reflexivity.
  - rewrite Nat.add_succ_r, nth_probe_succ, IH.
    rewrite Zplus_mod_idemp_l. f_equal. lia.
Qed.

Lemma nth_probe_reach key i :
  0 <= i < 64 -> exists n, (n < 64)%nat /\ nth_probe key n = i.
Proof.
  intros Hi. pose proof (nth_probe_range key 0) as Hr.
  exists (Z.to_nat ((i - nth_probe key 0) mod 64)).
  pose proof (Z.mod_pos_bound (i - nth_probe key 0) 64 ltac:(lia)) as Hm.
  split; [lia|].
  change (Z.to_nat ((i - nth_probe key 0) mod 64))
    with (0 + Z.to_nat ((i - nth_probe key 0) mod 64))%nat.
  rewrite (nth_probe_add key 0), Z2Nat.id by lia.
  rewrite Zplus_mod_idemp_r.
  replace (nth_probe key 0 + (i - nth_probe key 0)) with i by lia.
  apply Z.mod_small. lia.
Qed.

Lemma nth_probe_period key n : nth_probe key (n + 64) = nth_probe key n.
Proof.
  rewrite nth_probe_add. change (Z.of_nat 64) with (1 * 64).
  rewrite Z_mod_plus_full. apply Z.mod_small, nth_probe_range.
Qed.

Section Probing.
Context {T : Type} `{BarrierSlice T}.
Import SubresourceSet.
Implicit Types (s : SubresourceSet.t T) (e : HashEntry T).

Lemma skeleton_lookup (hm : list (HashEntry T)) i v k :
  skeleton hm !! i = Some (v, k) <->
  exists e, hm !! i = Some e /\ he_version e = v /\ he_key e = k.
Proof.
  unfold skeleton. rewrite list_lookup_fmap. split.
  - destruct (hm !! i) as [e|]; cbn; [|done]. intros [= <- <-]. eauto.
  - intros (e & -> & <- & <-). reflexivity.
Qed.

Lemma skeleton_length (hm : list (HashEntry T)) :
  length (skeleton hm) = length hm.
Proof. apply length_fmap. Qed.

Lemma computeIndex_63 s key :
  m_indexMask s = 63 -> computeIndex s key = nth_probe key 0.
Proof. intros Hm. unfold computeIndex. now rewrite Hm. Qed.

Lemma advanceIndex_63 s key n :
  m_indexMask s = 63 ->
  advanceIndex s (nth_probe key n) = nth_probe key (S n).
Proof. intros Hm. unfold advanceIndex. rewrite Hm. now rewrite nth_probe_S. Qed.

(** Probing walks along the path and stops at its end. *)
Lemma probe_run s key n :
  m_indexMask s = 63 ->
  forall fuel m0, (n < fuel)%nat ->
    (forall m, (m < n)%nat ->
       exists k', skeleton (m_hashMap s) !! Z.to_nat (nth_probe key (m0 + m))
                  = Some (m_version s, k') /\ k' <> key) ->
    forall v k, skeleton (m_hashMap s) !! Z.to_nat (nth_probe key (m0 + n))
                = Some (v, k) ->
    (v = m_version s -> k = key ->
     probe fuel s key (nth_probe key m0) = Some (true, nth_probe key (m0 + n)))
    /\ (v <> m_version s ->
        probe fuel s key (nth_probe key m0) = Some (false, nth_probe key (m0 + n))).
Proof.
  intros Hmask. induction n as [|n IH]; intros fuel m0 Hfuel Hpath v k Hend.
  - destruct fuel as [|fuel]; [lia|]. rewrite Nat.add_0_r in *.
    apply skeleton_lookup in Hend as (e & He & Hv & Hk).
    cbn [probe]. unfold at_. rewrite He. cbn [mbind option_bind].
    split.
    + intros -> ->. rewrite Hv, Hk, !Z.eqb_refl. reflexivity.
    + intros Hne. rewrite Hv. now rewrite (proj2 (Z.eqb_neq _ _) Hne).
  - destruct fuel as [|fuel]; [lia|].
    destruct (Hpath 0%nat ltac:(lia)) as (k' & Hk' & Hne).
    rewrite Nat.add_0_r in Hk'.
    apply skeleton_lookup in Hk' as (e & He & Hv & Hk).
    cbn [probe]. unfold at_. rewrite He. cbn [mbind option_bind].
    rewrite Hv, Z.eqb_refl, Hk. rewrite (proj2 (Z.eqb_neq _ _) Hne).
    rewrite advanceIndex_63 by assumption.
    replace (m0 + S n)%nat with (S m0 + n)%nat in * by lia.
    apply IH; [lia| |exact Hend].
    intros m Hm. destruct (Hpath (S m) ltac:(lia)) as (k2 & Hk2 & Hne2).
    exists k2. split; [|assumption].
    replace (S m0 + m)%nat with (m0 + S m)%nat by lia. exact Hk2.
Qed.
End Probing.

Section TableInv.
Implicit Types (sk : list (Z * Z)).

Lemma filter_length_lt {A : Type} (P : A -> Prop) `{!forall x, Decision (P x)}
    (l : list A) :
  (length (filter P l) < length l)%nat -> exists i x, l !! i = Some x /\ ~ P x.
Proof.
  induction l as [|a l IH]; [cbn; lia|].
  rewrite filter_cons. destruct (decide (P a)) as [Ha|Ha].
  - cbn [length]. intros Hlt. destruct (IH ltac:(lia)) as (i & x & Hi & Hx).
    exists (S i), x. auto.
  - intros _. exists 0%nat, a. auto.
Qed.

Lemma table_vacancy v used sk :
  table_inv v used sk ->
  exists i v' k', (i < 64)%nat /\ sk !! i = Some (v', k') /\ v' <> v.
Proof.
  intros [Hsize Hused Hload _].
  destruct (filter_length_lt (fun p : Z * Z => p.1 = v) sk) as (i & [v' k'] & Hi & Hv).
  { lia. }
  exists i, v', k'. split; [|auto].
  apply lookup_lt_Some in Hi. lia.
Qed.

(** Probing for a key that no live entry holds ends at a slot that is
    not live. *)
Lemma table_stop v used sk key :
  table_inv v used sk ->
  (forall i, sk !! i <> Some (v, key)) ->
  exists n v' k',
    (n < 64)%nat /\ probe_path v sk key n
    /\ sk !! Z.to_nat (nth_probe key n) = Some (v', k') /\ v' <> v.
Proof.
  intros Hinv Habsent.
  destruct (table_vacancy v used sk Hinv) as (i & v0 & k0 & Hi & Hlook & Hv0).
  destruct (nth_probe_reach key (Z.of_nat i) ltac:(lia)) as (n0 & Hn0 & Hreach).
  assert (Hvac : exists v' k', sk !! Z.to_nat (nth_probe key n0) = Some (v', k')
                               /\ v' <> v).
  { rewrite Hreach, Nat2Z.id. eauto. }
  clear i v0 k0 Hi Hlook Hv0 Hreach.
  assert (Hscan : forall n,
             probe_path v sk key n
             \/ exists n' v' k', (n' < n)%nat /\ probe_path v sk key n'
                  /\ sk !! Z.to_nat (nth_probe key n') = Some (v', k') /\ v' <> v).
  { induction n as [|n [IH|(n' & v' & k' & Hn' & IH)]].
    - left. intros m Hm. lia.
    - pose proof (nth_probe_range key n) as Hr.
      destruct (lookup_lt_is_Some_2 sk (Z.to_nat (nth_probe key n)))
        as [[v1 k1] Hl1]; [rewrite (ti_size _ _ _ Hinv); lia|].
      destruct (decide (v1 = v)) as [->|Hv1].
      + left. intros m Hm. destruct (decide (m = n)) as [->|Hne].
        * exists k1. split; [exact Hl1|]. intros ->. now apply (Habsent _ Hl1).
        * apply IH. lia.
      + right. exists n, v1, k1. split; [lia|]. auto.
    - right. exists n', v', k'. split; [lia | exact IH]. }
  destruct (Hscan (S n0)) as [Hpath|(n' & v' & k' & Hn' & Hp & Hl & Hv)].
  - destruct Hvac as (v' & k' & Hlook & Hv').
    destruct (Hpath n0 ltac:(lia)) as (k1 & Hk1 & _). congruence.
  - exists n', v', k'. split; [lia|]. auto.
Qed.
End TableInv.

(** ** The subresource set: insertions that fit the first table *)

Section TableSteps.
Implicit Types (sk : list (Z * Z)).

Lemma filter_insert_length {A : Type} (P : A -> Prop)
    `{!forall x, Decision (P x)} (l : list A) (j : nat) (x y : A) :
  l !! j = Some y -> ~ P y -> P x ->
  length (filter P (<[j := x]> l)) = S (length (filter P l)).
Proof.
  intros Hy Hny Hx.
  rewrite insert_take_drop by (eapply lookup_lt_Some, Hy).
  rewrite <- (take_drop_middle l j y Hy) at 3.
  rewrite !filter_app, !filter_cons.
  destruct (decide (P x)); [|done]. destruct (decide (P y)); [done|].
  rewrite !length_app. cbn [length]. lia.
Qed.

Lemma table_inv_new v used sk key n v' k' :
  table_inv v used sk -> used < 45 -> (n < 64)%nat ->
  probe_path v sk key n ->
  sk !! Z.to_nat (nth_probe key n) = Some (v', k') -> v' <> v ->
  table_inv v (used + 1) (<[Z.to_nat (nth_probe key n) := (v, key)]> sk).
Proof.
  intros [Hsize Hused Hload Hpath] Hlt Hn Hp Hstop Hv'.
  set (j := Z.to_nat (nth_probe key n)) in *.
  assert (Hkeep : forall k m,
             probe_path v sk k m -> probe_path v (<[j := (v, key)]> sk) k m).
  { intros k m Hpm m' Hm'. destruct (Hpm m' Hm') as (k2 & Hk2 & Hne).
    exists k2. split; [|assumption].
    rewrite list_lookup_insert_ne; [exact Hk2|].
    intros Heq. rewrite <- Heq in Hk2. congruence. }
  split.
  - now rewrite length_insert.
  - rewrite (filter_insert_length _ sk j (v, key) (v', k') Hstop); cbn; auto.
    lia.
  - lia.
  - intros i k Hi. destruct (decide (i = j)) as [->|Hne].
    + rewrite list_lookup_insert_eq in Hi by (eapply lookup_lt_Some, Hstop).
      injection Hi as <-. exists n. split; [assumption|].
      split; [|now apply Hkeep].
      unfold j. pose proof (nth_probe_range key n). lia.
    + rewrite list_lookup_insert_ne in Hi by congruence.
      destruct (Hpath i k Hi) as (n0 & Hn0 & Hnth & Hp0).
      exists n0. split; [assumption|]. split; [assumption|]. now apply Hkeep.
Qed.

Lemma table_inv_fresh v :
  v <> 0 -> table_inv v 0 (replicate 64 (0, 0)).
Proof.
  intros Hv. split.
  - apply length_replicate.
  - assert (filter (fun p : Z * Z => p.1 = v) (replicate 64 (0, 0)) = []) as ->;
      [|reflexivity].
    generalize 64%nat. intros n. induction n as [|n IH]; [reflexivity|].
    cbn [replicate]. rewrite filter_cons. cbn.
    destruct (decide (0 = v)); [congruence | exact IH].
  - lia.
  - intros i k Hi. apply lookup_replicate in Hi as [Heq _].
    injection Heq as Hv0 _. congruence.
Qed.
End TableSteps.

Section History.
Context {T : Type} `{BarrierSlice T}.
Implicit Types (ops : list (Z * T)).

Lemma history_snoc_same ops k slice :
  history (ops ++ [(k, slice)]) k = history ops k ++ [slice].
Proof.
  unfold history. rewrite filter_app, map_app. f_equal.
  rewrite filter_cons. cbn. destruct (decide (k = k)); [reflexivity|congruence].
Qed.

Lemma history_snoc_other ops k k' slice :
  k' <> k -> history (ops ++ [(k, slice)]) k' = history ops k'.
Proof.
  intros Hne. unfold history. rewrite filter_app, map_app.
  rewrite filter_cons. cbn. destruct (decide (k = k')); [congruence|].
  cbn. apply app_nil_r.
Qed.

Lemma history_nil_iff ops k : history ops k = [] <-> k ∉ map fst ops.
Proof.
  unfold history. induction ops as [|[k0 x] ops IH].
  - cbn. split; [intros _ Hin; inversion Hin | reflexivity].
  - rewrite filter_cons. cbn [fst map].
    destruct (decide (k0 = k)) as [->|Hne]; cbn [map].
    + split; [discriminate|]. intros Hnin. exfalso. apply Hnin. left.
    + rewrite IH. rewrite not_elem_of_cons. split; [auto | tauto].
Qed.

Lemma history_elem ops k x : x ∈ history ops k <-> (k, x) ∈ ops.
Proof.
  unfold history. rewrite list_elem_of_fmap. split.
  - intros ([k0 y] & -> & Hin). apply list_elem_of_filter in Hin as [Hk Hin].
    cbn in Hk. now subst.
  - intros Hin. exists (k, x). split; [reflexivity|].
    apply list_elem_of_filter. auto.
Qed.

Lemma distinct_resources_snoc ops k slice :
  distinct_resources (ops ++ [(k, slice)])
  = if decide (k ∈ map fst ops) then distinct_resources ops
    else S (distinct_resources ops).
Proof.
  unfold distinct_resources. rewrite map_app. cbn [map fst].
  destruct (decide (k ∈ map fst ops)) as [Hin|Hnin].
  - apply Permutation_length, NoDup_Permutation; try apply NoDup_remove_dups.
    intros x. rewrite !elem_of_remove_dups, elem_of_app, list_elem_of_singleton.
    split; [intros [Hx | ->]; assumption | auto].
  - change (S (length (remove_dups (map fst ops))))
      with (length (k :: remove_dups (map fst ops))).
    apply Permutation_length, NoDup_Permutation.
    + apply NoDup_remove_dups.
    + apply NoDup_cons. split; [|apply NoDup_remove_dups].
      now rewrite elem_of_remove_dups.
    + intros x. rewrite elem_of_cons, !elem_of_remove_dups, elem_of_app,
        list_elem_of_singleton. tauto.
Qed.

Lemma distinct_resources_zero ops : distinct_resources ops = 0%nat -> ops = [].
Proof.
  unfold distinct_resources. destruct ops as [|[k x] ops]; [reflexivity|].
  intros Hlen. apply length_zero_iff_nil in Hlen.
  assert (Hin : k ∈ remove_dups (map fst ((k, x) :: ops)))
    by (apply elem_of_remove_dups; left).
  rewrite Hlen in Hin. inversion Hin.
Qed.

Lemma distinct_resources_prefix ops ops' :
  (distinct_resources ops <= distinct_resources (ops ++ ops'))%nat.
Proof.
  unfold distinct_resources. apply submseteq_length, NoDup_submseteq.
  - apply NoDup_remove_dups.
  - intros x. rewrite !elem_of_remove_dups, map_app, elem_of_app. auto.
Qed.

Lemma entry_after_snoc d c rest slice :
  entry_after d c (rest ++ [slice])
  = (slice_merge (entry_after d c rest).1 slice,
     entry_chain (entry_after d c rest).1 (entry_after d c rest).2 slice).
Proof.
  revert d c. induction rest as [|x rest IH]; intros d c; cbn; [reflexivity|].
  apply IH.
Qed.
End History.

Section FirstInv.
Context {T : Type} `{BarrierSlice T}.
Import SubresourceSet.
Implicit Types (s : SubresourceSet.t T) (e : HashEntry T) (ops : list (Z * T)).

Lemma first_inv_used_range s ops :
  first_inv s ops -> 0 <= m_used s <= 45.
Proof.
  intros Hinv. pose proof (ti_load _ _ _ (fi_table _ _ Hinv)).
  rewrite (fi_used _ _ Hinv) in *. lia.
Qed.

Lemma first_inv_size s ops : first_inv s ops -> length (m_hashMap s) = 64%nat.
Proof.
  intros Hinv. rewrite <- skeleton_length. apply (ti_size _ _ _ (fi_table _ _ Hinv)).
Qed.

Lemma growBefore_first s ops :
  first_inv s ops -> (distinct_resources ops < 45)%nat ->
  growHashMapBeforeInsert s = Some s.
Proof.
  intros Hinv Hlt. unfold growHashMapBeforeInsert, computeSize.
  rewrite (fi_mask _ _ Hinv), (fi_used _ _ Hinv).
  change (63 =? 0) with false. cbv iota.
  rewrite (u64_small (63 + 1)) by lia.
  rewrite !u64_small by lia.
  destruct (Z.geb_spec (10 * Z.of_nat (distinct_resources ops)) (7 * (63 + 1)));
    [lia | reflexivity].
Qed.

Lemma growBefore_init : growHashMapBeforeInsert (init (T := T)) = Some first_table.
Proof. reflexivity. Qed.

Lemma first_inv_first_table : first_inv first_table [].
Proof.
  split.
  - exists (fun j => j).
    apply (growHashMapBeforeInsert_inv (fun j => j) init first_table);
      [apply struct_inv_init | cbn; lia | apply growBefore_init].
  - reflexivity.
  - reflexivity.
  - cbn [first_table m_version m_used m_hashMap]. unfold skeleton.
    rewrite fmap_replicate. apply table_inv_fresh. lia.
  - reflexivity.
  - cbn. lia.
  - intros k. cbn [history entry_model filter map list_filter].
    intros i e Hi Hv. unfold first_table in Hi, Hv. cbn [m_hashMap m_version] in Hi, Hv.
    apply lookup_replicate in Hi as [-> _]. cbn in Hv. lia.
Qed.

Lemma insert_init resource slice :
  insert (init (T := T)) resource slice = insert first_table resource slice.
Proof.
  unfold insert, insertHashEntry. rewrite growBefore_init.
  rewrite (growBefore_first first_table [] first_inv_first_table); [reflexivity|].
  cbn. lia.
Qed.

Lemma skeleton_frame (hm hm' : list (HashEntry T)) h e e' :
  0 <= h -> length hm' = length hm ->
  at_ hm h = Some e -> at_ hm' h = Some e' ->
  he_version e' = he_version e -> he_key e' = he_key e ->
  (forall i, 0 <= i -> i <> h -> at_ hm' i = at_ hm i) ->
  skeleton hm' = skeleton hm.
Proof.
  intros Hh Hlen He He' Hv Hk Hothers. apply list_eq. intros i.
  unfold skeleton. rewrite !list_lookup_fmap.
  destruct (decide (i = Z.to_nat h)) as [->|Hne].
  - unfold at_ in He, He'. rewrite He, He'. cbn. congruence.
  - specialize (Hothers (Z.of_nat i) ltac:(lia) ltac:(lia)).
    unfold at_ in Hothers. rewrite Nat2Z.id in Hothers. now rewrite Hothers.
Qed.

Lemma first_inv_present s ops k slice i e c :
  first_inv s ops -> (distinct_resources ops < 45)%nat ->
  Z.of_nat (length ops) + 1 < 2 ^ 31 ->
  m_hashMap s !! i = Some e -> he_version e = m_version s -> he_key e = k ->
  chain (m_list s) (he_next e) c ->
  entry_model (history ops k) = Some (he_data e, c.*2) ->
  exists s', insert s k slice = Some s' /\ first_inv s' (ops ++ [(k, slice)]).
Proof.
  intros Hinv Hlt Hlen Hi Hlive Hkey Hc Hmodel.
  destruct (fi_struct _ _ Hinv) as [root Hstruct].
  assert (Hsk : skeleton (m_hashMap s) !! i = Some (m_version s, k))
    by (apply skeleton_lookup; eauto).
  destruct (ti_path _ _ _ (fi_table _ _ Hinv) i k Hsk) as (n & Hn & Hnth & Hpath).
  assert (Hprobe : probe (length (m_hashMap s)) s k (computeIndex s k)
                   = Some (true, Z.of_nat i)).
  { rewrite (first_inv_size _ _ Hinv), (computeIndex_63 _ _ (fi_mask _ _ Hinv)).
    rewrite <- Hnth.
    apply (probe_run s k n (fi_mask _ _ Hinv) 64 0 Hn Hpath (m_version s) k);
      [|reflexivity..].
    cbn [Nat.add]. rewrite Hnth, Nat2Z.id. exact Hsk. }
  assert (Hat : at_ (m_hashMap s) (Z.of_nat i) = Some e)
    by (unfold at_; now rewrite Nat2Z.id).
  destruct (insertPresent_spec root s (Z.of_nat i) e c slice Hstruct)
    as (s' & root' & Hpres & Hstruct' & Hpost); try assumption; try lia.
  { pose proof (fi_list _ _ Hinv). rewrite NoEntry_eq. lia. }
  exists s'. split.
  { unfold insert, insertHashEntry.
    rewrite (growBefore_first s ops Hinv Hlt). cbn [mbind option_bind].
    rewrite Hprobe. cbn [mbind option_bind]. exact Hpres. }
  destruct Hpost as [Hv' Hu' Hm' Hsz' Hl'
                       (e' & c' & He' & Hev' & Hek' & Hed' & Hc' & Hcd') Ho' Hch'].
  assert (Hskel : skeleton (m_hashMap s') = skeleton (m_hashMap s)).
  { eapply (skeleton_frame _ _ (Z.of_nat i)); try eassumption. lia. }
  assert (Hin : k ∈ map fst ops).
  { destruct (decide (k ∈ map fst ops)) as [|Hnin]; [assumption|].
    apply history_nil_iff in Hnin. rewrite Hnin in Hmodel. discriminate. }
  split.
  - eauto.
  - rewrite Hm'. apply (fi_mask _ _ Hinv).
  - rewrite Hv'. apply (fi_version _ _ Hinv).
  - rewrite Hv', Hu', Hskel. apply (fi_table _ _ Hinv).
  - rewrite Hu', (fi_used _ _ Hinv), distinct_resources_snoc.
    destruct (decide (k ∈ map fst ops)); [reflexivity | contradiction].
  - pose proof (fi_list _ _ Hinv). rewrite length_app. cbn [length]. lia.
  - intros k0. destruct (decide (k0 = k)) as [->|Hne].
    + rewrite history_snoc_same.
      destruct (history ops k) as [|first rest] eqn:Hhist; [discriminate|].
      cbn [entry_model app] in *. injection Hmodel as Hmodel.
      rewrite entry_after_snoc, Hmodel. cbn [fst snd].
      exists i, e', c'. unfold at_ in He'. rewrite Nat2Z.id in He'.
      split; [exact He'|]. split; [congruence|]. split; [congruence|].
      split; [exact Hc'|]. now rewrite Hed', Hcd'.
    + rewrite history_snoc_other by assumption.
      pose proof (fi_model _ _ Hinv k0) as Hk0.
      destruct (entry_model (history ops k0)) as [dc|].
      * destruct Hk0 as (i0 & e0 & c0 & Hi0 & Hlive0 & Hkey0 & Hc0 & Hdc).
        assert (Hi0i : i0 <> i) by (intros ->; congruence).
        exists i0, e0, c0.
        specialize (Ho' (Z.of_nat i0) ltac:(lia) ltac:(lia)).
        unfold at_ in Ho'. rewrite !Nat2Z.id in Ho'.
        split; [congruence|]. split; [congruence|]. split; [assumption|].
        split; [|assumption].
        apply (Hch' (Z.of_nat i0) e0 c0); try assumption; try lia.
        unfold at_. now rewrite Nat2Z.id.
      * intros i0 e0 Hi0 Hlive0.
        destruct (decide (i0 = i)) as [->|Hi0i].
        -- unfold at_ in He'. rewrite Nat2Z.id in He'. congruence.
        -- specialize (Ho' (Z.of_nat i0) ltac:(lia) ltac:(lia)).
           unfold at_ in Ho'. rewrite !Nat2Z.id in Ho'.
           apply (Hk0 i0 e0); congruence.
Qed.

Lemma first_inv_absent s ops k slice :
  first_inv s ops -> (distinct_resources ops < 45)%nat ->
  entry_model (history ops k) = None ->
  exists s', insert s k slice = Some s' /\ first_inv s' (ops ++ [(k, slice)]).
Proof.
  intros Hinv Hlt Hmodel.
  destruct (fi_struct _ _ Hinv) as [root Hstruct].
  pose proof (fi_model _ _ Hinv k) as Habs. rewrite Hmodel in Habs.
  assert (Hnil : history ops k = [])
    by (destruct (history ops k); [reflexivity | discriminate]).
  assert (Habsent : forall i, skeleton (m_hashMap s) !! i <> Some (m_version s, k)).
  { intros i Hi. apply skeleton_lookup in Hi as (e & He & Hv & Hk).
    now apply (Habs i e He Hv). }
  destruct (table_stop _ _ _ k (fi_table _ _ Hinv) Habsent)
    as (n & v' & k' & Hn & Hpath & Hstop & Hv').
  pose proof (nth_probe_range k n) as Hrange.
  assert (Hprobe : probe (length (m_hashMap s)) s k (computeIndex s k)
                   = Some (false, nth_probe k n)).
  { rewrite (first_inv_size _ _ Hinv), (computeIndex_63 _ _ (fi_mask _ _ Hinv)).
    apply (probe_run s k n (fi_mask _ _ Hinv) 64 0 Hn Hpath v' k' Hstop).
    exact Hv'. }
  pose proof Hstop as Hstop'.
  apply skeleton_lookup in Hstop' as (e0 & He0 & Hev0 & Hek0).
  pose proof (first_inv_used_range _ _ Hinv) as Hused.
  assert (Hused' : m_used s < 45) by (rewrite (fi_used _ _ Hinv); lia).
  set (s' := mk (m_version s) (m_used s + 1) (m_indexMask s) (m_list s)
                (<[Z.to_nat (nth_probe k n) :=
                    mkHashEntry (m_version s) k slice NoEntry]> (m_hashMap s))).
  assert (Hins : insertHashEntry s k slice = Some (s', None)).
  { unfold insertHashEntry.
    rewrite (growBefore_first s ops Hinv Hlt). cbn [mbind option_bind].
    rewrite Hprobe. cbn [mbind option_bind]. unfold at_. rewrite He0.
    cbn [mbind option_bind]. rewrite u64_small by lia. reflexivity. }
  exists s'. split; [unfold insert; now rewrite Hins|].
  assert (Hnin : k ∉ map fst ops) by now apply history_nil_iff.
  split.
  - exists root.
    apply (insertHashEntry_inv root s k slice s' None Hstruct); [|exact Hins].
    rewrite (fi_version _ _ Hinv). lia.
  - apply (fi_mask _ _ Hinv).
  - apply (fi_version _ _ Hinv).
  - cbn [s' m_version m_used m_hashMap]. unfold skeleton.
    rewrite list_fmap_insert. cbn [he_version he_key].
    eapply table_inv_new; try eassumption. apply (fi_table _ _ Hinv).
  - cbn [s' m_used]. rewrite (fi_used _ _ Hinv), distinct_resources_snoc.
    destruct (decide (k ∈ map fst ops)); [contradiction | lia].
  - pose proof (fi_list _ _ Hinv). cbn [s' m_list]. rewrite length_app. lia.
  - intros k0. cbn [s' m_hashMap m_version m_list].
    destruct (decide (k0 = k)) as [->|Hne].
    + rewrite history_snoc_same, Hnil. cbn [app entry_model entry_after].
      eexists (Z.to_nat (nth_probe k n)), _, [].
      split; [apply list_lookup_insert_eq; eapply lookup_lt_Some, He0|].
      cbn. repeat split. constructor. lia.
    + rewrite history_snoc_other by assumption.
      pose proof (fi_model _ _ Hinv k0) as Hk0.
      destruct (entry_model (history ops k0)) as [dc|].
      * destruct Hk0 as (i0 & e1 & c0 & Hi0 & Hlive0 & Hkey0 & Hc0 & Hdc).
        exists i0, e1, c0. split; [|auto].
        rewrite list_lookup_insert_ne; [assumption|].
        intros Heq. rewrite <- Heq in Hi0. congruence.
      * intros i0 e1 Hi0 Hlive0.
        destruct (decide (i0 = Z.to_nat (nth_probe k n))) as [->|Hi0j].
        -- rewrite list_lookup_insert_eq in Hi0 by (eapply lookup_lt_Some, He0).
           injection Hi0 as <-. cbn. congruence.
        -- rewrite list_lookup_insert_ne in Hi0 by congruence.
           now apply (Hk0 i0 e1).
Qed.
End FirstInv.

Section FirstRun.
Context {T : Type} `{BarrierSlice T}.
Import SubresourceSet.
Implicit Types (s : SubresourceSet.t T) (e : HashEntry T) (ops : list (Z * T)).

Lemma first_inv_insert s ops k slice :
  first_inv s ops -> (distinct_resources ops < 45)%nat ->
  Z.of_nat (length ops) + 1 < 2 ^ 31 ->
  exists s', insert s k slice = Some s' /\ first_inv s' (ops ++ [(k, slice)]).
Proof.
  intros Hinv Hlt Hlen.
  pose proof (fi_model _ _ Hinv k) as Hk.
  destruct (entry_model (history ops k)) as [[d cd]|] eqn:Hmodel.
  - destruct Hk as (i & e & c & Hi & Hlive & Hkey & Hc & Hdc).
    eapply first_inv_present; try eassumption. now rewrite Hmodel, Hdc.
  - now apply first_inv_absent.
Qed.

Lemma removelast_app_cons {A : Type} (l : list A) x l' :
  removelast (l ++ x :: l') = l ++ removelast (x :: l').
Proof. apply removelast_app. discriminate. Qed.

Lemma first_inv_run ops :
  forall s ops0,
    first_inv s ops0 ->
    fits_first_table (ops0 ++ ops) ->
    Z.of_nat (length (ops0 ++ ops)) < 2 ^ 31 ->
    exists s',
      run s (map (fun p : Z * T => Insert p.1 p.2) ops) = Some s'
      /\ first_inv s' (ops0 ++ ops).
Proof.
  induction ops as [|[k slice] ops IH]; intros s ops0 Hinv Hfit Hlen.
  - exists s. rewrite app_nil_r. auto.
  - assert (Hlt : (distinct_resources ops0 < 45)%nat).
    { unfold fits_first_table in Hfit. rewrite removelast_app_cons in Hfit.
      pose proof (distinct_resources_prefix ops0 (removelast ((k, slice) :: ops))).
      lia. }
    rewrite length_app in Hlen. cbn [length] in Hlen.
    destruct (first_inv_insert s ops0 k slice Hinv Hlt ltac:(lia))
      as (s1 & Hins & Hinv1).
    cbn [map run step fst snd]. rewrite Hins. cbn [mbind option_bind].
    replace (ops0 ++ (k, slice) :: ops) with ((ops0 ++ [(k, slice)]) ++ ops) in *
      by (now rewrite <- app_assoc).
    apply IH; try assumption.
    rewrite !length_app. cbn [length]. lia.
Qed.

(** The insertions that fit the first table run to an end, in a state
    that holds, for each resource, the entry its insertions lead to. *)
Lemma inserts_first ops :
  ops <> [] -> fits_first_table ops -> Z.of_nat (length ops) < 2 ^ 31 ->
  exists s, inserts ops = Some s /\ first_inv s ops.
Proof.
  intros Hne Hfit Hlen. destruct ops as [|[k slice] ops]; [done|].
  destruct (first_inv_run ((k, slice) :: ops) first_table []
              first_inv_first_table Hfit Hlen) as (s & Hrun & Hinv).
  exists s. split; [|exact Hinv].
  unfold inserts. cbn [map run step fst snd] in *.
  now rewrite insert_init.
Qed.

Lemma findHashEntry_first s ops k :
  first_inv s ops ->
  match entry_model (history ops k) with
  | None => findHashEntry s k = Some None
  | Some dc =>
      exists i e c,
        findHashEntry s k = Some (Some (Z.of_nat i))
        /\ m_hashMap s !! i = Some e
        /\ chain (m_list s) (he_next e) c
        /\ (he_data e, c.*2) = dc
  end.
Proof.
  intros Hinv. pose proof (fi_model _ _ Hinv k) as Hk.
  unfold findHashEntry.
  destruct (entry_model (history ops k)) as [dc|] eqn:Hmodel.
  - destruct Hk as (i & e & c & Hi & Hlive & Hkey & Hc & Hdc).
    exists i, e, c. split; [|auto].
    destruct (Z.eqb_spec (m_used s) 0) as [Hz|Hnz].
    { rewrite (fi_used _ _ Hinv) in Hz.
      rewrite (distinct_resources_zero ops) in Hmodel by lia. discriminate. }
    assert (Hsk : skeleton (m_hashMap s) !! i = Some (m_version s, k))
      by (apply skeleton_lookup; eauto).
    destruct (ti_path _ _ _ (fi_table _ _ Hinv) i k Hsk) as (n & Hn & Hnth & Hpath).
    rewrite (first_inv_size _ _ Hinv), (computeIndex_63 _ _ (fi_mask _ _ Hinv)).
    rewrite <- Hnth.
    rewrite (proj1 (probe_run s k n (fi_mask _ _ Hinv) 64 0 Hn Hpath (m_version s) k
                      ltac:(cbn [Nat.add]; rewrite Hnth, Nat2Z.id; exact Hsk))
               eq_refl eq_refl).
    reflexivity.
  - destruct (Z.eqb_spec (m_used s) 0) as [Hz|Hnz]; [reflexivity|].
    assert (Habsent : forall i, skeleton (m_hashMap s) !! i <> Some (m_version s, k)).
    { intros i Hi. apply skeleton_lookup in Hi as (e & He & Hv & Hk').
      now apply (Hk i e He Hv). }
    destruct (table_stop _ _ _ k (fi_table _ _ Hinv) Habsent)
      as (n & v' & k' & Hn & Hpath & Hstop & Hv').
    rewrite (first_inv_size _ _ Hinv), (computeIndex_63 _ _ (fi_mask _ _ Hinv)).
    rewrite (proj2 (probe_run s k n (fi_mask _ _ Hinv) 64 0 Hn Hpath v' k' Hstop) Hv').
    reflexivity.
Qed.

Lemma accessLoop_chain l n c fuel access entryAccess q :
  chain l n c -> (length c <= fuel)%nat ->
  accessLoop fuel l (getListEntry n) access entryAccess q
  = Some (access_loop c.*2 access entryAccess q).
Proof.
  intros Hc. revert fuel access.
  induction Hc as [n Hn|n e c Hn He Hc IH]; intros fuel access Hfuel.
  - unfold getListEntry. rewrite (proj2 (Z.ltb_ge _ _) Hn).
    destruct fuel; reflexivity.
  - unfold getListEntry at 1. rewrite (proj2 (Z.ltb_lt _ _)) by lia.
    destruct fuel as [|fuel]; [cbn in Hfuel; lia|].
    cbn [accessLoop fmap list_fmap access_loop snd].
    destruct (Flags.eqb access entryAccess); [reflexivity|].
    rewrite He. cbn [mbind option_bind]. apply IH. cbn in Hfuel. lia.
Qed.

Lemma dirtyLoop_chain l n c fuel dirty q :
  chain l n c -> (length c <= fuel)%nat ->
  dirtyLoop fuel l (getListEntry n) dirty q = Some (dirty_loop c.*2 dirty q).
Proof.
  intros Hc. revert fuel dirty.
  induction Hc as [n Hn|n e c Hn He Hc IH]; intros fuel dirty Hfuel.
  - unfold getListEntry. rewrite (proj2 (Z.ltb_ge _ _) Hn).
    destruct fuel; reflexivity.
  - unfold getListEntry at 1. rewrite (proj2 (Z.ltb_lt _ _)) by lia.
    destruct fuel as [|fuel]; [cbn in Hfuel; lia|].
    cbn [dirtyLoop fmap list_fmap dirty_loop snd].
    destruct dirty; [reflexivity|].
    rewrite He. cbn [mbind option_bind]. apply IH. cbn in Hfuel. lia.
Qed.

Lemma getAccess_first s ops k q :
  first_inv s ops ->
  getAccess s k q
  = Some match entry_model (history ops k) with
         | None => Flags.empty
         | Some dc => entry_getAccess dc.1 dc.2 q
         end.
Proof.
  intros Hinv. pose proof (findHashEntry_first s ops k Hinv) as Hfind.
  destruct (fi_struct _ _ Hinv) as [root Hstruct].
  unfold getAccess.
  destruct (entry_model (history ops k)) as [dc|].
  - destruct Hfind as (i & e & c & -> & Hi & Hc & <-).
    cbn [mbind option_bind fst snd]. unfold at_. rewrite Nat2Z.id, Hi.
    cbn [mbind option_bind]. unfold entry_getAccess.
    destruct (slice_overlaps (he_data e) q); cbn [negb]; [|reflexivity].
    inversion Hc as [n Hn|n e1 c1 Hn He1 Hc1]; subst.
    + unfold getListEntry. now rewrite (proj2 (Z.ltb_ge _ _) Hn).
    + unfold getListEntry. rewrite (proj2 (Z.ltb_lt _ _)) by lia.
      pose proof (accessLoop_chain (m_list s) (he_next e) _ (length (m_list s))
                    Flags.empty (slice_getAccess (he_data e)) q Hc
                    (chain_length _ _ _ _ (si_list _ _ Hstruct) Hc)) as Hloop.
      unfold getListEntry in Hloop.
      rewrite (proj2 (Z.ltb_lt _ _)) in Hloop by lia.
      rewrite Hloop. reflexivity.
  - rewrite Hfind. reflexivity.
Qed.

Lemma isDirty_first s ops k q :
  first_inv s ops ->
  isDirty s k q
  = Some match entry_model (history ops k) with
         | None => false
         | Some dc => entry_isDirty dc.1 dc.2 q
         end.
Proof.
  intros Hinv. pose proof (findHashEntry_first s ops k Hinv) as Hfind.
  destruct (fi_struct _ _ Hinv) as [root Hstruct].
  unfold isDirty.
  destruct (entry_model (history ops k)) as [dc|].
  - destruct Hfind as (i & e & c & -> & Hi & Hc & <-).
    cbn [mbind option_bind fst snd]. unfold at_. rewrite Nat2Z.id, Hi.
    cbn [mbind option_bind]. unfold entry_isDirty.
    destruct (slice_isDirty (he_data e) q); cbn [negb]; [|reflexivity].
    inversion Hc as [n Hn|n e1 c1 Hn He1 Hc1]; subst.
    + unfold getListEntry. now rewrite (proj2 (Z.ltb_ge _ _) Hn).
    + unfold getListEntry. rewrite (proj2 (Z.ltb_lt _ _)) by lia.
      pose proof (dirtyLoop_chain (m_list s) (he_next e) _ (length (m_list s))
                    false q Hc
                    (chain_length _ _ _ _ (si_list _ _ Hstruct) Hc)) as Hloop.
      unfold getListEntry in Hloop.
      rewrite (proj2 (Z.ltb_lt _ _)) in Hloop by lia.
      rewrite Hloop. reflexivity.
  - rewrite Hfind. reflexivity.
Qed.
End FirstRun.

(** ** What the queries on one entry return *)

Lemma flags_subseteq_testbit x a b :
  flags_subseteq x a -> Z.testbit x b = true -> Z.testbit a b = true.
Proof.
  unfold flags_subseteq. intros <- Hx. rewrite Z.lor_spec, Hx. apply orb_true_r.
Qed.

Lemma flags_subseteq_bits x a :
  (forall b, 0 <= b -> Z.testbit x b = true -> Z.testbit a b = true) ->
  flags_subseteq x a.
Proof.
  intros Hb. unfold flags_subseteq. apply Z.bits_inj'. intros b Hb0.
  rewrite Z.lor_spec. destruct (Z.testbit x b) eqn:Hx.
  - rewrite (Hb b Hb0 Hx). reflexivity.
  - apply orb_false_r.
Qed.

Lemma flags_subseteq_trans x y z :
  flags_subseteq x y -> flags_subseteq y z -> flags_subseteq x z.
Proof.
  unfold flags_subseteq. intros Hxy Hyz.
  rewrite <- Hyz, <- Z.lor_assoc, Hxy. reflexivity.
Qed.

Lemma flags_subseteq_zero a : flags_subseteq 0 a.
Proof. apply Z.lor_0_r. Qed.

Lemma flags_subseteq_lor x y a :
  flags_subseteq x a -> flags_subseteq y a -> flags_subseteq (Z.lor x y) a.
Proof.
  unfold flags_subseteq. intros Hx Hy. now rewrite Z.lor_assoc, Hx, Hy.
Qed.

Lemma join_prime_testbit b : join_prime (fun a => Z.testbit a b = true).
Proof. intros a a'. rewrite Z.lor_spec. apply orb_true_iff. Qed.

Lemma join_prime_write w :
  join_prime (fun a => Flags.test (Z.lor a w) Write = true).
Proof.
  intros a a'. unfold Flags.test. rewrite !Z.lor_spec.
  destruct (Z.testbit a _), (Z.testbit a' _), (Z.testbit w _); cbn; tauto.
Qed.

Lemma join_prime_mono P x a :
  join_prime P -> flags_subseteq x a -> P x -> P a.
Proof. unfold flags_subseteq. intros HP <- Hx. apply HP. now right. Qed.

Section EntryQueries.
Context {T : Type} `{BarrierSliceLaws T}.
Implicit Types (d x y q : T) (c history : list T).

Lemma slice_le_refl x : slice_le x x.
Proof. split; [auto | apply flags_subseteq_refl]. Qed.

Lemma slice_le_trans x y z : slice_le x y -> slice_le y z -> slice_le x z.
Proof.
  intros [Ho1 Hf1] [Ho2 Hf2]. split; [auto|].
  eapply flags_subseteq_trans; eassumption.
Qed.

Lemma slice_le_merge_l a b : slice_le a (slice_merge a b).
Proof.
  split.
  - intros q. apply slice_overlaps_merge_l.
  - rewrite slice_getAccess_merge. apply flags_subseteq_lor_l, flags_subseteq_refl.
Qed.

Lemma slice_le_merge_r a b : slice_le b (slice_merge a b).
Proof.
  split.
  - intros q. apply slice_overlaps_merge_r.
  - rewrite slice_getAccess_merge. apply flags_subseteq_lor_r, flags_subseteq_refl.
Qed.

(** *** The loops *)

Lemma chain_access_cons y c q :
  chain_access (y :: c) q
  = if slice_overlaps y q then Z.lor (chain_access c q) (slice_getAccess y)
    else chain_access c q.
Proof. reflexivity. Qed.

Lemma chain_access_subseteq c q a :
  (forall y, y ∈ c -> flags_subseteq (slice_getAccess y) a) ->
  flags_subseteq (chain_access c q) a.
Proof.
  induction c as [|y c IH]; intros Hc; [apply flags_subseteq_zero|].
  rewrite chain_access_cons.
  assert (flags_subseteq (chain_access c q) a)
    by (apply IH; intros; apply Hc; now right).
  destruct (slice_overlaps y q); [|assumption].
  apply flags_subseteq_lor; [assumption | apply Hc; left].
Qed.

Lemma chain_access_prime c q P :
  join_prime P -> ~ P 0 ->
  (P (chain_access c q) <->
   exists y, y ∈ c /\ slice_overlaps y q = true /\ P (slice_getAccess y)).
Proof.
  intros HP Hzero. induction c as [|y c IH].
  - cbn. split; [contradiction | intros (y & Hy & _); inversion Hy].
  - rewrite chain_access_cons. destruct (slice_overlaps y q) eqn:Hov.
    + split.
      * intros HPl. apply HP in HPl as [HPc|HPy].
        -- apply IH in HPc as (z & Hz & Hzq & HPz).
           exists z. split; [now right | auto].
        -- exists y. split; [left | auto].
      * intros (z & Hz & Hzq & HPz). apply HP.
        apply elem_of_cons in Hz as [-> | Hz].
        -- now right.
        -- left. apply IH. eauto.
    + rewrite IH. split.
      * intros (z & Hz & Hzq & HPz). exists z. split; [now right | auto].
      * intros (z & Hz & Hzq & HPz). apply elem_of_cons in Hz as [-> | Hz].
        -- congruence.
        -- eauto.
Qed.

Lemma access_loop_union c access entryAccess q :
  (forall y, y ∈ c -> flags_subseteq (slice_getAccess y) entryAccess) ->
  flags_subseteq access entryAccess ->
  access_loop c access entryAccess q = Z.lor access (chain_access c q).
Proof.
  revert access. induction c as [|y c IH]; intros access Hc Hacc.
  - cbn. now rewrite Z.lor_0_r.
  - cbn [access_loop]. unfold Flags.eqb.
    destruct (Z.eqb_spec access entryAccess) as [->|Hne].
    + symmetry. apply (chain_access_subseteq (y :: c) q entryAccess Hc).
    + rewrite chain_access_cons. unfold Flags.set.
      assert (Hc' : forall z, z ∈ c -> flags_subseteq (slice_getAccess z) entryAccess)
        by (intros; apply Hc; now right).
      destruct (slice_overlaps y q).
      * rewrite IH; [|assumption|].
        -- rewrite (Z.lor_comm (chain_access c q)), Z.lor_assoc. reflexivity.
        -- apply flags_subseteq_lor; [assumption | apply Hc; left].
      * now apply IH.
Qed.

Lemma dirty_loop_exists c q :
  dirty_loop c false q = existsb (fun y => slice_isDirty y q) c.
Proof.
  induction c as [|y c IH]; [reflexivity|].
  cbn [dirty_loop existsb]. destruct (slice_isDirty y q) eqn:Hy; cbn [orb].
  - destruct c; reflexivity.
  - exact IH.
Qed.

Lemma hist_access_elem history x :
  x ∈ history -> flags_subseteq (slice_getAccess x) (hist_access history).
Proof.
  induction history as [|z history IH]; intros Hx; [inversion Hx|].
  cbn [hist_access fold_right]. apply elem_of_cons in Hx as [->|Hx].
  - apply flags_subseteq_lor_r, flags_subseteq_refl.
  - apply flags_subseteq_lor_l. now apply IH.
Qed.

Lemma hist_access_app h1 h2 :
  hist_access (h1 ++ h2) = Z.lor (hist_access h1) (hist_access h2).
Proof.
  induction h1 as [|z h1 IH]; cbn [hist_access fold_right app].
  - now rewrite Z.lor_0_l.
  - fold (hist_access (h1 ++ h2)). fold (hist_access h1). rewrite IH.
    rewrite <- !Z.lor_assoc. f_equal. apply Z.lor_comm.
Qed.

(** *** What [insert] does to the nodes *)

Lemma merge_first_forward c slice c' :
  merge_first c slice = Some c' ->
  (forall y, y ∈ c -> exists y', y' ∈ c' /\ slice_le y y')
  /\ (exists y', y' ∈ c' /\ slice_le slice y').
Proof.
  revert c'. induction c as [|z c IH]; intros c'; cbn; [done|].
  destruct (slice_canMerge z slice).
  - intros [= <-]. split.
    + intros y Hy. apply elem_of_cons in Hy as [->|Hy].
      * exists (slice_merge z slice). split; [left | apply slice_le_merge_l].
      * exists y. split; [now right | apply slice_le_refl].
    + exists (slice_merge z slice). split; [left | apply slice_le_merge_r].
  - destruct (merge_first c slice) as [c2|]; cbn; [|done].
    intros [= <-]. destruct (IH c2 eq_refl) as [Hall (y' & Hy' & Hle)]. split.
    + intros y Hy. apply elem_of_cons in Hy as [->|Hy].
      * exists z. split; [left | apply slice_le_refl].
      * destruct (Hall y Hy) as (y2 & Hy2 & Hle2). exists y2. split; [now right | auto].
    + exists y'. split; [now right | auto].
Qed.

Lemma merge_first_backward c slice c' :
  merge_first c slice = Some c' ->
  forall y', y' ∈ c' ->
    y' ∈ c \/ exists y, y ∈ c /\ slice_canMerge y slice = true
                        /\ y' = slice_merge y slice.
Proof.
  revert c'. induction c as [|z c IH]; intros c'; cbn; [done|].
  destruct (slice_canMerge z slice) eqn:Hcan.
  - intros [= <-] y' Hy'. apply elem_of_cons in Hy' as [->|Hy'].
    + right. exists z. split; [left | auto].
    + left. now right.
  - destruct (merge_first c slice) as [c2|]; cbn; [|done].
    intros [= <-] y' Hy'. apply elem_of_cons in Hy' as [->|Hy'].
    + left. left.
    + destruct (IH c2 eq_refl y' Hy') as [Hin | (y & Hy & Hc & ->)].
      * left. now right.
      * right. exists y. split; [now right | auto].
Qed.

Lemma merge_first_nonempty c slice c' :
  merge_first c slice = Some c' -> c' <> [].
Proof.
  destruct c as [|z c]; cbn; [done|].
  destruct (slice_canMerge z slice); [intros [= <-]; done|].
  destruct (merge_first c slice); cbn; [intros [= <-]; done | done].
Qed.

(** Every old node and the new slice are covered by a new node. *)
Lemma nodes_forward d c slice :
  (forall y, y ∈ nodes d c ->
     exists y', y' ∈ nodes (slice_merge d slice) (entry_chain d c slice)
                /\ slice_le y y')
  /\ (exists y', y' ∈ nodes (slice_merge d slice) (entry_chain d c slice)
                 /\ slice_le slice y').
Proof.
  unfold entry_chain. destruct c as [|z c].
  - cbn [nodes]. destruct (slice_canMerge d slice); cbn [nodes].
    + split.
      * intros y Hy. apply list_elem_of_singleton in Hy as ->.
        exists (slice_merge d slice). split; [left | apply slice_le_merge_l].
      * exists (slice_merge d slice). split; [left | apply slice_le_merge_r].
    + split.
      * intros y Hy. apply list_elem_of_singleton in Hy as ->.
        exists d. split; [right; left | apply slice_le_refl].
      * exists slice. split; [left | apply slice_le_refl].
  - assert (Hpush : (forall y, y ∈ nodes d (z :: c) ->
                       exists y', y' ∈ nodes (slice_merge d slice) (slice :: z :: c)
                                  /\ slice_le y y')
                    /\ (exists y', y' ∈ nodes (slice_merge d slice) (slice :: z :: c)
                                   /\ slice_le slice y')).
    { cbn [nodes]. split.
      - intros y Hy. exists y. split; [now right | apply slice_le_refl].
      - exists slice. split; [left | apply slice_le_refl]. }
    destruct is_image_slice; [|exact Hpush].
    destruct (merge_first (z :: c) slice) as [c'|] eqn:Hm; [|exact Hpush].
    pose proof (merge_first_nonempty _ _ _ Hm) as Hne.
    destruct c' as [|z' c']; [done|]. cbn [nodes].
    now apply merge_first_forward.
Qed.

(** Every new node is an old node, the new slice, or an old node
    merged with the new slice it can merge with. *)
Lemma nodes_backward d c slice y' :
  y' ∈ nodes (slice_merge d slice) (entry_chain d c slice) ->
  y' ∈ nodes d c \/ y' = slice
  \/ exists y, y ∈ nodes d c /\ slice_canMerge y slice = true
               /\ y' = slice_merge y slice.
Proof.
  unfold entry_chain. destruct c as [|z c].
  - cbn [nodes]. destruct (slice_canMerge d slice) eqn:Hcan; cbn [nodes].
    + intros Hy. apply list_elem_of_singleton in Hy as ->.
      right. right. exists d. split; [left | auto].
    + intros Hy. apply elem_of_cons in Hy as [->|Hy]; [now right; left|].
      left. exact Hy.
  - assert (Hpush : y' ∈ nodes (slice_merge d slice) (slice :: z :: c) ->
                    y' ∈ nodes d (z :: c) \/ y' = slice
                    \/ exists y, y ∈ nodes d (z :: c)
                         /\ slice_canMerge y slice = true
                         /\ y' = slice_merge y slice).
    { cbn [nodes]. intros Hy. apply elem_of_cons in Hy as [->|Hy]; auto. }
    destruct is_image_slice; [|exact Hpush].
    destruct (merge_first (z :: c) slice) as [c'|] eqn:Hm; [|exact Hpush].
    pose proof (merge_first_nonempty _ _ _ Hm) as Hne.
    destruct c' as [|z' c']; [done|]. cbn [nodes]. intros Hy.
    destruct (merge_first_backward _ _ _ Hm y' Hy) as [Hin|Hmerged]; auto.
Qed.

Lemma entry_chain_elem d c slice y' :
  y' ∈ entry_chain d c slice ->
  y' ∈ c \/ y' = slice \/ y' = d
  \/ exists y, y ∈ c /\ y' = slice_merge y slice.
Proof.
  unfold entry_chain. destruct c as [|z c].
  - destruct (slice_canMerge d slice); [intros Hy; inversion Hy|].
    intros Hy. apply elem_of_cons in Hy as [->|Hy]; [auto|].
    apply list_elem_of_singleton in Hy as ->. auto.
  - assert (Hpush : y' ∈ slice :: z :: c ->
                    y' ∈ z :: c \/ y' = slice \/ y' = d
                    \/ exists y, y ∈ z :: c /\ y' = slice_merge y slice).
    { intros Hy. apply elem_of_cons in Hy as [->|Hy]; auto. }
    destruct is_image_slice; [|exact Hpush].
    destruct (merge_first (z :: c) slice) as [c'|] eqn:Hm; [|exact Hpush].
    intros Hy. destruct (merge_first_backward _ _ _ Hm y' Hy)
      as [Hin|(y & Hin & _ & ->)]; [auto|].
    right. right. right. eauto.
Qed.

(** *** The entry answers for its history *)

Lemma entry_sound_first x : entry_sound [x] x [].
Proof.
  split.
  - intros y Hy. apply list_elem_of_singleton in Hy as ->. apply slice_le_refl.
  - cbn. apply flags_subseteq_lor_r, flags_subseteq_refl.
  - intros y Hy. exists x. split; [left|].
    apply list_elem_of_singleton in Hy as ->. apply slice_le_refl.
  - intros y Hy. inversion Hy.
Qed.

Lemma entry_sound_step history d c slice :
  entry_sound history d c ->
  entry_sound (history ++ [slice]) (slice_merge d slice) (entry_chain d c slice).
Proof.
  intros [Hcover Hflags Hnodes Hchain].
  destruct (nodes_forward d c slice) as [Hfwd Hnew]. split.
  - intros x Hx. apply elem_of_app in Hx as [Hx|Hx].
    + eapply slice_le_trans; [apply Hcover, Hx | apply slice_le_merge_l].
    + apply list_elem_of_singleton in Hx as ->. apply slice_le_merge_r.
  - rewrite slice_getAccess_merge, hist_access_app.
    apply flags_subseteq_lor.
    + now apply flags_subseteq_lor_l.
    + apply flags_subseteq_lor_r. cbn.
      apply flags_subseteq_lor_r, flags_subseteq_refl.
  - intros x Hx. apply elem_of_app in Hx as [Hx|Hx].
    + destruct (Hnodes x Hx) as (y & Hy & Hle).
      destruct (Hfwd y Hy) as (y' & Hy' & Hle').
      exists y'. split; [assumption|]. eapply slice_le_trans; eassumption.
    + apply list_elem_of_singleton in Hx as ->. exact Hnew.
  - intros y' Hy'. rewrite slice_getAccess_merge.
    destruct (entry_chain_elem d c slice y' Hy')
      as [Hin|[->|[->|(y & Hin & ->)]]].
    + apply flags_subseteq_lor_l. now apply Hchain.
    + apply flags_subseteq_lor_r, flags_subseteq_refl.
    + apply flags_subseteq_lor_l, flags_subseteq_refl.
    + rewrite slice_getAccess_merge. apply flags_subseteq_lor_mono.
      now apply Hchain.
Qed.

Lemma entry_sound_after rest :
  forall history d c,
    entry_sound history d c ->
    entry_sound (history ++ rest) (entry_after d c rest).1 (entry_after d c rest).2.
Proof.
  induction rest as [|slice rest IH]; intros history d c Hs.
  - now rewrite app_nil_r.
  - cbn [entry_after].
    replace (history ++ slice :: rest) with ((history ++ [slice]) ++ rest)
      by (now rewrite <- app_assoc).
    apply IH. now apply entry_sound_step.
Qed.
End EntryQueries.

Lemma flags_subseteq_antisym x y :
  flags_subseteq x y -> flags_subseteq y x -> x = y.
Proof.
  unfold flags_subseteq. intros Hxy Hyx. rewrite <- Hyx, Z.lor_comm. exact Hxy.
Qed.

Section EntryAnswers.
Context {T : Type} `{BarrierSliceLaws T}.
Implicit Types (d x y q : T) (c history : list T).

Lemma chain_access_none history q :
  (forall x, x ∈ history -> slice_overlaps x q = false) ->
  chain_access history q = 0.
Proof.
  induction history as [|x history IH]; intros Hn; [reflexivity|].
  rewrite chain_access_cons, (Hn x) by left.
  apply IH. intros; apply Hn; now right.
Qed.

Lemma nodes_flags history d c y :
  entry_sound history d c -> y ∈ nodes d c ->
  flags_subseteq (slice_getAccess y) (slice_getAccess d).
Proof.
  intros Hs Hy. destruct c as [|z c]; cbn [nodes] in Hy.
  - apply list_elem_of_singleton in Hy as ->. apply flags_subseteq_refl.
  - now apply (es_chain _ _ _ Hs).
Qed.

Lemma entry_getAccess_nodes history d c q :
  entry_sound history d c -> slice_overlaps d q = true ->
  entry_getAccess d c q = chain_access (nodes d c) q.
Proof.
  intros Hs Hov. unfold entry_getAccess. rewrite Hov. cbn [negb].
  destruct c as [|z c]; cbn [nodes].
  - rewrite chain_access_cons, Hov. cbn. now rewrite Z.lor_0_l.
  - rewrite access_loop_union.
    + apply Z.lor_0_l.
    + intros y Hy. now apply (es_chain _ _ _ Hs).
    + apply flags_subseteq_zero.
Qed.

Lemma entry_getAccess_none history d c q :
  entry_sound history d c -> slice_overlaps d q = false ->
  entry_getAccess d c q = 0 /\ chain_access history q = 0.
Proof.
  intros Hs Hov. split.
  - unfold entry_getAccess. now rewrite Hov.
  - apply chain_access_none. intros x Hx.
    destruct (slice_overlaps x q) eqn:Hx'; [|reflexivity].
    destruct (es_cover _ _ _ Hs x Hx) as [Hc _]. rewrite (Hc q Hx') in Hov.
    discriminate.
Qed.

Lemma testbit_zero_false b : ~ (Z.testbit 0 b = true).
Proof. rewrite Z.testbit_0_l. discriminate. Qed.

(** [getAccess] returns at least the flags of the overlapping slices of
    the history, and only flags of the history. *)
Lemma entry_getAccess_sound history d c q :
  entry_sound history d c ->
  flags_subseteq (chain_access history q) (entry_getAccess d c q)
  /\ flags_subseteq (entry_getAccess d c q) (hist_access history).
Proof.
  intros Hs. destruct (slice_overlaps d q) eqn:Hov.
  - rewrite (entry_getAccess_nodes history d c q Hs Hov). split.
    + apply flags_subseteq_bits. intros b _ Hb.
      apply (chain_access_prime _ _ _ (join_prime_testbit b) (testbit_zero_false b))
        in Hb as (x & Hx & Hxq & Hxb).
      apply (chain_access_prime _ _ _ (join_prime_testbit b) (testbit_zero_false b)).
      destruct (es_nodes _ _ _ Hs x Hx) as (y & Hy & Hle & Hf).
      exists y. split; [assumption|]. split; [auto|].
      eapply flags_subseteq_testbit; eassumption.
    + eapply flags_subseteq_trans; [|apply (es_flags _ _ _ Hs)].
      apply chain_access_subseteq. intros y Hy.
      eapply nodes_flags; eassumption.
  - destruct (entry_getAccess_none history d c q Hs Hov) as [-> ->].
    split; apply flags_subseteq_zero.
Qed.

Lemma slice_isDirty_iff y q :
  slice_isDirty y q = true <->
  slice_overlaps y q = true
  /\ Flags.test (Z.lor (slice_getAccess y) (slice_getAccess q)) Write = true.
Proof.
  rewrite slice_isDirty_eq, andb_true_iff, (Z.lor_comm (slice_getAccess q)).
  tauto.
Qed.

Lemma hist_write_iff history q :
  hist_write history q = true <->
  exists x, x ∈ history /\ slice_overlaps x q = true
            /\ Flags.test (Z.lor (slice_getAccess x) (slice_getAccess q)) Write = true.
Proof.
  unfold hist_write. rewrite existsb_exists. split.
  - intros (x & Hx & Hb). apply andb_true_iff in Hb.
    exists x. split; [now apply list_elem_of_In | exact Hb].
  - intros (x & Hx & Hb). exists x.
    split; [now apply list_elem_of_In | now apply andb_true_iff].
Qed.

Lemma entry_isDirty_iff history d c q :
  entry_sound history d c ->
  (entry_isDirty d c q = true <->
   slice_isDirty d q = true
   /\ exists y, y ∈ nodes d c /\ slice_isDirty y q = true).
Proof.
  intros Hs. unfold entry_isDirty.
  destruct (slice_isDirty d q) eqn:Hd; cbn [negb].
  - destruct c as [|z c]; cbn [nodes].
    + split; [|reflexivity]. intros _. split; [reflexivity|].
      exists d. split; [left | assumption].
    + rewrite dirty_loop_exists, existsb_exists. split.
      * intros (y & Hy & Hyq). split; [reflexivity|].
        exists y. split; [now apply list_elem_of_In | assumption].
      * intros (_ & y & Hy & Hyq). exists y.
        split; [now apply list_elem_of_In | assumption].
  - split; [discriminate | intros [? _]; discriminate].
Qed.

(** [isDirty] returns true whenever a slice of the history is dirty
    with the query. *)
Lemma entry_isDirty_sound history d c q :
  entry_sound history d c ->
  hist_write history q = true -> entry_isDirty d c q = true.
Proof.
  intros Hs Hw. apply hist_write_iff in Hw as (x & Hx & Hxq & Hxw).
  apply (entry_isDirty_iff history d c q Hs). split.
  - apply slice_isDirty_iff. destruct (es_cover _ _ _ Hs x Hx) as [Hc Hf].
    split; [auto|].
    exact (join_prime_mono _ _ _ (join_prime_write (slice_getAccess q)) Hf Hxw).
  - destruct (es_nodes _ _ _ Hs x Hx) as (y & Hy & Hc & Hf).
    exists y. split; [assumption|]. apply slice_isDirty_iff. split; [auto|].
    exact (join_prime_mono _ _ _ (join_prime_write (slice_getAccess q)) Hf Hxw).
Qed.

(** *** Exact answers *)

Section Exact.
Variables dom ok : T -> Prop.
Hypothesis dom_merge : forall a b, dom a -> dom b -> dom (slice_merge a b).
Hypothesis merging_exact : merge_exact dom ok.

Lemma nodes_dom history d c y :
  entry_exact dom ok history d c -> y ∈ nodes d c -> dom y.
Proof.
  intros He Hy. destruct c as [|z c]; cbn [nodes] in Hy.
  - apply list_elem_of_singleton in Hy as ->. apply (ee_entry _ _ _ _ _ He).
  - now apply (ee_chain _ _ _ _ _ He).
Qed.

Lemma entry_exact_first x : dom x -> entry_exact dom ok [x] x [].
Proof.
  intros Hx. split; [assumption | intros y Hy; inversion Hy|].
  intros y Hy q Hq Hov P HP HPy. cbn [nodes] in Hy.
  apply list_elem_of_singleton in Hy as ->.
  exists x. split; [left | auto].
Qed.

Lemma entry_exact_step history d c slice :
  entry_exact dom ok history d c -> dom slice ->
  entry_exact dom ok (history ++ [slice]) (slice_merge d slice)
    (entry_chain d c slice).
Proof.
  intros He Hslice. pose proof He as [Hd Hc Hex]. split.
  - now apply dom_merge.
  - intros y' Hy'.
    destruct (entry_chain_elem d c slice y' Hy')
      as [Hin|[->|[->|(y & Hin & ->)]]]; auto.
  - intros y' Hy' q Hq Hov P HP HPy.
    destruct (nodes_backward d c slice y' Hy') as [Hin|[->|(y & Hin & Hcan & ->)]].
    + destruct (Hex y' Hin q Hq Hov P HP HPy) as (x & Hx & Hxq & HPx).
      exists x. split; [apply elem_of_app; now left | auto].
    + exists slice. split; [apply elem_of_app; right; left | auto].
    + assert (Hdy : dom y) by (eapply nodes_dom; eassumption).
      destruct (merging_exact y slice q Hdy Hslice Hq Hcan Hov) as [Hone Hboth].
      rewrite slice_getAccess_merge in HPy. apply HP in HPy.
      assert (Hold : slice_overlaps y q = true -> P (slice_getAccess y) ->
                     exists x, x ∈ history ++ [slice]
                               /\ slice_overlaps x q = true /\ P (slice_getAccess x)).
      { intros Hyq HPy'. destruct (Hex y Hin q Hq Hyq P HP HPy') as (x & Hx & Hxq & HPx).
        exists x. split; [apply elem_of_app; now left | auto]. }
      assert (Hnew : slice_overlaps slice q = true -> P (slice_getAccess slice) ->
                     exists x, x ∈ history ++ [slice]
                               /\ slice_overlaps x q = true /\ P (slice_getAccess x)).
      { intros Hsq HPs. exists slice. split; [apply elem_of_app; right; left | auto]. }
      destruct (Z.eq_dec (slice_getAccess y) (slice_getAccess slice)) as [Heq|Hne].
      * rewrite Heq in HPy, Hold.
        assert (HPs : P (slice_getAccess slice)) by tauto.
        destruct Hone as [Hyq|Hsq]; auto.
      * destruct (Hboth Hne) as [Hyq Hsq]. destruct HPy; auto.
Qed.

Lemma entry_exact_after rest :
  forall history d c,
    entry_exact dom ok history d c -> Forall dom rest ->
    entry_exact dom ok (history ++ rest)
      (entry_after d c rest).1 (entry_after d c rest).2.
Proof.
  induction rest as [|slice rest IH]; intros history d c He Hrest.
  - now rewrite app_nil_r.
  - cbn [entry_after]. apply Forall_cons in Hrest as [Hslice Hrest].
    replace (history ++ slice :: rest) with ((history ++ [slice]) ++ rest)
      by (now rewrite <- app_assoc).
    apply IH; [|assumption]. now apply entry_exact_step.
Qed.

Lemma entry_getAccess_exact history d c q :
  entry_sound history d c -> entry_exact dom ok history d c -> ok q ->
  entry_getAccess d c q = chain_access history q.
Proof.
  intros Hs He Hq. destruct (slice_overlaps d q) eqn:Hov.
  - pose proof (entry_getAccess_sound history d c q Hs) as [Hsub _].
    apply flags_subseteq_antisym; [|exact Hsub].
    rewrite (entry_getAccess_nodes history d c q Hs Hov).
    apply flags_subseteq_bits. intros b _ Hb.
    apply (chain_access_prime _ _ _ (join_prime_testbit b) (testbit_zero_false b))
      in Hb as (y & Hy & Hyq & Hyb).
    apply (chain_access_prime _ _ _ (join_prime_testbit b) (testbit_zero_false b)).
    exact (ee_exact _ _ _ _ _ He y Hy q Hq Hyq _ (join_prime_testbit b) Hyb).
  - destruct (entry_getAccess_none history d c q Hs Hov) as [-> ->]. reflexivity.
Qed.

Lemma entry_isDirty_exact history d c q :
  entry_sound history d c -> entry_exact dom ok history d c -> ok q ->
  entry_isDirty d c q = hist_write history q.
Proof.
  intros Hs He Hq. apply eq_true_iff_eq. split.
  - intros Hd. apply (entry_isDirty_iff history d c q Hs) in Hd as (_ & y & Hy & Hyq).
    apply slice_isDirty_iff in Hyq as [Hov Hw].
    apply hist_write_iff.
    exact (ee_exact _ _ _ _ _ He y Hy q Hq Hov _
             (join_prime_write (slice_getAccess q)) Hw).
  - now apply entry_isDirty_sound.
Qed.
End Exact.
End EntryAnswers.

(** ** The queries after insertions that fit the first table *)

Section FirstQueries.
Context {T : Type} `{BarrierSliceLaws T}.
Import SubresourceSet.
Implicit Types (ops : list (Z * T)).

Lemma overlapping_access_history ops k q :
  overlapping_access ops k q = chain_access (history ops k) q.
Proof.
  unfold overlapping_access, history. induction ops as [|[k0 x] ops IH]; [reflexivity|].
  rewrite filter_cons. cbn [fold_right fst snd]. rewrite IH.
  destruct (decide (k0 = k)) as [->|Hne].
  - rewrite Z.eqb_refl. cbn [andb map]. now rewrite chain_access_cons.
  - now rewrite (proj2 (Z.eqb_neq _ _) Hne).
Qed.

Lemma inserted_access_history ops k :
  inserted_access ops k = hist_access (history ops k).
Proof.
  unfold inserted_access, history. induction ops as [|[k0 x] ops IH]; [reflexivity|].
  rewrite filter_cons. cbn [fold_right fst snd]. rewrite IH.
  destruct (decide (k0 = k)) as [->|Hne].
  - rewrite Z.eqb_refl. reflexivity.
  - now rewrite (proj2 (Z.eqb_neq _ _) Hne).
Qed.

Lemma overlapping_write_history ops k q :
  overlapping_write ops k q = hist_write (history ops k) q.
Proof.
  unfold overlapping_write, hist_write, history.
  induction ops as [|[k0 x] ops IH]; [reflexivity|].
  rewrite filter_cons. cbn [existsb fst snd]. rewrite IH.
  destruct (decide (k0 = k)) as [->|Hne].
  - rewrite Z.eqb_refl. reflexivity.
  - now rewrite (proj2 (Z.eqb_neq _ _) Hne).
Qed.

Lemma history_Forall (P : T -> Prop) ops k :
  Forall (fun p : Z * T => P p.2) ops -> Forall P (history ops k).
Proof.
  intros Hall. unfold history. apply Forall_fmap.
  apply Forall_forall. intros p Hp.
  apply list_elem_of_filter in Hp as [_ Hp].
  exact (proj1 (Forall_forall _ _) Hall p Hp).
Qed.

(** The answers in terms of the entry the insertions lead to. *)
Lemma queries_fit ops :
  fits_first_table ops -> Z.of_nat (length ops) < 2 ^ 31 ->
  exists s,
    inserts ops = Some s
    /\ forall k q,
         match history ops k with
         | [] => getAccess s k q = Some Flags.empty
                 /\ isDirty s k q = Some false
         | first :: rest =>
             getAccess s k q
             = Some (entry_getAccess (entry_after first [] rest).1
                                     (entry_after first [] rest).2 q)
             /\ isDirty s k q
                = Some (entry_isDirty (entry_after first [] rest).1
                                      (entry_after first [] rest).2 q)
         end.
Proof.
  intros Hfit Hlen. destruct ops as [|op ops].
  - exists init. split; [reflexivity|]. intros k q. cbn. auto.
  - destruct (inserts_first (op :: ops) ltac:(discriminate) Hfit Hlen)
      as (s & Hins & Hinv).
    exists s. split; [exact Hins|]. intros k q.
    rewrite (getAccess_first s _ k q Hinv), (isDirty_first s _ k q Hinv).
    destruct (history (op :: ops) k); cbn [entry_model]; auto.
Qed.

(** [getAccess] and [isDirty] are on the safe side. *)
Lemma queries_fit_sound ops :
  fits_first_table ops -> Z.of_nat (length ops) < 2 ^ 31 ->
  exists s,
    inserts ops = Some s
    /\ forall k q,
         (exists a, getAccess s k q = Some a
                    /\ flags_subseteq (overlapping_access ops k q) a
                    /\ flags_subseteq a (inserted_access ops k))
         /\ (exists b, isDirty s k q = Some b
                       /\ (overlapping_write ops k q = true -> b = true)).
Proof.
  intros Hfit Hlen. destruct (queries_fit ops Hfit Hlen) as (s & Hins & Hq).
  exists s. split; [exact Hins|]. intros k q. specialize (Hq k q).
  rewrite overlapping_access_history, inserted_access_history,
    overlapping_write_history.
  destruct (history ops k) as [|first rest].
  - destruct Hq as [-> ->]. split.
    + exists Flags.empty. split; [reflexivity|]. split; apply flags_subseteq_zero.
    + exists false. split; [reflexivity|]. cbn. discriminate.
  - destruct Hq as [-> ->].
    pose proof (entry_sound_after rest [first] first [] (entry_sound_first first))
      as Hs. cbn [app] in Hs. split.
    + eexists. split; [reflexivity|]. now apply entry_getAccess_sound.
    + eexists. split; [reflexivity|]. now apply entry_isDirty_sound.
Qed.

(** [getAccess] and [isDirty] are exact where merging adds nothing. *)
Lemma queries_fit_exact (dom ok : T -> Prop) ops :
  (forall a b, dom a -> dom b -> dom (slice_merge a b)) ->
  merge_exact dom ok ->
  fits_first_table ops -> Z.of_nat (length ops) < 2 ^ 31 ->
  Forall (fun p : Z * T => dom p.2) ops ->
  exists s,
    inserts ops = Some s
    /\ forall k q, ok q ->
         getAccess s k q = Some (overlapping_access ops k q)
         /\ isDirty s k q = Some (overlapping_write ops k q).
Proof.
  intros Hdom Hexact Hfit Hlen Hall.
  destruct (queries_fit ops Hfit Hlen) as (s & Hins & Hq).
  exists s. split; [exact Hins|]. intros k q Hok. specialize (Hq k q).
  rewrite overlapping_access_history, overlapping_write_history.
  pose proof (history_Forall dom ops k Hall) as Hhist.
  destruct (history ops k) as [|first rest].
  - exact Hq.
  - destruct Hq as [-> ->]. apply Forall_cons in Hhist as [Hfirst Hrest].
    pose proof (entry_sound_after rest [first] first [] (entry_sound_first first))
      as Hs.
    pose proof (entry_exact_after dom ok Hdom Hexact rest [first] first []
                  (entry_exact_first dom ok first Hfirst) Hrest) as He.
    cbn [app] in Hs, He. split; f_equal.
    + eapply entry_getAccess_exact; eassumption.
    + eapply entry_isDirty_exact; eassumption.
Qed.
End FirstQueries.

(** *** Merging buffer slices, and image slices of one aspect mask, adds
    nothing *)

Lemma BufferSlice_merge_exact :
  merge_exact (T := BufferSlice.t) (fun _ => True) BufferSlice_nonempty.
Proof.
  intros a b q _ _ Hq Hcan Hov.
  change (slice_canMerge a b) with (BufferSlice.canMerge a b) in Hcan.
  change (slice_overlaps (slice_merge a b) q)
    with (BufferSlice.overlaps (BufferSlice.merge a b) q) in Hov.
  change (slice_overlaps a q) with (BufferSlice.overlaps a q).
  change (slice_overlaps b q) with (BufferSlice.overlaps b q).
  change (slice_getAccess a) with (BufferSlice.m_access a).
  change (slice_getAccess b) with (BufferSlice.m_access b).
  unfold BufferSlice_nonempty in Hq.
  rewrite !BufferSlice_overlaps_spec in *. cbn in Hov.
  unfold BufferSlice.canMerge, Flags.eqb in Hcan.
  destruct (Z.eqb_spec (BufferSlice.m_access a) (BufferSlice.m_access b)) as [Heq|Hne].
  - apply andb_true_iff in Hcan as [H1 H2].
    apply Z.geb_le in H1. apply Z.leb_le in H2.
    split; [lia | contradiction].
  - apply andb_true_iff in Hcan as [H1 H2].
    apply Z.eqb_eq in H1, H2. split; [lia | intros _; lia].
Qed.

(** [canMerge] of image slices by the axes that match. *)
Lemma ImageSlice_canMerge_axes a b :
  ImageSlice.canMerge a b =
  match sameLayers a b, sameLevels a b with
  | true, true => true
  | false, false => false
  | true, false =>
      (ImageSlice.m_access a =? ImageSlice.m_access b)
      && touching (ImageSlice.m_minLevel a) (ImageSlice.m_maxLevel a)
                  (ImageSlice.m_minLevel b) (ImageSlice.m_maxLevel b)
  | false, true =>
      (ImageSlice.m_access a =? ImageSlice.m_access b)
      && touching (ImageSlice.m_minLayer a) (ImageSlice.m_maxLayer a)
                  (ImageSlice.m_minLayer b) (ImageSlice.m_maxLayer b)
  end.
Proof.
  unfold ImageSlice.canMerge, Flags.eqb.
  fold (sameLayers a b). fold (sameLevels a b). unfold touching.
  destruct (sameLayers a b), (sameLevels a b); cbn [Bool.eqb];
    try reflexivity;
    destruct (ImageSlice.m_access a =? ImageSlice.m_access b); reflexivity.
Qed.

Lemma ImageSlice_merge_exact aspects :
  merge_exact (T := ImageSlice.t)
    (fun a => ImageSlice.m_aspects a = aspects) ImageSlice_box_nonempty.
Proof.
  intros a b q Ha Hb [Hq1 Hq2] Hcan Hov.
  change (slice_canMerge a b) with (ImageSlice.canMerge a b) in Hcan.
  change (slice_overlaps (slice_merge a b) q)
    with (ImageSlice.overlaps (ImageSlice.merge a b) q) in Hov.
  change (slice_overlaps a q) with (ImageSlice.overlaps a q).
  change (slice_overlaps b q) with (ImageSlice.overlaps b q).
  change (slice_getAccess a) with (ImageSlice.m_access a).
  change (slice_getAccess b) with (ImageSlice.m_access b).
  rewrite !ImageSlice_overlaps_spec in *. cbn in Hov.
  rewrite Ha, Hb in *. rewrite Z.lor_diag in Hov.
  rewrite ImageSlice_canMerge_axes in Hcan. unfold sameLayers, sameLevels, touching in Hcan.
  destruct ((ImageSlice.m_minLayer a =? ImageSlice.m_minLayer b)
            && (ImageSlice.m_maxLayer a =? ImageSlice.m_maxLayer b)) eqn:HL;
    destruct ((ImageSlice.m_minLevel a =? ImageSlice.m_minLevel b)
              && (ImageSlice.m_maxLevel a =? ImageSlice.m_maxLevel b)) eqn:HM;
    try discriminate.
  - apply andb_true_iff in HL as [L1 L2]. apply andb_true_iff in HM as [M1 M2].
    apply Z.eqb_eq in L1, L2, M1, M2.
    split; [left | intros _; split]; (split; [tauto | lia]).
  - apply andb_true_iff in HL as [L1 L2]. apply Z.eqb_eq in L1, L2.
    apply andb_true_iff in Hcan as [Hacc Htouch].
    apply andb_true_iff in Htouch as [T1 T2].
    apply Z.geb_le in T1. apply Z.leb_le in T2. apply Z.eqb_eq in Hacc.
    split; [|contradiction].
    destruct Hov as (Hasp & ?).
    destruct (Z.lt_ge_cases (ImageSlice.m_minLevel q) (ImageSlice.m_maxLevel a)),
      (Z.lt_ge_cases (ImageSlice.m_minLevel a) (ImageSlice.m_maxLevel q));
      [left | right | right | right]; (split; [assumption | lia]).
  - apply andb_true_iff in HM as [M1 M2]. apply Z.eqb_eq in M1, M2.
    apply andb_true_iff in Hcan as [Hacc Htouch].
    apply andb_true_iff in Htouch as [T1 T2].
    apply Z.geb_le in T1. apply Z.leb_le in T2. apply Z.eqb_eq in Hacc.
    split; [|contradiction].
    destruct Hov as (Hasp & ?).
    destruct (Z.lt_ge_cases (ImageSlice.m_minLayer q) (ImageSlice.m_maxLayer a)),
      (Z.lt_ge_cases (ImageSlice.m_minLayer a) (ImageSlice.m_maxLayer q));
      [left | right | right | right]; (split; [assumption | lia]).
Qed.

(** C2, as the code has it.  After fewer than [2^31] insertions into a
    fresh set, none of which finds the first table of 64 slots at its
    load threshold, [getAccess] returns a flag set that contains the
    union of the flags of the slices inserted for the resource that
    overlap the query, and only flags inserted for the resource (the
    empty set when there are none).  It is exactly that union for a
    buffer set and a query that is not empty, and for an image set whose
    slices all have one aspect mask and a query whose layer and level
    ranges are not empty. *)
Theorem getAccess_first_table :
  (forall ops : list (Z * BufferSlice.t),
      fits_first_table ops -> Z.of_nat (length ops) < 2 ^ 31 ->
      exists s,
        SubresourceSet.inserts ops = Some s
        /\ forall k q,
             (exists a, SubresourceSet.getAccess s k q = Some a
                        /\ flags_subseteq (overlapping_access ops k q) a
                        /\ flags_subseteq a (inserted_access ops k))
             /\ (BufferSlice_nonempty q ->
                 SubresourceSet.getAccess s k q = Some (overlapping_access ops k q)))
  /\ (forall ops : list (Z * ImageSlice.t),
      fits_first_table ops -> Z.of_nat (length ops) < 2 ^ 31 ->
      exists s,
        SubresourceSet.inserts ops = Some s
        /\ forall k q,
             (exists a, SubresourceSet.getAccess s k q = Some a
                        /\ flags_subseteq (overlapping_access ops k q) a
                        /\ flags_subseteq a (inserted_access ops k))
             /\ (forall aspects,
                   Forall (fun p : Z * ImageSlice.t =>
                             ImageSlice.m_aspects p.2 = aspects) ops ->
                   ImageSlice_box_nonempty q ->
                   SubresourceSet.getAccess s k q
                   = Some (overlapping_access ops k q))).
Proof.
  split; intros ops Hfit Hlen;
    destruct (queries_fit_sound ops Hfit Hlen) as (s & Hins & Hsound);
    exists s; (split; [exact Hins|]); intros k q;
    (split; [apply Hsound|]).
  - intros Hq.
    destruct (queries_fit_exact (fun _ => True) BufferSlice_nonempty ops
                (fun _ _ _ _ => I) BufferSlice_merge_exact Hfit Hlen)
      as (s' & Hins' & Hexact).
    { apply Forall_forall. auto. }
    rewrite Hins in Hins'. injection Hins' as <-. now apply Hexact.
  - intros aspects Hall Hq.
    destruct (queries_fit_exact (fun a => ImageSlice.m_aspects a = aspects)
                ImageSlice_box_nonempty ops) as (s' & Hins' & Hexact);
      try assumption.
    { intros a b Ha Hb. cbn. rewrite Ha, Hb. apply Z.lor_diag. }
    { apply ImageSlice_merge_exact. }
    rewrite Hins in Hins'. injection Hins' as <-. now apply Hexact.
Qed.

Lemma getAccess_first_table_witness :
  exists s,
    SubresourceSet.inserts sample_buffer_ops = Some s
    /\ SubresourceSet.getAccess s 100 (BufferSlice.make 0 256 (Flags.of_access Read))
       = Some 3.
Proof.
  destruct (proj1 getAccess_first_table sample_buffer_ops) as (s & Hs & Hq).
  - unfold fits_first_table. vm_compute. lia.
  - vm_compute. reflexivity.
  - exists s. split; [exact Hs|].
    destruct (Hq 100 (BufferSlice.make 0 256 (Flags.of_access Read))) as [_ Hexact].
    rewrite Hexact; [reflexivity|]. vm_compute. reflexivity.
Defined.

(** C2 as stated fails: an image slice merges with any slice of the same
    layers and levels, whatever its aspects and flags, so that a query
    in the colour aspect is answered with the Write flag of a slice in
    the depth aspect. *)
Lemma getAccess_counterexample :
  exists s,
    SubresourceSet.inserts sample_image_ops = Some s
    /\ SubresourceSet.getAccess s 1 sample_image_query
       <> Some (overlapping_access sample_image_ops 1 sample_image_query).
Proof.
  eexists. split; [vm_compute; reflexivity|].
  vm_compute. discriminate.
Qed.

(** C3, as the code has it.  After fewer than [2^31] insertions into a
    fresh set, none of which finds the first table of 64 slots at its
    load threshold, [isDirty] returns true whenever some slice inserted
    for the resource overlaps the query and the flags of the two together
    contain Write.  It returns true only then for a buffer set and a
    query that is not empty, and for an image set whose slices all have
    one aspect mask and a query whose layer and level ranges are not
    empty. *)
Theorem isDirty_first_table :
  (forall ops : list (Z * BufferSlice.t),
      fits_first_table ops -> Z.of_nat (length ops) < 2 ^ 31 ->
      exists s,
        SubresourceSet.inserts ops = Some s
        /\ forall k q,
             (exists b, SubresourceSet.isDirty s k q = Some b
                        /\ (overlapping_write ops k q = true -> b = true))
             /\ (BufferSlice_nonempty q ->
                 SubresourceSet.isDirty s k q = Some (overlapping_write ops k q)))
  /\ (forall ops : list (Z * ImageSlice.t),
      fits_first_table ops -> Z.of_nat (length ops) < 2 ^ 31 ->
      exists s,
        SubresourceSet.inserts ops = Some s
        /\ forall k q,
             (exists b, SubresourceSet.isDirty s k q = Some b
                        /\ (overlapping_write ops k q = true -> b = true))
             /\ (forall aspects,
                   Forall (fun p : Z * ImageSlice.t =>
                             ImageSlice.m_aspects p.2 = aspects) ops ->
                   ImageSlice_box_nonempty q ->
                   SubresourceSet.isDirty s k q
                   = Some (overlapping_write ops k q))).
Proof.
  split; intros ops Hfit Hlen;
    destruct (queries_fit_sound ops Hfit Hlen) as (s & Hins & Hsound);
    exists s; (split; [exact Hins|]); intros k q;
    (split; [apply Hsound|]).
  - intros Hq.
    destruct (queries_fit_exact (fun _ => True) BufferSlice_nonempty ops
                (fun _ _ _ _ => I) BufferSlice_merge_exact Hfit Hlen)
      as (s' & Hins' & Hexact).
    { apply Forall_forall. auto. }
    rewrite Hins in Hins'. injection Hins' as <-. now apply Hexact.
  - intros aspects Hall Hq.
    destruct (queries_fit_exact (fun a => ImageSlice.m_aspects a = aspects)
                ImageSlice_box_nonempty ops) as (s' & Hins' & Hexact);
      try assumption.
    { intros a b Ha Hb. cbn. rewrite Ha, Hb. apply Z.lor_diag. }
    { apply ImageSlice_merge_exact. }
    rewrite Hins in Hins'. injection Hins' as <-. now apply Hexact.
Qed.

Lemma isDirty_first_table_witness :
  exists s,
    SubresourceSet.inserts sample_buffer_ops = Some s
    /\ SubresourceSet.isDirty s 100 (BufferSlice.make 32 16 (Flags.of_access Read))
       = Some false
    /\ SubresourceSet.isDirty s 100 (BufferSlice.make 140 10 (Flags.of_access Read))
       = Some true.
Proof.
  destruct (proj1 isDirty_first_table sample_buffer_ops) as (s & Hs & Hq).
  - unfold fits_first_table. vm_compute. lia.
  - vm_compute. reflexivity.
  - exists s. split; [exact Hs|]. split.
    + destruct (Hq 100 (BufferSlice.make 32 16 (Flags.of_access Read))) as [_ Hexact].
      rewrite Hexact; [reflexivity|]. vm_compute. reflexivity.
    + destruct (Hq 100 (BufferSlice.make 140 10 (Flags.of_access Read))) as [_ Hexact].
      rewrite Hexact; [reflexivity|]. vm_compute. reflexivity.
Defined.

(** C3 as stated fails: after the read of the colour aspect and the
    write of the depth aspect of one layer and level, a read of the
    colour aspect is reported dirty, though the only slice that overlaps
    it was read. *)
Lemma isDirty_counterexample :
  exists s,
    SubresourceSet.inserts sample_image_ops = Some s
    /\ SubresourceSet.isDirty s 1 sample_image_query = Some true
    /\ overlapping_write sample_image_ops 1 sample_image_query = false.
Proof.
  eexists. split; [vm_compute; reflexivity|].
  split; vm_compute; reflexivity.
Qed.

(** ** The range tracker *)

Lemma contains_iff r o :
  Range.contains r o = true
  <-> resource r = resource o /\ rangeStart r <= rangeStart o
      /\ rangeEnd o <= rangeEnd r.
Proof.
  unfold Range.contains.
  rewrite !andb_true_iff, Z.eqb_eq, Z.leb_le, Z.geb_le. tauto.
Qed.

Lemma overlaps_iff r o :
  Range.overlaps r o = true
  <-> resource r = resource o /\ rangeStart o <= rangeEnd r
      /\ rangeStart r <= rangeEnd o.
Proof.
  unfold Range.overlaps.
  rewrite !andb_true_iff, Z.eqb_eq, Z.leb_le, Z.geb_le. tauto.
Qed.

Lemma lt_iff r o :
  Range.lt r o = true
  <-> resource r < resource o
      \/ (resource r = resource o /\ rangeStart r < rangeStart o).
Proof.
  unfold Range.lt.
  rewrite orb_true_iff, andb_true_iff, Z.eqb_eq, !Z.ltb_lt. tauto.
Qed.

(** Turns the tests on ranges of the context into arithmetic. *)
Ltac range_prop :=
  repeat match goal with
    | H : Range.contains _ _ = true |- _ => rewrite contains_iff in H
    | H : Range.contains _ _ = false |- _ =>
        apply not_true_iff_false in H; rewrite contains_iff in H
    | H : Range.overlaps _ _ = true |- _ => rewrite overlaps_iff in H
    | H : Range.overlaps _ _ = false |- _ =>
        apply not_true_iff_false in H; rewrite overlaps_iff in H
    | H : Range.lt _ _ = true |- _ => rewrite lt_iff in H
    | H : Range.lt _ _ = false |- _ =>
        apply not_true_iff_false in H; rewrite lt_iff in H
    | H : _ || _ = false |- _ => apply orb_false_iff in H; destruct H
    end;
  unfold before, range_wf in *;
  rewrite ?contains_iff, ?overlaps_iff, ?lt_iff.

Ltac range_solve := range_prop; cbn [RangeTracker.widen resource rangeStart rangeEnd] in *; lia.

Lemma before_trans x y z :
  range_wf y -> before x y -> before y z -> before x z.
Proof. range_solve. Qed.

Lemma ascending_app l1 l2 :
  ascending (l1 ++ l2)
  <-> ascending l1 /\ ascending l2
      /\ forall a b, a ∈ l1 -> b ∈ l2 -> before a b.
Proof.
  induction l1 as [|x l1 IH]; cbn [app ascending].
  - split; [intros H|tauto]. repeat split; auto. intros a b Ha. inversion Ha.
  - rewrite IH, Forall_app, !Forall_forall. split.
    + intros ((H1 & H2) & H3 & H4 & H5). repeat split; auto.
      intros a b Ha Hb. apply elem_of_cons in Ha as [-> | Ha]; auto.
    + intros ((H1 & H2) & H3 & H4). repeat split; auto.
      * intros b Hb. apply H4; [left|exact Hb].
      * intros a b Ha Hb. apply H4; [now right|exact Hb].
Qed.

Lemma tree_ok_node l x r :
  tree_ok (l ++ x :: r)
  <-> tree_ok l /\ tree_ok r /\ range_wf x
      /\ Forall (fun y => before y x) l /\ Forall (before x) r.
Proof.
  unfold tree_ok. rewrite Forall_app, Forall_cons, ascending_app.
  cbn [ascending]. rewrite !Forall_forall. split.
  - intros ((H1 & H2 & H3) & H4 & (H5 & H6) & H7). repeat split; auto.
    intros y Hy. apply H7; [exact Hy|left].
  - intros ((H1 & H2) & (H3 & H4) & H5 & H6 & H7). repeat split; auto.
    intros a b Ha Hb. apply elem_of_cons in Hb as [-> | Hb]; auto.
    apply before_trans with x; auto.
Qed.

Lemma tree_ok_remove l x r : tree_ok (l ++ x :: r) -> tree_ok (l ++ r).
Proof.
  unfold tree_ok. rewrite !Forall_app, Forall_cons, !ascending_app.
  cbn [ascending]. intros ((H1 & H2 & H3) & H4 & (H5 & H6) & H7).
  repeat split; auto. intros a b Ha Hb. apply H7; [exact Ha|now right].
Qed.

Import RangeTracker.

Lemma findNode_spec q t :
  tree_ok (inorder t) -> range_wf q ->
  findNode q t = true
  <-> exists x, x ∈ inorder t /\ Range.contains x q = true.
Proof.
  intros Ht Hq. induction t as [|i red l IHl x r IHr]; cbn [findNode inorder] in *.
  - split; [discriminate|]. intros (x & Hx & _). inversion Hx.
  - apply tree_ok_node in Ht as (Hl & Hr & Hx & Hlx & Hxr).
    rewrite Forall_forall in Hlx, Hxr.
    destruct (Range.contains x q) eqn:Ec.
    { split; [|reflexivity]. intros _. exists x. split; [|exact Ec].
      apply elem_of_app. right. left. }
    destruct (Range.lt q x) eqn:El.
    + rewrite (IHl Hl). split; intros (y & Hy & Hc).
      * exists y. split; [|exact Hc]. apply elem_of_app. now left.
      * exists y. split; [|exact Hc].
        apply elem_of_app in Hy as [Hy | Hy]; [exact Hy|].
        apply elem_of_cons in Hy as [-> | Hy]; [congruence|].
        apply Hxr in Hy. exfalso. range_solve.
    + rewrite (IHr Hr). split; intros (y & Hy & Hc).
      * exists y. split; [|exact Hc]. apply elem_of_app. right. now right.
      * exists y. split; [|exact Hc].
        apply elem_of_app in Hy as [Hy | Hy].
        { apply Hlx in Hy. exfalso. range_solve. }
        apply elem_of_cons in Hy as [-> | Hy]; [congruence|exact Hy].
Qed.

(** *** The repairs keep the ranges of a tree in their order *)

(** Splits the goal along the trees and tests that a repair looks at. *)
Ltac tree_cases :=
  repeat (cbv beta iota;
          match goal with
          | |- context [match ?t with Leaf => _ | Node _ _ _ _ _ => _ end] =>
              is_var t; destruct t
          | |- context [if ?b then _ else _] => is_var b; destruct b
          | |- context [isRed ?t || isRed ?u] =>
              destruct (isRed t), (isRed u); cbn [orb]
          | |- context [if isRed ?t then _ else _] => destruct (isRed t)
          end);
  cbv beta iota.

(** Brings both sides of an equation between lists of ranges into the
    same form. *)
Ltac list_eq :=
  cbn [inorder fst snd app];
  repeat (rewrite <- app_assoc; cbn [app]);
  try reflexivity.

Lemma setBlack_inorder t : inorder (setBlack t) = inorder t.
Proof. destruct t; reflexivity. Qed.

Lemma rotateLeft_inorder t : inorder (rotateLeft t) = inorder t.
Proof. unfold rotateLeft. tree_cases; list_eq. Qed.

Lemma rotateRight_inorder t : inorder (rotateRight t) = inorder t.
Proof. unfold rotateRight. tree_cases; list_eq. Qed.

Lemma rebalanceLeft_inorder i red l x r :
  inorder (rebalanceLeft i red l x r) = inorder l ++ x :: inorder r.
Proof.
  unfold rebalanceLeft, rotateLeft. tree_cases; cbn [inorder];
    rewrite ?setBlack_inorder; list_eq.
Qed.

Lemma rebalanceRight_inorder i red l x r :
  inorder (rebalanceRight i red l x r) = inorder l ++ x :: inorder r.
Proof.
  unfold rebalanceRight, rotateRight. tree_cases; cbn [inorder];
    rewrite ?setBlack_inorder; list_eq.
Qed.

Lemma rebalancePostInsert_inorder q t :
  inorder (rebalancePostInsert q t) = inorder t.
Proof.
  induction t as [|i red l IHl x r IHr]; cbn [rebalancePostInsert]; [reflexivity|].
  destruct (Range.lt q x);
    rewrite ?rebalanceLeft_inorder, ?rebalanceRight_inorder, ?IHl, ?IHr;
    reflexivity.
Qed.

Lemma replaceBy_inorder red child :
  inorder (replaceBy red child).1 = inorder child.
Proof.
  unfold replaceBy. destruct red; [reflexivity|].
  destruct (isRed child); cbn [fst]; rewrite ?setBlack_inorder; reflexivity.
Qed.

Lemma removedLeftBlack_inorder i red l x r :
  inorder (removedLeftBlack i red l x r).1 = inorder l ++ x :: inorder r.
Proof.
  unfold removedLeftBlack. tree_cases; cbn [fst inorder];
    rewrite ?setBlack_inorder; list_eq.
Qed.

Lemma removedLeft_inorder i red l x r :
  inorder (removedLeft i red l x r).1 = inorder l ++ x :: inorder r.
Proof.
  unfold removedLeft. destruct r as [|wi [] wl wx wr];
    try apply removedLeftBlack_inorder.
  pose proof (removedLeftBlack_inorder i true l x wl) as E.
  destruct (removedLeftBlack i true l x wl) as [p lost]. cbn [fst] in *.
  cbn [inorder]. rewrite E. list_eq.
Qed.

Lemma removedRightBlack_inorder i red l x r :
  inorder (removedRightBlack i red l x r).1 = inorder l ++ x :: inorder r.
Proof.
  unfold removedRightBlack. tree_cases; cbn [fst inorder];
    rewrite ?setBlack_inorder; list_eq.
Qed.

Lemma removedRight_inorder i red l x r :
  inorder (removedRight i red l x r).1 = inorder l ++ x :: inorder r.
Proof.
  unfold removedRight. destruct l as [|wi [] wl wx wr];
    try apply removedRightBlack_inorder.
  pose proof (removedRightBlack_inorder i true wr x r) as E.
  destruct (removedRightBlack i true wr x r) as [p lost]. cbn [fst] in *.
  cbn [inorder]. rewrite E. list_eq.
Qed.

Lemma removeMin_spec t :
  match removeMin t with
  | None => t = Leaf
  | Some (_, m, t', _) => inorder t = m :: inorder t'
  end.
Proof.
  induction t as [|i red l IHl x r _]; cbn [removeMin]; [reflexivity|].
  destruct (removeMin l) as [[[[j m] l'] lost]|].
  - destruct lost.
    + pose proof (removedLeft_inorder i red l' x r) as E.
      destruct (removedLeft i red l' x r) as [t' lost']. cbn [fst inorder] in *.
      rewrite E, IHl. reflexivity.
    + cbn [inorder]. rewrite IHl. reflexivity.
  - subst l. pose proof (replaceBy_inorder red r) as E.
    destruct (replaceBy red r) as [t' lost]. cbn [fst inorder] in *.
    now rewrite E.
Qed.

Lemma removeNode_inorder red l r :
  inorder (removeNode red l r).1 = inorder l ++ inorder r.
Proof.
  unfold removeNode. destruct l as [|li lc ll lx lr].
  { apply replaceBy_inorder. }
  pose proof (removeMin_spec r) as Hr.
  destruct (removeMin r) as [[[[j m] r'] lost]|].
  - rewrite Hr. destruct lost; [|reflexivity].
    apply removedRight_inorder.
  - subst r. rewrite replaceBy_inorder, app_nil_r. reflexivity.
Qed.

Lemma descend_spec q t :
  tree_ok (inorder t) -> range_wf q -> descend_post q t (descend q t).
Proof.
  intros Ht Hq. induction t as [|i red l IHl x r IHr]; cbn [descend inorder] in *.
  - exists [], []. repeat split; constructor.
  - apply tree_ok_node in Ht as (Hl & Hr & Hx & Hlx & Hxr).
    destruct (Range.contains x q) eqn:Ec.
    { exists x. split; [|exact Ec]. apply elem_of_app. right. left. }
    destruct (Range.contains q x || Range.overlaps q x) eqn:Eo.
    { pose proof (removeNode_inorder red l r) as E.
      destruct (removeNode red l r) as [t' lost]. cbn [fst descend_post inorder] in *.
      exists (inorder l), (inorder r). repeat split; [exact E|].
      apply orb_true_iff in Eo as [Eo | Eo]; [|exact Eo]. range_solve. }
    destruct (Range.lt q x) eqn:El.
    + specialize (IHl Hl).
      assert (Hqx : before q x) by range_solve.
      destruct (descend q l) as [|j y l' lost|]; cbn [descend_post inorder attach] in *.
      * destruct IHl as (y & Hy & Hc). exists y. split; [|exact Hc].
        apply elem_of_app. now left.
      * destruct IHl as (l1 & l2 & E1 & E2 & Ho).
        assert (E : inorder (if lost then removedLeft i red l' x r
                             else (Node i red l' x r, false)).1
                    = inorder l' ++ x :: inorder r).
        { destruct lost; [apply removedLeft_inorder|reflexivity]. }
        destruct (if lost then _ else _) as [t' lost']. cbn [fst descend_post inorder] in *.
        exists l1, (l2 ++ x :: inorder r). rewrite E, E1, E2.
        repeat split; try exact Ho; list_eq.
      * destruct IHl as (l1 & l2 & E1 & E2 & H1 & H2).
        exists l1, (l2 ++ x :: inorder r). rewrite El. cbn [inorder].
        rewrite E1. split; [list_eq|].
        split; [intros index; rewrite E2; list_eq|].
        split; [exact H1|].
        apply Forall_app. split; [exact H2|]. constructor; [exact Hqx|].
        eapply Forall_impl; [exact Hxr|]. intros z Hz.
        apply before_trans with x; assumption.
    + specialize (IHr Hr).
      assert (Hxq : before x q) by range_solve.
      destruct (descend q r) as [|j y r' lost|]; cbn [descend_post inorder attach] in *.
      * destruct IHr as (y & Hy & Hc). exists y. split; [|exact Hc].
        apply elem_of_app. right. now right.
      * destruct IHr as (l1 & l2 & E1 & E2 & Ho).
        assert (E : inorder (if lost then removedRight i red l x r'
                             else (Node i red l x r', false)).1
                    = inorder l ++ x :: inorder r').
        { destruct lost; [apply removedRight_inorder|reflexivity]. }
        destruct (if lost then _ else _) as [t' lost']. cbn [fst descend_post inorder] in *.
        exists (inorder l ++ x :: l1), l2. rewrite E, E1, E2.
        repeat split; try exact Ho; list_eq.
      * destruct IHr as (l1 & l2 & E1 & E2 & H1 & H2).
        exists (inorder l ++ x :: l1), l2. rewrite El. cbn [inorder].
        rewrite E1. split; [list_eq|].
        split; [intros index; rewrite E2; list_eq|].
        split; [|exact H2].
        apply Forall_app. split; [|constructor; [exact Hxq|exact H1]].
        eapply Forall_impl; [exact Hlx|]. intros z Hz.
        apply before_trans with x; assumption.
Qed.

Lemma hull_mono S S' x : S ⊆ S' -> hull S x -> hull S' x.
Proof.
  intros HS Hx. induction Hx as [r Hr|x y _ IHx _ IHy Ho].
  - apply hull_one. apply HS. exact Hr.
  - apply hull_join; assumption.
Qed.

Lemma hull_wf S x : Forall range_wf S -> hull S x -> range_wf x.
Proof.
  intros HS Hx. induction Hx as [r Hr|x y _ IHx _ IHy Ho].
  - rewrite Forall_forall in HS. apply HS. exact Hr.
  - range_solve.
Qed.

(** *** The descent with its restarts *)

Lemma allocateNode_spec s :
  match allocateNode s with
  | Some (node, s') =>
      roots s' = roots s
      /\ m_rootMaskValid s' = m_rootMaskValid s
      /\ m_rootMaskSubtree s' = m_rootMaskSubtree s
      /\ m_nodes s' - Z.of_nat (length (m_free s'))
         = m_nodes s - Z.of_nat (length (m_free s)) + 1
  | None => m_free s = [] /\ TreeNode.NodeIndexMask < m_nodes s
  end.
Proof.
  unfold allocateNode. destruct (m_free s) as [|node free] eqn:Ef.
  - destruct (Z.leb_spec (m_nodes s) TreeNode.NodeIndexMask).
    + cbn. repeat split. lia.
    + auto.
  - cbn [roots m_rootMaskValid m_rootMaskSubtree m_nodes m_free length].
    repeat split. lia.
Qed.

(** The descent with its restarts ends, unless the pool has no index
    left for the new node.  The tree it leaves is in order, has a node
    that contains the new range and one for every node it had, and its
    nodes are joins of the new range and of nodes it had; the other
    buckets and the masks are as they were, and the node that was added
    came from the pool. *)
Lemma insertNode_spec fuel : forall q b s,
  (length (inorder (roots s b)) <= fuel)%nat ->
  range_wf q -> tree_ok (inorder (roots s b)) ->
  match insertNode fuel q b s with
  | Done s' =>
      tree_ok (inorder (roots s' b))
      /\ (exists n, n ∈ inorder (roots s' b) /\ Range.contains n q = true)
      /\ (forall x, x ∈ inorder (roots s b) ->
                    exists n, n ∈ inorder (roots s' b) /\ Range.contains n x = true)
      /\ (forall S, hull S q -> (forall x, x ∈ inorder (roots s b) -> hull S x) ->
                    forall n, n ∈ inorder (roots s' b) -> hull S n)
      /\ (forall n, n ∈ inorder (roots s' b) ->
                    resource n = resource q \/ n ∈ inorder (roots s b))
      /\ (forall i, i <> b -> roots s' i = roots s i)
      /\ m_rootMaskValid s' = m_rootMaskValid s
      /\ m_rootMaskSubtree s' = m_rootMaskSubtree s
      /\ m_nodes s' - Z.of_nat (length (m_free s'))
         - Z.of_nat (length (inorder (roots s' b)))
         = m_nodes s - Z.of_nat (length (m_free s))
           - Z.of_nat (length (inorder (roots s b)))
      /\ (length (inorder (roots s' b)) <= length (inorder (roots s b)) + 1)%nat
  | Exhausted => m_free s = [] /\ TreeNode.NodeIndexMask < m_nodes s
  | Unfinished => False
  end.
Proof.
  induction fuel as [|fuel IH]; intros q b s Hlen Hq Ht;
    pose proof (descend_spec q (roots s b) Ht Hq) as Hd;
    cbn [insertNode]; destruct (descend q (roots s b)) as [|node y t1 lost|];
    cbn [descend_post] in Hd.
  1,4: split; [exact Ht|]; split; [exact Hd|]; split;
    [ intros x Hx; exists x; split; [exact Hx|];
      destruct Ht as [Hwf _]; rewrite Forall_forall in Hwf;
      specialize (Hwf x Hx); range_solve
    | split; [intros S _ HS n Hn; now apply HS|];
      split; [intros n Hn; now right|];
      repeat split; lia ].
  2,4: destruct Hd as (l1 & l2 & E1 & E2 & H1 & H2);
    pose proof (allocateNode_spec s) as Ha;
    destruct (allocateNode s) as [[node s']|]; [|exact Ha];
    destruct Ha as (Er & Ev & Es & Ep);
    cbn [setRoot roots m_rootMaskValid m_rootMaskSubtree m_nodes m_free];
    rewrite Z.eqb_refl, setBlack_inorder, rebalancePostInsert_inorder, E2, E1;
    rewrite E1 in Ht;
    (split; [|split; [|split; [|split; [|split; [|split; [|split; [|split; [|split]]]]]]]]).
  all: try (exists q; split; [apply elem_of_app; right; left | range_solve]).
  all: try (intros x Hx; exists x; split;
            [ apply elem_of_app in Hx as [Hx|Hx]; apply elem_of_app;
              [now left | right; now right]
            | destruct Ht as [Hwf _]; rewrite Forall_forall in Hwf;
              specialize (Hwf x Hx); range_solve ]).
  all: try (intros S Hhq HS n Hn;
            apply elem_of_app in Hn as [Hn|Hn];
            [ apply HS, elem_of_app; now left
            | apply elem_of_cons in Hn as [-> | Hn];
              [exact Hhq | apply HS, elem_of_app; now right] ]).
  all: try (intros n Hn;
            apply elem_of_app in Hn as [Hn|Hn];
            [ right; apply elem_of_app; now left
            | apply elem_of_cons in Hn as [-> | Hn];
              [now left | right; apply elem_of_app; now right] ]).
  all: try (apply tree_ok_node; unfold tree_ok in Ht |- *;
            rewrite Forall_app, ascending_app in Ht;
            destruct Ht as ((Hw1 & Hw2) & Ha1 & Ha2 & _); auto 10).
  all: try (intros i Hi; rewrite (proj2 (Z.eqb_neq _ _) Hi), Er; reflexivity).
  all: try assumption.
  all: try (rewrite !length_app; cbn [length]; lia).
  - destruct Hd as (l1 & l2 & E1 & _). rewrite E1, length_app in Hlen.
    cbn in Hlen. lia.
  - destruct Hd as (l1 & l2 & E1 & E2 & Ho).
    assert (Hy : range_wf y).
    { destruct Ht as [Hwf _]. rewrite Forall_forall in Hwf. apply Hwf.
      rewrite E1. apply elem_of_app. right. left. }
    set (s1 := setRoot b t1 (freeNode node s)).
    assert (Er1 : roots s1 b = t1) by (cbn; now rewrite Z.eqb_refl).
    specialize (IH (widen q y) b s1). rewrite Er1, E2 in IH.
    destruct (insertNode fuel (widen q y) b s1) as [s'| |].
    + destruct IH as (Hok & Hc & Hk & Hh & Hr & Ho' & Ev & Es & Ep & Hl).
      { rewrite E1 in Hlen. rewrite length_app in *. cbn [length] in Hlen. lia. }
      { range_solve. }
      { rewrite E1 in Ht. eapply tree_ok_remove. exact Ht. }
      destruct Hc as (n & Hn & Hnc).
      split; [exact Hok|]. split; [|split; [|split; [|split]]].
      * exists n. split; [exact Hn|]. range_solve.
      * intros x Hx. rewrite E1 in Hx.
        apply elem_of_app in Hx as [Hx|Hx].
        { apply Hk. apply elem_of_app. now left. }
        apply elem_of_cons in Hx as [-> | Hx].
        { exists n. split; [exact Hn|]. range_solve. }
        apply Hk. apply elem_of_app. now right.
      * intros S Hhq HS. apply Hh.
        -- apply hull_join; [exact Hhq| |exact Ho].
           apply HS. rewrite E1. apply elem_of_app. right. left.
        -- intros x Hx. apply HS. rewrite E1.
           apply elem_of_app in Hx as [Hx|Hx]; apply elem_of_app;
             [now left|right; now right].
      * intros m Hm. destruct (Hr m Hm) as [E | Hin].
        -- left. exact E.
        -- right. rewrite E1.
           apply elem_of_app in Hin as [Hx|Hx]; apply elem_of_app;
             [now left|right; now right].
      * split.
        { intros i Hi. rewrite (Ho' i Hi). cbn.
          now rewrite (proj2 (Z.eqb_neq _ _) Hi). }
        split; [exact Ev|]. split; [exact Es|].
        cbn [s1 setRoot freeNode m_nodes m_free length] in Ep.
        rewrite E1. rewrite !length_app in *. cbn [length] in *. lia.
    + destruct IH as [Hf _].
      { rewrite E1 in Hlen. rewrite length_app in *. cbn [length] in Hlen. lia. }
      { range_solve. }
      { rewrite E1 in Ht. eapply tree_ok_remove. exact Ht. }
      discriminate Hf.
    + apply IH.
      { rewrite E1 in Hlen. rewrite length_app in *. cbn [length] in Hlen. lia. }
      { range_solve. }
      { rewrite E1 in Ht. eapply tree_ok_remove. exact Ht. }
Qed.

(** *** Buckets and the mask *)

Lemma computeRootIndex_bounds r a :
  match a with
  | Read => 1 <= Tracker.computeRootIndex r a <= 32
  | Write => 33 <= Tracker.computeRootIndex r a <= 64
  end.
Proof.
  unfold Tracker.computeRootIndex, Tracker.HashTableSize.
  set (h := Z.lxor _ _).
  assert (Hh : 0 <= h).
  { apply lxor_shiftr_nonneg. unfold u64. apply Z.mod_pos_bound. lia. }
  pose proof (Z.mod_pos_bound h 32 ltac:(lia)) as Hm.
  rewrite (u64_small (1 + h mod 32)) by lia.
  destruct a; cbn [DxvkAccess_eqb];
    rewrite u64_small by lia; rewrite u32_small by lia; lia.
Qed.

Lemma computeRootIndex_resource x y a :
  resource x = resource y ->
  Tracker.computeRootIndex x a = Tracker.computeRootIndex y a.
Proof. unfold Tracker.computeRootIndex. intros ->. reflexivity. Qed.

Lemma computeRootIndex_access x y a a' :
  Tracker.computeRootIndex x a = Tracker.computeRootIndex y a' -> a = a'.
Proof.
  pose proof (computeRootIndex_bounds x a).
  pose proof (computeRootIndex_bounds y a').
  destruct a, a'; intros E; try reflexivity; lia.
Qed.

Lemma rootBit_nonzero index : 1 <= index <= 64 -> rootBit index <> 0.
Proof.
  intros Hi. unfold rootBit. rewrite Z.shiftl_1_l.
  assert (0 < 2 ^ (index - 1) < 2 ^ 64).
  { split; [apply Z.pow_pos_nonneg; lia|].
    apply Z.pow_lt_mono_r; lia. }
  rewrite u64_small by lia. lia.
Qed.

Lemma rootValid_mark valid subtree nodes free f index :
  1 <= index <= 64 ->
  rootValid (mk (Z.lor valid (rootBit index)) subtree nodes free f) index = true.
Proof.
  intros Hi. unfold rootValid. cbn [m_rootMaskValid].
  apply negb_true_iff, Z.eqb_neq. intros E.
  rewrite Z.land_lor_distr_l, Z.land_diag in E.
  apply Z.lor_eq_0_iff in E as [_ E]. now apply rootBit_nonzero in E.
Qed.

Lemma rootValid_mark_other valid subtree subtree' nodes nodes' free free' f f' index b :
  rootValid (mk (Z.lor valid (rootBit index)) subtree nodes free f) b = false ->
  rootValid (mk valid subtree' nodes' free' f') b = false.
Proof.
  unfold rootValid. cbn [m_rootMaskValid].
  rewrite !negb_false_iff, !Z.eqb_eq, Z.land_lor_distr_l.
  intros E. now apply Z.lor_eq_0_iff in E as [E _].
Qed.

(** *** The invariant of the tracker *)

Lemma ascending_cases l : forall a b,
  ascending l -> a ∈ l -> b ∈ l -> a = b \/ before a b \/ before b a.
Proof.
  induction l as [|x l IH]; intros a b Hl Ha Hb; [inversion Ha|].
  destruct Hl as [Hx Hl]. rewrite Forall_forall in Hx.
  apply elem_of_cons in Ha as [-> | Ha], Hb as [-> | Hb]; auto.
Qed.

Lemma pending_snoc ops q a a' :
  pending (ops ++ [(q, a)]) a'
  = pending ops a' ++ (if DxvkAccess_eqb a a' then [q] else []).
Proof.
  unfold pending. rewrite omap_app. cbn.
  destruct (DxvkAccess_eqb a a'); reflexivity.
Qed.

Lemma pending_elem ops r a : r ∈ pending ops a <-> (r, a) ∈ ops.
Proof.
  unfold pending. rewrite list_elem_of_omap. split.
  - intros ([r' a'] & Hin & E). cbn in E.
    destruct a', a; cbn in E; try discriminate;
      injection E as <-; exact Hin.
  - intros Hin. exists (r, a). split; [exact Hin|]. cbn.
    destruct a; reflexivity.
Qed.

Lemma pending_wf ops a :
  Forall (fun p : DxvkAddressRange * DxvkAccess => range_wf p.1) ops ->
  Forall range_wf (pending ops a).
Proof.
  rewrite !Forall_forall. intros H r Hr. apply pending_elem in Hr.
  apply (H _ Hr).
Qed.

Lemma tracker_inv_init : tracker_inv [] init.
Proof.
  intros b. cbn. repeat split; try constructor.
  - intros r a Hin. inversion Hin.
  - intros n Hn. inversion Hn.
Qed.

Lemma sum_list_with_update (f g : nat -> nat) k l :
  NoDup l -> k ∈ l -> (forall j, j <> k -> g j = f j) ->
  (sum_list_with g l + f k = sum_list_with f l + g k)%nat.
Proof.
  intros Hnd Hk Hfg. induction Hnd as [|j l Hj Hnd IH]; [inversion Hk|].
  cbn [sum_list_with].
  apply elem_of_cons in Hk as [<- | Hk].
  - assert (E : sum_list_with g l = sum_list_with f l).
    { clear IH Hnd. induction l as [|i l IHl]; [reflexivity|].
      cbn [sum_list_with]. rewrite Hfg.
      - rewrite IHl; [reflexivity|]. intros Hin. apply Hj. now right.
      - intros ->. apply Hj. left. }
    lia.
  - rewrite (Hfg j) by (intros ->; contradiction).
    specialize (IH Hk). lia.
Qed.

(** A change of one bucket tree changes the number of nodes by the
    difference of the sizes of the tree. *)
Lemma live_nodes_update s s' b :
  1 <= b <= 64 -> (forall i, i <> b -> roots s' i = roots s i) ->
  (live_nodes s' + length (inorder (roots s b))
   = live_nodes s + length (inorder (roots s' b)))%nat.
Proof.
  intros Hb Ho. unfold live_nodes.
  pose proof (sum_list_with_update
                (fun j => length (inorder (roots s (Z.of_nat j))))
                (fun j => length (inorder (roots s' (Z.of_nat j))))
                (Z.to_nat b) (seq 1 64)) as E.
  cbv beta in E. rewrite Z2Nat.id in E by lia. apply E.
  - apply NoDup_seq.
  - apply elem_of_seq. lia.
  - intros j Hj. rewrite Ho; [reflexivity|]. lia.
Qed.

Lemma pool_inv_init : pool_inv 0 init.
Proof. split; reflexivity. Qed.

(** One call of [insertRange]: it ends, with the exhaustion of the node
    indices only when there are [2^21 - 1] nodes in the trees. *)
Lemma insertRange_inv ops n s q a :
  tracker_inv ops s -> pool_inv n s -> range_wf q ->
  match insertRange s q a with
  | Done s' => tracker_inv (ops ++ [(q, a)]) s' /\ pool_inv (S n) s'
  | Exhausted => TreeNode.NodeIndexMask <= Z.of_nat n
  | Unfinished => False
  end.
Proof.
  intros Hinv [Hpool Hlive] Hq. unfold insertRange.
  set (index := Tracker.computeRootIndex q a).
  assert (Hidx : 1 <= index <= 64).
  { pose proof (computeRootIndex_bounds q a). subst index.
    destruct a; lia. }
  assert (Hold : forall b r a', (r, a') ∈ ops ++ [(q, a)] ->
                   Tracker.computeRootIndex r a' = b -> b <> index ->
                   (r, a') ∈ ops).
  { intros b r a' Hin E Hb. apply elem_of_app in Hin as [Hin|Hin]; [exact Hin|].
    apply list_elem_of_singleton in Hin. inversion Hin; subst. now destruct Hb. }
  assert (Hmono : forall a' n, hull (pending ops a') n ->
                    hull (pending (ops ++ [(q, a)]) a') n).
  { intros a' m. apply hull_mono. rewrite pending_snoc.
    intros x Hx. apply elem_of_app. now left. }
  destruct (rootValid s index) eqn:Ev.
  - destruct (Hinv index) as (Hok & Hcov & Hhull & _).
    pose proof (insertNode_spec (length (inorder (roots s index))) q index s
                  ltac:(lia) Hq Hok) as Hspec.
    destruct (insertNode _ q index s) as [s'| |]; [| |exact Hspec].
    2:{ destruct Hspec as [Ef Hn]. rewrite Ef in Hpool. cbn [length] in Hpool. lia. }
    destruct Hspec as (Hok' & Hc & Hk & Hh & Hr & Ho & Emv & Ems & Ep & Hl).
    pose proof (live_nodes_update s s' index Hidx Ho) as Hupd.
    split; [|split; lia].
    intros b. unfold rootValid. rewrite Emv.
    destruct (Z.eq_dec b index) as [-> | Hb].
    + split; [exact Hok'|]. split; [|split].
      * intros r a' Hin E. apply elem_of_app in Hin as [Hin|Hin].
        -- destruct (Hcov r a' Hin E) as (m & Hm & Hmr).
           destruct (Hk m Hm) as (n' & Hn' & Hnn).
           exists n'. split; [exact Hn'|]. range_solve.
        -- apply list_elem_of_singleton in Hin. inversion Hin; subst. exact Hc.
      * intros m Hm. exists a.
        assert (Hacc : forall x, x ∈ inorder (roots s index) ->
                         Tracker.computeRootIndex x a = index
                         /\ hull (pending ops a) x).
        { intros x Hx. destruct (Hhull x Hx) as (a' & E & Hx').
          assert (a' = a) as ->.
          { subst index. eapply computeRootIndex_access. exact E. }
          split; [exact E|exact Hx']. }
        split.
        -- destruct (Hr m Hm) as [E | Hin].
           ++ subst index. now apply computeRootIndex_resource.
           ++ apply Hacc. exact Hin.
        -- apply Hh; [| |exact Hm].
           ++ apply hull_one. rewrite pending_snoc. apply elem_of_app. right.
              destruct a; left.
           ++ intros x Hx. apply Hmono. now apply Hacc.
      * fold (rootValid s index). congruence.
    + rewrite (Ho b Hb).
      destruct (Hinv b) as (Hokb & Hcovb & Hhullb & Hvb).
      split; [exact Hokb|]. split; [|split].
      * intros r a' Hin E. apply (Hcovb r a'); [|exact E]. eapply Hold; eauto.
      * intros m Hm. destruct (Hhullb m Hm) as (a' & E & Hx). eauto.
      * exact Hvb.
  - pose proof (allocateNode_spec s) as Ha.
    destruct (allocateNode s) as [[node s']|].
    2:{ destruct Ha as [Ef Hn]. rewrite Ef in Hpool. cbn [length] in Hpool. lia. }
    destruct Ha as (Er & Emv & Ems & Ep).
    destruct (Hinv index) as (_ & _ & _ & Hleaf). specialize (Hleaf Ev).
    set (s2 := mk _ _ _ _ _).
    assert (Ho : forall i, i <> index -> roots s2 i = roots s i).
    { intros i Hi. cbn. now rewrite (proj2 (Z.eqb_neq _ _) Hi), Er. }
    assert (Ei : roots s2 index = Node node false Leaf q Leaf).
    { cbn. now rewrite Z.eqb_refl. }
    pose proof (live_nodes_update s s2 index Hidx Ho) as Hupd.
    rewrite Ei, Hleaf in Hupd. cbn [inorder app length] in Hupd.
    split.
    2:{ split; [|lia]. cbn [s2 m_nodes m_free]. lia. }
    intros b.
    destruct (Z.eq_dec b index) as [-> | Hb].
    + rewrite Ei. cbn [inorder app]. split; [|split; [|split]].
      * split; repeat constructor. exact Hq.
      * intros r a' Hin E. apply elem_of_app in Hin as [Hin|Hin].
        -- destruct (Hinv index) as (_ & Hcov & _).
           destruct (Hcov r a' Hin E) as (m & Hm & _).
           rewrite Hleaf in Hm. inversion Hm.
        -- apply list_elem_of_singleton in Hin. inversion Hin; subst.
           exists q. split; [left|range_solve].
      * intros m Hm. apply list_elem_of_singleton in Hm as ->.
        exists a. split; [reflexivity|].
        apply hull_one. rewrite pending_snoc. apply elem_of_app. right.
        destruct a; left.
      * unfold s2. rewrite rootValid_mark by exact Hidx. discriminate.
    + rewrite (Ho b Hb).
      destruct (Hinv b) as (Hokb & Hcovb & Hhullb & Hvb).
      split; [exact Hokb|]. split; [|split].
      * intros r a' Hin E. apply (Hcovb r a'); [|exact E]. eapply Hold; eauto.
      * intros m Hm. destruct (Hhullb m Hm) as (a' & E & Hx). eauto.
      * intros Hv. apply Hvb. unfold rootValid, s2 in *.
        cbn [m_rootMaskValid] in *. rewrite Emv in Hv.
        rewrite negb_false_iff, Z.eqb_eq in *.
        rewrite Z.land_lor_distr_l in Hv.
        now apply Z.lor_eq_0_iff in Hv as [Hv _].
Qed.

(** The calls of [insertRange] for [ops] end, with the exhaustion of
    the node indices only when there are more than [2^21 - 1] calls. *)
Lemma insertRanges_inv ops : forall done s,
  tracker_inv done s -> pool_inv (length done) s ->
  Forall (fun p : DxvkAddressRange * DxvkAccess => range_wf p.1) ops ->
  match insertRanges s ops with
  | Done s' => tracker_inv (done ++ ops) s' /\ pool_inv (length (done ++ ops)) s'
  | Exhausted => TreeNode.NodeIndexMask < Z.of_nat (length (done ++ ops))
  | Unfinished => False
  end.
Proof.
  induction ops as [|[q a] ops IH]; intros done s Hinv Hpool Hwf; cbn [insertRanges].
  - rewrite app_nil_r. split; assumption.
  - apply Forall_cons in Hwf as [Hq Hwf]. cbn in Hq.
    pose proof (insertRange_inv done (length done) s q a Hinv Hpool Hq) as H1.
    destruct (insertRange s q a) as [s1| |]; [| |exact H1].
    + destruct H1 as [Hinv1 Hpool1].
      specialize (IH (done ++ [(q, a)]) s1 Hinv1).
      rewrite length_app, Nat.add_1_r, <- app_assoc in IH. cbn [app] in IH.
      apply IH; assumption.
    + rewrite length_app. cbn [length]. lia.
Qed.

(** A join of ranges inserted with the access [a] lies within one node
    of its bucket. *)
Lemma hull_stored ops s a x :
  tracker_inv ops s ->
  Forall (fun p : DxvkAddressRange * DxvkAccess => range_wf p.1) ops ->
  hull (pending ops a) x ->
  exists n, n ∈ inorder (roots s (Tracker.computeRootIndex x a))
            /\ Range.contains n x = true.
Proof.
  intros Hinv Hwf Hx. induction Hx as [r Hr|x y Hx IHx Hy IHy Ho].
  - destruct (Hinv (Tracker.computeRootIndex r a)) as (_ & Hcov & _).
    apply (Hcov r a); [|reflexivity]. now apply pending_elem.
  - destruct IHx as (n & Hn & Hnx). destruct IHy as (m & Hm & Hmy).
    pose proof (hull_wf _ _ (pending_wf ops a Hwf) Hx) as Hwx.
    pose proof (hull_wf _ _ (pending_wf ops a Hwf) Hy) as Hwy.
    assert (E : Tracker.computeRootIndex y a = Tracker.computeRootIndex x a).
    { apply computeRootIndex_resource. range_solve. }
    rewrite E in Hm.
    rewrite (computeRootIndex_resource (widen x y) x a) by reflexivity.
    destruct (Hinv (Tracker.computeRootIndex x a)) as ((_ & Hasc) & _).
    exists n. split; [exact Hn|].
    destruct (ascending_cases _ n m Hasc Hn Hm) as [-> | [Hb | Hb]];
      range_solve.
Qed.

(** The search of one bucket. *)
Lemma findBucket_spec ops s q a :
  tracker_inv ops s ->
  Forall (fun p : DxvkAddressRange * DxvkAccess => range_wf p.1) ops ->
  range_wf q ->
  rootValid s (Tracker.computeRootIndex q a)
  && findNode q (roots s (Tracker.computeRootIndex q a)) = true
  <-> exists x, hull (pending ops a) x /\ Range.contains x q = true.
Proof.
  intros Hinv Hwf Hq.
  destruct (Hinv (Tracker.computeRootIndex q a)) as (Hok & _ & Hhull & Hleaf).
  rewrite andb_true_iff, (findNode_spec q _ Hok Hq). split.
  - intros (_ & n & Hn & Hc). exists n. split; [|exact Hc].
    destruct (Hhull n Hn) as (a' & E & Hx).
    assert (a' = a) as -> by (eapply computeRootIndex_access; exact E).
    exact Hx.
  - intros (x & Hx & Hc).
    destruct (hull_stored ops s a x Hinv Hwf Hx) as (n & Hn & Hnx).
    rewrite (computeRootIndex_resource x q a) in Hn by range_solve.
    split.
    + destruct (rootValid s _) eqn:Ev; [reflexivity|].
      rewrite (Hleaf eq_refl) in Hn. inversion Hn.
    + exists n. split; [exact Hn|]. range_solve.
Qed.

(** *** The bucket trees are red-black trees *)

(** Spells out the tests on colours and black heights and settles what
    is left by arithmetic. *)
Ltac rb_simpl :=
  unfold ownHeight, lostHeight in *;
  repeat (cbn [blackHeight isRed setBlack redBlack nearlyRedBlack fst snd
               andb orb negb Nat.add] in *;
          rewrite ?andb_true_iff, ?negb_true_iff, ?orb_false_iff,
            ?andb_false_iff, ?Nat.eqb_eq in *).

Ltac rb_solve :=
  rb_simpl; intuition (try congruence; try lia).

Lemma redBlack_nearly t : redBlack t = true -> nearlyRedBlack t = true.
Proof. destruct t as [|i [] l x r]; rb_solve. Qed.

Lemma nearly_setBlack t : nearlyRedBlack t = true -> redBlack (setBlack t) = true.
Proof. destruct t as [|i [] l x r]; rb_solve. Qed.

Lemma blackHeight_setBlack t :
  isRed t = false -> blackHeight (setBlack t) = blackHeight t.
Proof. destruct t as [|i [] l x r]; rb_solve. Qed.

Lemma rebalanceLeft_black i l x r :
  nearlyRedBlack l = true -> redBlack r = true ->
  blackHeight l = blackHeight r ->
  redBlack (rebalanceLeft i false l x r) = true
  /\ blackHeight (rebalanceLeft i false l x r) = S (blackHeight l).
Proof.
  intros Hl Hr Hbh. unfold rebalanceLeft, rotateLeft.
  destruct l as [|pi [] pl px pr]; [rb_solve| |rb_solve].
  destruct pl as [|? [] ? ? ?], pr as [|? [] ? ? ?], r as [|? [] ? ? ?];
    rb_solve.
Qed.

Lemma rebalanceRight_black i l x r :
  redBlack l = true -> nearlyRedBlack r = true ->
  blackHeight l = blackHeight r ->
  redBlack (rebalanceRight i false l x r) = true
  /\ blackHeight (rebalanceRight i false l x r) = S (blackHeight l).
Proof.
  intros Hl Hr Hbh. unfold rebalanceRight, rotateRight.
  destruct r as [|pi [] pl px pr]; [rb_solve| |rb_solve].
  destruct pl as [|? [] ? ? ?], pr as [|? [] ? ? ?], l as [|? [] ? ? ?];
    rb_solve.
Qed.

Lemma rebalanceLeft_red i l x r :
  redBlack l = true -> redBlack r = true -> isRed r = false ->
  blackHeight l = blackHeight r ->
  nearlyRedBlack (rebalanceLeft i true l x r) = true
  /\ blackHeight (rebalanceLeft i true l x r) = blackHeight l.
Proof.
  intros Hl Hr Hc Hbh. unfold rebalanceLeft, rotateLeft.
  destruct l as [|pi [] pl px pr]; [rb_solve| |rb_solve].
  destruct pl as [|? [] ? ? ?], pr as [|? [] ? ? ?], r as [|? [] ? ? ?];
    rb_solve.
Qed.

Lemma rebalanceRight_red i l x r :
  redBlack l = true -> redBlack r = true -> isRed l = false ->
  blackHeight l = blackHeight r ->
  nearlyRedBlack (rebalanceRight i true l x r) = true
  /\ blackHeight (rebalanceRight i true l x r) = blackHeight l.
Proof.
  intros Hl Hr Hc Hbh. unfold rebalanceRight, rotateRight.
  destruct r as [|pi [] pl px pr]; [rb_solve| |rb_solve].
  destruct pl as [|? [] ? ? ?], pr as [|? [] ? ? ?], l as [|? [] ? ? ?];
    rb_solve.
Qed.

(** The repair after an insertion: the tree with the new leaf is
    red-black again but for its root, and as high as it was. *)
Lemma rebalancePostInsert_redBlack q i t :
  redBlack t = true ->
  nearlyRedBlack (rebalancePostInsert q (attach q i t)) = true
  /\ (isRed t = false -> redBlack (rebalancePostInsert q (attach q i t)) = true)
  /\ blackHeight (rebalancePostInsert q (attach q i t)) = blackHeight t.
Proof.
  induction t as [|j red l IHl x r IHr]; intros Ht.
  - cbn [attach rebalancePostInsert].
    destruct (Range.lt q q); cbn; auto.
  - assert (Hl : redBlack l = true) by rb_solve.
    assert (Hr : redBlack r = true) by rb_solve.
    assert (Hbh : blackHeight l = blackHeight r) by rb_solve.
    destruct (IHl Hl) as (Hnl & Hbl & Hhl).
    destruct (IHr Hr) as (Hnr & Hbr & Hhr).
    cbn [attach]. destruct (Range.lt q x) eqn:El; cbn [rebalancePostInsert];
      rewrite El; destruct red.
    + assert (Hcl : isRed l = false) by rb_solve.
      assert (Hcr : isRed r = false) by rb_solve.
      destruct (rebalanceLeft_red j _ x r (Hbl Hcl) Hr Hcr ltac:(lia)) as [H1 H2].
      split; [exact H1|]. split; [discriminate|]. cbn [blackHeight]. lia.
    + destruct (rebalanceLeft_black j _ x r Hnl Hr ltac:(lia)) as [H1 H2].
      split; [now apply redBlack_nearly|]. split; [intros _; exact H1|].
      cbn [blackHeight]. lia.
    + assert (Hcl : isRed l = false) by rb_solve.
      assert (Hcr : isRed r = false) by rb_solve.
      destruct (rebalanceRight_red j l x _ Hl (Hbr Hcr) Hcl ltac:(lia)) as [H1 H2].
      split; [exact H1|]. split; [discriminate|]. cbn [blackHeight]. lia.
    + destruct (rebalanceRight_black j l x _ Hl Hnr ltac:(lia)) as [H1 H2].
      split; [now apply redBlack_nearly|]. split; [intros _; exact H1|].
      cbn [blackHeight]. lia.
Qed.
Lemma replaceBy_redBlack red child :
  redBlack child = true -> (red = true -> isRed child = false) ->
  redBlack (replaceBy red child).1 = true
  /\ (blackHeight (replaceBy red child).1 + lostHeight (replaceBy red child).2
      = ownHeight red + blackHeight child)%nat
  /\ ((replaceBy red child).2 = true -> isRed (replaceBy red child).1 = false)
  /\ (red = false -> isRed (replaceBy red child).1 = false).
Proof.
  intros Hc Hr. unfold replaceBy.
  destruct red; [rb_solve|].
  destruct child as [|i [] l x r]; rb_solve.
Qed.

Lemma removedLeftBlack_redBlack i red l x r :
  redBlack l = true -> isRed l = false ->
  redBlack r = true -> isRed r = false ->
  (blackHeight l + 1 = blackHeight r)%nat ->
  redBlack (removedLeftBlack i red l x r).1 = true
  /\ (blackHeight (removedLeftBlack i red l x r).1
      + lostHeight (removedLeftBlack i red l x r).2
      = ownHeight red + blackHeight r)%nat
  /\ ((removedLeftBlack i red l x r).2 = true ->
      isRed (removedLeftBlack i red l x r).1 = false)
  /\ (red = false -> isRed (removedLeftBlack i red l x r).1 = false)
  /\ (red = true -> (removedLeftBlack i red l x r).2 = false).
Proof.
  intros Hl Hcl Hr Hcr Hbh. unfold removedLeftBlack.
  destruct r as [|wi [] wl wx wr]; [rb_solve|rb_solve|].
  destruct wl as [|? [] ? ? ?], wr as [|? [] ? ? ?], red; rb_solve.
Qed.

Lemma removedRightBlack_redBlack i red l x r :
  redBlack l = true -> isRed l = false ->
  redBlack r = true -> isRed r = false ->
  (blackHeight r + 1 = blackHeight l)%nat ->
  redBlack (removedRightBlack i red l x r).1 = true
  /\ (blackHeight (removedRightBlack i red l x r).1
      + lostHeight (removedRightBlack i red l x r).2
      = ownHeight red + blackHeight l)%nat
  /\ ((removedRightBlack i red l x r).2 = true ->
      isRed (removedRightBlack i red l x r).1 = false)
  /\ (red = false -> isRed (removedRightBlack i red l x r).1 = false)
  /\ (red = true -> (removedRightBlack i red l x r).2 = false).
Proof.
  intros Hl Hcl Hr Hcr Hbh. unfold removedRightBlack.
  destruct l as [|wi [] wl wx wr]; [rb_solve|rb_solve|].
  destruct wl as [|? [] ? ? ?], wr as [|? [] ? ? ?], red; rb_solve.
Qed.

Lemma removedLeft_redBlack i red l x r :
  redBlack l = true -> isRed l = false ->
  redBlack r = true -> (red = true -> isRed r = false) ->
  (blackHeight l + 1 = blackHeight r)%nat ->
  redBlack (removedLeft i red l x r).1 = true
  /\ (blackHeight (removedLeft i red l x r).1 + lostHeight (removedLeft i red l x r).2
      = ownHeight red + blackHeight r)%nat
  /\ ((removedLeft i red l x r).2 = true -> isRed (removedLeft i red l x r).1 = false)
  /\ (red = false -> isRed (removedLeft i red l x r).1 = false).
Proof.
  intros Hl Hcl Hr Hcr Hbh. unfold removedLeft.
  destruct r as [|wi [] wl wx wr].
  - rb_solve.
  - assert (red = false) as -> by (destruct red; [now specialize (Hcr eq_refl)|reflexivity]).
    assert (Hwl : redBlack wl = true) by rb_solve.
    assert (Hcwl : isRed wl = false) by rb_solve.
    assert (Hbwl : (blackHeight l + 1 = blackHeight wl)%nat) by rb_solve.
    destruct (removedLeftBlack_redBlack i true l x wl Hl Hcl Hwl Hcwl Hbwl)
      as (H1 & H2 & H3 & _ & H5).
    specialize (H5 eq_refl).
    destruct (removedLeftBlack i true l x wl) as [p lost]. cbn [fst snd] in *.
    subst lost. rb_solve.
  - destruct (removedLeftBlack_redBlack i red l x (Node wi false wl wx wr))
      as (H1 & H2 & H3 & H4 & _); auto.
Qed.

Lemma removedRight_redBlack i red l x r :
  redBlack l = true -> (red = true -> isRed l = false) ->
  redBlack r = true -> isRed r = false ->
  (blackHeight r + 1 = blackHeight l)%nat ->
  redBlack (removedRight i red l x r).1 = true
  /\ (blackHeight (removedRight i red l x r).1 + lostHeight (removedRight i red l x r).2
      = ownHeight red + blackHeight l)%nat
  /\ ((removedRight i red l x r).2 = true -> isRed (removedRight i red l x r).1 = false)
  /\ (red = false -> isRed (removedRight i red l x r).1 = false).
Proof.
  intros Hl Hcl Hr Hcr Hbh. unfold removedRight.
  destruct l as [|wi [] wl wx wr].
  - rb_solve.
  - assert (red = false) as -> by (destruct red; [now specialize (Hcl eq_refl)|reflexivity]).
    assert (Hwr : redBlack wr = true) by rb_solve.
    assert (Hcwr : isRed wr = false) by rb_solve.
    assert (Hbwr : (blackHeight r + 1 = blackHeight wr)%nat) by rb_solve.
    destruct (removedRightBlack_redBlack i true wr x r Hwr Hcwr Hr Hcr Hbwr)
      as (H1 & H2 & H3 & _ & H5).
    specialize (H5 eq_refl).
    destruct (removedRightBlack i true wr x r) as [p lost]. cbn [fst snd] in *.
    subst lost. rb_solve.
  - destruct (removedRightBlack_redBlack i red (Node wi false wl wx wr) x r)
      as (H1 & H2 & H3 & H4 & _); auto.
Qed.

Lemma removeMin_redBlack t :
  redBlack t = true ->
  match removeMin t with
  | Some (_, _, t', lost) =>
      redBlack t' = true
      /\ (blackHeight t' + lostHeight lost = blackHeight t)%nat
      /\ (lost = true -> isRed t' = false)
      /\ (isRed t = false -> isRed t' = false)
  | None => t = Leaf
  end.
Proof.
  induction t as [|i red l IHl x r _]; intros Ht; cbn [removeMin]; [reflexivity|].
  assert (Hl : redBlack l = true) by rb_solve.
  assert (Hr : redBlack r = true) by rb_solve.
  assert (Hbh : blackHeight l = blackHeight r) by rb_solve.
  assert (Hc : red = true -> isRed l = false /\ isRed r = false)
    by (intros ->; rb_solve).
  specialize (IHl Hl).
  destruct (removeMin l) as [[[[j m] l'] lost]|].
  - destruct IHl as (H1 & H2 & H3 & H4). destruct lost.
    + destruct (removedLeft_redBlack i red l' x r) as (G1 & G2 & G3 & G4);
        auto; try tauto; try (unfold lostHeight in H2; lia).
      destruct (removedLeft i red l' x r) as [t' lost']. cbn [fst snd] in *.
      split; [exact G1|]. split; [unfold ownHeight, lostHeight in *; cbn [blackHeight]; lia|].
      split; [exact G3|]. cbn [isRed]. exact G4.
    + destruct red; rb_solve.
  - subst l.
    destruct (replaceBy_redBlack red r Hr) as (G1 & G2 & G3 & G4); [tauto|].
    destruct (replaceBy red r) as [t' lost]. cbn [fst snd] in *.
    split; [exact G1|]. split; [unfold ownHeight, lostHeight in *; cbn [blackHeight] in *; lia|].
    split; [exact G3|]. cbn [isRed]. exact G4.
Qed.

Lemma removeNode_redBlack red l r :
  redBlack l = true -> redBlack r = true ->
  blackHeight l = blackHeight r ->
  (red = true -> isRed l = false /\ isRed r = false) ->
  redBlack (removeNode red l r).1 = true
  /\ (blackHeight (removeNode red l r).1 + lostHeight (removeNode red l r).2
      = ownHeight red + blackHeight l)%nat
  /\ ((removeNode red l r).2 = true -> isRed (removeNode red l r).1 = false)
  /\ (red = false -> isRed (removeNode red l r).1 = false).
Proof.
  intros Hl Hr Hbh Hc. unfold removeNode.
  destruct l as [|li lc ll lx lr].
  { destruct (replaceBy_redBlack red r Hr) as (G1 & G2 & G3 & G4); [tauto|].
    unfold ownHeight, lostHeight in *. cbn [blackHeight] in *. repeat split; auto. lia. }
  set (l := Node li lc ll lx lr) in *.
  pose proof (removeMin_redBlack r Hr) as Hm.
  destruct (removeMin r) as [[[[j m] r'] lost]|].
  - destruct Hm as (H1 & H2 & H3 & H4). destruct lost.
    + apply removedRight_redBlack; auto; try tauto. unfold lostHeight in H2. lia.
    + cbn [fst snd].
      assert (red = true -> isRed r' = false) by tauto.
      destruct red; rb_solve.
  - subst r. apply replaceBy_redBlack; [exact Hl|tauto].
Qed.

(** The removal of a dominated node leaves a red-black tree, with a
    black root if it had one. *)
Lemma descend_redBlack q t :
  redBlack t = true ->
  match descend q t with
  | Dominated _ _ t' lost =>
      redBlack t' = true
      /\ (blackHeight t' + lostHeight lost = blackHeight t)%nat
      /\ (lost = true -> isRed t' = false)
      /\ (isRed t = false -> isRed t' = false)
  | _ => True
  end.
Proof.
  induction t as [|i red l IHl x r IHr]; intros Ht; cbn [descend]; [exact I|].
  assert (Hl : redBlack l = true) by rb_solve.
  assert (Hr : redBlack r = true) by rb_solve.
  assert (Hbh : blackHeight l = blackHeight r) by rb_solve.
  assert (Hc : red = true -> isRed l = false /\ isRed r = false)
    by (intros ->; rb_solve).
  destruct (Range.contains x q); [exact I|].
  destruct (Range.contains q x || Range.overlaps q x).
  { destruct (removeNode_redBlack red l r Hl Hr Hbh Hc) as (G1 & G2 & G3 & G4).
    destruct (removeNode red l r) as [t' lost]. cbn [fst snd] in *.
    split; [exact G1|]. split; [unfold ownHeight, lostHeight in *; cbn [blackHeight]; lia|].
    split; [exact G3|]. cbn [isRed]. exact G4. }
  destruct (Range.lt q x).
  - specialize (IHl Hl). destruct (descend q l) as [|j y l' lost|]; try exact I.
    destruct IHl as (H1 & H2 & H3 & H4). destruct lost.
    + destruct (removedLeft_redBlack i red l' x r) as (G1 & G2 & G3 & G4);
        auto; try tauto; try (unfold lostHeight in H2; lia).
      destruct (removedLeft i red l' x r) as [t' lost']. cbn [fst snd] in *.
      split; [exact G1|]. split; [unfold ownHeight, lostHeight in *; cbn [blackHeight]; lia|].
      split; [exact G3|]. cbn [isRed]. exact G4.
    + assert (red = true -> isRed l' = false) by tauto.
      destruct red; rb_solve.
  - specialize (IHr Hr). destruct (descend q r) as [|j y r' lost|]; try exact I.
    destruct IHr as (H1 & H2 & H3 & H4). destruct lost.
    + destruct (removedRight_redBlack i red l x r') as (G1 & G2 & G3 & G4);
        auto; try tauto; try (unfold lostHeight in H2; lia).
      destruct (removedRight i red l x r') as [t' lost']. cbn [fst snd] in *.
      split; [exact G1|]. split; [unfold ownHeight, lostHeight in *; cbn [blackHeight]; lia|].
      split; [exact G3|]. cbn [isRed]. exact G4.
    + assert (red = true -> isRed r' = false) by tauto.
      destruct red; rb_solve.
Qed.
(** *** The trees of the tracker are red-black trees *)

Lemma insertNode_redBlack fuel : forall q b s,
  redBlack_inv s ->
  match insertNode fuel q b s with
  | Done s' => redBlack_inv s'
  | _ => True
  end.
Proof.
  induction fuel as [|fuel IH]; intros q b s Hinv;
    pose proof (descend_redBlack q (roots s b) (proj1 (Hinv b))) as Hd;
    cbn [insertNode]; destruct (descend q (roots s b)) as [|node y t1 lost|] eqn:Ed;
    try exact I; try exact Hinv.
  1,3: pose proof (allocateNode_spec s) as Ha;
    destruct (allocateNode s) as [[node s']|]; [|exact I];
    destruct Ha as (Er & _);
    intros b'; cbn [setRoot roots]; rewrite Er;
    destruct (Z.eqb_spec b' b) as [-> | Hb]; [|apply Hinv];
    destruct (rebalancePostInsert_redBlack q node (roots s b) (proj1 (Hinv b)))
      as (Hn & _);
    (split; [now apply nearly_setBlack|]);
    destruct (rebalancePostInsert q (attach q node (roots s b))); reflexivity.
  apply IH. intros b'. cbn [setRoot freeNode roots].
  destruct (Z.eqb_spec b' b) as [-> | Hb]; [|apply Hinv].
  destruct Hd as (H1 & _ & _ & H4). split; [exact H1|]. apply H4, Hinv.
Qed.

Lemma insertRange_redBlack s q a :
  redBlack_inv s ->
  match insertRange s q a with
  | Done s' => redBlack_inv s'
  | _ => True
  end.
Proof.
  intros Hinv. unfold insertRange.
  destruct (rootValid s _); [apply insertNode_redBlack, Hinv|].
  pose proof (allocateNode_spec s) as Ha.
  destruct (allocateNode s) as [[node s']|]; [|exact I].
  destruct Ha as (Er & _). intros b. cbn [roots]. rewrite Er.
  destruct (Z.eqb_spec b (Tracker.computeRootIndex q a)); [|apply Hinv].
  split; reflexivity.
Qed.

(** After the calls of [insertRange], every bucket tree is a red-black
    tree with a black root. *)
Lemma insertRanges_redBlack ops : forall s,
  redBlack_inv s ->
  match insertRanges s ops with
  | Done s' => redBlack_inv s'
  | _ => True
  end.
Proof.
  induction ops as [|[q a] ops IH]; intros s Hinv; cbn [insertRanges];
    [exact Hinv|].
  pose proof (insertRange_redBlack s q a Hinv) as H1.
  destruct (insertRange s q a) as [s1| |]; try exact I.
  apply IH, H1.
Qed.

Lemma redBlack_inv_init : redBlack_inv init.
Proof. intros b. split; reflexivity. Qed.

(** *** The indices of the nodes *)

(** As [list_eq], for the indices of the nodes. *)
Ltac index_eq :=
  cbn [indices fst snd app];
  repeat (rewrite <- app_assoc; cbn [app]);
  try reflexivity.

Lemma setBlack_indices t : indices (setBlack t) = indices t.
Proof. destruct t; reflexivity. Qed.

Lemma rebalanceLeft_indices i red l x r :
  indices (rebalanceLeft i red l x r) = indices l ++ i :: indices r.
Proof.
  unfold rebalanceLeft, rotateLeft. tree_cases; cbn [indices];
    rewrite ?setBlack_indices; index_eq.
Qed.

Lemma rebalanceRight_indices i red l x r :
  indices (rebalanceRight i red l x r) = indices l ++ i :: indices r.
Proof.
  unfold rebalanceRight, rotateRight. tree_cases; cbn [indices];
    rewrite ?setBlack_indices; index_eq.
Qed.

Lemma rebalancePostInsert_indices q t :
  indices (rebalancePostInsert q t) = indices t.
Proof.
  induction t as [|i red l IHl x r IHr]; cbn [rebalancePostInsert]; [reflexivity|].
  destruct (Range.lt q x);
    rewrite ?rebalanceLeft_indices, ?rebalanceRight_indices, ?IHl, ?IHr;
    reflexivity.
Qed.

Lemma replaceBy_indices red child :
  indices (replaceBy red child).1 = indices child.
Proof.
  unfold replaceBy. destruct red; [reflexivity|].
  destruct (isRed child); cbn [fst]; rewrite ?setBlack_indices; reflexivity.
Qed.

Lemma removedLeftBlack_indices i red l x r :
  indices (removedLeftBlack i red l x r).1 = indices l ++ i :: indices r.
Proof.
  unfold removedLeftBlack. tree_cases; cbn [fst indices];
    rewrite ?setBlack_indices; index_eq.
Qed.

Lemma removedLeft_indices i red l x r :
  indices (removedLeft i red l x r).1 = indices l ++ i :: indices r.
Proof.
  unfold removedLeft. destruct r as [|wi [] wl wx wr];
    try apply removedLeftBlack_indices.
  pose proof (removedLeftBlack_indices i true l x wl) as E.
  destruct (removedLeftBlack i true l x wl) as [p lost]. cbn [fst] in *.
  cbn [indices]. rewrite E. index_eq.
Qed.

Lemma removedRightBlack_indices i red l x r :
  indices (removedRightBlack i red l x r).1 = indices l ++ i :: indices r.
Proof.
  unfold removedRightBlack. tree_cases; cbn [fst indices];
    rewrite ?setBlack_indices; index_eq.
Qed.

Lemma removedRight_indices i red l x r :
  indices (removedRight i red l x r).1 = indices l ++ i :: indices r.
Proof.
  unfold removedRight. destruct l as [|wi [] wl wx wr];
    try apply removedRightBlack_indices.
  pose proof (removedRightBlack_indices i true wr x r) as E.
  destruct (removedRightBlack i true wr x r) as [p lost]. cbn [fst] in *.
  cbn [indices]. rewrite E. index_eq.
Qed.

Lemma removeMin_indices t :
  match removeMin t with
  | None => t = Leaf
  | Some (j, _, t', _) => indices t = j :: indices t'
  end.
Proof.
  induction t as [|i red l IHl x r _]; cbn [removeMin]; [reflexivity|].
  destruct (removeMin l) as [[[[j m] l'] lost]|].
  - destruct lost.
    + pose proof (removedLeft_indices i red l' x r) as E.
      destruct (removedLeft i red l' x r) as [t' lost']. cbn [fst indices] in *.
      rewrite E, IHl. reflexivity.
    + cbn [indices]. rewrite IHl. reflexivity.
  - subst l. pose proof (replaceBy_indices red r) as E.
    destruct (replaceBy red r) as [t' lost]. cbn [fst indices] in *.
    now rewrite E.
Qed.

Lemma removeNode_indices red l r :
  indices (removeNode red l r).1 = indices l ++ indices r.
Proof.
  unfold removeNode. destruct l as [|li lc ll lx lr].
  { apply replaceBy_indices. }
  pose proof (removeMin_indices r) as Hr.
  destruct (removeMin r) as [[[[j m] r'] lost]|].
  - rewrite Hr. destruct lost; [|reflexivity].
    apply removedRight_indices.
  - subst r. rewrite replaceBy_indices, app_nil_r. reflexivity.
Qed.

(** The node that is removed leaves the tree with its index, the other
    nodes keep theirs. *)
Lemma descend_indices q t :
  match descend q t with
  | Dominated j _ t' _ => indices t ≡ₚ j :: indices t'
  | _ => True
  end.
Proof.
  induction t as [|i red l IHl x r IHr]; cbn [descend]; [exact I|].
  destruct (Range.contains x q); [exact I|].
  destruct (Range.contains q x || Range.overlaps q x).
  { pose proof (removeNode_indices red l r) as E.
    destruct (removeNode red l r) as [t' lost]. cbn [fst indices] in *.
    rewrite E. symmetry. apply Permutation_middle. }
  destruct (Range.lt q x).
  - destruct (descend q l) as [|j y l' lost|]; try exact I.
    assert (E : indices (if lost then removedLeft i red l' x r
                         else (Node i red l' x r, false)).1
                = indices l' ++ i :: indices r).
    { destruct lost; [apply removedLeft_indices|reflexivity]. }
    destruct (if lost then _ else _) as [t' lost']. cbn [fst indices] in *.
    rewrite E, IHl. reflexivity.
  - destruct (descend q r) as [|j y r' lost|]; try exact I.
    assert (E : indices (if lost then removedRight i red l x r'
                         else (Node i red l x r', false)).1
                = indices l ++ i :: indices r').
    { destruct lost; [apply removedRight_indices|reflexivity]. }
    destruct (if lost then _ else _) as [t' lost']. cbn [fst indices] in *.
    rewrite E, IHr. rewrite <- !Permutation_middle. apply perm_swap.
Qed.

Lemma attach_indices q i t : indices (attach q i t) ≡ₚ i :: indices t.
Proof.
  induction t as [|j red l IHl x r IHr]; cbn [attach indices]; [reflexivity|].
  destruct (Range.lt q x); cbn [indices].
  - rewrite IHl. reflexivity.
  - rewrite IHr. rewrite <- !Permutation_middle. apply perm_swap.
Qed.

Lemma concat_update (f g : nat -> list Z) k l :
  NoDup l -> k ∈ l -> (forall j, j <> k -> g j = f j) ->
  exists rest,
    concat (map f l) ≡ₚ f k ++ rest /\ concat (map g l) ≡ₚ g k ++ rest.
Proof.
  intros Hnd Hk Hfg. induction Hnd as [|j l Hj Hnd IH]; [inversion Hk|].
  cbn [map concat].
  apply elem_of_cons in Hk as [<- | Hk].
  - exists (concat (map f l)). split; [reflexivity|].
    assert (E : map g l = map f l).
    { apply map_ext_in. intros i Hi. apply Hfg. intros ->.
      apply Hj. now apply list_elem_of_In. }
    now rewrite E.
  - destruct (IH Hk) as (rest & E1 & E2).
    exists (f j ++ rest). rewrite (Hfg j) by (intros ->; contradiction).
    rewrite E1, E2. split; rewrite !app_assoc;
      apply Permutation_app_tail, Permutation_app_comm.
Qed.

Lemma tree_indices_update s s' b :
  1 <= b <= 64 -> (forall i, i <> b -> roots s' i = roots s i) ->
  exists rest,
    tree_indices s ≡ₚ indices (roots s b) ++ rest
    /\ tree_indices s' ≡ₚ indices (roots s' b) ++ rest.
Proof.
  intros Hb Ho. unfold tree_indices.
  pose proof (concat_update
                (fun j => indices (roots s (Z.of_nat j)))
                (fun j => indices (roots s' (Z.of_nat j)))
                (Z.to_nat b) (seq 1 64)) as E.
  cbv beta in E. rewrite Z2Nat.id in E by lia. apply E.
  - apply NoDup_seq.
  - apply elem_of_seq. lia.
  - intros j Hj. rewrite Ho; [reflexivity|]. lia.
Qed.

Lemma index_inv_perm s s' :
  tree_indices s' ++ m_free s' ≡ₚ tree_indices s ++ m_free s ->
  m_nodes s' = m_nodes s -> index_inv s -> index_inv s'.
Proof.
  intros Hp Hn (Hnd & Hall & Hm). unfold index_inv.
  rewrite Hp, Hn. auto.
Qed.

(** A node from the pool is none of the nodes of the trees and not
    free. *)
Lemma allocateNode_index s node s' :
  index_inv s -> allocateNode s = Some (node, s') ->
  roots s' = roots s
  /\ NoDup (node :: tree_indices s ++ m_free s')
  /\ Forall (fun i => 1 <= i < m_nodes s') (node :: tree_indices s ++ m_free s')
  /\ 1 <= m_nodes s' <= TreeNode.NodeIndexMask + 1.
Proof.
  intros (Hnd & Hall & Hm). unfold allocateNode.
  destruct (m_free s) as [|i free] eqn:Ef.
  - destruct (Z.leb_spec (m_nodes s) TreeNode.NodeIndexMask); [|discriminate].
    intros [= <- <-]. cbn [roots m_free m_nodes].
    split; [reflexivity|]. rewrite Forall_forall in Hall. split; [|split; [|lia]].
    + constructor; [|exact Hnd]. intros Hin. apply Hall in Hin. lia.
    + constructor; [lia|]. apply Forall_forall. intros i Hi.
      apply Hall in Hi. lia.
  - intros [= <- <-]. cbn [roots m_free m_nodes].
    split; [reflexivity|].
    assert (Hp : i :: tree_indices s ++ free ≡ₚ tree_indices s ++ i :: free)
      by apply Permutation_middle.
    rewrite Hp. auto.
Qed.

Lemma insertNode_index fuel : forall q b s,
  1 <= b <= 64 -> index_inv s ->
  match insertNode fuel q b s with
  | Done s' => index_inv s'
  | _ => True
  end.
Proof.
  induction fuel as [|fuel IH]; intros q b s Hb Hinv;
    pose proof (descend_indices q (roots s b)) as Hd;
    cbn [insertNode]; destruct (descend q (roots s b)) as [|node y t1 lost|] eqn:Ed;
    try exact I; try exact Hinv.
  1,3: destruct (allocateNode s) as [[node s']|] eqn:Ea; [|exact I];
    destruct (allocateNode_index s node s' Hinv Ea) as (Er & Hnd & Hall & Hm);
    set (s2 := setRoot b _ s');
    destruct (tree_indices_update s s2 b Hb) as (rest & E1 & E2);
    [ intros i Hi; cbn; now rewrite (proj2 (Z.eqb_neq _ _) Hi), Er |];
    assert (Hp : tree_indices s2 ++ m_free s2
                 ≡ₚ node :: tree_indices s ++ m_free s');
    [ rewrite E2, E1; cbn [s2 setRoot roots m_free]; rewrite Z.eqb_refl,
        setBlack_indices, rebalancePostInsert_indices, attach_indices;
      reflexivity |];
    unfold index_inv; rewrite Hp; auto.
  apply IH; [exact Hb|].
  set (s1 := setRoot b t1 (freeNode node s)).
  destruct (tree_indices_update s s1 b Hb) as (rest & E1 & E2).
  { intros i Hi. cbn. now rewrite (proj2 (Z.eqb_neq _ _) Hi). }
  apply (index_inv_perm s s1); [|reflexivity|exact Hinv].
  rewrite E2, E1, Hd. cbn [s1 setRoot freeNode roots m_free].
  rewrite Z.eqb_refl. cbn [app].
  rewrite <- !app_assoc. cbn [app]. rewrite <- !Permutation_middle. reflexivity.
Qed.

Lemma insertRange_index s q a :
  index_inv s ->
  (rootValid s (Tracker.computeRootIndex q a) = false ->
   roots s (Tracker.computeRootIndex q a) = Leaf) ->
  match insertRange s q a with
  | Done s' => index_inv s'
  | _ => True
  end.
Proof.
  intros Hinv Hleaf. unfold insertRange.
  assert (Hb : 1 <= Tracker.computeRootIndex q a <= 64).
  { pose proof (computeRootIndex_bounds q a). destruct a; lia. }
  destruct (rootValid s _); [now apply insertNode_index|].
  specialize (Hleaf eq_refl).
  destruct (allocateNode s) as [[node s']|] eqn:Ea; [|exact I].
  destruct (allocateNode_index s node s' Hinv Ea) as (Er & Hnd & Hall & Hm).
  set (s2 := mk _ _ _ _ _).
  destruct (tree_indices_update s s2 _ Hb) as (rest & E1 & E2).
  { intros i Hi. cbn. now rewrite (proj2 (Z.eqb_neq _ _) Hi), Er. }
  assert (Hp : tree_indices s2 ++ m_free s2
               ≡ₚ node :: tree_indices s ++ m_free s').
  { rewrite E2, E1, Hleaf. cbn [s2 roots m_free]. rewrite Z.eqb_refl.
    reflexivity. }
  unfold index_inv. rewrite Hp. auto.
Qed.

Lemma index_inv_init : index_inv init.
Proof.
  split; [constructor|]. split; [constructor|]. cbn. vm_compute. split; discriminate.
Qed.

(** After the calls of [insertRange], every bucket tree is a red-black
    tree with a black root, and the nodes of the trees and the free
    list share the indices of the node array, from 1 on and below
    [2^21]. *)
Lemma insertRanges_trees ops : forall done s,
  tracker_inv done s -> pool_inv (length done) s ->
  redBlack_inv s -> index_inv s ->
  Forall (fun p : DxvkAddressRange * DxvkAccess => range_wf p.1) ops ->
  match insertRanges s ops with
  | Done s' => redBlack_inv s' /\ index_inv s'
  | _ => True
  end.
Proof.
  induction ops as [|[q a] ops IH]; intros done s Hinv Hpool Hrb Hidx Hwf;
    cbn [insertRanges]; [auto|].
  apply Forall_cons in Hwf as [Hq Hwf]. cbn in Hq.
  pose proof (insertRange_inv done (length done) s q a Hinv Hpool Hq) as H1.
  pose proof (insertRange_redBlack s q a Hrb) as H2.
  pose proof (insertRange_index s q a Hidx
                (proj2 (proj2 (proj2 (Hinv _))))) as H3.
  destruct (insertRange s q a) as [s1| |]; try exact I.
  destruct H1 as [Hinv1 Hpool1].
  apply (IH (done ++ [(q, a)]) s1); try assumption.
  now rewrite length_app, Nat.add_1_r.
Qed.
(** *** The exhaustion of the node indices *)

Lemma hull_overlaps S q h :
  Forall range_wf S -> range_wf q -> hull S h -> Range.overlaps q h = true ->
  exists r, r ∈ S /\ Range.overlaps q r = true.
Proof.
  intros HS Hwq Hh. induction Hh as [r Hr|x y Hx IHx Hy IHy Ho]; intros Hq.
  - eauto.
  - pose proof (hull_wf _ _ HS Hx). pose proof (hull_wf _ _ HS Hy).
    destruct (Range.overlaps q x) eqn:Ex; [now apply IHx|].
    apply IHy. range_solve.
Qed.

(** The insertion of a range that overlaps none of the ranges inserted
    before takes a node from the pool. *)
Lemma insertRange_apart ops s q a :
  tracker_inv ops s ->
  Forall (fun p : DxvkAddressRange * DxvkAccess => range_wf p.1) ops ->
  range_wf q ->
  (forall r a', (r, a') ∈ ops -> Range.overlaps q r = false) ->
  m_free s = [] ->
  match insertRange s q a with
  | Done s' => m_free s' = [] /\ m_nodes s' = m_nodes s + 1
               /\ m_nodes s <= TreeNode.NodeIndexMask
  | Exhausted => TreeNode.NodeIndexMask < m_nodes s
  | Unfinished => False
  end.
Proof.
  intros Hinv Hwf Hq Hapart Hfree.
  assert (Halloc : allocateNode s
                   = if m_nodes s <=? TreeNode.NodeIndexMask
                     then Some (m_nodes s,
                                mk (m_rootMaskValid s) (m_rootMaskSubtree s)
                                   (m_nodes s + 1) [] (roots s))
                     else None).
  { unfold allocateNode. now rewrite Hfree. }
  unfold insertRange. set (index := Tracker.computeRootIndex q a).
  destruct (rootValid s index).
  - destruct (Hinv index) as (Hok & _ & Hhull & _).
    assert (Hno : forall x, x ∈ inorder (roots s index) ->
                            Range.overlaps q x = false).
    { intros x Hx. destruct (Hhull x Hx) as (a' & _ & Hh).
      destruct (Range.overlaps q x) eqn:Eo; [|reflexivity].
      destruct (hull_overlaps _ q x (pending_wf ops a' Hwf) Hq Hh Eo)
        as (r & Hr & Hor).
      apply pending_elem in Hr. now rewrite (Hapart r a' Hr) in Hor. }
    pose proof (descend_spec q (roots s index) Hok Hq) as Hd.
    destruct (length (inorder (roots s index))) as [|fuel]; cbn [insertNode];
      destruct (descend q (roots s index)) as [|node y t1 lost|];
      cbn [descend_post] in Hd.
    1,4: destruct Hd as (x & Hx & Hc); specialize (Hno x Hx);
      destruct Hok as [Hw _]; rewrite Forall_forall in Hw;
      specialize (Hw x Hx); exfalso; range_solve.
    1,3: destruct Hd as (l1 & l2 & E1 & _ & Ho);
      rewrite (Hno y) in Ho by (rewrite E1; apply elem_of_app; right; left);
      discriminate Ho.
    all: rewrite Halloc; destruct (Z.leb_spec (m_nodes s) TreeNode.NodeIndexMask);
      [cbn; auto | assumption].
  - rewrite Halloc. destruct (Z.leb_spec (m_nodes s) TreeNode.NodeIndexMask);
      [cbn; auto | assumption].
Qed.

Lemma insertRanges_app ops1 ops2 s :
  insertRanges s (ops1 ++ ops2)
  = match insertRanges s ops1 with
    | Done s' => insertRanges s' ops2
    | Exhausted => Exhausted
    | Unfinished => Unfinished
    end.
Proof.
  revert s. induction ops1 as [|[q a] ops1 IH]; intros s; cbn [app insertRanges];
    [reflexivity|].
  destruct (insertRange s q a); auto.
Qed.

Lemma apart_ranges_S n :
  apart_ranges (S n)
  = apart_ranges n ++ [(mkRange 7 (2 * Z.of_nat n) (2 * Z.of_nat n), Read)].
Proof. unfold apart_ranges. now rewrite seq_S, map_app. Qed.

Lemma apart_ranges_wf n :
  Forall (fun p : DxvkAddressRange * DxvkAccess => range_wf p.1) (apart_ranges n).
Proof.
  unfold apart_ranges. apply Forall_fmap, Forall_forall. intros i _.
  unfold range_wf. cbn. lia.
Qed.

(** Ranges that lie apart take one node each: the node array grows with
    every call, up to its [2^21] entries. *)
Lemma insertRanges_apart n :
  Z.of_nat n <= TreeNode.NodeIndexMask ->
  match insertRanges init (apart_ranges n) with
  | Done s => m_free s = [] /\ m_nodes s = Z.of_nat n + 1
  | _ => False
  end.
Proof.
  induction n as [|n IH]; intros Hn; [split; reflexivity|].
  specialize (IH ltac:(lia)).
  pose proof (insertRanges_inv (apart_ranges n) [] init tracker_inv_init
                pool_inv_init (apart_ranges_wf n)) as Hinv.
  rewrite apart_ranges_S, insertRanges_app.
  destruct (insertRanges init (apart_ranges n)) as [s| |]; try contradiction.
  destruct IH as [Hfree Hnodes]. destruct Hinv as [Hinv _]. cbn [app] in Hinv.
  cbn [insertRanges].
  set (q := mkRange 7 (2 * Z.of_nat n) (2 * Z.of_nat n)).
  assert (Hq : range_wf q) by (unfold range_wf; cbn; lia).
  assert (Hap : forall r a', (r, a') ∈ apart_ranges n -> Range.overlaps q r = false).
  { intros r a' Hin. unfold apart_ranges in Hin.
    apply list_elem_of_fmap in Hin as (i & [= -> ->] & Hi).
    apply elem_of_seq in Hi. apply not_true_iff_false.
    rewrite overlaps_iff. cbn. lia. }
  pose proof (insertRange_apart (apart_ranges n) s q Read Hinv
                (apart_ranges_wf n) Hq Hap Hfree) as Hstep.
  destruct (insertRange s q Read) as [s'| |]; [|lia|exact Hstep].
  destruct Hstep as (Hf & Hm & _). split; [exact Hf|lia].
Qed.

(** With one range more the signal is given. *)
Lemma insertRanges_exhausted :
  insertRanges init (apart_ranges (Z.to_nat (2 ^ 21))) = Exhausted.
Proof.
  replace (Z.to_nat (2 ^ 21)) with (S (Z.to_nat (2 ^ 21 - 1))) by lia.
  set (n := Z.to_nat (2 ^ 21 - 1)).
  assert (En : Z.of_nat n = TreeNode.NodeIndexMask)
    by (subst n; rewrite Z2Nat.id by lia; reflexivity).
  pose proof (insertRanges_apart n ltac:(lia)) as Hn.
  pose proof (insertRanges_inv (apart_ranges n) [] init tracker_inv_init
                pool_inv_init (apart_ranges_wf n)) as Hinv.
  rewrite apart_ranges_S, insertRanges_app.
  destruct (insertRanges init (apart_ranges n)) as [s| |]; try contradiction.
  destruct Hn as [Hfree Hnodes]. destruct Hinv as [Hinv _]. cbn [app] in Hinv.
  cbn [insertRanges].
  set (q := mkRange 7 (2 * Z.of_nat n) (2 * Z.of_nat n)).
  assert (Hq : range_wf q) by (unfold range_wf; cbn; lia).
  assert (Hap : forall r a', (r, a') ∈ apart_ranges n -> Range.overlaps q r = false).
  { intros r a' Hin. unfold apart_ranges in Hin.
    apply list_elem_of_fmap in Hin as (i & [= -> ->] & Hi).
    apply elem_of_seq in Hi. apply not_true_iff_false.
    rewrite overlaps_iff. cbn. lia. }
  pose proof (insertRange_apart (apart_ranges n) s q Read Hinv
                (apart_ranges_wf n) Hq Hap Hfree) as Hstep.
  destruct (insertRange s q Read) as [s'| |]; [|reflexivity|contradiction].
  destruct Hstep as (_ & _ & Hm). lia.
Qed.

(** C1, as the algorithm of the specification has it.  The calls of
    [insertRange] for well formed ranges on a fresh tracker end: with the
    signal that the node indices are exhausted, which takes more than
    [2^21 - 1] calls, or with a tracker in which [findRange] with Read
    access returns true iff the query is contained in a write-pending
    range or in a join of overlapping write-pending ranges, and with
    Write access iff it is contained in such a range or join of
    write-pending ranges or of read-pending ranges.  After
    [insertRange((7,[0,99]), Read)], [findRange((7,[10,20]), Read)]
    returns false and [findRange((7,[10,20]), Write)] returns true.  The
    calls of [insertRange] for [2^21] ranges of one resource that lie
    apart end with the signal: the last of them needs a node when
    [2^21 - 1] nodes are in the trees. *)
Theorem findRange_conflict_rule :
  (forall ops q,
      Forall (fun p : DxvkAddressRange * DxvkAccess => range_wf p.1) ops ->
      range_wf q ->
      match insertRanges init ops with
      | Done s =>
          (findRange s q Read = true
           <-> exists x, hull (pending ops Write) x
                         /\ Range.contains x q = true)
          /\ (findRange s q Write = true
              <-> exists x, (hull (pending ops Write) x
                             \/ hull (pending ops Read) x)
                            /\ Range.contains x q = true)
      | Exhausted => 2 ^ 21 - 1 < Z.of_nat (length ops)
      | Unfinished => False
      end)
  /\ (exists s,
        insertRange init (mkRange 7 0 99) Read = Done s
        /\ findRange s (mkRange 7 10 20) Read = false
        /\ findRange s (mkRange 7 10 20) Write = true)
  /\ insertRanges init (apart_ranges (Z.to_nat (2 ^ 21))) = Exhausted.
Proof.
  split; [|split; [|apply insertRanges_exhausted]].
  - intros ops q Hwf Hq.
    pose proof (insertRanges_inv ops [] init tracker_inv_init pool_inv_init Hwf)
      as Hrun.
    cbn [app] in Hrun.
    destruct (insertRanges init ops) as [s| |]; [|exact Hrun|exact Hrun].
    destruct Hrun as [Hinv _].
    pose proof (findBucket_spec ops s q Write Hinv Hwf Hq) as HW.
    pose proof (findBucket_spec ops s q Read Hinv Hwf Hq) as HR.
    unfold findRange. cbn [DxvkAccess_eqb andb]. split.
    + rewrite orb_false_r. exact HW.
    + rewrite orb_true_iff, HW, HR. split.
      * intros [(x & Hx & Hc) | (x & Hx & Hc)]; exists x; auto.
      * intros (x & [Hx | Hx] & Hc); [left|right]; exists x; auto.
  - eexists. split; [reflexivity|]. split; reflexivity.
Qed.

Lemma findRange_conflict_rule_witness :
  exists s,
    insertRanges init sample_inserts = Done s
    /\ findRange s (mkRange 7 500 600) Write = true
    /\ findRange s (mkRange 8 10 20) Read = true.
Proof.
  pose proof (proj1 findRange_conflict_rule sample_inserts (mkRange 7 500 600)) as H7.
  pose proof (proj1 findRange_conflict_rule sample_inserts (mkRange 8 10 20)) as H8.
  destruct (insertRanges init sample_inserts) as [s| |] eqn:Hs.
  - exists s. split; [reflexivity|]. split.
    + apply H7.
      * repeat constructor; vm_compute; discriminate.
      * vm_compute. discriminate.
      * exists (mkRange 7 0 999). split; [|reflexivity].
        right. apply hull_one. vm_compute. do 3 right. left.
    + apply H8.
      * repeat constructor; vm_compute; discriminate.
      * vm_compute. discriminate.
      * exists (mkRange 8 0 50). split; [|reflexivity].
        apply hull_one. vm_compute. right. left.
  - vm_compute in Hs. discriminate Hs.
  - vm_compute in Hs. discriminate Hs.
Defined.

(** C1 as stated fails: overlapping ranges are joined on insertion, so
    that a query that reaches over two overlapping write-pending ranges
    is found although neither of them contains it. *)
Lemma findRange_counterexample :
  exists s,
    insertRanges init sample_ranges = Done s
    /\ findRange s (mkRange 7 0 20) Read = true
    /\ findRange s (mkRange 7 0 20) Write = true
    /\ Forall (fun p : DxvkAddressRange * DxvkAccess =>
                 Range.contains p.1 (mkRange 7 0 20) = false) sample_ranges.
Proof.
  eexists. split; [vm_compute; reflexivity|].
  split; [reflexivity|]. split; [reflexivity|].
  repeat constructor.
Qed.

(** * Further properties *)

(** ** Address ranges *)

(** X1: [contains] is a partial order on ranges: every range contains
    itself, containment is transitive, and two ranges that contain each
    other are equal. *)
Theorem Range_contains_partial_order :
  (forall r, Range.contains r r = true)
  /\ (forall a b c,
        Range.contains a b = true -> Range.contains b c = true ->
        Range.contains a c = true)
  /\ (forall a b,
        Range.contains a b = true -> Range.contains b a = true -> a = b).
Proof.
  split; [|split].
  - intros r. apply contains_iff. lia.
  - intros a b c Hab Hbc. range_solve.
  - intros [ra sa ea] [rb sb eb] Hab Hba. range_prop. cbn in *.
    f_equal; lia.
Qed.

Lemma Range_contains_partial_order_witness :
  Range.contains (mkRange 7 0 99) (mkRange 7 10 20) = true.
Proof.
  apply (proj1 (proj2 Range_contains_partial_order)
           (mkRange 7 0 99) (mkRange 7 5 50) (mkRange 7 10 20));
    reflexivity.
Defined.

(** X2: [overlaps] is symmetric, and two ranges whose bounds are in
    order overlap iff they are of the same resource and have an address
    in common. *)
Theorem Range_overlaps_common_address :
  (forall a b, Range.overlaps a b = Range.overlaps b a)
  /\ (forall a b,
        range_wf a -> range_wf b ->
        (Range.overlaps a b = true
         <-> resource a = resource b
             /\ exists p, in_range a p /\ in_range b p)).
Proof.
  split.
  - intros a b. apply eq_true_iff_eq. rewrite !overlaps_iff. lia.
  - intros a b Ha Hb. rewrite overlaps_iff. unfold in_range, range_wf in *.
    split.
    + intros (Hr & H1 & H2). split; [exact Hr|].
      exists (Z.max (rangeStart a) (rangeStart b)). lia.
    + intros (Hr & p & H1 & H2). lia.
Qed.

Lemma Range_overlaps_common_address_witness :
  Range.overlaps (mkRange 7 0 10) (mkRange 7 10 20) = true.
Proof.
  apply (proj2 Range_overlaps_common_address (mkRange 7 0 10) (mkRange 7 10 20)).
  - unfold range_wf. cbn. lia.
  - unfold range_wf. cbn. lia.
  - split; [reflexivity|]. exists 10. unfold in_range. cbn. lia.
Defined.

(** X3: a range contains a range whose bounds are in order iff it is of
    the same resource and has every address of it; it then overlaps
    it. *)
Theorem Range_contains_every_address (r other : DxvkAddressRange) :
  range_wf other ->
  (Range.contains r other = true
   <-> resource r = resource other
       /\ forall p, in_range other p -> in_range r p)
  /\ (Range.contains r other = true -> Range.overlaps r other = true).
Proof.
  intros Ho. rewrite contains_iff, overlaps_iff.
  unfold in_range, range_wf in *. split; [split|].
  - intros (Hr & H1 & H2). split; [exact Hr|]. intros p Hp. lia.
  - intros (Hr & Hall).
    pose proof (Hall (rangeStart other) ltac:(lia)).
    pose proof (Hall (rangeEnd other) ltac:(lia)). lia.
  - lia.
Qed.

Lemma Range_contains_every_address_witness :
  Range.overlaps (mkRange 7 0 99) (mkRange 7 10 20) = true.
Proof.
  apply (proj2 (Range_contains_every_address (mkRange 7 0 99) (mkRange 7 10 20)
                  ltac:(unfold range_wf; cbn; lia))).
  reflexivity.
Defined.

(** X4: [lt] is a strict order on the keys (resource, rangeStart): no
    range is below itself, [lt] is transitive, and two ranges neither of
    which is below the other have the same resource and the same
    start. *)
Theorem Range_lt_strict_order :
  (forall r, Range.lt r r = false)
  /\ (forall a b c,
        Range.lt a b = true -> Range.lt b c = true -> Range.lt a c = true)
  /\ (forall a b,
        Range.lt a b = false -> Range.lt b a = false ->
        resource a = resource b /\ rangeStart a = rangeStart b).
Proof.
  split; [|split].
  - intros r. apply not_true_iff_false. rewrite lt_iff. lia.
  - intros a b c Hab Hbc. range_solve.
  - intros a b Hab Hba. range_solve.
Qed.

Lemma Range_lt_strict_order_witness :
  Range.lt (mkRange 7 0 5) (mkRange 8 0 5) = true.
Proof.
  apply (proj1 (proj2 Range_lt_strict_order)
           (mkRange 7 0 5) (mkRange 7 3 4) (mkRange 8 0 5));
    reflexivity.
Defined.

(** X5: for two ranges whose bounds are in order and that do not
    overlap, [lt] says which one lies before the other: exactly one is
    below the other, and the one below ends before the other starts or
    is of a smaller resource. *)
Theorem Range_lt_apart (a b : DxvkAddressRange) :
  range_wf a -> range_wf b -> Range.overlaps a b = false ->
  Range.lt a b = negb (Range.lt b a)
  /\ (Range.lt a b = true <-> before a b).
Proof.
  intros Ha Hb Ho. split.
  - destruct (Range.lt a b) eqn:Eab, (Range.lt b a) eqn:Eba;
      try reflexivity; exfalso; range_solve.
  - split; intros H; range_solve.
Qed.

Lemma Range_lt_apart_witness :
  Range.lt (mkRange 7 0 10) (mkRange 7 11 20) = true.
Proof.
  apply (proj2 (Range_lt_apart (mkRange 7 0 10) (mkRange 7 11 20)
                  ltac:(unfold range_wf; cbn; lia)
                  ltac:(unfold range_wf; cbn; lia) eq_refl)).
  unfold before. cbn. lia.
Defined.

(** ** Node header *)

Lemma setParent_testbit v h i :
  0 <= i ->
  Z.testbit (TreeNode.setParent v h) i
  = (i <? 64) && (if 43 <=? i then Z.testbit (v mod 2 ^ 64) (i - 43)
                  else Z.testbit h i).
Proof.
  intros Hi. unfold TreeNode.setParent. rewrite NodeIndexMask_ones.
  rewrite Z.lor_spec, Z.land_spec, not64_testbit, !u64_testbit by lia.
  rewrite !Z.shiftl_spec by lia. fold (u64 v).
  destruct (Z.ltb_spec i 64); destruct (Z.leb_spec 43 i); cbn [andb].
  - rewrite Z.testbit_ones_nonneg by lia.
    replace (i - 43 <? 21) with true by (symmetry; apply Z.ltb_lt; lia).
    btauto.
  - rewrite !(Z.testbit_neg_r _ (i - 43)) by lia. btauto.
  - btauto.
  - btauto.
Qed.

Lemma setChild_testbit k v h i :
  0 <= i ->
  Z.testbit (TreeNode.setChild k v h) i
  = (i <? 64)
    && (((TreeNode.childShift k <=? i) && Z.testbit (v mod 2 ^ 64) (i - TreeNode.childShift k))
        || (negb ((TreeNode.childShift k <=? i) && (i <? TreeNode.childShift k + 21))
            && Z.testbit h i)).
Proof.
  intros Hi. unfold TreeNode.setChild. rewrite NodeIndexMask_ones.
  set (sh := TreeNode.childShift k).
  assert (Hsh : sh = 1 \/ sh = 22)
    by (unfold sh, TreeNode.childShift; destruct (k =? 0); auto).
  rewrite Z.lor_spec, Z.land_spec, not64_testbit, !u64_testbit by lia.
  rewrite !Z.shiftl_spec by lia. fold (u64 v).
  destruct (Z.ltb_spec i 64); cbn [andb]; [|btauto].
  destruct (Z.leb_spec sh i); cbn [andb].
  - rewrite Z.testbit_ones_nonneg by lia.
    destruct (Z.ltb_spec (i - sh) 21), (Z.ltb_spec i (sh + 21)); try lia;
      btauto.
  - rewrite !(Z.testbit_neg_r _ (i - sh)) by lia. btauto.
Qed.

Lemma child_testbit k h i :
  0 <= i ->
  Z.testbit (TreeNode.child k h) i
  = (i <? 21) && Z.testbit h (i + TreeNode.childShift k).
Proof.
  intros Hi. unfold TreeNode.child. rewrite NodeIndexMask_ones.
  rewrite (u32_small _ (land_ones21_bound _)).
  rewrite Z.land_spec, Z.shiftr_spec, Z.testbit_ones_nonneg by lia.
  apply andb_comm.
Qed.

Lemma parent_testbit h i :
  0 <= i ->
  Z.testbit (TreeNode.parent h) i = (i <? 21) && Z.testbit h (i + 43).
Proof.
  intros Hi. unfold TreeNode.parent. rewrite NodeIndexMask_ones.
  rewrite (u32_small _ (land_ones21_bound _)).
  rewrite Z.land_spec, Z.shiftr_spec, Z.testbit_ones_nonneg by lia.
  apply andb_comm.
Qed.

Lemma u64_bits_high h i : 0 <= h < 2 ^ 64 -> 64 <= i -> Z.testbit h i = false.
Proof. intros Hh Hi. apply (small_testbit h 64 i Hh Hi). Qed.

Lemma mod64_testbit v i : Z.testbit (v mod 2 ^ 64) i = (i <? 64) && Z.testbit v i.
Proof. apply u64_testbit. Qed.

Lemma bits_below_64 x :
  (forall i, 64 <= i -> Z.testbit x i = false) -> 0 <= x < 2 ^ 64.
Proof.
  intros Hx. assert (E : x = x mod 2 ^ 64).
  { apply Z.bits_inj'. intros i Hi. rewrite mod64_testbit.
    destruct (Z.ltb_spec i 64); [reflexivity|]. now apply Hx. }
  rewrite E. apply Z.mod_pos_bound. lia.
Qed.

(** Case analysis on the field a bit of the header belongs to. *)
Ltac header_bits :=
  repeat match goal with
    | |- context [?a <? ?b] => destruct (Z.ltb_spec a b); try lia
    | |- context [?a <=? ?b] => destruct (Z.leb_spec a b); try lia
    | |- context [?a =? ?b] => destruct (Z.eqb_spec a b); try lia
    end;
  cbn [andb orb negb xorb];
  rewrite ?andb_true_r, ?andb_false_r, ?orb_false_r, ?orb_true_r;
  try reflexivity.

(** X6: a 64-bit header is determined by its four fields: writing the
    colour, the two children and the parent read from a header into a
    fresh node gives the header back. *)
Theorem header_fields_round_trip (h : Z) :
  0 <= h < 2 ^ 64 ->
  header_of_fields (TreeNode.isRed h) (TreeNode.child 0 h) (TreeNode.child 1 h)
    (TreeNode.parent h) = h.
Proof.
  intros Hh. unfold header_of_fields. apply Z.bits_inj'. intros i Hi.
  rewrite setParent_testbit, !setChild_testbit by lia.
  destruct (Z.ltb_spec i 64) as [Hlt|Hge];
    [|cbn [andb]; symmetry; apply u64_bits_high; assumption].
  rewrite setRed_testbit by lia.
  change (TreeNode.childShift 1) with 22. change (TreeNode.childShift 0) with 1.
  rewrite !mod64_testbit.
  destruct (Z.eq_dec i 0) as [-> | Hne].
  { rewrite isRed_bit0. header_bits. }
  header_bits;
    rewrite ?parent_testbit, ?child_testbit by lia;
    change (TreeNode.childShift 1) with 22;
    change (TreeNode.childShift 0) with 1;
    rewrite ?Z.sub_add; header_bits.
Qed.

Lemma header_fields_round_trip_witness :
  header_of_fields (TreeNode.isRed (2 ^ 63 + 11)) (TreeNode.child 0 (2 ^ 63 + 11))
    (TreeNode.child 1 (2 ^ 63 + 11)) (TreeNode.parent (2 ^ 63 + 11))
  = 2 ^ 63 + 11.
Proof. apply header_fields_round_trip. lia. Defined.

Lemma setRed_testbit_all b h i :
  0 <= i ->
  Z.testbit (TreeNode.setRed b h) i
  = (i <? 64) && (if i =? 0 then b else Z.testbit h i).
Proof.
  intros Hi. destruct (Z.ltb_spec i 64); cbn [andb].
  - apply setRed_testbit. lia.
  - unfold TreeNode.setRed.
    rewrite Z.lor_spec, Z.land_spec, u64_testbit, not64_testbit, u64_testbit by lia.
    replace (i <? 64) with false by (symmetry; apply Z.ltb_ge; lia).
    btauto.
Qed.

Lemma div_pow2_testbit v n j :
  0 <= n -> 0 <= j -> Z.testbit (v / 2 ^ n) j = Z.testbit v (j + n).
Proof. intros Hn Hj. rewrite <- Z.shiftr_div_pow2 by lia. apply Z.shiftr_spec. lia. Qed.

Lemma mod_pow2_testbit v n j :
  0 <= n -> Z.testbit (v mod 2 ^ n) j = (j <? n) && Z.testbit v j.
Proof. intros Hn. apply Z.testbit_mod_pow2. lia. Qed.

(** Rewrites the bits of the fields and of the setters, and decides the
    field of the bit. *)
Ltac header_ext :=
  apply Z.bits_inj'; intros ? ?;
  rewrite ?parent_testbit, ?child_testbit by lia;
  rewrite ?Z.lor_spec, ?div_pow2_testbit, ?mod_pow2_testbit by lia;
  change (TreeNode.childShift 1) with 22 in *;
  change (TreeNode.childShift 0) with 1 in *;
  repeat first [ rewrite setParent_testbit by lia
               | rewrite setChild_testbit by lia
               | rewrite setRed_testbit_all by lia ];
  rewrite ?mod64_testbit;
  rewrite ?parent_testbit, ?child_testbit by lia;
  change (TreeNode.childShift 1) with 22 in *;
  change (TreeNode.childShift 0) with 1 in *;
  header_bits;
  repeat match goal with
    | Hv : 0 <= ?v < 2 ^ ?n |- context [Z.testbit ?v ?i] =>
        rewrite (small_testbit v n i Hv) by lia
    end;
  cbn [andb orb negb];
  rewrite ?andb_true_r, ?andb_false_r, ?orb_false_r, ?orb_true_r;
  try reflexivity;
  repeat match goal with
    | |- context [Z.testbit _ (?a - ?b)] => progress ring_simplify (a - b)
    end;
  try (f_equal; lia);
  try btauto.

(** X7: how the setters of the header compose.  A second write to a
    field replaces the first one, and writes to different fields can be
    made in any order, for node indices below [2^21]. *)
Theorem header_setters_compose (h v w : Z) (b c : bool) :
  0 <= v < 2 ^ 21 -> 0 <= w < 2 ^ 21 ->
  (TreeNode.setRed b (TreeNode.setRed c h) = TreeNode.setRed b h
   /\ TreeNode.setParent v (TreeNode.setParent w h) = TreeNode.setParent v h
   /\ TreeNode.setChild 0 v (TreeNode.setChild 0 w h) = TreeNode.setChild 0 v h
   /\ TreeNode.setChild 1 v (TreeNode.setChild 1 w h) = TreeNode.setChild 1 v h)
  /\ (TreeNode.setChild 0 v (TreeNode.setChild 1 w h)
      = TreeNode.setChild 1 w (TreeNode.setChild 0 v h)
      /\ TreeNode.setParent v (TreeNode.setChild 0 w h)
         = TreeNode.setChild 0 w (TreeNode.setParent v h)
      /\ TreeNode.setParent v (TreeNode.setChild 1 w h)
         = TreeNode.setChild 1 w (TreeNode.setParent v h)
      /\ TreeNode.setRed b (TreeNode.setParent v h)
         = TreeNode.setParent v (TreeNode.setRed b h)
      /\ TreeNode.setRed b (TreeNode.setChild 0 v h)
         = TreeNode.setChild 0 v (TreeNode.setRed b h)
      /\ TreeNode.setRed b (TreeNode.setChild 1 v h)
         = TreeNode.setChild 1 v (TreeNode.setRed b h)).
Proof.
  intros Hv Hw. repeat split; header_ext.
Qed.

Lemma header_setters_compose_witness :
  TreeNode.setChild 0 9 (TreeNode.setChild 0 5 (2 ^ 64 - 1))
  = TreeNode.setChild 0 9 (2 ^ 64 - 1).
Proof.
  apply (header_setters_compose (2 ^ 64 - 1) 9 5 true true); lia.
Defined.

(** X8: a node index that does not fit the 21 bits of a field.  For a
    32-bit index [v], [setParent] keeps the low 21 bits and leaves the
    other fields alone, so that [isRoot] holds iff these bits are zero;
    [setChild] keeps the low 21 bits in its field and ors the bits above
    them into the next field: the left child spills into the right
    child, the right child into the parent. *)
Theorem header_index_overflow (h v : Z) :
  0 <= h < 2 ^ 64 -> 0 <= v < 2 ^ 32 ->
  (TreeNode.parent (TreeNode.setParent v h) = v mod 2 ^ 21
   /\ TreeNode.isRoot (TreeNode.setParent v h) = (v mod 2 ^ 21 =? 0)
   /\ TreeNode.child 0 (TreeNode.setParent v h) = TreeNode.child 0 h
   /\ TreeNode.child 1 (TreeNode.setParent v h) = TreeNode.child 1 h)
  /\ (TreeNode.child 0 (TreeNode.setChild 0 v h) = v mod 2 ^ 21
      /\ TreeNode.child 1 (TreeNode.setChild 0 v h)
         = Z.lor (TreeNode.child 1 h) (v / 2 ^ 21)
      /\ TreeNode.parent (TreeNode.setChild 0 v h) = TreeNode.parent h)
  /\ (TreeNode.child 1 (TreeNode.setChild 1 v h) = v mod 2 ^ 21
      /\ TreeNode.parent (TreeNode.setChild 1 v h)
         = Z.lor (TreeNode.parent h) (v / 2 ^ 21)
      /\ TreeNode.child 0 (TreeNode.setChild 1 v h) = TreeNode.child 0 h).
Proof.
  intros Hh Hv.
  assert (Hp : TreeNode.parent (TreeNode.setParent v h) = v mod 2 ^ 21)
    by header_ext.
  split; [|split].
  - split; [exact Hp|]. split; [unfold TreeNode.isRoot; now rewrite Hp|].
    split; apply child_setParent.
  - repeat split; header_ext.
  - repeat split; header_ext.
Qed.

Lemma header_index_overflow_witness :
  TreeNode.child 0 (TreeNode.setChild 0 (2 ^ 21) 0) = 0
  /\ TreeNode.child 1 (TreeNode.setChild 0 (2 ^ 21) 0) = 1
  /\ TreeNode.isRoot (TreeNode.setParent (2 ^ 21) 0) = true.
Proof.
  destruct (header_index_overflow 0 (2 ^ 21) ltac:(lia) ltac:(lia))
    as ((_ & Hr & _) & (H0 & H1 & _) & _).
  rewrite H0, H1, Hr. repeat split.
Defined.

(** ** Buffer slices *)

(** Decides a closed statement made of comparisons of numbers. *)
Ltac closed_arith :=
  vm_compute; repeat split; try reflexivity; try discriminate;
  try (intros; discriminate).

(** X9: [overlaps] of buffer slices is symmetric, and two slices that
    are not empty overlap iff they have a byte in common. *)
Theorem BufferSlice_overlaps_common_byte :
  (forall a b, BufferSlice.overlaps a b = BufferSlice.overlaps b a)
  /\ (forall a b,
        BufferSlice_nonempty a -> BufferSlice_nonempty b ->
        (BufferSlice.overlaps a b = true
         <-> exists p, BufferSlice_covers a p /\ BufferSlice_covers b p)).
Proof.
  split; [apply BufferSlice_overlaps_sym|].
  intros a b Ha Hb. rewrite BufferSlice_overlaps_spec.
  unfold BufferSlice_covers, BufferSlice_nonempty in *. split.
  - intros [H1 H2].
    exists (Z.max (BufferSlice.m_loAddr a) (BufferSlice.m_loAddr b)). lia.
  - intros (p & H1 & H2). lia.
Qed.

Lemma BufferSlice_overlaps_common_byte_witness :
  BufferSlice.overlaps (BufferSlice.make 0 64 1) (BufferSlice.make 63 8 2) = true.
Proof.
  apply (proj2 BufferSlice_overlaps_common_byte
           (BufferSlice.make 0 64 1) (BufferSlice.make 63 8 2)).
  - closed_arith.
  - closed_arith.
  - exists 63. closed_arith.
Defined.

(** X10: the constructor of a buffer slice.  Without wrap-around the
    slice covers the bytes [offset .. offset + length - 1].  When
    [offset + length] wraps around at [2^64] the upper bound lies below
    the lower one: the slice covers no byte and does not overlap
    itself. *)
Theorem BufferSlice_make_bounds (offset length access : Z) :
  0 <= offset < 2 ^ 64 -> 0 <= length < 2 ^ 64 ->
  (offset + length < 2 ^ 64 ->
   forall p, BufferSlice_covers (BufferSlice.make offset length access) p
             <-> offset <= p < offset + length)
  /\ (2 ^ 64 <= offset + length ->
      (forall p, ~ BufferSlice_covers (BufferSlice.make offset length access) p)
      /\ BufferSlice.overlaps (BufferSlice.make offset length access)
           (BufferSlice.make offset length access) = false).
Proof.
  intros Ho Hl. unfold BufferSlice_covers, BufferSlice.make. cbn. split.
  - intros Hsum p. rewrite u64_small by lia. reflexivity.
  - intros Hsum.
    assert (E : u64 (offset + length) = offset + length - 2 ^ 64).
    { unfold u64. symmetry. apply Z.mod_unique with 1; lia. }
    split.
    + intros p. rewrite E. lia.
    + apply not_true_iff_false. rewrite BufferSlice_overlaps_spec. cbn.
      rewrite E. lia.
Qed.

Lemma BufferSlice_make_bounds_witness :
  BufferSlice.overlaps (BufferSlice.make 16 (2 ^ 64 - 1) 1)
    (BufferSlice.make 16 (2 ^ 64 - 1) 1) = false.
Proof.
  apply (BufferSlice_make_bounds 16 (2 ^ 64 - 1) 1); lia.
Defined.

(** X11: [merge] of buffer slices is idempotent, commutative and
    associative, and the merged slice has the flags of both. *)
Theorem BufferSlice_merge_semilattice (a b c : BufferSlice.t) :
  BufferSlice.merge a a = a
  /\ BufferSlice.merge a b = BufferSlice.merge b a
  /\ BufferSlice.merge (BufferSlice.merge a b) c
     = BufferSlice.merge a (BufferSlice.merge b c)
  /\ BufferSlice.getAccess (BufferSlice.merge a b)
     = Z.lor (BufferSlice.getAccess a) (BufferSlice.getAccess b).
Proof.
  destruct a as [la ha fa], b as [lb hb fb], c as [lc hc fc].
  unfold BufferSlice.merge, Flags.set. cbn. repeat split.
  - rewrite Z.min_id, Z.max_id, Z.lor_diag. reflexivity.
  - rewrite (Z.min_comm la), (Z.max_comm ha), (Z.lor_comm fa). reflexivity.
  - rewrite Z.min_assoc, Z.max_assoc, Z.lor_assoc. reflexivity.
Qed.

(** X12: what [canMerge] means for [merge] on buffer slices whose bounds
    are in order.  When [canMerge] holds the merged slice covers the
    bytes of the two slices and no other.  When it does not hold for two
    slices of the same flags, the merged slice covers
    a byte that neither of them covers. *)
Theorem BufferSlice_canMerge_exact (a b : BufferSlice.t) :
  BufferSlice_ordered a -> BufferSlice_ordered b ->
  (BufferSlice.canMerge a b = true ->
   forall p, BufferSlice_covers (BufferSlice.merge a b) p
             <-> BufferSlice_covers a p \/ BufferSlice_covers b p)
  /\ (BufferSlice.canMerge a b = false ->
      BufferSlice.getAccess a = BufferSlice.getAccess b ->
      exists p, BufferSlice_covers (BufferSlice.merge a b) p
                /\ ~ BufferSlice_covers a p /\ ~ BufferSlice_covers b p).
Proof.
  unfold BufferSlice_ordered, BufferSlice_covers, BufferSlice.canMerge,
    BufferSlice.getAccess, Flags.eqb.
  intros Ha Hb. cbn. split.
  - destruct (Z.eqb_spec (BufferSlice.m_access a) (BufferSlice.m_access b)).
    + rewrite andb_true_iff, Z.geb_le, Z.leb_le. lia.
    + rewrite andb_true_iff, !Z.eqb_eq. lia.
  - intros Hc Hf. rewrite Hf, Z.eqb_refl in Hc.
    apply andb_false_iff in Hc. rewrite Z.geb_leb, !Z.leb_gt in Hc.
    destruct Hc as [Hc | Hc].
    + exists (BufferSlice.m_hiAddr a). lia.
    + exists (BufferSlice.m_hiAddr b). lia.
Qed.

Lemma BufferSlice_canMerge_exact_witness :
  exists p,
    BufferSlice_covers
      (BufferSlice.merge (BufferSlice.make 0 64 1) (BufferSlice.make 128 64 1)) p
    /\ ~ BufferSlice_covers (BufferSlice.make 0 64 1) p
    /\ ~ BufferSlice_covers (BufferSlice.make 128 64 1) p.
Proof.
  apply (BufferSlice_canMerge_exact (BufferSlice.make 0 64 1)
           (BufferSlice.make 128 64 1)).
  - closed_arith.
  - closed_arith.
  - reflexivity.
  - reflexivity.
Defined.

(** ** Both slice types *)

(** X13: [canMerge] is symmetric, for buffer slices and for image
    slices. *)
Theorem canMerge_sym :
  (forall a b : BufferSlice.t, BufferSlice.canMerge a b = BufferSlice.canMerge b a)
  /\ (forall a b : ImageSlice.t, ImageSlice.canMerge a b = ImageSlice.canMerge b a).
Proof.
  split; intros a b.
  - unfold BufferSlice.canMerge, Flags.eqb.
    rewrite (Z.eqb_sym (BufferSlice.m_access b)).
    destruct (_ =? _); apply eq_true_iff_eq;
      rewrite !andb_true_iff, ?Z.geb_le, ?Z.leb_le, ?Z.eqb_eq; lia.
  - unfold ImageSlice.canMerge, Flags.eqb.
    rewrite (Z.eqb_sym (ImageSlice.m_access b)),
      (Z.eqb_sym (ImageSlice.m_minLayer b)), (Z.eqb_sym (ImageSlice.m_maxLayer b)),
      (Z.eqb_sym (ImageSlice.m_minLevel b)), (Z.eqb_sym (ImageSlice.m_maxLevel b)).
    destruct (Bool.eqb _ _); [reflexivity|].
    destruct (negb _); [reflexivity|].
    destruct (_ && _); apply eq_true_iff_eq;
      rewrite !andb_true_iff, ?Z.geb_le, ?Z.leb_le; lia.
Qed.

Lemma Flags_test_lor a b f :
  Flags.test (Z.lor a b) f = Flags.test a f || Flags.test b f.
Proof. unfold Flags.test. apply Z.lor_spec. Qed.

(** X14: [isDirty] is symmetric, for buffer slices and for image slices,
    and holds iff the two slices overlap and one of them has the Write
    flag: two slices that are only read are never dirty. *)
Theorem isDirty_sym_write :
  (forall a b : BufferSlice.t,
      BufferSlice.isDirty a b = BufferSlice.isDirty b a
      /\ BufferSlice.isDirty a b
         = BufferSlice.overlaps a b
           && (Flags.test (BufferSlice.getAccess a) Write
               || Flags.test (BufferSlice.getAccess b) Write))
  /\ (forall a b : ImageSlice.t,
      ImageSlice.isDirty a b = ImageSlice.isDirty b a
      /\ ImageSlice.isDirty a b
         = ImageSlice.overlaps a b
           && (Flags.test (ImageSlice.getAccess a) Write
               || Flags.test (ImageSlice.getAccess b) Write)).
Proof.
  split; intros a b.
  - unfold BufferSlice.isDirty, BufferSlice.getAccess.
    rewrite !Flags_test_lor, (BufferSlice_overlaps_sym b a). split; btauto.
  - unfold ImageSlice.isDirty, ImageSlice.getAccess.
    rewrite !Flags_test_lor, (ImageSlice_overlaps_sym b a). split; btauto.
Qed.

(** ** Image slices *)

Lemma land_common_bit x y :
  0 <= x -> (Z.land x y <> 0 <-> exists i, 0 <= i /\ Z.testbit x i = true
                                          /\ Z.testbit y i = true).
Proof.
  intros Hx. split.
  - intros Hne.
    assert (Hpos : 0 < Z.land x y).
    { assert (0 <= Z.land x y) by (apply Z.land_nonneg; now left). lia. }
    exists (Z.log2 (Z.land x y)). split; [apply Z.log2_nonneg|].
    apply andb_true_iff. rewrite <- Z.land_spec. now apply Z.bit_log2.
  - intros (i & Hi & Hxi & Hyi) E.
    assert (Hb : Z.testbit (Z.land x y) i = true)
      by (rewrite Z.land_spec, Hxi, Hyi; reflexivity).
    rewrite E, Z.bits_0 in Hb. discriminate.
Qed.

(** X15: [overlaps] of image slices is symmetric, and two slices whose
    layer and level ranges are not empty overlap iff they have a
    subresource in common: an aspect, a layer and a level. *)
Theorem ImageSlice_overlaps_common_subresource :
  (forall a b, ImageSlice.overlaps a b = ImageSlice.overlaps b a)
  /\ (forall a b,
        0 <= ImageSlice.m_aspects a ->
        ImageSlice_box_nonempty a -> ImageSlice_box_nonempty b ->
        (ImageSlice.overlaps a b = true
         <-> exists aspect layer level,
               0 <= aspect
               /\ ImageSlice_covers a aspect layer level
               /\ ImageSlice_covers b aspect layer level)).
Proof.
  split; [apply ImageSlice_overlaps_sym|].
  intros a b Hasp [Ha1 Ha2] [Hb1 Hb2]. rewrite ImageSlice_overlaps_spec.
  rewrite (land_common_bit _ _ Hasp). unfold ImageSlice_covers. split.
  - intros ((i & Hi & Hai & Hbi) & H1 & H2 & H3 & H4).
    exists i, (Z.max (ImageSlice.m_minLayer a) (ImageSlice.m_minLayer b)),
      (Z.max (ImageSlice.m_minLevel a) (ImageSlice.m_minLevel b)).
    repeat split; try assumption; lia.
  - intros (i & l & m & Hi & (Hai & Hal & Ham) & (Hbi & Hbl & Hbm)).
    split; [eauto|]. lia.
Qed.

Lemma ImageSlice_overlaps_common_subresource_witness :
  ImageSlice.overlaps
    (ImageSlice.make (mkSubresourceRange 3 0 4 0 6) 1)
    (ImageSlice.make (mkSubresourceRange 2 3 1 5 1) 2) = true.
Proof.
  apply (proj2 ImageSlice_overlaps_common_subresource
           (ImageSlice.make (mkSubresourceRange 3 0 4 0 6) 1)
           (ImageSlice.make (mkSubresourceRange 2 3 1 5 1) 2)).
  - closed_arith.
  - closed_arith.
  - closed_arith.
  - exists 1, 5, 3. closed_arith.
Defined.

(** X16: the constructor of an image slice.  Without wrap-around the
    slice covers the aspects of the mask, the layers
    [baseArrayLayer .. baseArrayLayer + layerCount - 1] and the levels
    [baseMipLevel .. baseMipLevel + levelCount - 1].  When one of the
    two sums wraps around at [2^32], as for a count of [~0u] with a base
    that is not zero, the slice covers no subresource and does not
    overlap itself. *)
Theorem ImageSlice_make_bounds (range : VkImageSubresourceRange) (access : Z) :
  0 <= baseArrayLayer range < 2 ^ 32 -> 0 <= layerCount range < 2 ^ 32 ->
  0 <= baseMipLevel range < 2 ^ 32 -> 0 <= levelCount range < 2 ^ 32 ->
  (baseArrayLayer range + layerCount range < 2 ^ 32 ->
   baseMipLevel range + levelCount range < 2 ^ 32 ->
   forall aspect layer level,
     ImageSlice_covers (ImageSlice.make range access) aspect layer level
     <-> Z.testbit (aspectMask range) aspect = true
         /\ baseArrayLayer range <= layer < baseArrayLayer range + layerCount range
         /\ baseMipLevel range <= level < baseMipLevel range + levelCount range)
  /\ (2 ^ 32 <= baseArrayLayer range + layerCount range
      \/ 2 ^ 32 <= baseMipLevel range + levelCount range ->
      (forall aspect layer level,
          ~ ImageSlice_covers (ImageSlice.make range access) aspect layer level)
      /\ ImageSlice.overlaps (ImageSlice.make range access)
           (ImageSlice.make range access) = false).
Proof.
  intros Hl Hlc Hm Hmc. unfold ImageSlice_covers, ImageSlice.make. cbn. split.
  - intros H1 H2 aspect layer level. rewrite !u32_small by lia. reflexivity.
  - assert (Hwrap : forall x, 2 ^ 32 <= x < 2 ^ 33 -> u32 x = x - 2 ^ 32).
    { intros x Hx. unfold u32. symmetry. apply Z.mod_unique with 1; lia. }
    assert (Hle : forall x, 0 <= x < 2 ^ 33 -> u32 x <= x).
    { intros x Hx. unfold u32. apply Z.mod_le; lia. }
    intros Hw.
    pose proof (Hle (baseArrayLayer range + layerCount range) ltac:(lia)).
    pose proof (Hle (baseMipLevel range + levelCount range) ltac:(lia)).
    split.
    + intros aspect layer level.
      destruct Hw as [Hw | Hw];
        [ rewrite (Hwrap (baseArrayLayer range + layerCount range)) in * by lia
        | rewrite (Hwrap (baseMipLevel range + levelCount range)) in * by lia ];
        lia.
    + apply not_true_iff_false. rewrite ImageSlice_overlaps_spec. cbn.
      destruct Hw as [Hw | Hw];
        [ rewrite (Hwrap (baseArrayLayer range + layerCount range)) in * by lia
        | rewrite (Hwrap (baseMipLevel range + levelCount range)) in * by lia ];
        lia.
Qed.

Lemma ImageSlice_make_bounds_witness :
  ImageSlice.overlaps
    (ImageSlice.make (mkSubresourceRange 1 0 1 2 (2 ^ 32 - 1)) 1)
    (ImageSlice.make (mkSubresourceRange 1 0 1 2 (2 ^ 32 - 1)) 1) = false.
Proof.
  apply (ImageSlice_make_bounds (mkSubresourceRange 1 0 1 2 (2 ^ 32 - 1)) 1);
    cbn; lia.
Defined.

(** X17: [merge] of image slices is idempotent, commutative and
    associative, and the merged slice has the flags of both. *)
Theorem ImageSlice_merge_semilattice (a b c : ImageSlice.t) :
  ImageSlice.merge a a = a
  /\ ImageSlice.merge a b = ImageSlice.merge b a
  /\ ImageSlice.merge (ImageSlice.merge a b) c
     = ImageSlice.merge a (ImageSlice.merge b c)
  /\ ImageSlice.getAccess (ImageSlice.merge a b)
     = Z.lor (ImageSlice.getAccess a) (ImageSlice.getAccess b).
Proof.
  destruct a as [aa la ha ma na fa], b as [ab lb hb mb nb fb],
    c as [ac lc hc mc nc fc].
  unfold ImageSlice.merge, Flags.set. cbn. repeat split.
  - rewrite !Z.min_id, !Z.max_id, !Z.lor_diag. reflexivity.
  - rewrite (Z.min_comm la), (Z.max_comm ha), (Z.min_comm ma), (Z.max_comm na),
      (Z.lor_comm aa), (Z.lor_comm fa). reflexivity.
  - rewrite !Z.min_assoc, !Z.max_assoc, !Z.lor_assoc. reflexivity.
Qed.

(** X18: what [canMerge] means for [merge] on image slices whose bounds
    are in order.  When [canMerge] holds and the two slices have the same
    aspects or the same layers and levels, the merged slice covers the
    subresources of the two slices and no other. *)
Theorem ImageSlice_canMerge_exact (a b : ImageSlice.t) :
  ImageSlice_ordered a -> ImageSlice_ordered b ->
  ImageSlice.canMerge a b = true ->
  ImageSlice.m_aspects a = ImageSlice.m_aspects b
  \/ (sameLayers a b = true /\ sameLevels a b = true) ->
  forall aspect layer level,
    ImageSlice_covers (ImageSlice.merge a b) aspect layer level
    <-> ImageSlice_covers a aspect layer level
        \/ ImageSlice_covers b aspect layer level.
Proof.
  intros [Ha1 Ha2] [Hb1 Hb2] Hcan Hcase aspect layer level.
  unfold ImageSlice_covers. cbn. rewrite Z.lor_spec, orb_true_iff.
  unfold ImageSlice.canMerge in Hcan. fold (sameLayers a b) in Hcan.
  fold (sameLevels a b) in Hcan.
  assert (Hsame : sameLayers a b = true -> sameLevels a b = true ->
            ImageSlice.m_minLayer a = ImageSlice.m_minLayer b
            /\ ImageSlice.m_maxLayer a = ImageSlice.m_maxLayer b
            /\ ImageSlice.m_minLevel a = ImageSlice.m_minLevel b
            /\ ImageSlice.m_maxLevel a = ImageSlice.m_maxLevel b).
  { intros H1 H2. unfold sameLayers, sameLevels in *.
    rewrite andb_true_iff, !Z.eqb_eq in H1, H2. tauto. }
  destruct Hcase as [Hasp | [HL HV]].
  - rewrite <- Hasp.
    assert (Hbox :
      (Z.min (ImageSlice.m_minLayer a) (ImageSlice.m_minLayer b) <= layer
         < Z.max (ImageSlice.m_maxLayer a) (ImageSlice.m_maxLayer b)
       /\ Z.min (ImageSlice.m_minLevel a) (ImageSlice.m_minLevel b) <= level
         < Z.max (ImageSlice.m_maxLevel a) (ImageSlice.m_maxLevel b))
      <-> (ImageSlice.m_minLayer a <= layer < ImageSlice.m_maxLayer a
           /\ ImageSlice.m_minLevel a <= level < ImageSlice.m_maxLevel a)
          \/ (ImageSlice.m_minLayer b <= layer < ImageSlice.m_maxLayer b
              /\ ImageSlice.m_minLevel b <= level < ImageSlice.m_maxLevel b)).
    { destruct (sameLayers a b) eqn:EL, (sameLevels a b) eqn:EV;
        cbn [Bool.eqb] in Hcan; try discriminate.
      - destruct (Hsame eq_refl eq_refl) as (? & ? & ? & ?). lia.
      - destruct (negb _); [discriminate|].
        unfold sameLayers in EL. rewrite andb_true_iff, !Z.eqb_eq in EL.
        rewrite andb_true_iff, Z.geb_le, Z.leb_le in Hcan. lia.
      - destruct (negb _); [discriminate|].
        unfold sameLevels in EV. rewrite andb_true_iff, !Z.eqb_eq in EV.
        rewrite andb_true_iff, Z.geb_le, Z.leb_le in Hcan. lia. }
    tauto.
  - destruct (Hsame HL HV) as (E1 & E2 & E3 & E4).
    rewrite <- E1, <- E2, <- E3, <- E4, !Z.min_id, !Z.max_id. tauto.
Qed.

Lemma ImageSlice_canMerge_exact_witness :
  ImageSlice_covers
    (ImageSlice.merge (ImageSlice.make (mkSubresourceRange 1 0 2 0 1) 1)
                      (ImageSlice.make (mkSubresourceRange 1 2 2 0 1) 1))
    0 0 3.
Proof.
  apply (ImageSlice_canMerge_exact
           (ImageSlice.make (mkSubresourceRange 1 0 2 0 1) 1)
           (ImageSlice.make (mkSubresourceRange 1 2 2 0 1) 1)).
  - closed_arith.
  - closed_arith.
  - reflexivity.
  - left. reflexivity.
  - right. closed_arith.
Defined.

(** ** The subresource set: every call returns *)

Section Cyclic.
Context {T : Type} `{BarrierSlice T}.
Import SubresourceSet.
Implicit Types (s : SubresourceSet.t T) (hm : list (HashEntry T)).

Lemma land_mask x k : 0 <= k -> Z.land x (2 ^ k - 1) = x mod 2 ^ k.
Proof.
  intros Hk. rewrite <- Z.land_ones by lia. f_equal.
  rewrite Z.ones_equiv. lia.
Qed.

Lemma computeIndex_mask s k key :
  0 <= k -> m_indexMask s = 2 ^ k - 1 ->
  0 <= computeIndex s key < 2 ^ k.
Proof.
  intros Hk Hm. unfold computeIndex. rewrite Hm, land_mask by lia.
  apply Z.mod_pos_bound. lia.
Qed.

Lemma advanceIndex_mask s k index :
  0 <= k < 64 -> m_indexMask s = 2 ^ k - 1 -> 0 <= index < 2 ^ k ->
  advanceIndex s index = (index + 1) mod 2 ^ k.
Proof.
  intros Hk Hm Hi. unfold advanceIndex. rewrite Hm, land_mask by lia.
  assert (2 ^ k < 2 ^ 64) by (apply Z.pow_lt_mono_r; lia).
  rewrite u64_small by lia. reflexivity.
Qed.

(** The slot reached from [index] by [d] steps round the table. *)
Lemma step_round k index d :
  ((index + 1) mod 2 ^ k + d) mod 2 ^ k = (index + (d + 1)) mod 2 ^ k.
Proof. rewrite Zplus_mod_idemp_l. f_equal. lia. Qed.

Lemma reach_round k index t :
  0 < 2 ^ k -> 0 <= t < 2 ^ k ->
  exists d, (Z.of_nat d < 2 ^ k) /\ t = (index + Z.of_nat d) mod 2 ^ k.
Proof.
  intros Hk Ht. exists (Z.to_nat ((t - index) mod 2 ^ k)).
  pose proof (Z.mod_pos_bound (t - index) (2 ^ k) Hk) as Hm.
  rewrite Z2Nat.id by lia. split; [lia|].
  rewrite Zplus_mod_idemp_r. replace (index + (t - index)) with t by lia.
  symmetry. apply Z.mod_small. lia.
Qed.

(** Probing ends when some slot on the way is not live. *)
Lemma probe_total s k key : forall d fuel index e,
  0 <= k < 64 -> m_indexMask s = 2 ^ k - 1 ->
  2 ^ k <= Z.of_nat (length (m_hashMap s)) ->
  0 <= index < 2 ^ k ->
  at_ (m_hashMap s) ((index + Z.of_nat d) mod 2 ^ k) = Some e ->
  he_version e <> m_version s ->
  (d < fuel)%nat ->
  exists r, probe fuel s key index = Some r.
Proof.
  induction d as [|d IH]; intros fuel index e Hk Hm Hlen Hi He Hv Hfuel;
    (destruct fuel as [|fuel]; [lia|]); cbn [probe].
  - rewrite Z.add_0_r, Z.mod_small in He by lia. rewrite He.
    cbn [mbind option_bind].
    rewrite (proj2 (Z.eqb_neq _ _) Hv). eauto.
  - destruct (at_is_Some (m_hashMap s) index ltac:(lia)) as [e0 He0].
    rewrite He0. cbn [mbind option_bind].
    destruct (he_version e0 =? m_version s); [|eauto].
    destruct (he_key e0 =? key); [eauto|].
    rewrite (advanceIndex_mask s k) by assumption.
    apply (IH fuel _ e); try assumption; try lia.
    + apply Z.mod_pos_bound. lia.
    + rewrite step_round. rewrite <- He. f_equal. f_equal. lia.
Qed.

Lemma skipRelocated_total s k hm : forall d fuel index e,
  0 <= k < 64 -> m_indexMask s = 2 ^ k - 1 ->
  2 ^ k <= Z.of_nat (length hm) ->
  0 <= index < 2 ^ k ->
  at_ hm ((index + Z.of_nat d) mod 2 ^ k) = Some e ->
  he_version e <= m_version s ->
  (d < fuel)%nat ->
  exists j, skipRelocated fuel s hm index = Some j.
Proof.
  induction d as [|d IH]; intros fuel index e Hk Hm Hlen Hi He Hv Hfuel;
    (destruct fuel as [|fuel]; [lia|]); cbn [skipRelocated].
  - rewrite Z.add_0_r, Z.mod_small in He by lia. rewrite He.
    cbn [mbind option_bind].
    rewrite Z.gtb_ltb, (proj2 (Z.ltb_ge _ _)) by lia. eauto.
  - destruct (at_is_Some hm index ltac:(lia)) as [e0 He0].
    rewrite He0. cbn [mbind option_bind].
    destruct (he_version e0 >? m_version s); [|eauto].
    rewrite (advanceIndex_mask s k) by assumption.
    apply (IH fuel _ e); try assumption; try lia.
    + apply Z.mod_pos_bound. lia.
    + rewrite step_round. rewrite <- He. f_equal. f_equal. lia.
Qed.

(** A list with fewer selected elements than elements has one that is
    not selected. *)
Lemma omap_short {A B : Type} (f : A -> option B) (l : list A) :
  (length (omap f l) < length l)%nat ->
  exists i x, l !! i = Some x /\ f x = None.
Proof.
  induction l as [|a l IH]; cbn [omap list_omap length]; [lia|].
  destruct (f a) eqn:E; cbn [length]; intros Hlt.
  - destruct IH as (i & x & Hi & Hx); [lia|]. exists (S i), x. auto.
  - exists 0%nat, a. auto.
Qed.

Lemma omap_length_le {A B : Type} (f : A -> option B) (l : list A) :
  (length (omap f l) <= length l)%nat.
Proof.
  induction l as [|a l IH]; cbn [omap list_omap length]; [lia|].
  destruct (f a); cbn [length]; lia.
Qed.

Lemma omap_length_impl {A B C : Type} (f : A -> option B) (g : A -> option C)
    (l : list A) :
  (forall x, is_Some (f x) -> is_Some (g x)) ->
  (length (omap f l) <= length (omap g l))%nat.
Proof.
  intros Hfg. induction l as [|a l IH]; cbn [omap list_omap length]; [lia|].
  destruct (f a) eqn:Ef.
  - destruct (Hfg a) as [c Hc]; [rewrite Ef; eauto|]. rewrite Hc. cbn. lia.
  - destruct (g a); cbn [length]; lia.
Qed.

Lemma omap_length_take {A B : Type} (f : A -> option B) (l : list A) n :
  (length (omap f (take n l)) <= length (omap f l))%nat.
Proof.
  rewrite <- (take_drop n l) at 2. rewrite omap_app, length_app. lia.
Qed.

Lemma omap_insert_length {A B : Type} (f : A -> option B) (l : list A) i x y :
  l !! i = Some y ->
  (length (omap f (<[i := x]> l)) + length (option_list (f y))
   = length (omap f l) + length (option_list (f x)))%nat.
Proof.
  intros Hy. destruct (omap_insert f l i x y Hy) as [-> ->].
  rewrite !length_app. lia.
Qed.
End Cyclic.

Section GrowthTotal.
Context {T : Type} `{BarrierSlice T}.
Import SubresourceSet.
Implicit Types (s : SubresourceSet.t T) (hm : list (HashEntry T))
  (e hand : HashEntry T).

Lemma live_bit_live v e : he_version e = v -> live_bit v e = 1%nat.
Proof. intros Hv. unfold live_bit, live_strip. now rewrite Hv, Z.eqb_refl. Qed.

Lemma live_bit_dead v e : he_version e <> v -> live_bit v e = 0%nat.
Proof.
  intros Hv. unfold live_bit, live_strip.
  now rewrite (proj2 (Z.eqb_neq _ _) Hv).
Qed.

Lemma marked_live v e : he_version e <= v -> marked v e = live_strip v e.
Proof. intros Hv. rewrite marked_not_ahead by assumption. reflexivity. Qed.

Lemma live_le_marked v e :
  (live_bit v e <= length (option_list (marked v e)))%nat.
Proof.
  unfold live_bit, live_strip, marked. destruct (he_version e =? v); cbn; lia.
Qed.

(** Among the first [2^k] slots one is not stamped with the next
    version, when fewer than [2^k] entries take part in the
    relocation. *)
Lemma relocation_slot v k hm :
  0 <= k ->
  2 ^ k <= Z.of_nat (length hm) ->
  Forall (fun e => he_version e <= v + 1) hm ->
  Z.of_nat (length (omap (marked v) hm)) < 2 ^ k ->
  exists t e, 0 <= t < 2 ^ k /\ at_ hm t = Some e /\ he_version e <= v.
Proof.
  intros Hk Hlen Hall Hcount.
  set (f := fun e : HashEntry T =>
              if he_version e =? v + 1 then Some tt else None).
  destruct (omap_short f (take (Z.to_nat (2 ^ k)) hm)) as (i & x & Hi & Hx).
  { rewrite length_take.
    pose proof (omap_length_take f hm (Z.to_nat (2 ^ k))).
    assert (length (omap f hm) <= length (omap (marked v) hm))%nat.
    { apply omap_length_impl. intros e [u Hu]. unfold f in Hu. unfold marked.
      destruct (he_version e =? v + 1); [|discriminate].
      rewrite orb_true_r. eauto. }
    lia. }
  pose proof (lookup_lt_Some _ _ _ Hi) as Hlt. rewrite length_take in Hlt.
  rewrite lookup_take_lt in Hi by lia.
  exists (Z.of_nat i), x. split; [lia|].
  split; [unfold at_; now rewrite Nat2Z.id|].
  rewrite Forall_forall in Hall.
  specialize (Hall x (list_elem_of_lookup_2 _ _ _ Hi)).
  unfold f in Hx. destruct (Z.eqb_spec (he_version x) (v + 1)); [discriminate|lia].
Qed.

Lemma relocate_total s k : forall fuel hand hm,
  0 <= k < 64 -> m_indexMask s = 2 ^ k - 1 ->
  1 <= m_version s < 2 ^ 64 - 1 ->
  2 ^ k <= Z.of_nat (length hm) ->
  Forall (fun e => he_version e <= m_version s + 1) hm ->
  Z.of_nat (length (omap (marked (m_version s)) hm)
            + live_bit (m_version s) hand) < 2 ^ k ->
  (length (omap (live_strip (m_version s)) hm)
   + live_bit (m_version s) hand < fuel)%nat ->
  exists hm', relocate fuel s hand hm = Some hm'.
Proof.
  induction fuel as [|fuel IH]; intros hand hm Hk Hm Hv Hlen Hall Hcount Hfuel;
    [lia|].
  cbn [relocate].
  destruct (Z.eqb_spec (he_version hand) (m_version s)) as [Hlive|Hdead];
    [|eauto].
  rewrite (live_bit_live _ _ Hlive) in Hcount, Hfuel.
  destruct (relocation_slot (m_version s) k hm) as (t & e & Ht & He & Hev);
    try assumption; try lia.
  pose proof (computeIndex_mask s k (he_key hand) ltac:(lia) Hm) as Hidx.
  destruct (reach_round k (computeIndex s (he_key hand)) t) as (d & Hd & Et);
    [lia | assumption |].
  destruct (skipRelocated_total s k hm d (length hm)
              (computeIndex s (he_key hand)) e) as [index Hskip];
    try assumption; try lia.
  { rewrite <- Et. exact He. }
  rewrite Hskip. cbn [mbind option_bind].
  destruct (skipRelocated_spec _ _ _ _ _ Hskip) as (other & Hother & Hle).
  rewrite Hother. cbn [mbind option_bind].
  set (moved := set_version hand (u64 (m_version s + 1))).
  assert (Hmoved : he_version moved = m_version s + 1)
    by (cbn; apply u64_small; lia).
  pose proof (omap_insert_length (marked (m_version s)) hm (Z.to_nat index)
                moved other Hother) as Hmark.
  pose proof (omap_insert_length (live_strip (m_version s)) hm (Z.to_nat index)
                moved other Hother) as Hliv.
  fold (live_bit (m_version s) other) in Hliv.
  fold (live_bit (m_version s) moved) in Hliv.
  unfold moved in Hmark at 2. rewrite marked_relocated in Hmark by lia.
  rewrite (marked_live _ other Hle) in Hmark.
  fold (live_bit (m_version s) other) in Hmark.
  rewrite (live_bit_dead _ moved) in Hliv by lia.
  change (length (option_list (Some (strip hand)))) with 1%nat in Hmark.
  apply IH; try assumption.
  - rewrite length_insert. assumption.
  - apply Forall_insert; [assumption|]. lia.
  - lia.
  - lia.
Qed.

Lemma relocateAll_total s k : forall n i hm,
  0 <= k < 64 -> m_indexMask s = 2 ^ k - 1 ->
  1 <= m_version s < 2 ^ 64 - 1 ->
  0 <= i -> i + Z.of_nat n <= 2 ^ k ->
  2 ^ k <= Z.of_nat (length hm) ->
  Forall (fun e => he_version e <= m_version s + 1) hm ->
  Z.of_nat (length (omap (marked (m_version s)) hm)) < 2 ^ k ->
  exists hm', relocateAll n i s hm = Some hm'.
Proof.
  induction n as [|n IH]; intros i hm Hk Hm Hv Hi Hin Hlen Hall Hcount;
    cbn -[relocate]; [eauto|].
  destruct (at_is_Some hm i ltac:(lia)) as [entry Hentry].
  rewrite Hentry. cbn -[relocate].
  set (hm1 := <[Z.to_nat i := set_version entry 0]> hm).
  pose proof (omap_insert_length (marked (m_version s)) hm (Z.to_nat i)
                (set_version entry 0) entry Hentry) as Hmark.
  pose proof (omap_insert_length (live_strip (m_version s)) hm (Z.to_nat i)
                (set_version entry 0) entry Hentry) as Hliv.
  fold hm1 in Hmark, Hliv.
  fold (live_bit (m_version s) entry) in Hliv.
  fold (live_bit (m_version s) (set_version entry 0)) in Hliv.
  rewrite (marked_zero _ (set_version entry 0)) in Hmark by (lia || reflexivity).
  rewrite (live_bit_dead _ (set_version entry 0)) in Hliv by (cbn; lia).
  change (length (option_list (@None (Z * T * Z)))) with 0%nat in Hmark.
  pose proof (live_le_marked (m_version s) entry) as Hlm.
  pose proof (omap_length_le (live_strip (m_version s)) hm) as Hll.
  assert (Hall1 : Forall (fun e => he_version e <= m_version s + 1) hm1).
  { apply Forall_insert; [assumption|]. cbn. lia. }
  assert (Hlen1 : length hm1 = length hm) by apply length_insert.
  destruct (relocate_total s k (S (length hm1)) entry hm1) as [hm2 Hrel];
    try assumption; try lia.
  rewrite Hrel. cbn.
  apply IH; try assumption; try lia.
  - rewrite (relocate_length _ _ _ _ _ Hrel). lia.
  - apply (relocate_Forall (fun e => he_version e <= m_version s + 1)
             (S (length hm1)) s entry hm1 hm2); [| |exact Hall1|exact Hrel].
    + intros e _. cbn. rewrite u64_small by lia. lia.
    + apply (Forall_lookup_1 _ _ _ _ Hall Hentry).
  - pose proof (submseteq_length _ _ (relocate_marked _ _ _ _ _ Hv Hrel)) as Hsub.
    rewrite length_app in Hsub.
    change (length (option_list (if he_version entry =? m_version s
                                 then Some (strip entry) else None)))
      with (live_bit (m_version s) entry) in Hsub.
    lia.
Qed.

Lemma resize_ge (x : HashEntry T) hm n :
  (length hm <= n)%nat -> resize n x hm = hm ++ replicate (n - length hm) x.
Proof. intros Hn. rewrite resize_spec, take_ge by lia. reflexivity. Qed.

Lemma live_versions_marked v hm :
  (forall i e, hm !! i = Some e -> 0 <= he_version e <= v) ->
  omap (marked v) hm = omap (live_strip v) hm.
Proof.
  intros Hvers. apply omap_ext_elem. intros e He.
  apply list_elem_of_lookup_1 in He as [i Hi].
  apply marked_live. specialize (Hvers i e Hi). lia.
Qed.

(** Growing a table that has a vacant slot ends. *)
Lemma growHashMap_total s size newSize :
  table_shape s size -> size < 2 ^ 63 ->
  1 <= m_version s < 2 ^ 64 - 1 ->
  (forall i e, m_hashMap s !! i = Some e -> 0 <= he_version e <= m_version s) ->
  (size = 0 \/ Z.of_nat (live_count (m_version s) (m_hashMap s)) < size) ->
  size <= newSize ->
  exists s', growHashMap s newSize = Some s'
             /\ Z.of_nat (length (m_hashMap s')) = newSize
             /\ m_indexMask s' = u64 (newSize - 1).
Proof.
  intros [Hlen Hshape] Hbig Hv Hvers Hlive Hnew. unfold growHashMap.
  set (hm := resize (Z.to_nat newSize) HashEntry_default (m_hashMap s)).
  assert (Hhm : Z.of_nat (length hm) = newSize)
    by (unfold hm; rewrite length_resize; lia).
  enough (exists hm', relocateAll (Z.to_nat (computeSize s)) 0 s hm = Some hm')
    as [hm' Hrel].
  { rewrite Hrel. cbn. eexists. split; [reflexivity|]. cbn.
    rewrite (relocateAll_length _ _ _ _ _ Hrel). auto. }
  destruct Hshape as [[-> Hmask] | (k & Hk & -> & Hmask)].
  - unfold computeSize. rewrite Hmask. cbn. eauto.
  - assert (Hk' : k < 63).
    { apply (Z.pow_lt_mono_r_iff 2); lia. }
    assert (Hpow : 64 <= 2 ^ k).
    { change 64 with (2 ^ 6). apply Z.pow_le_mono_r; lia. }
    assert (Hpow' : 2 ^ k < 2 ^ 64) by (apply Z.pow_lt_mono_r; lia).
    assert (Hsize : computeSize s = 2 ^ k).
    { unfold computeSize. rewrite Hmask.
      rewrite (proj2 (Z.eqb_neq _ _)) by lia.
      replace (2 ^ k - 1 + 1) with (2 ^ k) by lia. apply u64_small. lia. }
    rewrite Hsize.
    apply (relocateAll_total s k); try assumption; try lia.
    + unfold hm. rewrite resize_ge by lia. apply Forall_app. split.
      * apply Forall_lookup_2. intros i e Hi. specialize (Hvers i e Hi). lia.
      * apply Forall_replicate. cbn. lia.
    + unfold hm. rewrite resize_ge, omap_app, length_app by lia.
      rewrite omap_replicate_None
        by (apply marked_zero; [lia | reflexivity]).
      rewrite (live_versions_marked _ _ Hvers). cbn [length].
      unfold live_count in Hlive. lia.
Qed.
End GrowthTotal.

Section SafeSteps.
Context {T : Type} `{BarrierSlice T}.
Import SubresourceSet.
Implicit Types (s : SubresourceSet.t T) (hm : list (HashEntry T))
  (e : HashEntry T).

Lemma pow2_lt_inv k b : 0 <= b -> 2 ^ k < 2 ^ b -> k < b.
Proof. intros Hb Hlt. apply (Z.pow_lt_mono_r_iff 2); lia. Qed.

Lemma pow2_ge_64 k : 6 <= k -> 64 <= 2 ^ k.
Proof. intros Hk. change 64 with (2 ^ 6). apply Z.pow_le_mono_r; lia. Qed.

Lemma computeSize_shape s size : table_shape s size -> size < 2 ^ 64 -> computeSize s = size.
Proof.
  intros [_ [[-> Hm] | (k & Hk & -> & Hm)]] Hlt; unfold computeSize; rewrite Hm.
  - reflexivity.
  - pose proof (pow2_ge_64 k Hk).
    rewrite (proj2 (Z.eqb_neq _ _)) by lia.
    replace (2 ^ k - 1 + 1) with (2 ^ k) by lia. apply u64_small. lia.
Qed.

Lemma live_count_pos v hm i e :
  hm !! i = Some e -> he_version e = v -> (1 <= live_count v hm)%nat.
Proof.
  intros Hi Hv. unfold live_count.
  assert (Hin : strip e ∈ omap (live_strip v) hm).
  { apply live_strip_elem. eauto. }
  destruct (omap (live_strip v) hm); [inversion Hin | cbn; lia].
Qed.

Lemma live_count_versions v hm : forall hm',
  length hm' = length hm ->
  (forall i e e', hm !! i = Some e -> hm' !! i = Some e' ->
                  he_version e' = he_version e) ->
  live_count v hm' = live_count v hm.
Proof.
  unfold live_count.
  induction hm as [|a hm IH]; intros [|a' hm'] Hlen Hv; try discriminate;
    [reflexivity|].
  cbn [omap list_omap].
  assert (Hb : live_bit v a' = live_bit v a).
  { unfold live_bit, live_strip.
    rewrite (Hv 0%nat a a' eq_refl eq_refl).
    destruct (he_version a =? v); reflexivity. }
  assert (IH' : length (omap (live_strip v) hm')
                = length (omap (live_strip v) hm)).
  { apply IH; [cbn [length] in Hlen; lia|]. intros i e e'. apply (Hv (S i)). }
  unfold live_bit in Hb.
  destruct (live_strip v a'), (live_strip v a); cbn [option_list length] in *;
    try discriminate; lia.
Qed.

Lemma live_count_vacancy v hm :
  (live_count v hm < length hm)%nat ->
  exists t e, 0 <= t < Z.of_nat (length hm) /\ at_ hm t = Some e
              /\ he_version e <> v.
Proof.
  intros Hlt. destruct (omap_short _ _ Hlt) as (i & x & Hi & Hx).
  exists (Z.of_nat i), x. pose proof (lookup_lt_Some _ _ _ Hi).
  split; [lia|]. split; [unfold at_; now rewrite Nat2Z.id|].
  unfold live_strip in Hx.
  destruct (Z.eqb_spec (he_version x) v); [discriminate|assumption].
Qed.

(** The table is ready for an insertion: it has [2^k] slots and is
    loaded below the threshold. *)
Lemma growHashMapBeforeInsert_safe n root s :
  struct_inv root s -> load_inv n s -> Z.of_nat n < 2 ^ 31 ->
  exists s0 k,
    growHashMapBeforeInsert s = Some s0
    /\ 6 <= k < 40
    /\ Z.of_nat (length (m_hashMap s0)) = 2 ^ k
    /\ m_indexMask s0 = 2 ^ k - 1
    /\ m_used s0 = m_used s
    /\ Z.of_nat (live_count (m_version s0) (m_hashMap s0)) <= m_used s
    /\ 10 * m_used s < 7 * 2 ^ k
    /\ 7 * 2 ^ k <= 448 + 20 * Z.of_nat n.
Proof.
  intros Hinv (size & Hshape & Hused & Hlive & Hload & Hsize) Hn.
  assert (Hk40 : forall k, 7 * 2 ^ k <= 448 + 20 * Z.of_nat n -> k < 40).
  { intros k Hk. apply pow2_lt_inv; lia. }
  assert (Hsize0 : 0 <= size) by (destruct Hshape as [<- _]; lia).
  unfold growHashMapBeforeInsert.
  rewrite (computeSize_shape s size Hshape) by lia.
  rewrite !u64_small by lia.
  destruct (Z.geb_spec (10 * m_used s) (7 * size)) as [Hge|Hlt].
  - set (newSize := if size =? 0 then 64 else size * 2).
    assert (Hnew : exists k, 6 <= k /\ newSize = 2 ^ k /\ size <= newSize
                             /\ 10 * m_used s < 7 * newSize
                             /\ 7 * newSize <= 448 + 20 * Z.of_nat n).
    { destruct Hshape as [_ [[-> Hm] | (k & Hk & -> & Hm)]]; unfold newSize.
      - exists 6. cbn. lia.
      - pose proof (pow2_ge_64 k Hk).
        rewrite (proj2 (Z.eqb_neq _ _)) by lia.
        exists (k + 1). rewrite Z.pow_add_r by lia. lia. }
    destruct Hnew as (k & Hk & Enew & Hle & Hload' & Hsize').
    destruct (growHashMap_total s size newSize Hshape) as (s0 & Hgrow & Hlen0 & Hmask0);
      try lia.
    + apply (si_version _ _ Hinv).
    + apply (si_versions _ _ Hinv).
    + destruct (Z.eq_dec size 0); [now left|right].
      destruct Hshape as [_ [[-> _] | (k0 & Hk0 & -> & _)]]; [lia|].
      pose proof (pow2_ge_64 k0 Hk0). lia.
    + exists s0, k. split; [exact Hgrow|].
      destruct (growHashMap_live s newSize s0 (si_version _ _ Hinv)
                  (si_versions _ _ Hinv) Hgrow) as (Ev & El & Eu & _ & Hsub).
      apply submseteq_length in Hsub.
      assert (Hk' : k < 40) by (apply Hk40; lia).
      split; [lia|]. split; [lia|].
      split; [rewrite Hmask0, Enew; apply u64_small;
              assert (2 ^ k < 2 ^ 64) by (apply Z.pow_lt_mono_r; lia); lia|].
      split; [exact Eu|]. unfold live_count, live_strip in *.
      split; [lia|]. lia.
  - exists s.
    destruct Hshape as [Hlen [[-> Hm] | (k & Hk & -> & Hm)]]; [lia|].
    exists k. split; [reflexivity|].
    assert (Hk' : k < 40) by (apply Hk40; lia).
    repeat split; try assumption; lia.
Qed.

Lemma load_inv_weaken n m s : (n <= m)%nat -> load_inv n s -> load_inv m s.
Proof.
  intros Hnm (size & Hshape & Hused & Hlive & Hld & Hsz).
  exists size. split; [exact Hshape|]. repeat split; lia.
Qed.

(** The growth adds one to the version and doubles the table. *)
Lemma growHashMapBeforeInsert_version n root s s0 :
  struct_inv root s -> load_inv n s -> Z.of_nat n < 2 ^ 31 ->
  growHashMapBeforeInsert s = Some s0 ->
  m_version s0 - Z.log2 (Z.of_nat (length (m_hashMap s0)))
  <= m_version s - Z.log2 (Z.of_nat (length (m_hashMap s))).
Proof.
  intros Hinv (size & Hshape & Hused & Hlive & Hload & Hsize) Hn.
  assert (Hsize0 : 0 <= size) by (destruct Hshape as [<- _]; lia).
  assert (Hbig : size < 2 ^ 40) by lia.
  unfold growHashMapBeforeInsert.
  rewrite (computeSize_shape s size Hshape) by lia.
  rewrite !u64_small by lia.
  destruct (Z.geb_spec (10 * m_used s) (7 * size)) as [Hge|Hlt];
    [|intros [= <-]; lia].
  set (newSize := if size =? 0 then 64 else size * 2).
  intros Hgrow.
  destruct (growHashMap_live s newSize s0 (si_version _ _ Hinv)
              (si_versions _ _ Hinv) Hgrow) as (Ev & _).
  destruct (growHashMap_total s size newSize Hshape) as (s' & Hgrow' & Hlen' & _);
    try lia.
  - apply (si_version _ _ Hinv).
  - apply (si_versions _ _ Hinv).
  - destruct (Z.eq_dec size 0); [now left|right].
    destruct Hshape as [_ [[-> _] | (k0 & Hk0 & -> & _)]]; [lia|].
    pose proof (pow2_ge_64 k0 Hk0). lia.
  - unfold newSize. destruct (Z.eqb_spec size 0); lia.
  - rewrite Hgrow in Hgrow'. injection Hgrow' as <-.
    rewrite Hlen', Ev. destruct Hshape as [-> [[E _] | (k & Hk & E & _)]].
    + unfold newSize. rewrite E. cbn. lia.
    + pose proof (pow2_ge_64 k Hk). unfold newSize. rewrite E.
      rewrite (proj2 (Z.eqb_neq _ _)) by lia.
      replace (2 ^ k * 2) with (2 ^ (k + 1)) by (rewrite Z.pow_add_r; lia).
      rewrite !Z.log2_pow2 by lia. lia.
Qed.

(** An insertion into a table with room for one more key. *)
Lemma insertHashEntry_load n root s key d :
  struct_inv root s -> load_inv n s -> Z.of_nat n < 2 ^ 31 ->
  m_used s < Z.of_nat n ->
  exists s1 r,
    insertHashEntry s key d = Some (s1, r)
    /\ load_inv n s1 /\ 1 <= m_used s1 <= m_used s + 1
    /\ m_version s1 - Z.log2 (Z.of_nat (length (m_hashMap s1)))
       <= m_version s - Z.log2 (Z.of_nat (length (m_hashMap s))).
Proof.
  intros Hinv Hload Hn Hroom.
  destruct (growHashMapBeforeInsert_safe n root s Hinv Hload ltac:(lia))
    as (s0 & k & Hgrow & Hk & Hlen & Hmask & Eu & Hlive & Hld & Hsz).
  pose proof (growHashMapBeforeInsert_version n root s s0 Hinv Hload Hn Hgrow)
    as Hver.
  destruct Hload as (_ & _ & Hused & _).
  unfold insertHashEntry. rewrite Hgrow. cbn [mbind option_bind].
  pose proof (pow2_ge_64 k ltac:(lia)) as Hpow.
  destruct (live_count_vacancy (m_version s0) (m_hashMap s0) ltac:(lia))
    as (t & e & Ht & He & Hv).
  pose proof (computeIndex_mask s0 k key ltac:(lia) Hmask) as Hidx.
  destruct (reach_round k (computeIndex s0 key) t) as (dist & Hd & Et);
    [lia | lia |].
  destruct (probe_total s0 k key dist (length (m_hashMap s0))
              (computeIndex s0 key) e) as [[found index] Hprobe];
    try assumption; try lia.
  { rewrite <- Et. exact He. }
  rewrite Hprobe. cbn [mbind option_bind].
  destruct (probe_spec (length (m_hashMap s0)) s0 key (computeIndex s0 key)
              found index ltac:(lia) Hprobe) as (Hi & e0 & He0 & Hfound).
  assert (Hshape0 : table_shape s0 (2 ^ k)).
  { split; [exact Hlen|]. right. exists k. repeat split; [lia|exact Hmask]. }
  destruct found.
  - destruct Hfound as [Hlive0 _].
    pose proof (live_count_pos _ _ _ _ He0 Hlive0).
    exists s0, (Some index). split; [reflexivity|].
    split; [|split; [lia|exact Hver]].
    exists (2 ^ k). split; [exact Hshape0|]. repeat split; lia.
  - rewrite He0. cbn [mbind option_bind].
    eexists _, None. split; [reflexivity|]. cbn [m_used m_version m_hashMap].
    rewrite u64_small by lia. rewrite length_insert.
    split; [|split; [lia|exact Hver]].
    exists (2 ^ k). cbn [m_used m_version m_hashMap].
    pose proof (omap_insert_length (live_strip (m_version s0)) (m_hashMap s0)
                  (Z.to_nat index) (mkHashEntry (m_version s0) key d NoEntry)
                  e0 He0) as Hcount.
    fold (live_bit (m_version s0) e0) in Hcount.
    fold (live_bit (m_version s0) (mkHashEntry (m_version s0) key d NoEntry))
      in Hcount.
    rewrite (live_bit_dead _ e0 Hfound), (live_bit_live _ (mkHashEntry _ _ _ _))
      in Hcount by reflexivity.
    split.
    { split; cbn [m_hashMap m_indexMask]; [rewrite length_insert; exact Hlen|].
      right. exists k. repeat split; [lia|exact Hmask]. }
    unfold live_count in *. repeat split; lia.
Qed.

Lemma insertHashEntry_safe n root s key d :
  struct_inv root s -> load_inv n s -> Z.of_nat (S n) < 2 ^ 31 ->
  exists s1 r,
    insertHashEntry s key d = Some (s1, r)
    /\ load_inv (S n) s1 /\ 1 <= m_used s1.
Proof.
  intros Hinv Hload Hn.
  assert (Hused : m_used s < Z.of_nat (S n))
    by (destruct Hload as (_ & _ & Hused & _); lia).
  destruct (insertHashEntry_load (S n) root s key d Hinv
              (load_inv_weaken n (S n) s ltac:(lia) Hload) Hn Hused)
    as (s1 & r & Hins & Hload1 & Hused1 & _).
  exists s1, r. split; [exact Hins|]. split; [exact Hload1|lia].
Qed.
End SafeSteps.

Section SafeRun.
Context {T : Type} `{BarrierSlice T}.
Import SubresourceSet.
Implicit Types (s : SubresourceSet.t T) (hm : list (HashEntry T))
  (e : HashEntry T).

(** The load of the table only depends on the stamps of its slots. *)
Lemma load_inv_frame n s s' :
  load_inv n s ->
  m_version s' = m_version s -> m_used s' = m_used s ->
  m_indexMask s' = m_indexMask s ->
  length (m_hashMap s') = length (m_hashMap s) ->
  (forall i e e', m_hashMap s !! i = Some e -> m_hashMap s' !! i = Some e' ->
                  he_version e' = he_version e) ->
  load_inv n s'.
Proof.
  intros (size & [Hlen Hshape] & Hused & Hlive & Hload & Hsize) Ev Eu Em El Hvers.
  exists size. rewrite Ev, Eu, (live_count_versions _ _ _ El Hvers).
  split; [|auto]. split; [now rewrite El|]. now rewrite Em.
Qed.

(** An insertion into a table with room for one more key, a version
    stamp and a list that can grow: it ends, and what it changes is
    bounded. *)
Lemma insert_load n root s k x :
  struct_inv root s -> load_inv n s -> Z.of_nat n < 2 ^ 31 ->
  m_used s < Z.of_nat n ->
  m_version s + 1 < 2 ^ 64 - 1 ->
  Z.of_nat (length (m_list s)) + 2 < NoEntry ->
  exists s',
    insert s k x = Some s'
    /\ (exists root', struct_inv root' s')
    /\ load_inv n s'
    /\ 1 <= m_used s' <= m_used s + 1
    /\ m_version s <= m_version s' <= m_version s + 1
    /\ (length (m_list s') <= length (m_list s) + 2)%nat
    /\ m_version s' - Z.log2 (Z.of_nat (length (m_hashMap s')))
       <= m_version s - Z.log2 (Z.of_nat (length (m_hashMap s))).
Proof.
  intros Hinv Hload Hn Hroom Hver Hlist.
  destruct (insertHashEntry_load n root s k x Hinv Hload Hn Hroom)
    as (s1 & r & Hins & Hload1 & Hused1 & Hlog1).
  destruct (insertHashEntry_inv root s k x s1 r Hinv Hver Hins)
    as (Hinv1 & El & Ev & Hr).
  unfold insert. rewrite Hins. cbn [mbind option_bind].
  destruct r as [h|].
  - destruct Hr as (Hh & (e & He & Hlive & Hkey) & _).
    destruct (chain_exists root (m_list s1) (he_next e) (si_list _ _ Hinv1)
                (si_next _ _ Hinv1 (Z.to_nat h) e He Hlive)) as [c Hc].
    destruct (insertPresent_spec root s1 h e c x Hinv1) as
      (s2 & root2 & Hpres & Hinv2 & Hpost); try assumption.
    { rewrite El. exact Hlist. }
    exists s2. split; [exact Hpres|].
    destruct Hpost as [Hv2 Hu2 Hm2 Hsz2 Hl2
                         (e2 & c2 & He2 & Hev2 & _) Ho2 _].
    split; [eauto|]. split.
    { apply (load_inv_frame n s1 s2 Hload1 Hv2 Hu2 Hm2 Hsz2).
      intros i e1 e1' Hi1 Hi2.
      destruct (decide (i = Z.to_nat h)) as [->|Hne].
      + unfold at_ in He, He2. rewrite Hi1 in He. rewrite Hi2 in He2.
        injection He as ->. injection He2 as ->. exact Hev2.
      + specialize (Ho2 (Z.of_nat i) ltac:(lia) ltac:(lia)).
        unfold at_ in Ho2. rewrite Nat2Z.id, Hi1, Hi2 in Ho2.
        now injection Ho2 as ->. }
    rewrite Hv2, Hu2, Hsz2. rewrite El in Hl2. repeat split; lia.
  - exists s1. split; [reflexivity|]. split; [eauto|]. split; [exact Hload1|].
    rewrite El. repeat split; lia.
Qed.

Lemma safe_inv_insert n s k x :
  safe_inv n s -> Z.of_nat (S n) < 2 ^ 31 ->
  exists s', insert s k x = Some s' /\ safe_inv (S n) s' /\ 1 <= m_used s'.
Proof.
  intros ([root Hinv] & Hver & Hlist & Hload) Hn.
  assert (Hused : m_used s < Z.of_nat (S n))
    by (destruct Hload as (_ & _ & Hused & _); lia).
  destruct (insert_load (S n) root s k x Hinv
              (load_inv_weaken n (S n) s ltac:(lia) Hload) Hn Hused)
    as (s' & Hins & Hinv' & Hload' & Hused' & Hver' & Hlist' & _);
    [lia | rewrite NoEntry_eq; lia |].
  exists s'. split; [exact Hins|]. split; [|lia].
  split; [exact Hinv'|]. split; [lia|]. split; [lia|exact Hload'].
Qed.

Lemma live_count_clear v hm :
  (forall i e, hm !! i = Some e -> 0 <= he_version e <= v) ->
  live_count (v + 1) hm = 0%nat.
Proof.
  intros Hvers. unfold live_count. rewrite omap_nil_all; [reflexivity|].
  intros e He. apply list_elem_of_lookup_1 in He as [i Hi].
  specialize (Hvers i e Hi). unfold live_strip.
  rewrite (proj2 (Z.eqb_neq _ _)) by lia. reflexivity.
Qed.

Lemma safe_inv_clear n s :
  safe_inv n s -> Z.of_nat (S n) < 2 ^ 31 -> safe_inv (S n) (clear s).
Proof.
  intros ([root Hinv] & Hver & Hlist & Hload) Hn.
  pose proof (si_version _ _ Hinv) as Hv.
  split; [exists root; apply struct_inv_clear; [assumption|lia]|].
  unfold clear. cbn [m_version m_list m_used m_hashMap m_indexMask].
  rewrite u64_small by lia. split; [lia|]. split; [cbn; lia|].
  destruct Hload as (size & Hshape & Hused & Hlive & Hld & Hsz).
  exists size. cbn [m_version m_list m_used m_hashMap m_indexMask].
  rewrite ?u64_small by lia.
  rewrite (live_count_clear _ _ (si_versions _ _ Hinv)).
  assert (0 <= size) by (destruct Hshape as [<- _]; lia).
  split; [exact Hshape|]. repeat split; lia.
Qed.

(** The search of the table ends, with a live entry of the key or
    with none. *)
Lemma findHashEntry_load n root s k :
  struct_inv root s -> load_inv n s -> Z.of_nat n < 2 ^ 31 ->
  exists r,
    findHashEntry s k = Some r
    /\ match r with
       | None => True
       | Some h =>
           0 <= h
           /\ exists e, at_ (m_hashMap s) h = Some e
                        /\ he_version e = m_version s /\ he_key e = k
       end.
Proof.
  intros Hinv (size & [Hlen Hshape] & Hused & Hlive & Hld & Hsz) Hn.
  unfold findHashEntry.
  destruct (Z.eqb_spec (m_used s) 0) as [E0|Hne]; [exists None; auto|].
  destruct Hshape as [[-> _] | (kk & Hk & -> & Hmask)]; [lia|].
  pose proof (pow2_ge_64 kk Hk) as Hpow.
  assert (Hk' : kk < 40) by (apply pow2_lt_inv; lia).
  destruct (live_count_vacancy (m_version s) (m_hashMap s) ltac:(lia))
    as (t & e & Ht & He & Hv).
  pose proof (computeIndex_mask s kk k ltac:(lia) Hmask) as Hidx.
  destruct (reach_round kk (computeIndex s k) t) as (dist & Hd & Et);
    [lia | lia |].
  destruct (probe_total s kk k dist (length (m_hashMap s))
              (computeIndex s k) e) as [[found index] Hprobe];
    try assumption; try lia.
  { rewrite <- Et. exact He. }
  rewrite Hprobe. cbn [mbind option_bind].
  destruct (probe_spec (length (m_hashMap s)) s k (computeIndex s k)
              found index ltac:(lia) Hprobe) as (Hi & e0 & He0 & Hfound).
  destruct found; [|exists None; auto].
  exists (Some index). split; [reflexivity|]. split; [exact Hi|].
  exists e0. tauto.
Qed.

(** The queries on an entry that was found. *)
Lemma getAccess_found root s k q h e c :
  struct_inv root s ->
  findHashEntry s k = Some (Some h) ->
  at_ (m_hashMap s) h = Some e -> chain (m_list s) (he_next e) c ->
  getAccess s k q = Some (entry_getAccess (he_data e) c.*2 q).
Proof.
  intros Hinv Hfind He Hc. unfold getAccess. rewrite Hfind.
  cbn [mbind option_bind]. rewrite He. cbn [mbind option_bind].
  unfold entry_getAccess.
  destruct (slice_overlaps (he_data e) q); cbn [negb]; [|reflexivity].
  inversion Hc as [n Hn|n e1 c1 Hn He1 Hc1]; subst.
  - unfold getListEntry. now rewrite (proj2 (Z.ltb_ge _ _) Hn).
  - unfold getListEntry. rewrite (proj2 (Z.ltb_lt _ _)) by lia.
    pose proof (accessLoop_chain (m_list s) (he_next e) _ (length (m_list s))
                  Flags.empty (slice_getAccess (he_data e)) q Hc
                  (chain_length _ _ _ _ (si_list _ _ Hinv) Hc)) as Hloop.
    unfold getListEntry in Hloop.
    rewrite (proj2 (Z.ltb_lt _ _)) in Hloop by lia.
    rewrite Hloop. reflexivity.
Qed.

Lemma isDirty_found root s k q h e c :
  struct_inv root s ->
  findHashEntry s k = Some (Some h) ->
  at_ (m_hashMap s) h = Some e -> chain (m_list s) (he_next e) c ->
  isDirty s k q = Some (entry_isDirty (he_data e) c.*2 q).
Proof.
  intros Hinv Hfind He Hc. unfold isDirty. rewrite Hfind.
  cbn [mbind option_bind]. rewrite He. cbn [mbind option_bind].
  unfold entry_isDirty.
  destruct (slice_isDirty (he_data e) q); cbn [negb]; [|reflexivity].
  inversion Hc as [n Hn|n e1 c1 Hn He1 Hc1]; subst.
  - unfold getListEntry. now rewrite (proj2 (Z.ltb_ge _ _) Hn).
  - unfold getListEntry. rewrite (proj2 (Z.ltb_lt _ _)) by lia.
    pose proof (dirtyLoop_chain (m_list s) (he_next e) _ (length (m_list s))
                  false q Hc
                  (chain_length _ _ _ _ (si_list _ _ Hinv) Hc)) as Hloop.
    unfold getListEntry in Hloop.
    rewrite (proj2 (Z.ltb_lt _ _)) in Hloop by lia.
    rewrite Hloop. reflexivity.
Qed.

(** What the queries return in a state that is reached: the answer of
    the entry found for the key, or nothing. *)
Lemma queries_load n root s k :
  struct_inv root s -> load_inv n s -> Z.of_nat n < 2 ^ 31 ->
  (findHashEntry s k = Some None
   /\ forall q, getAccess s k q = Some Flags.empty
                /\ isDirty s k q = Some false)
  \/ exists h e c,
       findHashEntry s k = Some (Some h)
       /\ m_hashMap s !! Z.to_nat h = Some e
       /\ he_version e = m_version s /\ he_key e = k
       /\ chain (m_list s) (he_next e) c
       /\ forall q, getAccess s k q = Some (entry_getAccess (he_data e) c.*2 q)
                    /\ isDirty s k q = Some (entry_isDirty (he_data e) c.*2 q).
Proof.
  intros Hinv Hload Hn.
  destruct (findHashEntry_load n root s k Hinv Hload Hn) as ([h|] & Hfind & Hr).
  - right. destruct Hr as (Hh & e & He & Hlive & Hkey).
    destruct (chain_exists root (m_list s) (he_next e) (si_list _ _ Hinv)
                (si_next _ _ Hinv (Z.to_nat h) e He Hlive)) as [c Hc].
    exists h, e, c. repeat split; try assumption.
    + eapply getAccess_found; eassumption.
    + eapply isDirty_found; eassumption.
  - left. split; [exact Hfind|]. intros q.
    unfold getAccess, isDirty. rewrite Hfind. auto.
Qed.

Lemma queries_safe n s k :
  safe_inv n s -> Z.of_nat n < 2 ^ 31 ->
  (findHashEntry s k = Some None
   /\ forall q, getAccess s k q = Some Flags.empty
                /\ isDirty s k q = Some false)
  \/ exists h e c,
       findHashEntry s k = Some (Some h)
       /\ m_hashMap s !! Z.to_nat h = Some e
       /\ he_version e = m_version s /\ he_key e = k
       /\ chain (m_list s) (he_next e) c
       /\ forall q, getAccess s k q = Some (entry_getAccess (he_data e) c.*2 q)
                    /\ isDirty s k q = Some (entry_isDirty (he_data e) c.*2 q).
Proof.
  intros ([root Hinv] & _ & _ & Hload). now apply (queries_load n root).
Qed.

Lemma safe_inv_weaken n s : safe_inv n s -> safe_inv (S n) s.
Proof.
  intros (Hr & Hv & Hl & (size & Hshape & Hused & Hlive & Hld & Hsz)).
  split; [exact Hr|]. split; [lia|]. split; [lia|].
  exists size. split; [exact Hshape|]. repeat split; lia.
Qed.

Lemma safe_inv_step n s c :
  safe_inv n s -> Z.of_nat (S n) < 2 ^ 31 ->
  exists s',
    step s c = Some s' /\ safe_inv (S n) s'
    /\ match c with
       | Insert _ _ => 1 <= m_used s'
       | Clear => m_used s' = 0
       | _ => s' = s
       end.
Proof.
  intros Hsafe Hn. destruct c as [k x|k q|k q|]; cbn [step].
  - now apply safe_inv_insert.
  - exists s.
    destruct (queries_safe n s k Hsafe ltac:(lia)) as [[_ Hq]|(h & e & c & _ & _ & _ & _ & _ & Hq)];
      destruct (Hq q) as [-> _]; auto using safe_inv_weaken.
  - exists s.
    destruct (queries_safe n s k Hsafe ltac:(lia)) as [[_ Hq]|(h & e & c & _ & _ & _ & _ & _ & Hq)];
      destruct (Hq q) as [_ ->]; auto using safe_inv_weaken.
  - exists (clear s). split; [reflexivity|].
    split; [now apply safe_inv_clear | reflexivity].
Qed.

Lemma safe_inv_init : safe_inv 0 (init (T := T)).
Proof.
  split; [eexists; apply struct_inv_init|]. cbn. split; [lia|]. split; [lia|].
  exists 0. cbn. repeat split; try lia. left. auto.
Qed.

Lemma since_clear_snoc (calls : list (call T)) c :
  since_clear (calls ++ [c]) = since_step (since_clear calls) c.
Proof. unfold since_clear. now rewrite fold_left_app. Qed.

(** Every sequence of calls runs to its end, and the count of used
    slots is zero exactly when nothing was inserted since the last
    [clear]. *)
Lemma safe_inv_run calls : forall n done s,
  Z.of_nat (n + length calls) < 2 ^ 31 ->
  safe_inv n s ->
  (m_used s = 0 <-> since_clear done = []) ->
  exists s',
    run s calls = Some s'
    /\ safe_inv (n + length calls) s'
    /\ (m_used s' = 0 <-> since_clear (done ++ calls) = []).
Proof.
  induction calls as [|c calls IH]; intros n done s Hn Hsafe Hused; cbn [run].
  - exists s. rewrite Nat.add_0_r, app_nil_r. auto.
  - cbn [length] in Hn.
    destruct (safe_inv_step n s c Hsafe ltac:(lia)) as (s1 & Hstep & Hsafe1 & Hc).
    rewrite Hstep. cbn [mbind option_bind].
    destruct (IH (S n) (done ++ [c]) s1 ltac:(lia) Hsafe1) as (s' & Hrun & Hsafe' & Hused').
    { rewrite since_clear_snoc. destruct c as [k x|k q|k q|]; cbn [since_step].
      - split; [lia|]. intros E. now apply app_nil in E as [_ E].
      - now subst s1.
      - now subst s1.
      - tauto. }
    exists s'. split; [exact Hrun|]. split.
    + cbn [length]. replace (n + S (length calls))%nat
        with (S n + length calls)%nat by lia. exact Hsafe'.
    + rewrite <- app_assoc in Hused'. exact Hused'.
Qed.
End SafeRun.

(** ** The subresource set: what the entries answer for *)

Section ProbeAgain.
Context {T : Type} `{BarrierSlice T}.
Import SubresourceSet.
Implicit Types (s : SubresourceSet.t T) (e : HashEntry T).

(** Probing only reads the stamps and the keys. *)
Lemma probe_ext s s' key :
  m_version s' = m_version s -> m_indexMask s' = m_indexMask s ->
  (forall i, 0 <= i ->
     (fun e => (he_version e, he_key e)) <$> at_ (m_hashMap s') i
     = (fun e => (he_version e, he_key e)) <$> at_ (m_hashMap s) i) ->
  forall fuel index, 0 <= index ->
    probe fuel s' key index = probe fuel s key index.
Proof.
  intros Ev Em Hsk. induction fuel as [|fuel IH]; intros index Hi; [reflexivity|].
  cbn [probe]. specialize (Hsk index Hi).
  destruct (at_ (m_hashMap s') index) as [e'|], (at_ (m_hashMap s) index) as [e|];
    cbn in Hsk; try discriminate; [|reflexivity].
  injection Hsk as Hv Hk. cbn [mbind option_bind]. rewrite Hv, Hk, Ev.
  destruct (he_version e =? m_version s); [|reflexivity].
  destruct (he_key e =? key); [reflexivity|].
  unfold advanceIndex. rewrite Em. apply IH.
  apply Z.land_nonneg. left. unfold u64. apply Z.mod_pos_bound. lia.
Qed.

(** Probing for a key stops at the slot where its entry was made. *)
Lemma probe_made s key d used j e0 : forall fuel index,
  0 <= index -> 0 <= j ->
  at_ (m_hashMap s) j = Some e0 ->
  probe fuel s key index = Some (false, j) ->
  probe fuel
    (mk (m_version s) used (m_indexMask s) (m_list s)
        (<[Z.to_nat j := mkHashEntry (m_version s) key d NoEntry]> (m_hashMap s)))
    key index = Some (true, j).
Proof.
  induction fuel as [|fuel IH]; intros index Hi Hj He0; [discriminate|].
  cbn [probe m_hashMap m_version].
  destruct (Z.eq_dec index j) as [->|Hne].
  - rewrite (at_insert_eq _ _ _ _ He0). cbn [mbind option_bind he_version he_key].
    rewrite !Z.eqb_refl. reflexivity.
  - rewrite at_insert_ne by lia.
    destruct (at_ (m_hashMap s) index) as [e|]; cbn [mbind option_bind]; [|discriminate].
    destruct (he_version e =? m_version s); [|intros [= ?]; lia].
    destruct (he_key e =? key); [discriminate|].
    intros Hp. apply (IH _ (advanceIndex_nonneg s index) Hj He0) in Hp.
    exact Hp.
Qed.
End ProbeAgain.

Section EntryInvSteps.
Context {T : Type} `{BarrierSliceLaws T}.
Import SubresourceSet.
Implicit Types (s : SubresourceSet.t T) (e : HashEntry T)
  (ops : list (Z * T)).

Variables dom ok : T -> Prop.
Hypothesis dom_merge : forall a b, dom a -> dom b -> dom (slice_merge a b).
Hypothesis merging_exact : merge_exact dom ok.

Lemma history_snoc_sublist ops p k :
  sublist (history ops k) (history (ops ++ [p]) k).
Proof.
  unfold history. rewrite filter_app, map_app. apply sublist_inserts_r.
  reflexivity.
Qed.

Lemma entry_inv_from ops s s1 :
  m_list s1 = m_list s ->
  (forall i e', m_hashMap s1 !! i = Some e' -> he_version e' = m_version s1 ->
     exists i0 e0, m_hashMap s !! i0 = Some e0
                   /\ he_version e0 = m_version s /\ strip e0 = strip e') ->
  entry_inv dom ok ops s -> entry_inv dom ok ops s1.
Proof.
  intros El Hfrom Hinv i e' Hi Hlive.
  destruct (Hfrom i e' Hi Hlive) as (i0 & e0 & Hi0 & Hv0 & Hs).
  destruct (Hinv i0 e0 Hi0 Hv0) as (hist & c & Hc & Hne & Hsub & Hsound & Hexact).
  injection Hs as <- <- <-. rewrite El. eauto 10.
Qed.

Lemma entry_inv_clear ops root s :
  struct_inv root s -> m_version s + 1 < 2 ^ 64 ->
  entry_inv dom ok ops (clear s).
Proof.
  intros Hinv Hv i e Hi Hlive. cbn in Hi, Hlive.
  pose proof (si_version _ _ Hinv).
  rewrite u64_small in Hlive by lia.
  pose proof (si_versions _ _ Hinv i e Hi). lia.
Qed.

Lemma insertHashEntry_probe s key d s1 r :
  insertHashEntry s key d = Some (s1, r) ->
  exists h,
    0 <= h
    /\ probe (length (m_hashMap s1)) s1 key (computeIndex s1 key) = Some (true, h)
    /\ match r with
       | Some h' => h' = h
       | None => at_ (m_hashMap s1) h
                 = Some (mkHashEntry (m_version s1) key d NoEntry)
       end.
Proof.
  unfold insertHashEntry.
  destruct (growHashMapBeforeInsert s) as [s0|]; cbn [mbind option_bind]; [|done].
  destruct (probe _ s0 key _) as [[found index]|] eqn:Hprobe;
    cbn [mbind option_bind]; [|done].
  destruct (probe_spec _ _ _ _ _ _ (computeIndex_nonneg s0 key) Hprobe)
    as (Hi & e0 & He0 & _).
  destruct found.
  - intros [= <- <-]. exists index. auto.
  - rewrite He0. cbn [mbind option_bind]. intros [= <- <-].
    exists index. split; [exact Hi|]. cbn [m_hashMap m_version]. split.
    + rewrite length_insert.
      apply (probe_made s0 key d _ index e0 _ _ (computeIndex_nonneg s0 key)
               Hi He0 Hprobe).
    + eapply at_insert_eq, He0.
Qed.

Lemma findHashEntry_of_probe s key h :
  m_used s <> 0 ->
  probe (length (m_hashMap s)) s key (computeIndex s key) = Some (true, h) ->
  findHashEntry s key = Some (Some h).
Proof.
  intros Hu Hp. unfold findHashEntry.
  rewrite (proj2 (Z.eqb_neq _ _) Hu), Hp. reflexivity.
Qed.

(** What an insertion leads to: the entries answer for the slices
    inserted, and the entry found for the key answers for the slice
    just inserted. *)
Lemma entry_inv_insert n ops s k x :
  safe_inv n s -> Z.of_nat (S n) < 2 ^ 31 ->
  entry_inv dom ok ops s -> dom x ->
  exists s',
    insert s k x = Some s' /\ safe_inv (S n) s' /\ 1 <= m_used s'
    /\ entry_inv dom ok (ops ++ [(k, x)]) s'
    /\ exists h e hist c,
         findHashEntry s' k = Some (Some h)
         /\ at_ (m_hashMap s') h = Some e
         /\ chain (m_list s') (he_next e) c
         /\ entry_sound (hist ++ [x]) (he_data e) c.*2.
Proof.
  intros Hsafe Hn Hent Hx.
  destruct (safe_inv_insert n s k x Hsafe Hn) as (s' & Hins & Hsafe' & Hused').
  exists s'. split; [exact Hins|]. split; [exact Hsafe'|]. split; [exact Hused'|].
  destruct Hsafe as ([root Hinv] & Hver & Hlist & _).
  unfold insert in Hins.
  destruct (insertHashEntry s k x) as [[s1 r]|] eqn:Hhash;
    cbn [mbind option_bind] in Hins; [|done].
  destruct (insertHashEntry_inv root s k x s1 r Hinv ltac:(lia) Hhash)
    as (Hinv1 & El & Ev & Hr).
  destruct (insertHashEntry_probe s k x s1 r Hhash) as (h & Hh & Hprobe & Hrh).
  destruct r as [h'|].
  - subst h'. destruct Hr as (_ & (e & He & Hlive & Hkey) & Hfrom).
    pose proof (entry_inv_from ops s s1 El Hfrom Hent) as Hent1.
    destruct (Hent1 (Z.to_nat h) e He Hlive)
      as (hist & c & Hc & Hne & Hsub & Hsound & Hexact).
    destruct (insertPresent_spec root s1 h e c x Hinv1) as
      (s2 & root2 & Hpres & Hinv2 & Hpost); try assumption.
    { rewrite El, NoEntry_eq. lia. }
    rewrite Hpres in Hins. injection Hins as <-.
    destruct Hpost as [Hv2 Hu2 Hm2 Hsz2 Hl2
                         (e2 & c2 & He2 & Hev2 & Hek2 & Hed2 & Hc2 & Hcd2) Ho2 Hch2].
    split.
    + intros i ei Hi Hlivei.
      destruct (decide (i = Z.to_nat h)) as [->|Hneq].
      * unfold at_ in He2. rewrite Hi in He2. injection He2 as ->.
        exists (hist ++ [x]), c2. split; [exact Hc2|].
        split; [now destruct hist|].
        rewrite Hek2, Hkey, history_snoc_same, Hed2, Hcd2.
        split; [apply sublist_app; [now rewrite <- Hkey | reflexivity]|].
        split; [now apply entry_sound_step|].
        now apply entry_exact_step.
      * assert (Hi1 : m_hashMap s1 !! i = Some ei).
        { specialize (Ho2 (Z.of_nat i) ltac:(lia) ltac:(lia)).
          unfold at_ in Ho2. rewrite Nat2Z.id in Ho2. congruence. }
        destruct (Hent1 i ei Hi1 ltac:(congruence))
          as (histi & ci & Hci & Hnei & Hsubi & Hsoundi & Hexacti).
        exists histi, ci. split.
        { apply (Hch2 (Z.of_nat i) ei ci);
            [lia | lia | unfold at_; rewrite Nat2Z.id; exact Hi1
            | congruence | exact Hci]. }
        split; [exact Hnei|].
        split; [etransitivity; [exact Hsubi|apply history_snoc_sublist]|].
        auto.
    + exists h, e2, hist, c2.
      split.
      { apply findHashEntry_of_probe; [lia|].
        assert (Ei : computeIndex s2 k = computeIndex s1 k)
          by (unfold computeIndex; now rewrite Hm2).
        rewrite Hsz2, Ei.
        rewrite (probe_ext s1 s2 k Hv2 Hm2);
          [exact Hprobe| |apply computeIndex_nonneg].
        intros i Hi. destruct (Z.eq_dec i h) as [->|Hneq].
        - rewrite He2, He. cbn. now rewrite Hev2, Hek2.
        - now rewrite Ho2. }
      split; [exact He2|]. split; [exact Hc2|].
      rewrite Hed2, Hcd2. now apply entry_sound_step.
  - injection Hins as <-. split.
    + intros i e' Hi Hlive.
      destruct (Hr i e' Hi Hlive) as [Hnew|(i0 & e0 & Hi0 & Hv0 & Hs0)].
      * injection Hnew as Hk Hd Hnx. exists [x], [].
        rewrite Hnx, Hd, Hk, history_snoc_same.
        split; [constructor; lia|]. split; [done|].
        split; [apply sublist_inserts_l; reflexivity|].
        split; [apply entry_sound_first | now apply entry_exact_first].
      * destruct (Hent i0 e0 Hi0 Hv0)
          as (hist & c & Hc & Hne & Hsub & Hsound & Hexact).
        injection Hs0 as <- <- <-. rewrite El.
        exists hist, c. split; [exact Hc|]. split; [exact Hne|].
        split; [etransitivity; [exact Hsub|apply history_snoc_sublist]|].
        auto.
    + exists h, (mkHashEntry (m_version s1) k x NoEntry), [], [].
      split; [apply findHashEntry_of_probe; [lia|exact Hprobe]|].
      split; [exact Hrh|]. cbn [he_next he_data].
      split; [constructor; lia|]. apply entry_sound_first.
Qed.

(** The entries after a run of calls. *)
Lemma entry_inv_run calls : forall n done s,
  Z.of_nat (n + length calls) < 2 ^ 31 ->
  safe_inv n s -> entry_inv dom ok (since_clear done) s ->
  Forall (call_within dom) calls ->
  exists s',
    run s calls = Some s'
    /\ safe_inv (n + length calls) s'
    /\ entry_inv dom ok (since_clear (done ++ calls)) s'.
Proof.
  induction calls as [|c calls IH]; intros n done s Hn Hsafe Hent Hdom; cbn [run].
  - exists s. rewrite Nat.add_0_r, app_nil_r. auto.
  - cbn [length] in Hn. apply Forall_cons in Hdom as [Hc Hdom].
    assert (Hstep : exists s1, step s c = Some s1 /\ safe_inv (S n) s1
              /\ entry_inv dom ok (since_clear (done ++ [c])) s1).
    { rewrite since_clear_snoc.
      destruct c as [k x|k q|k q|]; cbn [since_step].
      - destruct (entry_inv_insert n (since_clear done) s k x Hsafe ltac:(lia) Hent Hc)
          as (s1 & Hins & Hsafe1 & _ & Hent1 & _).
        eauto.
      - destruct (safe_inv_step n s (GetAccess k q) Hsafe ltac:(lia))
          as (s1 & Hs & Hsafe1 & ->). eauto.
      - destruct (safe_inv_step n s (IsDirty k q) Hsafe ltac:(lia))
          as (s1 & Hs & Hsafe1 & ->). eauto.
      - exists (clear s). split; [reflexivity|].
        split; [apply safe_inv_clear; [assumption|lia]|].
        destruct Hsafe as ([root Hinv] & Hver & _).
        apply (entry_inv_clear [] root); [assumption|lia]. }
    destruct Hstep as (s1 & Hstep & Hsafe1 & Hent1).
    rewrite Hstep. cbn [mbind option_bind].
    destruct (IH (S n) (done ++ [c]) s1 ltac:(lia) Hsafe1 Hent1 Hdom)
      as (s' & Hrun & Hsafe' & Hent').
    exists s'. split; [exact Hrun|]. split.
    + cbn [length].
      replace (n + S (length calls))%nat with (S n + length calls)%nat by lia.
      exact Hsafe'.
    + rewrite <- app_assoc in Hent'. exact Hent'.
Qed.

Lemma entry_inv_init : entry_inv dom ok [] (init (T := T)).
Proof. intros i e Hi. cbn in Hi. now rewrite lookup_nil in Hi. Qed.
End EntryInvSteps.

Section SetRuns.
Context {T : Type} `{BarrierSlice T}.
Import SubresourceSet.
Implicit Types (s : SubresourceSet.t T) (calls : list (call T)).

Lemma run_app s calls calls' :
  run s (calls ++ calls') = s1 ← run s calls; run s1 calls'.
Proof.
  revert s. induction calls as [|c calls IH]; intros s; [reflexivity|].
  cbn [app run]. destruct (step s c); cbn [mbind option_bind]; [apply IH|reflexivity].
Qed.

Lemma calls_return calls :
  Z.of_nat (length calls) < 2 ^ 31 ->
  exists s,
    run init calls = Some s
    /\ safe_inv (length calls) s
    /\ (m_used s = 0 <-> since_clear calls = []).
Proof.
  intros Hn.
  destruct (safe_inv_run calls 0 [] init Hn safe_inv_init) as (s & Hrun & Hsafe & Hu);
    [cbn; tauto|].
  exists s. auto.
Qed.

Lemma queries_return calls :
  Z.of_nat (length calls) < 2 ^ 31 ->
  exists s,
    run init calls = Some s
    /\ forall k q, exists a d, getAccess s k q = Some a /\ isDirty s k q = Some d.
Proof.
  intros Hn. destruct (calls_return calls Hn) as (s & Hrun & Hsafe & _).
  exists s. split; [exact Hrun|]. intros k q.
  destruct (queries_safe _ s k Hsafe Hn)
    as [[_ Hq]|(h & e & c & _ & _ & _ & _ & _ & Hq)];
    destruct (Hq q) as [-> ->]; eauto.
Qed.

Lemma empty_return calls :
  Z.of_nat (length calls) < 2 ^ 31 ->
  exists s,
    run init calls = Some s /\ (empty s = true <-> since_clear calls = []).
Proof.
  intros Hn. destruct (calls_return calls Hn) as (s & Hrun & _ & Hu).
  exists s. split; [exact Hrun|]. unfold empty. now rewrite Z.eqb_eq.
Qed.

Lemma load_return calls :
  Z.of_nat (length calls) < 2 ^ 31 ->
  exists s size,
    run init calls = Some s
    /\ table_shape s size /\ computeSize s = size
    /\ Z.of_nat (live_count (m_version s) (m_hashMap s)) <= m_used s
    /\ 10 * m_used s < 7 * size + 10.
Proof.
  intros Hn. destruct (calls_return calls Hn)
    as (s & Hrun & (_ & _ & _ & (size & Hshape & Hused & Hlive & Hld & Hsz)) & _).
  exists s, size. split; [exact Hrun|]. split; [exact Hshape|].
  split; [apply computeSize_shape; [exact Hshape|lia]|]. auto.
Qed.

Lemma growHashMapBeforeInsert_live root s s' :
  struct_inv root s ->
  growHashMapBeforeInsert s = Some s' ->
  omap (live_strip (m_version s')) (m_hashMap s')
  ⊆+ omap (live_strip (m_version s)) (m_hashMap s).
Proof.
  intros Hinv. unfold growHashMapBeforeInsert.
  destruct (_ >=? _); [|intros [= <-]; reflexivity].
  intros Hgrow.
  destruct (growHashMap_live s _ s' (si_version _ _ Hinv)
              (si_versions _ _ Hinv) Hgrow) as (_ & _ & _ & _ & Hsub).
  exact Hsub.
Qed.

Lemma growth_return calls :
  Z.of_nat (length calls) < 2 ^ 31 ->
  exists s s',
    run init calls = Some s
    /\ growHashMapBeforeInsert s = Some s'
    /\ m_list s' = m_list s /\ m_used s' = m_used s
    /\ omap (live_strip (m_version s')) (m_hashMap s')
       ⊆+ omap (live_strip (m_version s)) (m_hashMap s)
    /\ 64 <= computeSize s'
    /\ 10 * m_used s' < 7 * computeSize s'
    /\ (10 * m_used s < 7 * computeSize s -> s' = s).
Proof.
  intros Hn. destruct (calls_return calls Hn)
    as (s & Hrun & ([root Hinv] & Hver & _ & Hload) & _).
  destruct (growHashMapBeforeInsert_safe _ root s Hinv Hload Hn)
    as (s0 & k & Hgrow & Hk & Hlen & Hmask & Eu & Hlive & Hld & Hsz).
  destruct (growHashMapBeforeInsert_inv root s s0 Hinv ltac:(lia) Hgrow)
    as (_ & El & _ & _ & _).
  exists s, s0. split; [exact Hrun|]. split; [exact Hgrow|].
  split; [exact El|]. split; [exact Eu|].
  split; [eapply growHashMapBeforeInsert_live; eassumption|].
  assert (Hsize : computeSize s0 = 2 ^ k).
  { apply computeSize_shape.
    - split; [exact Hlen|]. right. exists k. repeat split; [lia|exact Hmask].
    - apply Z.pow_lt_mono_r; lia. }
  rewrite Hsize, Eu. pose proof (pow2_ge_64 k ltac:(lia)).
  split; [lia|]. split; [lia|].
  intros Hlt. destruct Hload as (size & Hshape & Hused & _ & _ & Hsz0).
  unfold growHashMapBeforeInsert in Hgrow.
  assert (0 <= size) by (destruct Hshape as [<- _]; lia).
  rewrite (computeSize_shape s size Hshape) in Hgrow, Hlt by lia.
  rewrite !u64_small in Hgrow by lia.
  rewrite Z.geb_leb in Hgrow.
  rewrite (proj2 (Z.leb_gt _ _)) in Hgrow by lia. now injection Hgrow.
Qed.
End SetRuns.

Section SetAnswers.
Context {T : Type} `{BarrierSliceLaws T}.
Import SubresourceSet.
Implicit Types (s : SubresourceSet.t T) (calls : list (call T))
  (d x y q : T) (c hist : list T).

Lemma chain_access_elem hist x q :
  x ∈ hist -> slice_overlaps x q = true ->
  flags_subseteq (slice_getAccess x) (chain_access hist q).
Proof.
  induction hist as [|y hist IH]; intros Hx Hov; [inversion Hx|].
  rewrite chain_access_cons. apply elem_of_cons in Hx as [<-|Hx].
  - rewrite Hov. apply flags_subseteq_lor_r, flags_subseteq_refl.
  - destruct (slice_overlaps y q); [apply flags_subseteq_lor_l|]; now apply IH.
Qed.

Lemma chain_access_nonzero c q :
  chain_access c q <> 0 -> exists y, y ∈ c /\ slice_overlaps y q = true.
Proof.
  induction c as [|y c IH]; [intros Hne; now destruct Hne|].
  rewrite chain_access_cons. destruct (slice_overlaps y q) eqn:Hov.
  - intros _. exists y. split; [left|exact Hov].
  - intros Hne. destruct (IH Hne) as (z & Hz & Hzq).
    exists z. split; [now right|exact Hzq].
Qed.

(** [isDirty] and [getAccess] agree on an entry. *)
Lemma entry_agree hist d c q :
  entry_sound hist d c ->
  (entry_isDirty d c q = true ->
   Flags.test (Z.lor (entry_getAccess d c q) (slice_getAccess q)) Write = true)
  /\ (Flags.test (entry_getAccess d c q) Write = true ->
      entry_isDirty d c q = true)
  /\ (entry_getAccess d c q <> 0 ->
      Flags.test (slice_getAccess q) Write = true ->
      entry_isDirty d c q = true).
Proof.
  intros Hs.
  assert (Hzero : slice_overlaps d q = false -> entry_getAccess d c q = 0).
  { intros Hov. unfold entry_getAccess. now rewrite Hov. }
  assert (Hdirty : forall y, y ∈ nodes d c -> slice_overlaps y q = true ->
            Flags.test (Z.lor (slice_getAccess y) (slice_getAccess q)) Write = true ->
            slice_overlaps d q = true ->
            entry_isDirty d c q = true).
  { intros y Hy Hyq Hw Hdq.
    apply (entry_isDirty_iff hist d c q Hs). split.
    - apply slice_isDirty_iff. split; [exact Hdq|].
      exact (join_prime_mono _ _ _ (join_prime_write (slice_getAccess q))
               (nodes_flags hist d c y Hs Hy) Hw).
    - exists y. split; [exact Hy|]. apply slice_isDirty_iff. auto. }
  split; [|split].
  - intros Hd. apply (entry_isDirty_iff hist d c q Hs) in Hd as (Hdq & y & Hy & Hyq).
    apply slice_isDirty_iff in Hdq as [Hov _].
    apply slice_isDirty_iff in Hyq as [Hyov Hyw].
    rewrite (entry_getAccess_nodes hist d c q Hs Hov).
    exact (join_prime_mono _ _ _ (join_prime_write (slice_getAccess q))
             (chain_access_elem _ _ _ Hy Hyov) Hyw).
  - intros Hw. destruct (slice_overlaps d q) eqn:Hov.
    + rewrite (entry_getAccess_nodes hist d c q Hs Hov) in Hw.
      apply (chain_access_prime _ _ _ (join_prime_testbit (Flags.bit Write))
               (testbit_zero_false _)) in Hw as (y & Hy & Hyq & Hyw).
      apply (Hdirty y Hy Hyq); [|reflexivity].
      rewrite Flags_test_lor. unfold Flags.test. rewrite Hyw. reflexivity.
    + rewrite (Hzero eq_refl) in Hw. unfold Flags.test in Hw.
      now rewrite Z.testbit_0_l in Hw.
  - intros Hne Hw. destruct (slice_overlaps d q) eqn:Hov; [|now rewrite Hzero in Hne].
    rewrite (entry_getAccess_nodes hist d c q Hs Hov) in Hne.
    destruct (chain_access_nonzero _ _ Hne) as (y & Hy & Hyq).
    apply (Hdirty y Hy Hyq); [|reflexivity].
    rewrite Flags_test_lor, Hw. apply orb_true_r.
Qed.

Section Within.
Variables dom ok : T -> Prop.
Hypothesis dom_merge : forall a b, dom a -> dom b -> dom (slice_merge a b).
Hypothesis merging_exact : merge_exact dom ok.

Lemma entries_return calls :
  Z.of_nat (length calls) < 2 ^ 31 ->
  Forall (call_within dom) calls ->
  exists s,
    run init calls = Some s
    /\ safe_inv (length calls) s
    /\ entry_inv dom ok (since_clear calls) s.
Proof.
  intros Hn Hdom.
  apply (entry_inv_run dom ok dom_merge merging_exact calls 0 [] init Hn
           safe_inv_init (entry_inv_init dom ok) Hdom).
Qed.

(** The answers of a state that is reached, for each resource: they
    are the answers for some of the slices inserted for it since the
    last [clear]. *)
Lemma answers_return calls :
  Z.of_nat (length calls) < 2 ^ 31 ->
  Forall (call_within dom) calls ->
  exists s,
    run init calls = Some s
    /\ forall k,
         exists hist,
           sublist hist (history (since_clear calls) k)
           /\ forall q,
                exists a b,
                  getAccess s k q = Some a /\ isDirty s k q = Some b
                  /\ flags_subseteq (chain_access hist q) a
                  /\ flags_subseteq a (hist_access hist)
                  /\ (hist_write hist q = true -> b = true)
                  /\ (b = true ->
                      hist <> []
                      /\ Flags.test (Z.lor (hist_access hist) (slice_getAccess q))
                           Write = true)
                  /\ (ok q -> a = chain_access hist q
                              /\ b = hist_write hist q).
Proof.
  intros Hn Hdom.
  destruct (entries_return calls Hn Hdom) as (s & Hrun & Hsafe & Hent).
  exists s. split; [exact Hrun|]. intros k.
  destruct (queries_safe _ s k Hsafe Hn)
    as [[_ Hq]|(h & e & c & _ & He & Hlive & Hkey & Hc & Hq)].
  - exists []. split; [apply sublist_nil_l|]. intros q.
    destruct (Hq q) as [-> ->]. exists Flags.empty, false.
    cbn. repeat split; try apply flags_subseteq_zero; try discriminate.
  - destruct (Hent _ e He Hlive)
      as (hist & c' & Hc' & Hne & Hsub & Hsound & Hexact).
    rewrite (chain_det _ _ _ _ Hc' Hc) in *. rewrite Hkey in Hsub.
    exists hist. split; [exact Hsub|]. intros q.
    destruct (Hq q) as [-> ->]. eexists _, _.
    split; [reflexivity|]. split; [reflexivity|].
    destruct (entry_getAccess_sound hist (he_data e) c.*2 q Hsound) as [H1 H2].
    split; [exact H1|]. split; [exact H2|].
    split; [now apply entry_isDirty_sound|]. split.
    + intros Hd. split; [exact Hne|].
      apply (entry_isDirty_iff hist _ _ q Hsound) in Hd as [Hd _].
      apply slice_isDirty_iff in Hd as [_ Hw].
      exact (join_prime_mono _ _ _ (join_prime_write (slice_getAccess q))
               (es_flags _ _ _ Hsound) Hw).
    + intros Hok. split.
      * now apply (entry_getAccess_exact dom ok).
      * now apply (entry_isDirty_exact dom ok).
Qed.
End Within.

Lemma merge_exact_never : merge_exact (T := T) (fun _ => True) (fun _ => False).
Proof. intros a b q _ _ []. Qed.

Lemma call_within_True calls : Forall (call_within (fun _ : T => True)) calls.
Proof. apply Forall_forall. intros [] _; exact I. Qed.

(** A slice that was just inserted is seen by the queries. *)
Lemma insert_seen calls k x :
  Z.of_nat (length calls) + 1 < 2 ^ 31 ->
  exists s,
    run init (calls ++ [Insert k x]) = Some s
    /\ forall q,
         slice_overlaps x q = true ->
         exists a b,
           getAccess s k q = Some a /\ isDirty s k q = Some b
           /\ flags_subseteq (slice_getAccess x) a
           /\ (Flags.test (Z.lor (slice_getAccess x) (slice_getAccess q)) Write
               = true -> b = true).
Proof.
  intros Hn.
  destruct (entries_return (fun _ => True) (fun _ => False) (fun _ _ _ _ => I)
              merge_exact_never calls ltac:(lia) (call_within_True calls))
    as (s0 & Hrun0 & Hsafe0 & Hent0).
  destruct (entry_inv_insert (fun _ => True) (fun _ => False) (fun _ _ _ _ => I)
              merge_exact_never _ _ s0 k x Hsafe0 ltac:(lia) Hent0 I)
    as (s & Hins & Hsafe & _ & _ & h & e & hist & c & Hfind & He & Hc & Hsound).
  exists s. split.
  { rewrite run_app, Hrun0. cbn [mbind option_bind run step]. now rewrite Hins. }
  intros q Hov. destruct Hsafe as ([root Hinv] & _).
  rewrite (getAccess_found root s k q h e c Hinv Hfind He Hc).
  rewrite (isDirty_found root s k q h e c Hinv Hfind He Hc).
  eexists _, _. split; [reflexivity|]. split; [reflexivity|].
  assert (Hx : x ∈ hist ++ [x]) by (apply elem_of_app; right; left).
  split.
  - eapply flags_subseteq_trans;
      [|apply (entry_getAccess_sound _ _ _ q Hsound)].
    now apply chain_access_elem.
  - intros Hw. apply (entry_isDirty_sound _ _ _ q Hsound).
    apply hist_write_iff. eauto.
Qed.

Lemma agree_return calls :
  Z.of_nat (length calls) < 2 ^ 31 ->
  exists s,
    run init calls = Some s
    /\ forall k q,
         exists a b,
           getAccess s k q = Some a /\ isDirty s k q = Some b
           /\ (b = true ->
               Flags.test (Z.lor a (slice_getAccess q)) Write = true)
           /\ (Flags.test a Write = true -> b = true)
           /\ (a <> 0 -> Flags.test (slice_getAccess q) Write = true ->
               b = true).
Proof.
  intros Hn.
  destruct (entries_return (fun _ => True) (fun _ => False) (fun _ _ _ _ => I)
              merge_exact_never calls Hn (call_within_True calls))
    as (s & Hrun & Hsafe & Hent).
  exists s. split; [exact Hrun|]. intros k q.
  destruct (queries_safe _ s k Hsafe Hn)
    as [[_ Hq]|(h & e & c & _ & He & Hlive & Hkey & Hc & Hq)];
    destruct (Hq q) as [-> ->]; eexists _, _;
    (split; [reflexivity|]); (split; [reflexivity|]).
  - split; [discriminate|]. split; [|intros Hne; now destruct Hne].
    unfold Flags.test, Flags.empty. rewrite Z.testbit_0_l. discriminate.
  - destruct (Hent _ e He Hlive) as (hist & c' & Hc' & _ & _ & Hsound & _).
    rewrite (chain_det _ _ _ _ Hc' Hc) in *.
    apply (entry_agree hist _ _ q Hsound).
Qed.
End SetAnswers.

(** ** The subresource set in every state that is reached *)

(** X19: no call of the set reads outside a vector or runs for ever.
    From a fresh set, every sequence of fewer than [2^31] calls of
    [insert], [getAccess], [isDirty] and [clear] runs to its end,
    whatever the resources and the slices, and in the state it reaches
    [getAccess] and [isDirty] return for every resource and slice. *)
Theorem set_calls_return :
  (forall calls : list (SubresourceSet.call BufferSlice.t),
      Z.of_nat (length calls) < 2 ^ 31 ->
      exists s,
        SubresourceSet.run SubresourceSet.init calls = Some s
        /\ forall k q, exists a d,
             SubresourceSet.getAccess s k q = Some a
             /\ SubresourceSet.isDirty s k q = Some d)
  /\ (forall calls : list (SubresourceSet.call ImageSlice.t),
      Z.of_nat (length calls) < 2 ^ 31 ->
      exists s,
        SubresourceSet.run SubresourceSet.init calls = Some s
        /\ forall k q, exists a d,
             SubresourceSet.getAccess s k q = Some a
             /\ SubresourceSet.isDirty s k q = Some d).
Proof. split; intros calls; apply queries_return. Qed.

Lemma set_calls_return_witness :
  exists s,
    SubresourceSet.run SubresourceSet.init sample_calls = Some s
    /\ forall k q, exists a d,
         SubresourceSet.getAccess s k q = Some a
         /\ SubresourceSet.isDirty s k q = Some d.
Proof. apply (proj1 set_calls_return sample_calls). vm_compute. reflexivity. Defined.

(** X20: [empty()] tells whether anything is in the set.  After fewer
    than [2^31] calls on a fresh set it returns true iff no slice was
    inserted since the last [clear] (or since the start). *)
Theorem empty_iff_nothing_inserted :
  (forall calls : list (SubresourceSet.call BufferSlice.t),
      Z.of_nat (length calls) < 2 ^ 31 ->
      exists s,
        SubresourceSet.run SubresourceSet.init calls = Some s
        /\ (SubresourceSet.empty s = true <-> since_clear calls = []))
  /\ (forall calls : list (SubresourceSet.call ImageSlice.t),
      Z.of_nat (length calls) < 2 ^ 31 ->
      exists s,
        SubresourceSet.run SubresourceSet.init calls = Some s
        /\ (SubresourceSet.empty s = true <-> since_clear calls = [])).
Proof. split; intros calls; apply empty_return. Qed.

Lemma empty_iff_nothing_inserted_witness :
  exists s,
    SubresourceSet.run SubresourceSet.init sample_calls = Some s
    /\ (SubresourceSet.empty s = true <-> since_clear sample_calls = []).
Proof.
  apply (proj1 empty_iff_nothing_inserted sample_calls). vm_compute. reflexivity.
Defined.

(** X21: the load of the hash table.  In every state reached by fewer
    than [2^31] calls the table has no slot yet or a power of two of at
    least 64 slots, with the index mask of that size; the number of live
    entries is at most [m_used], and [10 * m_used < 7 * size + 10]: at
    least three slots in ten are vacant. *)
Theorem table_load_bounded :
  (forall calls : list (SubresourceSet.call BufferSlice.t),
      Z.of_nat (length calls) < 2 ^ 31 ->
      exists s size,
        SubresourceSet.run SubresourceSet.init calls = Some s
        /\ table_shape s size /\ SubresourceSet.computeSize s = size
        /\ Z.of_nat (live_count (SubresourceSet.m_version s)
                       (SubresourceSet.m_hashMap s))
           <= SubresourceSet.m_used s
        /\ 10 * SubresourceSet.m_used s < 7 * size + 10)
  /\ (forall calls : list (SubresourceSet.call ImageSlice.t),
      Z.of_nat (length calls) < 2 ^ 31 ->
      exists s size,
        SubresourceSet.run SubresourceSet.init calls = Some s
        /\ table_shape s size /\ SubresourceSet.computeSize s = size
        /\ Z.of_nat (live_count (SubresourceSet.m_version s)
                       (SubresourceSet.m_hashMap s))
           <= SubresourceSet.m_used s
        /\ 10 * SubresourceSet.m_used s < 7 * size + 10).
Proof. split; intros calls; apply load_return. Qed.

Lemma table_load_bounded_witness :
  exists s size,
    SubresourceSet.run SubresourceSet.init (map (fun p => SubresourceSet.Insert p.1 p.2)
                                              (sample_buffers 46 2)) = Some s
    /\ table_shape s size /\ SubresourceSet.computeSize s = size
    /\ Z.of_nat (live_count (SubresourceSet.m_version s)
                   (SubresourceSet.m_hashMap s))
       <= SubresourceSet.m_used s
    /\ 10 * SubresourceSet.m_used s < 7 * size + 10.
Proof.
  apply (proj1 table_load_bounded
           (map (fun p => SubresourceSet.Insert p.1 p.2) (sample_buffers 46 2))).
  vm_compute. reflexivity.
Defined.

(** X22: what [growHashMapBeforeInsert] does in a state reached by
    fewer than [2^31] calls.  It ends, leaves the overflow list and
    [m_used] as they are, and leaves a table of at least 64 slots loaded
    below the threshold, [10 * m_used < 7 * size]; a table that is below
    the threshold already is not touched.  The live entries afterwards
    are among the live entries before, each at most as often: the
    relocation makes up no entry and duplicates none. *)
Theorem growth_keeps_live_entries :
  (forall calls : list (SubresourceSet.call BufferSlice.t),
      Z.of_nat (length calls) < 2 ^ 31 ->
      exists s s',
        SubresourceSet.run SubresourceSet.init calls = Some s
        /\ SubresourceSet.growHashMapBeforeInsert s = Some s'
        /\ SubresourceSet.m_list s' = SubresourceSet.m_list s
        /\ SubresourceSet.m_used s' = SubresourceSet.m_used s
        /\ omap (live_strip (SubresourceSet.m_version s')) (SubresourceSet.m_hashMap s')
           ⊆+ omap (live_strip (SubresourceSet.m_version s)) (SubresourceSet.m_hashMap s)
        /\ 64 <= SubresourceSet.computeSize s'
        /\ 10 * SubresourceSet.m_used s' < 7 * SubresourceSet.computeSize s'
        /\ (10 * SubresourceSet.m_used s < 7 * SubresourceSet.computeSize s -> s' = s))
  /\ (forall calls : list (SubresourceSet.call ImageSlice.t),
      Z.of_nat (length calls) < 2 ^ 31 ->
      exists s s',
        SubresourceSet.run SubresourceSet.init calls = Some s
        /\ SubresourceSet.growHashMapBeforeInsert s = Some s'
        /\ SubresourceSet.m_list s' = SubresourceSet.m_list s
        /\ SubresourceSet.m_used s' = SubresourceSet.m_used s
        /\ omap (live_strip (SubresourceSet.m_version s')) (SubresourceSet.m_hashMap s')
           ⊆+ omap (live_strip (SubresourceSet.m_version s)) (SubresourceSet.m_hashMap s)
        /\ 64 <= SubresourceSet.computeSize s'
        /\ 10 * SubresourceSet.m_used s' < 7 * SubresourceSet.computeSize s'
        /\ (10 * SubresourceSet.m_used s < 7 * SubresourceSet.computeSize s -> s' = s)).
Proof. split; intros calls; apply growth_return. Qed.

Lemma growth_keeps_live_entries_witness :
  exists s s',
    SubresourceSet.run SubresourceSet.init
      (map (fun p => SubresourceSet.Insert p.1 p.2) (sample_buffers 45 2)) = Some s
    /\ SubresourceSet.growHashMapBeforeInsert s = Some s'
    /\ SubresourceSet.m_list s' = SubresourceSet.m_list s
    /\ SubresourceSet.m_used s' = SubresourceSet.m_used s
    /\ omap (live_strip (SubresourceSet.m_version s')) (SubresourceSet.m_hashMap s')
       ⊆+ omap (live_strip (SubresourceSet.m_version s)) (SubresourceSet.m_hashMap s)
    /\ 64 <= SubresourceSet.computeSize s'
    /\ 10 * SubresourceSet.m_used s' < 7 * SubresourceSet.computeSize s'
    /\ (10 * SubresourceSet.m_used s < 7 * SubresourceSet.computeSize s -> s' = s).
Proof.
  apply (proj1 growth_keeps_live_entries
           (map (fun p => SubresourceSet.Insert p.1 p.2) (sample_buffers 45 2))).
  vm_compute. reflexivity.
Defined.

(** X23: what the set answers for, in every state reached by fewer than
    [2^31] calls, also after the table has grown.  For each resource
    there are slices [hist], among the slices inserted for the resource
    since the last [clear] and in their order, such that for every query
    [getAccess] returns at least the flags of the slices of [hist] that
    overlap the query and only flags of slices of [hist], and [isDirty]
    returns true if a slice of [hist] overlaps the query with Write among
    the flags of the two, and only if [hist] is not empty and Write is
    among the flags of [hist] and of the query.  So for a resource that
    was not inserted since the last [clear], [getAccess] returns no flag
    and [isDirty] false. *)
Theorem answers_for_inserted_slices :
  (forall calls : list (SubresourceSet.call BufferSlice.t),
      Z.of_nat (length calls) < 2 ^ 31 ->
      exists s,
        SubresourceSet.run SubresourceSet.init calls = Some s
        /\ forall k,
             exists hist,
               sublist hist (history (since_clear calls) k)
               /\ forall q,
                    exists a b,
                      SubresourceSet.getAccess s k q = Some a
                      /\ SubresourceSet.isDirty s k q = Some b
                      /\ flags_subseteq (chain_access hist q) a
                      /\ flags_subseteq a (hist_access hist)
                      /\ (hist_write hist q = true -> b = true)
                      /\ (b = true ->
                          hist <> []
                          /\ Flags.test (Z.lor (hist_access hist) (BufferSlice.getAccess q))
                               Write = true))
  /\ (forall calls : list (SubresourceSet.call ImageSlice.t),
      Z.of_nat (length calls) < 2 ^ 31 ->
      exists s,
        SubresourceSet.run SubresourceSet.init calls = Some s
        /\ forall k,
             exists hist,
               sublist hist (history (since_clear calls) k)
               /\ forall q,
                    exists a b,
                      SubresourceSet.getAccess s k q = Some a
                      /\ SubresourceSet.isDirty s k q = Some b
                      /\ flags_subseteq (chain_access hist q) a
                      /\ flags_subseteq a (hist_access hist)
                      /\ (hist_write hist q = true -> b = true)
                      /\ (b = true ->
                          hist <> []
                          /\ Flags.test (Z.lor (hist_access hist) (ImageSlice.getAccess q))
                               Write = true)).
Proof.
  split; intros calls Hn;
    destruct (answers_return (fun _ => True) (fun _ => False) (fun _ _ _ _ => I)
                merge_exact_never calls Hn (call_within_True calls))
      as (s & Hrun & Hall);
    exists s; (split; [exact Hrun|]); intros k;
    destruct (Hall k) as (hist & Hsub & Hq);
    exists hist; (split; [exact Hsub|]); intros q;
    destruct (Hq q) as (a & b & Ha & Hb & H1 & H2 & H3 & H4 & _);
    exists a, b; auto 10.
Qed.

Lemma answers_for_inserted_slices_witness :
  exists s,
    SubresourceSet.run SubresourceSet.init sample_calls = Some s
    /\ forall k,
         exists hist,
           sublist hist (history (since_clear sample_calls) k)
           /\ forall q,
                exists a b,
                  SubresourceSet.getAccess s k q = Some a
                  /\ SubresourceSet.isDirty s k q = Some b
                  /\ flags_subseteq (chain_access hist q) a
                  /\ flags_subseteq a (hist_access hist)
                  /\ (hist_write hist q = true -> b = true)
                  /\ (b = true ->
                      hist <> []
                      /\ Flags.test (Z.lor (hist_access hist) (BufferSlice.getAccess q))
                           Write = true).
Proof.
  apply (proj1 answers_for_inserted_slices sample_calls). vm_compute. reflexivity.
Defined.

Lemma one_aspect_merge aspects (a b : ImageSlice.t) :
  ImageSlice.m_aspects a = aspects -> ImageSlice.m_aspects b = aspects ->
  ImageSlice.m_aspects (slice_merge a b) = aspects.
Proof.
  intros Ha Hb. change (slice_merge a b) with (ImageSlice.merge a b).
  cbn. rewrite Ha, Hb. apply Z.lor_diag.
Qed.

(** X24: the answers are exact for the slices they answer for.  In
    every state reached by fewer than [2^31] calls of a buffer set, and of
    an image set whose inserted slices all have one aspect mask, there
    are for each resource slices [hist], among the slices inserted for it
    since the last [clear] and in their order, such that for a buffer
    query that is not empty, and an image query whose layer and level
    ranges are not empty, [getAccess] returns the union of the flags of
    the slices of [hist] that overlap the query, and [isDirty] returns
    whether one of them has Write among its flags and those of the
    query. *)
Theorem answers_exact :
  (forall calls : list (SubresourceSet.call BufferSlice.t),
      Z.of_nat (length calls) < 2 ^ 31 ->
      exists s,
        SubresourceSet.run SubresourceSet.init calls = Some s
        /\ forall k,
             exists hist,
               sublist hist (history (since_clear calls) k)
               /\ forall q,
                    BufferSlice_nonempty q ->
                    SubresourceSet.getAccess s k q = Some (chain_access hist q)
                    /\ SubresourceSet.isDirty s k q = Some (hist_write hist q))
  /\ (forall (aspects : Z) (calls : list (SubresourceSet.call ImageSlice.t)),
      Z.of_nat (length calls) < 2 ^ 31 ->
      Forall (call_within (fun a => ImageSlice.m_aspects a = aspects)) calls ->
      exists s,
        SubresourceSet.run SubresourceSet.init calls = Some s
        /\ forall k,
             exists hist,
               sublist hist (history (since_clear calls) k)
               /\ forall q,
                    ImageSlice_box_nonempty q ->
                    SubresourceSet.getAccess s k q = Some (chain_access hist q)
                    /\ SubresourceSet.isDirty s k q = Some (hist_write hist q)).
Proof.
  split.
  - intros calls Hn.
    destruct (answers_return (fun _ => True) BufferSlice_nonempty (fun _ _ _ _ => I)
                BufferSlice_merge_exact calls Hn (call_within_True calls))
      as (s & Hrun & Hall).
    exists s. split; [exact Hrun|]. intros k.
    destruct (Hall k) as (hist & Hsub & Hq).
    exists hist. split; [exact Hsub|]. intros q Hne.
    destruct (Hq q) as (a & b & -> & -> & _ & _ & _ & _ & Hex).
    destruct (Hex Hne) as [-> ->]. auto.
  - intros aspects calls Hn Hdom.
    destruct (answers_return (fun a => ImageSlice.m_aspects a = aspects)
                ImageSlice_box_nonempty (one_aspect_merge aspects)
                (ImageSlice_merge_exact aspects) calls Hn Hdom)
      as (s & Hrun & Hall).
    exists s. split; [exact Hrun|]. intros k.
    destruct (Hall k) as (hist & Hsub & Hq).
    exists hist. split; [exact Hsub|]. intros q Hne.
    destruct (Hq q) as (a & b & -> & -> & _ & _ & _ & _ & Hex).
    destruct (Hex Hne) as [-> ->]. auto.
Qed.

Lemma answers_exact_witness :
  exists s,
    SubresourceSet.run SubresourceSet.init sample_image_calls = Some s
    /\ forall k,
         exists hist,
           sublist hist (history (since_clear sample_image_calls) k)
           /\ forall q,
                ImageSlice_box_nonempty q ->
                SubresourceSet.getAccess s k q = Some (chain_access hist q)
                /\ SubresourceSet.isDirty s k q = Some (hist_write hist q).
Proof.
  apply (proj2 answers_exact 1 sample_image_calls).
  - vm_compute. reflexivity.
  - unfold sample_image_calls. repeat (constructor; try reflexivity).
Defined.

(** X25: a slice that was just inserted is seen.  After fewer than
    [2^31] calls, the last of which is [insert(k, x)], every query for
    [k] that [x] overlaps gets at least the flags of [x] from
    [getAccess], and true from [isDirty] when Write is among the flags
    of [x] and of the query, whatever the table did before. *)
Theorem insert_then_query :
  (forall (calls : list (SubresourceSet.call BufferSlice.t)) k x,
      Z.of_nat (length calls) + 1 < 2 ^ 31 ->
      exists s,
        SubresourceSet.run SubresourceSet.init
          (calls ++ [SubresourceSet.Insert k x]) = Some s
        /\ forall q,
             BufferSlice.overlaps x q = true ->
             exists a b,
               SubresourceSet.getAccess s k q = Some a
               /\ SubresourceSet.isDirty s k q = Some b
               /\ flags_subseteq (BufferSlice.getAccess x) a
               /\ (Flags.test (Z.lor (BufferSlice.getAccess x)
                                 (BufferSlice.getAccess q)) Write = true ->
                   b = true))
  /\ (forall (calls : list (SubresourceSet.call ImageSlice.t)) k x,
      Z.of_nat (length calls) + 1 < 2 ^ 31 ->
      exists s,
        SubresourceSet.run SubresourceSet.init
          (calls ++ [SubresourceSet.Insert k x]) = Some s
        /\ forall q,
             ImageSlice.overlaps x q = true ->
             exists a b,
               SubresourceSet.getAccess s k q = Some a
               /\ SubresourceSet.isDirty s k q = Some b
               /\ flags_subseteq (ImageSlice.getAccess x) a
               /\ (Flags.test (Z.lor (ImageSlice.getAccess x)
                                 (ImageSlice.getAccess q)) Write = true ->
                   b = true)).
Proof.
  split; intros calls k x Hn.
  - exact (insert_seen (T := BufferSlice.t) calls k x Hn).
  - exact (insert_seen (T := ImageSlice.t) calls k x Hn).
Qed.

Lemma insert_then_query_witness :
  exists s,
    SubresourceSet.run SubresourceSet.init
      (map (fun p => SubresourceSet.Insert p.1 p.2) (sample_buffers 46 2)
       ++ [SubresourceSet.Insert 1 (BufferSlice.make 8 4 1)]) = Some s
    /\ exists a b,
         SubresourceSet.getAccess s 1 (BufferSlice.make 0 16 1) = Some a
         /\ SubresourceSet.isDirty s 1 (BufferSlice.make 0 16 1) = Some b
         /\ flags_subseteq 1 a.
Proof.
  destruct (proj1 insert_then_query
              (map (fun p => SubresourceSet.Insert p.1 p.2) (sample_buffers 46 2))
              1 (BufferSlice.make 8 4 1)) as (s & Hrun & Hq).
  - vm_compute. reflexivity.
  - exists s. split; [exact Hrun|].
    destruct (Hq (BufferSlice.make 0 16 1) eq_refl) as (a & b & Ha & Hb & Hf & _).
    exists a, b. auto.
Defined.

(** X26: [isDirty] and [getAccess] agree.  In every state reached by
    fewer than [2^31] calls, for every resource and query: when
    [isDirty] returns true, Write is among the flags [getAccess] returns
    and the flags of the query; when [getAccess] returns Write, or returns
    some flag for a query that has Write, [isDirty] returns true. *)
Theorem isDirty_agrees_with_getAccess :
  (forall calls : list (SubresourceSet.call BufferSlice.t),
      Z.of_nat (length calls) < 2 ^ 31 ->
      exists s,
        SubresourceSet.run SubresourceSet.init calls = Some s
        /\ forall k q,
             exists a b,
               SubresourceSet.getAccess s k q = Some a
               /\ SubresourceSet.isDirty s k q = Some b
               /\ (b = true ->
                   Flags.test (Z.lor a (BufferSlice.getAccess q)) Write = true)
               /\ (Flags.test a Write = true -> b = true)
               /\ (a <> 0 -> Flags.test (BufferSlice.getAccess q) Write = true ->
                   b = true))
  /\ (forall calls : list (SubresourceSet.call ImageSlice.t),
      Z.of_nat (length calls) < 2 ^ 31 ->
      exists s,
        SubresourceSet.run SubresourceSet.init calls = Some s
        /\ forall k q,
             exists a b,
               SubresourceSet.getAccess s k q = Some a
               /\ SubresourceSet.isDirty s k q = Some b
               /\ (b = true ->
                   Flags.test (Z.lor a (ImageSlice.getAccess q)) Write = true)
               /\ (Flags.test a Write = true -> b = true)
               /\ (a <> 0 -> Flags.test (ImageSlice.getAccess q) Write = true ->
                   b = true)).
Proof.
  split; intros calls Hn.
  - exact (agree_return (T := BufferSlice.t) calls Hn).
  - exact (agree_return (T := ImageSlice.t) calls Hn).
Qed.

Lemma isDirty_agrees_with_getAccess_witness :
  exists s,
    SubresourceSet.run SubresourceSet.init sample_image_calls = Some s
    /\ forall k q,
         exists a b,
           SubresourceSet.getAccess s k q = Some a
           /\ SubresourceSet.isDirty s k q = Some b
           /\ (b = true ->
               Flags.test (Z.lor a (ImageSlice.getAccess q)) Write = true)
           /\ (Flags.test a Write = true -> b = true)
           /\ (a <> 0 -> Flags.test (ImageSlice.getAccess q) Write = true ->
               b = true).
Proof.
  apply (proj2 isDirty_agrees_with_getAccess sample_image_calls).
  vm_compute. reflexivity.
Defined.

(** ** The superset invariant in the states that are reached *)

Lemma flags_subseteq_land x a : flags_subseteq x a -> Z.land a x = x.
Proof.
  unfold flags_subseteq. intros E. apply Z.bits_inj'. intros i Hi.
  apply (f_equal (fun z => Z.testbit z i)) in E.
  rewrite Z.lor_spec in E. rewrite Z.land_spec.
  destruct (Z.testbit a i), (Z.testbit x i); cbn in *; congruence.
Qed.

Lemma BufferSlice_within_overlaps x d :
  BufferSlice_within x d -> BufferSlice_nonempty x ->
  BufferSlice.overlaps d x = true.
Proof.
  unfold BufferSlice_within, BufferSlice_nonempty. intros (H1 & H2 & _) Hx.
  apply BufferSlice_overlaps_spec. lia.
Qed.

Lemma ImageSlice_within_overlaps x d :
  ImageSlice_within x d -> ImageSlice_nonempty x ->
  ImageSlice.overlaps d x = true.
Proof.
  unfold ImageSlice_within, ImageSlice_nonempty.
  intros (Ha & H1 & H2 & H3 & H4 & _) (Hx & Hl & Hm).
  apply ImageSlice_overlaps_spec. rewrite (flags_subseteq_land _ _ Ha).
  split; [exact Hx|lia].
Qed.

Lemma BufferSlice_within_merge_l a b :
  BufferSlice_within a (BufferSlice.merge a b).
Proof.
  unfold BufferSlice_within. cbn.
  split; [lia|]. split; [lia|]. apply flags_subseteq_lor_l, flags_subseteq_refl.
Qed.

Lemma BufferSlice_within_merge_r a b :
  BufferSlice_within b (BufferSlice.merge a b).
Proof.
  unfold BufferSlice_within. cbn.
  split; [lia|]. split; [lia|]. apply flags_subseteq_lor_r, flags_subseteq_refl.
Qed.

Lemma BufferSlice_within_merge x d s :
  BufferSlice_within x d ->
  BufferSlice_within (BufferSlice.merge x s) (BufferSlice.merge d s).
Proof.
  intros (H1 & H2 & H3). unfold BufferSlice_within. cbn.
  split; [lia|]. split; [lia|]. now apply flags_subseteq_lor_mono.
Qed.

Lemma BufferSlice_within_keep x d s :
  BufferSlice_within x d -> BufferSlice_within x (BufferSlice.merge d s).
Proof.
  intros (H1 & H2 & H3). unfold BufferSlice_within. cbn.
  split; [lia|]. split; [lia|]. now apply flags_subseteq_lor_l.
Qed.

Lemma BufferSlice_within_flags x d :
  BufferSlice_within x d ->
  flags_subseteq (BufferSlice.getAccess x) (BufferSlice.getAccess d).
Proof. intros (_ & _ & H3). exact H3. Qed.

Lemma ImageSlice_within_merge_l a b :
  ImageSlice_within a (ImageSlice.merge a b).
Proof.
  unfold ImageSlice_within. cbn.
  repeat split; try lia; apply flags_subseteq_lor_l, flags_subseteq_refl.
Qed.

Lemma ImageSlice_within_merge_r a b :
  ImageSlice_within b (ImageSlice.merge a b).
Proof.
  unfold ImageSlice_within. cbn.
  repeat split; try lia; apply flags_subseteq_lor_r, flags_subseteq_refl.
Qed.

Lemma ImageSlice_within_merge x d s :
  ImageSlice_within x d ->
  ImageSlice_within (ImageSlice.merge x s) (ImageSlice.merge d s).
Proof.
  intros (H0 & H1 & H2 & H3 & H4 & H5). unfold ImageSlice_within. cbn.
  repeat split; try lia; now apply flags_subseteq_lor_mono.
Qed.

Lemma ImageSlice_within_keep x d s :
  ImageSlice_within x d -> ImageSlice_within x (ImageSlice.merge d s).
Proof.
  intros (H0 & H1 & H2 & H3 & H4 & H5). unfold ImageSlice_within. cbn.
  repeat split; try lia; now apply flags_subseteq_lor_l.
Qed.

Lemma ImageSlice_within_flags x d :
  ImageSlice_within x d ->
  flags_subseteq (ImageSlice.getAccess x) (ImageSlice.getAccess d).
Proof. intros (_ & _ & _ & _ & _ & H5). exact H5. Qed.

#[export] Instance BufferSlice_within_laws : BarrierSliceWithin BufferSlice.t := {|
  slice_within := BufferSlice_within;
  slice_within_merge_l := BufferSlice_within_merge_l;
  slice_within_merge_r := BufferSlice_within_merge_r;
  slice_within_merge := BufferSlice_within_merge;
  slice_within_keep := BufferSlice_within_keep;
  slice_within_overlaps := BufferSlice_within_overlaps;
  slice_within_flags := BufferSlice_within_flags
|}.

#[export] Instance ImageSlice_within_laws : BarrierSliceWithin ImageSlice.t := {|
  slice_within := ImageSlice_within;
  slice_within_merge_l := ImageSlice_within_merge_l;
  slice_within_merge_r := ImageSlice_within_merge_r;
  slice_within_merge := ImageSlice_within_merge;
  slice_within_keep := ImageSlice_within_keep;
  slice_within_overlaps := ImageSlice_within_overlaps;
  slice_within_flags := ImageSlice_within_flags
|}.

Section CoverSteps.
Context {T : Type} `{BarrierSliceWithin T}.
Import SubresourceSet.
Implicit Types (s : SubresourceSet.t T) (e : HashEntry T) (d x : T).

Lemma merge_first_within d c x c' :
  Forall (fun y => slice_within y d) c ->
  merge_first c x = Some c' ->
  Forall (fun y => slice_within y (slice_merge d x)) c'.
Proof.
  intros Hc. revert c'.
  induction Hc as [|y c Hy Hc IH]; intros c'; cbn; [done|].
  destruct (slice_canMerge y x).
  - intros [= <-]. constructor; [now apply slice_within_merge|].
    eapply Forall_impl; [exact Hc|]. intros z. apply slice_within_keep.
  - destruct (merge_first c x) as [c2|]; cbn; [|done].
    intros [= <-]. constructor; [now apply slice_within_keep | now apply IH].
Qed.

Lemma merge_first_filled c x c' :
  slice_nonempty x -> Forall slice_nonempty c ->
  merge_first c x = Some c' -> Forall slice_nonempty c'.
Proof.
  intros Hx Hc. revert c'.
  induction Hc as [|y c Hy Hc IH]; intros c'; cbn; [done|].
  destruct (slice_canMerge y x).
  - intros [= <-]. constructor; [now apply slice_nonempty_merge|exact Hc].
  - destruct (merge_first c x) as [c2|]; cbn; [|done].
    intros [= <-]. constructor; [exact Hy | now apply IH].
Qed.

Lemma entry_chain_within d c x :
  Forall (fun y => slice_within y d) c ->
  Forall (fun y => slice_within y (slice_merge d x)) (entry_chain d c x).
Proof.
  intros Hc.
  assert (Hkeep : Forall (fun y => slice_within y (slice_merge d x)) c).
  { eapply Forall_impl; [exact Hc|]. intros z. apply slice_within_keep. }
  assert (Hpush : Forall (fun y => slice_within y (slice_merge d x)) (x :: c)).
  { constructor; [apply slice_within_merge_r | exact Hkeep]. }
  unfold entry_chain. destruct c as [|y c].
  - destruct (slice_canMerge d x); [constructor|].
    constructor; [apply slice_within_merge_r|].
    constructor; [apply slice_within_merge_l|constructor].
  - destruct is_image_slice; [|exact Hpush].
    destruct (merge_first (y :: c) x) as [c'|] eqn:Hm; [|exact Hpush].
    eapply merge_first_within; eassumption.
Qed.

Lemma entry_chain_filled d c x :
  slice_nonempty d -> slice_nonempty x -> Forall slice_nonempty c ->
  Forall slice_nonempty (entry_chain d c x).
Proof.
  intros Hd Hx Hc. unfold entry_chain. destruct c as [|y c].
  - destruct (slice_canMerge d x); repeat constructor; assumption.
  - destruct is_image_slice; [|now constructor].
    destruct (merge_first (y :: c) x) as [c'|] eqn:Hm; [|now constructor].
    eapply merge_first_filled; eassumption.
Qed.

Lemma entries_within_from ops s s1 :
  m_list s1 = m_list s ->
  (forall i e', m_hashMap s1 !! i = Some e' -> he_version e' = m_version s1 ->
     exists i0 e0, m_hashMap s !! i0 = Some e0
                   /\ he_version e0 = m_version s /\ strip e0 = strip e') ->
  entries_within ops s -> entries_within ops s1.
Proof.
  intros El Hfrom Hin i e' Hi Hlive.
  destruct (Hfrom i e' Hi Hlive) as (i0 & e0 & Hi0 & Hv0 & Hs).
  destruct (Hin i0 e0 Hi0 Hv0) as (c & Hc & Hw & Hne).
  injection Hs as _ <- <-. rewrite El. eauto.
Qed.

Lemma Forall_nonempty_snoc (ops : list (Z * T)) k x :
  Forall (fun p : Z * T => slice_nonempty p.2) (ops ++ [(k, x)]) ->
  Forall (fun p : Z * T => slice_nonempty p.2) ops /\ slice_nonempty x.
Proof.
  intros Hall. apply Forall_app in Hall as [Hops Hx].
  split; [exact Hops|]. apply Forall_cons in Hx as [Hx _]. exact Hx.
Qed.

(** An insertion keeps the slices of the chains within the slices of
    their entries. *)
Lemma entries_within_insert root s ops k x s' :
  struct_inv root s -> m_version s + 1 < 2 ^ 64 - 1 ->
  Z.of_nat (length (m_list s)) + 2 < NoEntry ->
  entries_within ops s ->
  insert s k x = Some s' ->
  entries_within (ops ++ [(k, x)]) s'.
Proof.
  intros Hinv Hver Hlist Hin. unfold insert.
  destruct (insertHashEntry s k x) as [[s1 r]|] eqn:Hins;
    cbn [mbind option_bind]; [|done].
  destruct (insertHashEntry_inv root s k x s1 r Hinv Hver Hins)
    as (Hinv1 & El & Ev & Hr).
  destruct r as [h|].
  - destruct Hr as (Hh & (e & He & Hlive & Hkey) & Hfrom).
    pose proof (entries_within_from ops s s1 El Hfrom Hin) as Hin1.
    destruct (Hin1 (Z.to_nat h) e He Hlive) as (c & Hc & Hcw & Hcn).
    destruct (insertPresent_spec root s1 h e c x Hinv1) as
      (s2 & root2 & Hpres & Hinv2 & Hpost); try assumption.
    { rewrite El. exact Hlist. }
    rewrite Hpres. intros [= <-].
    destruct Hpost as [Hv2 Hu2 Hm2 Hsz2 Hl2
                         (e2 & c2 & He2 & Hev2 & Hek2 & Hed2 & Hc2 & Hcd2) Ho2 Hch2].
    intros i ei Hi Hlivei.
    destruct (decide (i = Z.to_nat h)) as [->|Hne].
    + unfold at_ in He2. rewrite Hi in He2. injection He2 as ->.
      exists c2. split; [exact Hc2|]. rewrite Hed2, Hcd2.
      split; [now apply entry_chain_within|].
      intros Hall. apply Forall_nonempty_snoc in Hall as [Hops Hx].
      destruct (Hcn Hops) as [Hd Hcs].
      split; [now apply slice_nonempty_merge | now apply entry_chain_filled].
    + assert (Hi1 : at_ (m_hashMap s1) (Z.of_nat i) = Some ei).
      { rewrite <- Ho2 by lia. unfold at_. now rewrite Nat2Z.id. }
      unfold at_ in Hi1. rewrite Nat2Z.id in Hi1.
      destruct (Hin1 i ei Hi1 ltac:(congruence)) as (ci & Hci & Hwi & Hni).
      exists ci. split.
      { apply (Hch2 (Z.of_nat i) ei ci);
          [lia | lia | unfold at_; rewrite Nat2Z.id; exact Hi1
          | congruence | exact Hci]. }
      split; [exact Hwi|]. intros Hall.
      apply Forall_nonempty_snoc in Hall as [Hops _]. now apply Hni.
  - intros [= <-]. intros i e' Hi Hlive.
    destruct (Hr i e' Hi Hlive) as [Hnew|(i0 & e0 & Hi0 & Hv0 & Hs0)].
    + injection Hnew as _ Hd Hnx. exists []. rewrite Hnx, Hd.
      split; [constructor; lia|]. split; [constructor|].
      intros Hall. apply Forall_nonempty_snoc in Hall as [_ Hx].
      split; [exact Hx|constructor].
    + destruct (Hin i0 e0 Hi0 Hv0) as (c & Hc & Hw & Hn).
      injection Hs0 as _ <- <-. rewrite El.
      exists c. split; [exact Hc|]. split; [exact Hw|].
      intros Hall. apply Forall_nonempty_snoc in Hall as [Hops _]. now apply Hn.
Qed.

Lemma entries_within_clear root ops s :
  struct_inv root s -> m_version s + 1 < 2 ^ 64 - 1 ->
  entries_within ops (clear s).
Proof.
  intros Hinv Hver i e Hi Hlive. cbn in Hi, Hlive.
  rewrite u64_small in Hlive by (destruct (si_version _ _ Hinv); lia).
  pose proof (si_versions _ _ Hinv i e Hi). lia.
Qed.

(** What the entries tell of the chains. *)
Lemma entries_within_chain ops s :
  entries_within ops s ->
  chain_invariant s
  /\ (Forall (fun p : Z * T => slice_nonempty p.2) ops -> superset_invariant s).
Proof.
  intros Hin. split.
  - intros i e Hi Hlive. destruct (Hin i e Hi Hlive) as (c & Hc & Hw & _).
    exists c. split; [exact Hc|].
    apply Forall_fmap in Hw. eapply Forall_impl; [exact Hw|].
    intros jx Hjx. cbn in Hjx. split.
    + now apply slice_within_flags.
    + now apply slice_within_overlaps.
  - intros Hall i e Hi Hlive. destruct (Hin i e Hi Hlive) as (c & Hc & Hw & Hn).
    destruct (Hn Hall) as [_ Hcn].
    exists c. split; [exact Hc|].
    rewrite Forall_fmap, Forall_forall in Hw, Hcn.
    apply Forall_forall. intros jx Hjx.
    specialize (Hw jx Hjx). specialize (Hcn jx Hjx). cbn in Hw, Hcn. split.
    + now apply slice_within_overlaps.
    + now apply slice_within_flags.
Qed.
End CoverSteps.

Section CountRun.
Context {T : Type} `{BarrierSliceWithin T}.
Import SubresourceSet.
Implicit Types (s : SubresourceSet.t T) (calls : list (call T)).

Lemma most_inserts_from_ge calls : forall i, (i <= most_inserts_from i calls)%nat.
Proof.
  induction calls as [|[k x|k q|k q|] calls IH]; intros i; cbn [most_inserts_from].
  - lia.
  - specialize (IH (S i)). lia.
  - apply IH.
  - apply IH.
  - lia.
Qed.

(** The version stamp stays far from its wrap-around. *)
Lemma count_inv_version n c i s :
  count_inv n c i s -> Z.of_nat n < 2 ^ 31 -> Z.of_nat c < 2 ^ 63 ->
  m_version s + 1 < 2 ^ 64 - 1.
Proof.
  intros (_ & Hver & _ & (size & [Hlen _] & _ & _ & _ & Hsize) & _) Hn Hc.
  rewrite Hlen in Hver.
  assert (Hlog : Z.log2 size < 40).
  { destruct (Z.le_gt_cases size 0) as [Hle|Hpos].
    - rewrite Z.log2_nonpos by exact Hle. lia.
    - apply Z.log2_lt_pow2; lia. }
  lia.
Qed.

Lemma count_inv_insert n c i s k x :
  count_inv n c i s -> Z.of_nat n < 2 ^ 31 -> Z.of_nat c < 2 ^ 63 ->
  (i < n)%nat ->
  exists s' root,
    insert s k x = Some s' /\ struct_inv root s /\ count_inv n c (S i) s'.
Proof.
  intros Hinv Hn Hc Hi.
  pose proof (count_inv_version n c i s Hinv Hn Hc) as Hv.
  destruct Hinv as ([root Hstruct] & Hver & Hlist & Hload & Hused & _).
  destruct (insert_load n root s k x Hstruct Hload Hn ltac:(lia) Hv)
    as (s' & Hins & Hstruct' & Hload' & Hused' & Hver' & Hlist' & Hlog).
  { rewrite NoEntry_eq. lia. }
  exists s', root. split; [exact Hins|]. split; [exact Hstruct|].
  split; [exact Hstruct'|]. repeat split; try assumption; lia.
Qed.

Lemma count_inv_clear n c i s :
  count_inv n c i s -> Z.of_nat n < 2 ^ 31 -> Z.of_nat c < 2 ^ 63 ->
  count_inv n (S c) 0 (clear s).
Proof.
  intros Hinv Hn Hc.
  pose proof (count_inv_version n c i s Hinv Hn Hc) as Hv.
  destruct Hinv as ([root Hstruct] & Hver & Hlist & Hload & Hused & Hi).
  pose proof (si_version _ _ Hstruct) as Hv1.
  split; [exists root; now apply struct_inv_clear|].
  unfold clear. cbn [m_version m_list m_used m_hashMap m_indexMask].
  rewrite u64_small by lia. split; [lia|]. split; [cbn; lia|].
  split; [|split; lia].
  destruct Hload as (size & Hshape & Hu & Hlive & Hld & Hsz).
  exists size. cbn [m_version m_list m_used m_hashMap m_indexMask].
  rewrite ?u64_small by lia.
  rewrite (live_count_clear _ _ (si_versions _ _ Hstruct)).
  assert (0 <= size) by (destruct Hshape as [<- _]; lia).
  split; [exact Hshape|]. repeat split; lia.
Qed.

Lemma count_inv_step n c done s call :
  Z.of_nat n < 2 ^ 31 -> Z.of_nat (c + clears [call]) < 2 ^ 63 ->
  (most_inserts_from (length (since_clear done)) [call] <= n)%nat ->
  count_inv n c (length (since_clear done)) s ->
  entries_within (since_clear done) s ->
  exists s',
    step s call = Some s'
    /\ count_inv n (c + clears [call]) (length (since_clear (done ++ [call]))) s'
    /\ entries_within (since_clear (done ++ [call])) s'.
Proof.
  intros Hn Hc Hmost Hinv Hin. rewrite since_clear_snoc.
  destruct call as [k x|k q|k q|]; cbn [step clears since_step most_inserts_from] in *.
  - rewrite Nat.add_0_r in *.
    pose proof (count_inv_version n c _ s Hinv Hn Hc) as Hv.
    destruct (count_inv_insert n c _ s k x Hinv Hn Hc ltac:(lia))
      as (s' & root & Hins & Hstruct & Hinv').
    exists s'. split; [exact Hins|].
    rewrite length_app, Nat.add_1_r. split; [exact Hinv'|].
    apply (entries_within_insert root s _ k x s' Hstruct Hv); try assumption.
    destruct Hinv as (_ & _ & Hlist & _). rewrite NoEntry_eq. lia.
  - rewrite Nat.add_0_r in *. exists s. split; [|auto].
    destruct Hinv as ([root Hstruct] & _ & _ & Hload & _).
    destruct (queries_load n root s k Hstruct Hload Hn)
      as [[_ Hq]|(h & e & c' & _ & _ & _ & _ & _ & Hq)];
      destruct (Hq q) as [-> _]; reflexivity.
  - rewrite Nat.add_0_r in *. exists s. split; [|auto].
    destruct Hinv as ([root Hstruct] & _ & _ & Hload & _).
    destruct (queries_load n root s k Hstruct Hload Hn)
      as [[_ Hq]|(h & e & c' & _ & _ & _ & _ & _ & Hq)];
      destruct (Hq q) as [_ ->]; reflexivity.
  - rewrite Nat.add_1_r in *. exists (clear s). split; [reflexivity|].
    assert (Hc' : Z.of_nat c < 2 ^ 63) by lia.
    split; [exact (count_inv_clear n c (length (since_clear done)) s Hinv Hn Hc')|].
    pose proof Hinv as ([root Hstruct] & H2).
    apply (entries_within_clear root); [exact Hstruct|].
    exact (count_inv_version n c (length (since_clear done)) s
             (conj (ex_intro _ root Hstruct) H2) Hn Hc').
Qed.

Lemma count_inv_run calls :
  forall n c done s,
    Z.of_nat n < 2 ^ 31 -> Z.of_nat (c + clears calls) < 2 ^ 63 ->
    (most_inserts_from (length (since_clear done)) calls <= n)%nat ->
    count_inv n c (length (since_clear done)) s ->
    entries_within (since_clear done) s ->
    exists s',
      run s calls = Some s'
      /\ count_inv n (c + clears calls) (length (since_clear (done ++ calls))) s'
      /\ entries_within (since_clear (done ++ calls)) s'.
Proof.
  induction calls as [|call calls IH]; intros n c done s Hn Hc Hmost Hinv Hin.
  - exists s. cbn [run clears]. rewrite app_nil_r, Nat.add_0_r. auto.
  - assert (Hcl : clears (call :: calls) = (clears [call] + clears calls)%nat)
      by (destruct call; reflexivity).
    pose proof (most_inserts_from_ge calls) as Hge.
    destruct (count_inv_step n c done s call Hn) as (s1 & Hstep & Hinv1 & Hin1);
      try assumption.
    { lia. }
    { destruct call; cbn [most_inserts_from] in *;
        [specialize (Hge (S (length (since_clear done))))
        |specialize (Hge (length (since_clear done)))
        |specialize (Hge (length (since_clear done)))|]; lia. }
    destruct (IH n (c + clears [call])%nat (done ++ [call]) s1 Hn)
      as (s' & Hrun & Hinv' & Hin'); try assumption.
    { lia. }
    { rewrite since_clear_snoc.
      destruct call; cbn [most_inserts_from since_step] in *;
        rewrite ?length_app, ?Nat.add_1_r; cbn [length] in *; lia. }
    exists s'. cbn [run]. rewrite Hstep. cbn [mbind option_bind].
    split; [exact Hrun|].
    rewrite Hcl, Nat.add_assoc.
    replace (done ++ call :: calls) with ((done ++ [call]) ++ calls)
      by (rewrite <- app_assoc; reflexivity).
    auto.
Qed.

Lemma count_inv_init n : count_inv (T := T) n 0 0 init.
Proof.
  split; [eexists; apply struct_inv_init|].
  split; [vm_compute; discriminate|]. split; [cbn; lia|].
  split; [|cbn; lia].
  apply (load_inv_weaken 0); [lia|]. apply safe_inv_init.
Qed.

Lemma entries_within_init : entries_within (T := T) [] init.
Proof. intros i e Hi. cbn in Hi. rewrite lookup_nil in Hi. discriminate Hi. Qed.

(** A sequence of calls with fewer than [2^31] calls of [insert]
    between two calls of [clear], and fewer than [2^63] calls of
    [clear], runs to its end in a state with the chain invariant, and
    with the superset invariant when the slices inserted since the
    last [clear] are not empty. *)
Lemma chain_invariant_run (calls : list (call T)) :
  Z.of_nat (most_inserts calls) < 2 ^ 31 ->
  Z.of_nat (clears calls) < 2 ^ 63 ->
  exists s,
    run init calls = Some s
    /\ chain_invariant s
    /\ (Forall (fun p : Z * T => slice_nonempty p.2) (since_clear calls) ->
        superset_invariant s).
Proof.
  intros Hn Hc.
  destruct (count_inv_run calls (most_inserts calls) 0 [] init Hn)
    as (s & Hrun & _ & Hin).
  - exact Hc.
  - apply Nat.le_refl.
  - apply count_inv_init.
  - apply entries_within_init.
  - exists s. split; [exact Hrun|]. cbn [app] in Hin.
    apply (entries_within_chain _ _ Hin).
Qed.
End CountRun.

(** C4, as the code has it.  A sequence of calls of [insert],
    [getAccess], [isDirty] and [clear] on a fresh set, of buffer slices
    or of image slices, with fewer than [2^31] calls of [insert] between
    two calls of [clear] and fewer than [2^63] calls of [clear], runs to
    its end, and in the state it reaches the chain of every live hash
    entry is well formed, the access flags of the entry contain the
    flags of every slice of the chain, and the slice of the entry
    overlaps every slice of the chain that is not empty.  When the
    slices inserted since the last [clear] are not empty (a buffer slice
    with [lo < hi]; an image slice with a non-zero aspect mask,
    [minLayer < maxLayer] and [minLevel < maxLevel]), the slice of every
    live entry overlaps every slice of its chain. *)
Theorem superset_invariant_reachable :
  (forall calls : list (SubresourceSet.call BufferSlice.t),
      Z.of_nat (most_inserts calls) < 2 ^ 31 ->
      Z.of_nat (clears calls) < 2 ^ 63 ->
      exists s,
        SubresourceSet.run SubresourceSet.init calls = Some s
        /\ chain_invariant s
        /\ (Forall (fun p : Z * BufferSlice.t => slice_nonempty p.2)
                   (since_clear calls) ->
            superset_invariant s))
  /\ (forall calls : list (SubresourceSet.call ImageSlice.t),
      Z.of_nat (most_inserts calls) < 2 ^ 31 ->
      Z.of_nat (clears calls) < 2 ^ 63 ->
      exists s,
        SubresourceSet.run SubresourceSet.init calls = Some s
        /\ chain_invariant s
        /\ (Forall (fun p : Z * ImageSlice.t => slice_nonempty p.2)
                   (since_clear calls) ->
            superset_invariant s)).
Proof. split; intros calls; apply chain_invariant_run. Qed.

(** C4 as stated fails for slices that are empty: after a buffer slice
    [[0,10)] and the empty slice [[20,20)] of the same buffer, the entry
    holds [[0,20)], which does not overlap the chained [[20,20)]. *)
Lemma superset_invariant_counterexample :
  exists s,
    SubresourceSet.run SubresourceSet.init
      [SubresourceSet.Insert 1 (BufferSlice.make 0 10 1);
       SubresourceSet.Insert 1 (BufferSlice.make 20 0 1)] = Some s
    /\ ~ superset_invariant s.
Proof.
  eexists. split; [vm_compute; reflexivity|].
  intros Hinv.
  destruct (Hinv 62%nat _ eq_refl eq_refl) as (c & Hc & Hall).
  cbn in Hc.
  inversion Hc as [n Hn|n e c' Hn He Hc' E1 E2]; subst;
    [vm_compute in Hn; now apply Hn|].
  vm_compute in He. injection He as <-.
  apply Forall_cons in Hall as [[Hov _] _].
  vm_compute in Hov. discriminate Hov.
Qed.

Lemma superset_invariant_reachable_witness :
  exists s e,
    SubresourceSet.run SubresourceSet.init sample_chain_calls = Some s
    /\ SubresourceSet.m_hashMap s !! 62%nat = Some e
    /\ SubresourceSet.he_version e = SubresourceSet.m_version s
    /\ chain (SubresourceSet.m_list s) (SubresourceSet.he_next e)
             [(1, BufferSlice.make 32 16 2); (0, BufferSlice.make 0 16 1)]
    /\ chain_invariant s
    /\ superset_invariant s.
Proof.
  destruct (proj1 superset_invariant_reachable sample_chain_calls)
    as (s & Hrun & Hchain & Hsup).
  - vm_compute. reflexivity.
  - vm_compute. reflexivity.
  - assert (Hne : Forall (fun p : Z * BufferSlice.t => slice_nonempty p.2)
                         (since_clear sample_chain_calls))
      by (repeat constructor; vm_compute; reflexivity).
    specialize (Hsup Hne). clear Hne.
    exists s. vm_compute in Hrun. injection Hrun as <-.
    eexists. split; [vm_compute; reflexivity|].
    split; [reflexivity|]. split; [reflexivity|].
    split; [|split; [exact Hchain|exact Hsup]].
    clear Hchain Hsup.
    apply (chain_step _ 1 (SubresourceSet.mkListEntry (BufferSlice.make 32 16 2) 0));
      [vm_compute; split; [discriminate|reflexivity]|reflexivity|].
    apply (chain_step _ 0 (SubresourceSet.mkListEntry (BufferSlice.make 0 16 1)
                                                      SubresourceSet.NoEntry));
      [vm_compute; split; [discriminate|reflexivity]|reflexivity|].
    apply chain_end. vm_compute. discriminate.
Defined.

(** ** The bounds of the superset invariant *)

Section ClearsRun.
Context {T : Type} `{BarrierSlice T}.
Import SubresourceSet.

Lemma run_clears n : forall s : SubresourceSet.t T,
  run s (replicate (S n) Clear)
  = Some (mk (u64 (m_version s + Z.of_nat (S n))) 0 (m_indexMask s) []
             (m_hashMap s)).
Proof.
  induction n as [|n IH]; intros s.
  - reflexivity.
  - change (run s (replicate (S (S n)) Clear))
      with (run (clear s) (replicate (S n) Clear)).
    rewrite IH. unfold clear. cbn [m_version m_indexMask m_hashMap].
    f_equal. f_equal. unfold u64.
    rewrite Zplus_mod_idemp_l. f_equal. lia.
Qed.
End ClearsRun.

Lemma version_wrap_run (N : nat) :
  Z.of_nat N = 2 ^ 64 ->
  exists s,
    SubresourceSet.run SubresourceSet.init
      ([SubresourceSet.Insert 1 (BufferSlice.make 0 16 1);
        SubresourceSet.Insert 1 (BufferSlice.make 32 16 2)]
       ++ replicate N SubresourceSet.Clear) = Some s
    /\ ~ chain_invariant s.
Proof.
  intros HN. destruct N as [|n]; [discriminate HN|].
  rewrite run_app.
  destruct (SubresourceSet.run SubresourceSet.init
              [SubresourceSet.Insert 1 (BufferSlice.make 0 16 1);
               SubresourceSet.Insert 1 (BufferSlice.make 32 16 2)])
    as [s0|] eqn:E0; vm_compute in E0; [|discriminate E0].
  injection E0 as <-. cbn [mbind option_bind].
  rewrite run_clears. cbn [SubresourceSet.m_version SubresourceSet.m_indexMask
                             SubresourceSet.m_hashMap].
  rewrite HN. eexists. split; [reflexivity|].
  intros Hinv.
  destruct (Hinv 62%nat _ eq_refl eq_refl) as (c & Hc & _).
  cbn in Hc.
  inversion Hc as [i Hi|i e c' Hi He]; subst.
  - vm_compute in Hi. now apply Hi.
  - discriminate He.
Qed.

(** The bound on the calls of [clear] is needed: after [2^64] of them
    the version stamp has its former value, the entry of the buffer is
    live again, and its chain leads into the list that was cleared. *)
Lemma version_wrap_breaks_chain :
  exists s,
    SubresourceSet.run SubresourceSet.init version_wrap_calls = Some s
    /\ ~ chain_invariant s.
Proof.
  apply (version_wrap_run (Z.to_nat (2 ^ 64))).
  apply Z2Nat.id. lia.
Qed.

Lemma index_wrap_prefix_run :
  SubresourceSet.run SubresourceSet.init index_wrap_prefix
  = Some (index_wrap_state index_wrap_list 3).
Proof. vm_compute. reflexivity. Qed.

Lemma index_wrap_insertHashEntry l next x :
  SubresourceSet.insertHashEntry (index_wrap_state l next) 1 x
  = Some (index_wrap_state l next, Some 62).
Proof. reflexivity. Qed.

(** A slice of buffer 1 goes to the end of the list. *)
Lemma index_wrap_push l next :
  next < SubresourceSet.NoEntry ->
  SubresourceSet.insert (index_wrap_state l next) 1 (BufferSlice.make 0 1 1)
  = Some (index_wrap_state
            (l ++ [SubresourceSet.mkListEntry (BufferSlice.make 0 1 1) next])
            (u32 (Z.of_nat (length l)))).
Proof.
  intros Hnext. unfold SubresourceSet.insert.
  rewrite index_wrap_insertHashEntry. cbn [mbind option_bind].
  unfold SubresourceSet.insertPresent.
  change (SubresourceSet.at_ (SubresourceSet.m_hashMap (index_wrap_state l next)) 62)
    with (Some (SubresourceSet.mkHashEntry 2 1 (BufferSlice.mk 0 101 1) next)).
  cbn [mbind option_bind SubresourceSet.he_next]. unfold SubresourceSet.getListEntry.
  rewrite (proj2 (Z.ltb_lt _ _) Hnext).
  reflexivity.
Qed.

Lemma index_wrap_pushes n : forall l next,
  next < SubresourceSet.NoEntry ->
  Z.of_nat (length l) + Z.of_nat (S n) <= 2 ^ 32 ->
  exists rest,
    SubresourceSet.run (index_wrap_state l next)
      (replicate (S n) (SubresourceSet.Insert 1 (BufferSlice.make 0 1 1)))
    = Some (index_wrap_state (l ++ rest) (Z.of_nat (length l) + Z.of_nat n))
    /\ length rest = S n.
Proof.
  induction n as [|n IH]; intros l next Hnext Hlen.
  - eexists. cbn [replicate SubresourceSet.run SubresourceSet.step].
    rewrite (index_wrap_push l next Hnext). cbn [mbind option_bind].
    unfold u32. rewrite Z.mod_small by lia. rewrite Z.add_0_r.
    split; reflexivity.
  - change (replicate (S (S n)) ?c) with (c :: replicate (S n) c).
    cbn [SubresourceSet.run SubresourceSet.step].
    rewrite (index_wrap_push l next Hnext). cbn [mbind option_bind].
    unfold u32. rewrite Z.mod_small by lia.
    destruct (IH (l ++ [SubresourceSet.mkListEntry (BufferSlice.make 0 1 1) next])
                 (Z.of_nat (length l))) as (rest & Hrun & Hrest).
    + rewrite NoEntry_eq. lia.
    + rewrite length_app. cbn [length]. lia.
    + eexists. rewrite <- app_assoc in Hrun. rewrite Hrun. split.
      * f_equal. f_equal. rewrite length_app. cbn [length]. lia.
      * cbn [app length]. now rewrite Hrest.
Qed.

(** With the head [NoEntry] the chain starts again, at the index that
    the length of the list has as a 32-bit number. *)
Lemma index_wrap_last l :
  SubresourceSet.insert (index_wrap_state l SubresourceSet.NoEntry) 1
    (BufferSlice.make 200 1 1)
  = Some (SubresourceSet.mk 2 2 63
            ((l ++ [SubresourceSet.mkListEntry (BufferSlice.mk 0 101 1)
                      SubresourceSet.NoEntry])
             ++ [SubresourceSet.mkListEntry (BufferSlice.make 200 1 1)
                   (u32 (Z.of_nat (length l)))])
            (<[62%nat := SubresourceSet.mkHashEntry 2 1 (BufferSlice.mk 0 201 1)
                           (u32 (Z.of_nat
                                   (length (l ++ [SubresourceSet.mkListEntry
                                                    (BufferSlice.mk 0 101 1)
                                                    SubresourceSet.NoEntry]))))]>
               index_wrap_table)).
Proof.
  unfold SubresourceSet.insert.
  rewrite index_wrap_insertHashEntry. cbn [mbind option_bind].
  reflexivity.
Qed.

Lemma index_wrap_run (N : nat) :
  Z.of_nat N = 2 ^ 32 - 4 ->
  exists s,
    SubresourceSet.run SubresourceSet.init
      (index_wrap_prefix
       ++ replicate N (SubresourceSet.Insert 1 (BufferSlice.make 0 1 1))
       ++ [SubresourceSet.Insert 1 (BufferSlice.make 200 1 1)]) = Some s
    /\ ~ chain_invariant s.
Proof.
  intros HN. destruct N as [|n]; [discriminate HN|].
  rewrite run_app, index_wrap_prefix_run. cbn [mbind option_bind].
  rewrite run_app.
  destruct (index_wrap_pushes n index_wrap_list 3) as (rest & -> & Hrest).
  { reflexivity. }
  { change (length index_wrap_list) with 4%nat. lia. }
  cbn [mbind option_bind SubresourceSet.run SubresourceSet.step].
  change (length index_wrap_list) with 4%nat.
  replace (Z.of_nat 4 + Z.of_nat n) with SubresourceSet.NoEntry
    by (rewrite NoEntry_eq; lia).
  rewrite index_wrap_last. cbn [mbind option_bind].
  eexists. split; [reflexivity|].
  intros Hinv.
  destruct (Hinv 62%nat _ eq_refl eq_refl) as (c & Hc & Hall).
  cbn [SubresourceSet.he_next SubresourceSet.m_list SubresourceSet.he_data] in Hc, Hall.
  rewrite !length_app, Hrest in Hc.
  change (length index_wrap_list) with 4%nat in Hc. cbn [length] in Hc.
  replace (Z.of_nat (4 + S n + 1)) with (2 ^ 32 + 1) in Hc by lia.
  change (u32 (2 ^ 32 + 1)) with 1 in Hc.
  inversion Hc as [i Hi|i e c' Hi He Hc' E1 E2]; subst.
  - vm_compute in Hi. now apply Hi.
  - change (Some (SubresourceSet.mkListEntry (BufferSlice.make 8 1 2) 0) = Some e)
      in He.
    injection He as <-.
    apply Forall_cons in Hall as [[Hflags _] _].
    vm_compute in Hflags. discriminate Hflags.
Qed.

(** The bound on the calls of [insert] is needed: a run of [2^32 + 1]
    of them for slices of two buffers, none of them empty and without a
    call of [clear], fills the overflow list beyond the index [NoEntry];
    the chain of buffer 1 then starts again at the slices of buffer 2,
    whose access flags the entry of buffer 1 does not have. *)
Lemma index_wrap_breaks_chain :
  exists s,
    SubresourceSet.run SubresourceSet.init index_wrap_calls = Some s
    /\ ~ chain_invariant s.
Proof.
  apply (index_wrap_run (Z.to_nat (2 ^ 32 - 4))).
  apply Z2Nat.id. lia.
Qed.
